(** * vttLib: a shallow embedding of [vttLib/__init__.py]

    The development follows the Python module function by function:
    [transform_assembly] (VTT assembly to FontTools assembly, with the
    composite components it declares), [set_vtt_program] /
    [get_vtt_program] (newline normalisation of the stored sources),
    [check_composite_info], [set_components_flags] and
    [write_composite_info] (composite glyph bookkeeping, driven by
    [composite_info_RE]).

    Python integers are unbounded, hence [Z]; text is [string] for the
    short mnemonics and output lines, and [list ascii] where the code
    slices and scans it; exceptions are an explicit [Result]. *)

From Stdlib Require Import ZArith List String Ascii Lia Bool Arith.
From Stdlib Require Import DecimalString Decimal DecimalZ DecimalPos.
From Stdlib Require Import Sorted Permutation.
Import ListNotations.

Local Open Scope string_scope.
Local Open Scope list_scope.
Local Open Scope Z_scope.

(** ** Exceptions *)

Inductive Exception : Type :=
| AssertionError
| IndexError
| ValueError
| UnboundLocalError
| AttributeError
| TypeError
| ParseException
| VTTLibInvalidComposite (msg : string).

Inductive Result (A : Type) : Type :=
| Return (a : A)
| Raise (e : Exception).

Arguments Return {A} a.
Arguments Raise {A} e.

Definition bind {A B : Type} (r : Result A) (k : A -> Result B) : Result B :=
  match r with
  | Return a => k a
  | Raise e => Raise e
  end.

Notation "x <- c ;; k" := (bind c (fun x => k))
  (at level 61, c at next level, right associativity).
Notation "' p <- c ;; k" := (bind c (fun x => let 'p := x in k))
  (at level 61, p pattern, c at next level, right associativity).

Definition assert (b : bool) : Result unit :=
  if b then Return tt else Raise AssertionError.

Definition succeeds {A : Type} (r : Result A) : bool :=
  match r with Return _ => true | Raise _ => false end.

(** ** Python built-ins used by the module *)

Module Py.

(** [str(i)] and the [%d] conversion of an integer. *)
Definition str (i : Z) : string := NilZero.string_of_int (Z.to_int i).

(** [sep.join(parts)]. *)
Definition join (sep : string) (parts : list string) : string :=
  String.concat sep parts.

(** [s.startswith(p)]. *)
Definition startswith (s p : string) : bool := String.prefix p s.

Fixpoint string_rev_onto (s acc : string) : string :=
  match s with
  | EmptyString => acc
  | String c s' => string_rev_onto s' (String c acc)
  end.

Definition string_rev (s : string) : string := string_rev_onto s EmptyString.

(** [s.endswith(p)]. *)
Definition endswith (s p : string) : bool :=
  String.prefix (string_rev p) (string_rev s).

(** [s.replace(old, new)] for a non-empty [old]: occurrences are replaced
    from left to right without overlap.  [skip] counts the characters of
    an occurrence that are still to be dropped. *)
Fixpoint replace_from (skip : nat) (old new s : string) : string :=
  match s with
  | EmptyString => EmptyString
  | String c s' =>
      match skip with
      | S k => replace_from k old new s'
      | O =>
          if String.prefix old s
          then (new ++ replace_from (Nat.pred (String.length old)) old new s')%string
          else String c (replace_from O old new s')
      end
  end.

Definition replace (s old new : string) : string := replace_from O old new s.

(** [l[-1]] and [l.pop()] on a list. *)
Definition last_item {A : Type} (l : list A) : Result A :=
  match List.rev l with
  | [] => Raise IndexError
  | x :: _ => Return x
  end.

Definition pop {A : Type} (l : list A) : Result (list A * A) :=
  match List.rev l with
  | [] => Raise IndexError
  | x :: r => Return (List.rev r, x)
  end.

(** [l[i]] and [l[i] = x] for a non-negative index. *)
Definition getitem {A : Type} (l : list A) (i : nat) : Result A :=
  match nth_error l i with
  | Some x => Return x
  | None => Raise IndexError
  end.

Fixpoint setitem {A : Type} (l : list A) (i : nat) (x : A) : Result (list A) :=
  match l, i with
  | [], _ => Raise IndexError
  | _ :: l', O => Return (x :: l')
  | y :: l', S i' => l'' <- setitem l' i' x ;; Return (y :: l'')
  end.

(** Order of 2-tuples of integers, as [sorted] compares them. *)
Definition tuple_ltb (a b : Z * Z) : bool :=
  (fst a <? fst b) || ((fst a =? fst b) && (snd a <? snd b)).

(** [sorted(l, reverse=True)] on 2-tuples of integers: a stable sort into
    descending order (equal tuples are identical, so stability is not
    observable). *)
Fixpoint insert_reverse (a : Z * Z) (l : list (Z * Z)) : list (Z * Z) :=
  match l with
  | [] => [a]
  | b :: l' => if tuple_ltb b a then a :: l else b :: insert_reverse a l'
  end.

Fixpoint sorted_reverse (l : list (Z * Z)) : list (Z * Z) :=
  match l with
  | [] => []
  | a :: l' => insert_reverse a (sorted_reverse l')
  end.

(** [OrderedDict.setdefault(k, []).append(v)]: the dictionary keeps its
    keys in first-insertion order. *)
Fixpoint setdefault_append (k : Z) (v : Z * Z) (d : list (Z * list (Z * Z)))
  : list (Z * list (Z * Z)) :=
  match d with
  | [] => [(k, [v])]
  | (k', vs) :: d' =>
      if k =? k' then (k', vs ++ [v]) :: d'
      else (k', vs) :: setdefault_append k v d'
  end.

End Py.

(** ** Tokens, components and the output stream *)

(** A token of [AssemblyParser]: [t.mnemonic], [t.flags], [t.stack_items]
    and [t.deltas], the latter as [(point_index, rel_ppem, step_no)]. *)
Record Token : Type := mkToken {
  mnemonic : string;
  flags : string;
  stack_items : list Z;
  deltas : list (Z * Z * Z)
}.

(** The two namedtuples [OffsetComponent] and [AnchorComponent]. *)
Inductive Component : Type :=
| OffsetComponent (index x y : Z) (round_to_grid use_my_metrics : bool)
                  (scaled_offset : option bool)
| AnchorComponent (index first second : Z) (use_my_metrics : bool)
                  (scaled_offset : option bool).

(** An entry of [stream]: a finished line, or a [deque] of pending stack
    items (leftmost item first). *)
Inductive Entry : Type :=
| Line (s : string)
| Deque (d : list Z).

(** The local variables of [transform_assembly]. *)
Record State : Type := mkState {
  push_on : bool;
  push_indexes : list nat;
  stream : list Entry;
  pos : nat;
  components : list Component;
  round_to_grid : bool;
  use_my_metrics : bool;
  scaled_offset : option bool;
  delta_base : option Z
}.

Definition initial_state (comps : list Component) : State :=
  {| push_on := true; push_indexes := [O]; stream := [Deque []]; pos := 1%nat;
     components := comps; round_to_grid := false; use_my_metrics := false;
     scaled_offset := None; delta_base := None |}.

Definition with_push_on (b : bool) (st : State) : State :=
  {| push_on := b; push_indexes := push_indexes st; stream := stream st;
     pos := pos st; components := components st;
     round_to_grid := round_to_grid st; use_my_metrics := use_my_metrics st;
     scaled_offset := scaled_offset st; delta_base := delta_base st |}.

Definition with_scopes (pi : list nat) (s : list Entry) (p : nat) (st : State)
  : State :=
  {| push_on := push_on st; push_indexes := pi; stream := s;
     pos := p; components := components st;
     round_to_grid := round_to_grid st; use_my_metrics := use_my_metrics st;
     scaled_offset := scaled_offset st; delta_base := delta_base st |}.

Definition with_stream (s : list Entry) (st : State) : State :=
  with_scopes (push_indexes st) s (pos st) st.

Definition with_flags (rtg umm : bool) (so : option bool) (st : State) : State :=
  {| push_on := push_on st; push_indexes := push_indexes st; stream := stream st;
     pos := pos st; components := components st;
     round_to_grid := rtg; use_my_metrics := umm;
     scaled_offset := so; delta_base := delta_base st |}.

Definition with_components (cs : list Component) (st : State) : State :=
  {| push_on := push_on st; push_indexes := push_indexes st; stream := stream st;
     pos := pos st; components := cs;
     round_to_grid := round_to_grid st; use_my_metrics := use_my_metrics st;
     scaled_offset := scaled_offset st; delta_base := delta_base st |}.

Definition with_delta_base (db : option Z) (st : State) : State :=
  {| push_on := push_on st; push_indexes := push_indexes st; stream := stream st;
     pos := pos st; components := components st;
     round_to_grid := round_to_grid st; use_my_metrics := use_my_metrics st;
     scaled_offset := scaled_offset st; delta_base := db |}.

(** ["PUSH[] %s" % " ".join([str(i) for i in items])]. *)
Definition push_line (items : list Z) : string :=
  ("PUSH[] " ++ Py.join " " (map Py.str items))%string.

(** ["%s[%s]" % (mnemonic, flags)]. *)
Definition instruction_line (m f : string) : string :=
  (m ++ "[" ++ f ++ "]")%string.

(** [stream.append(line); pos += 1]. *)
Definition append_line (l : string) (st : State) : State :=
  with_scopes (push_indexes st) (stream st ++ [Line l]) (S (pos st)) st.

(** [stream[push_indexes[-1]]], which the code then uses as a deque. *)
Definition current_stack (st : State) : Result (nat * list Z) :=
  pi <- Py.last_item (push_indexes st) ;;
  e <- Py.getitem (stream st) pi ;;
  match e with
  | Deque d => Return (pi, d)
  | Line _ => Raise AttributeError
  end.

(** [for i in reversed(items): stack.appendleft(i)]. *)
Definition appendleft_reversed (items stack : list Z) : list Z :=
  fold_left (fun d i => i :: d) (List.rev items) stack.

(** ** The delta encoder (lines 186-216) *)

Definition is_delta (m : string) : bool :=
  Py.startswith m "DLTC" || Py.startswith m "DLTP" ||
  Py.startswith m "DELTAP" || Py.startswith m "DELTAC".

Definition is_long_delta (m : string) : bool :=
  Py.startswith m "DELTAP" || Py.startswith m "DELTAC".

(** The [if/elif/elif] chain that assigns [delta_base]; with no matching
    suffix the variable keeps whatever it held. *)
Definition assign_delta_base (m : string) (db : option Z) : option Z :=
  if Py.endswith m "1" then Some 9
  else if Py.endswith m "2" then Some 25
  else if Py.endswith m "3" then Some 41
  else db.

(** [selector = (step_no + 7) if step_no > 0 else (step_no + 8)]. *)
Definition selector (step_no : Z) : Z :=
  if 0 <? step_no then step_no + 7 else step_no + 8.

(** [(rel_ppem << 4) | selector]. *)
Definition pack (rel_ppem step_no : Z) : Z :=
  Z.lor (Z.shiftl rel_ppem 4) (selector step_no).

(** The body of the inner [for rel_ppem, step_no in sorted(...)] loop. *)
Definition push_delta (m : string) (point_index : Z) (spec : Z * Z)
           (acc : option Z * list Z) : Result (option Z * list Z) :=
  let '(rel_ppem, step_no) := spec in
  let '(db, stack) := acc in
  '(db, rel_ppem) <-
     (if is_long_delta m then
        match assign_delta_base m db with
        | Some b => Return (Some b, rel_ppem - b)
        | None => Raise UnboundLocalError
        end
      else Return (db, rel_ppem)) ;;
  Return (db, pack rel_ppem step_no :: point_index :: stack).

Fixpoint push_delta_specs (m : string) (point_index : Z) (specs : list (Z * Z))
         (acc : option Z * list Z) : Result (option Z * list Z) :=
  match specs with
  | [] => Return acc
  | spec :: rest =>
      acc' <- push_delta m point_index spec acc ;;
      push_delta_specs m point_index rest acc'
  end.

(** The outer [for point_index, delta_specs in deltas.items()] loop. *)
Fixpoint push_delta_groups (m : string) (groups : list (Z * list (Z * Z)))
         (acc : option Z * list Z) : Result (option Z * list Z) :=
  match groups with
  | [] => Return acc
  | (point_index, delta_specs) :: rest =>
      acc' <- push_delta_specs m point_index (Py.sorted_reverse delta_specs) acc ;;
      push_delta_groups m rest acc'
  end.

(** [deltas = OrderedDict()] filled from [reversed(t.deltas)]. *)
Definition group_deltas (ds : list (Z * Z * Z)) : list (Z * list (Z * Z)) :=
  fold_left (fun d '(point_index, rel_ppem, step_no) =>
               Py.setdefault_append point_index (rel_ppem, step_no) d)
            (List.rev ds) [].

(** The whole delta branch on the deque it is handed. *)
Definition encode_deltas (m : string) (ds : list (Z * Z * Z))
           (db : option Z) (stack : list Z) : Result (option Z * list Z) :=
  let n := Z.of_nat (List.length ds) in
  push_delta_groups m (group_deltas ds) (db, n :: stack).

(** Reading a packed value back by its two nibbles, the decoding that the
    invertibility property of the specification speaks of (the module has
    no decoder of its own): the low four bits are the selector, which the
    comment at line 212 maps as [-8: 0, ... -1: 7, 1: 8, ... 8: 15]; the
    four bits above them are the relative ppem, counted from [base]. *)
Definition decode_selector (sel : Z) : Z :=
  if sel <? 8 then sel - 8 else sel - 7.

Definition decode_delta (base packed : Z) : Z * Z :=
  (Z.land (Z.shiftr packed 4) 15 + base, decode_selector (Z.land packed 15)).

(** ** [transform_assembly] (lines 111-232) *)

(** [if len(stack): stream[pi] = "PUSH[] %s" % " ".join(str(i) for i in stack)].
    The entry is a deque whenever [pi] is still listed in [push_indexes]; a
    string there would be measured and iterated character by character. *)
Definition render_scope (s : list Entry) (pi : nat) : Result (list Entry) :=
  stack <- Py.getitem s pi ;;
  match stack with
  | Deque [] => Return s
  | Deque d => Py.setitem s pi (Line (push_line d))
  | Line EmptyString => Return s
  | Line l =>
      Py.setitem s pi
        (Line ("PUSH[] " ++
               Py.join " " (map (fun c => String c EmptyString)
                                (list_ascii_of_string l)))%string)
  end.

(** One iteration of [for t in tokens]. *)
Definition step (st : State) (t : Token) : Result State :=
  let m := mnemonic t in
  if (m =? "OVERLAP")%string then Return st
  else if (m =? "USEMYMETRICS")%string then
    Return (with_flags (round_to_grid st) true (scaled_offset st) st)
  else if (m =? "SCALEDCOMPONENTOFFSET")%string then
    Return (with_flags (round_to_grid st) (use_my_metrics st) (Some true) st)
  else if (m =? "UNSCALEDCOMPONENTOFFSET")%string then
    Return (with_flags (round_to_grid st) (use_my_metrics st) (Some false) st)
  else if (m =? "OFFSET")%string then
    let rtg := (flags t =? "1")%string in
    match stack_items t with
    | [index; x; y] =>
        let component :=
          OffsetComponent index x y rtg (use_my_metrics st) (scaled_offset st) in
        Return (with_flags false false None
                  (with_components (components st ++ [component]) st))
    | _ => Raise ValueError
    end
  else if (m =? "ANCHOR")%string then
    match stack_items t with
    | [index; first; second] =>
        let component :=
          AnchorComponent index first second (use_my_metrics st) (scaled_offset st) in
        Return (append_line (instruction_line m (flags t))
                  (with_flags (round_to_grid st) false None
                     (with_components (components st ++ [component]) st)))
    | _ => Raise ValueError
    end
  else if (m =? "#PUSHON")%string then Return (with_push_on true st)
  else if (m =? "#PUSHOFF")%string then Return (with_push_on false st)
  else if (m =? "#BEGIN")%string then
    Return (with_scopes (push_indexes st ++ [pos st])
                        (stream st ++ [Deque []]) (S (pos st)) st)
  else if (m =? "#END")%string then
    '(rest, pi) <- Py.pop (push_indexes st) ;;
    s <- render_scope (stream st) pi ;;
    Return (with_scopes rest s (pos st) st)
  else if (m =? "#PUSH")%string then
    Return (append_line (push_line (stack_items t)) st)
  else if is_delta m then
    _ <- assert (push_on st) ;;
    _ <- assert (0 <? Z.of_nat (List.length (deltas t))) ;;
    '(pi, stack) <- current_stack st ;;
    '(db, stack) <- encode_deltas m (deltas t) (delta_base st) stack ;;
    s <- Py.setitem (stream st) pi (Deque stack) ;;
    let m := if Py.startswith m "DLT" then Py.replace m "DLT" "DELTA" else m in
    Return (append_line (instruction_line m (flags t))
              (with_delta_base db (with_stream s st)))
  else
    st <- (if push_on st then
             match stack_items t with
             | [] => Return st
             | items =>
                 '(pi, stack) <- current_stack st ;;
                 s <- Py.setitem (stream st) pi
                        (Deque (appendleft_reversed items stack)) ;;
                 Return (with_stream s st)
             end
           else
             _ <- assert (match stack_items t with [] => true | _ => false end) ;;
             Return st) ;;
    Return (append_line (instruction_line m (flags t)) st).

(** The loop over the tokens. *)
Fixpoint run (st : State) (tokens : list Token) : Result State :=
  match tokens with
  | [] => Return st
  | t :: rest => st' <- step st t ;; run st' rest
  end.

(** [[i for i in stream if i]] handed to ["\n".join]: empty strings and empty
    deques are dropped, a deque that is left would not be a string. *)
Fixpoint nonempty_lines (s : list Entry) : Result (list string) :=
  match s with
  | [] => Return []
  | Line EmptyString :: s' => nonempty_lines s'
  | Line l :: s' => ls <- nonempty_lines s' ;; Return (l :: ls)
  | Deque [] :: s' => nonempty_lines s'
  | Deque _ :: s' => Raise TypeError
  end.

(** The statements after the loop, up to the list that is joined. *)
Definition finish (st : State) : Result (list string) :=
  _ <- assert (match push_indexes st with [O] => true | _ => false end) ;;
  s <- render_scope (stream st) O ;;
  nonempty_lines s.

(** The body of [transform_assembly] from the token list on.  The result is
    the returned text together with the list [components], which the code
    extends in place. *)
Definition transform_lines (tokens : list Token) (comps : list Component)
  : Result (list string * list Component) :=
  st <- run (initial_state comps) tokens ;;
  ls <- finish st ;;
  Return (ls, components st).

Definition transform_tokens (tokens : list Token) (comps : list Component)
  : Result (string * list Component) :=
  '(ls, cs) <- transform_lines tokens comps ;;
  Return (Py.join (String "010" EmptyString) ls, cs).

(** Characters that [str.strip()] removes, among the code points below 256. *)
Definition isspace (c : ascii) : bool :=
  let n := nat_of_ascii c in
  ((9 <=? n) && (n <=? 13) || (28 <=? n) && (n <=? 32) ||
   (n =? 133) || (n =? 160))%nat.

Fixpoint lstrip (s : string) : string :=
  match s with
  | EmptyString => EmptyString
  | String c s' => if isspace c then lstrip s' else s
  end.

Definition strip (s : string) : string :=
  Py.string_rev (lstrip (Py.string_rev (lstrip s))).

Section TransformAssembly.

(** [AssemblyParser.parseString(data, parseAll=True)] of [vttLib.parser],
    which raises [ParseException] on text it does not accept. *)
Variable parseString : string -> Result (list Token).

Definition transform_assembly (data : string) (comps : list Component)
  : Result (string * list Component) :=
  let data := strip data in
  match data with
  | EmptyString => Return (EmptyString, comps)
  | _ =>
      tokens <- parseString data ;;
      transform_tokens tokens comps
  end.

End TransformAssembly.

(** ** Stored program text (lines 304-345) *)

(** Byte strings are lists of bytes; a text is handled through its UTF-8
    encoding, which [tobytes] produces and [tounicode] reads back. *)
Definition bytes : Type := list ascii.

Definition CR : ascii := "013"%char.
Definition LF : ascii := "010"%char.

(** [bytes.splitlines()]: a line ends at ["\n"], ["\r"] or ["\r\n"]; the
    terminators are dropped and a final terminator opens no further line. *)
Fixpoint splitlines (data : bytes) : list bytes :=
  match data with
  | [] => []
  | c :: rest =>
      if Ascii.eqb c LF then [] :: splitlines rest
      else if Ascii.eqb c CR then
        match rest with
        | c' :: rest' =>
            if Ascii.eqb c' LF then [] :: splitlines rest'
            else [] :: splitlines rest
        | [] => [] :: splitlines rest
        end
      else
        match splitlines rest with
        | [] => [[c]]
        | l :: ls => (c :: l) :: ls
        end
  end.

(** [sep.join(lines)] on byte strings. *)
Fixpoint join_bytes (sep : bytes) (lines : list bytes) : bytes :=
  match lines with
  | [] => []
  | [l] => l
  | l :: ls => l ++ sep ++ join_bytes sep ls
  end.

(** The bytes that [bytes.rstrip()] removes: space, tab, newline, return,
    vertical tab and form feed. *)
Definition bytes_isspace (c : ascii) : bool :=
  let n := nat_of_ascii c in
  ((9 <=? n) && (n <=? 13) || (n =? 32))%nat.

Fixpoint rstrip (data : bytes) : bytes :=
  match data with
  | [] => []
  | c :: rest =>
      match rstrip rest with
      | [] => if bytes_isspace c then [] else [c]
      | r => c :: r
      end
  end.

(** [b'\r'.join(data.splitlines()).rstrip() + b'\r']. *)
Definition stored_form (data : bytes) : bytes :=
  rstrip (join_bytes [CR] (splitlines data)) ++ [CR].

(** Every line terminator replaced by a carriage return, the last one
    included: what [splitlines] followed by [join] yields, up to one final
    carriage return. *)
Fixpoint breaks_to_cr (data : bytes) : bytes :=
  match data with
  | [] => []
  | c :: rest =>
      if Ascii.eqb c LF then CR :: breaks_to_cr rest
      else if Ascii.eqb c CR then
        match rest with
        | c' :: rest' =>
            if Ascii.eqb c' LF then CR :: breaks_to_cr rest'
            else CR :: breaks_to_cr rest
        | [] => CR :: breaks_to_cr rest
        end
      else c :: breaks_to_cr rest
  end.

(** [data.replace(b"\r", b"\n")]. *)
Definition replace_cr (data : bytes) : bytes :=
  map (fun c => if Ascii.eqb c CR then LF else c) data.

(** A [TSI1] or [TSI3] table: its two dictionaries of programs. *)
Record TSITable : Type := mkTSI {
  glyphPrograms : string -> option bytes;
  extraPrograms : string -> option bytes
}.

(** The part of a font the module reads and writes here. *)
Record Font : Type := mkFont {
  TSI1 : option TSITable;
  TSI3 : option TSITable
}.

Definition dict_set (d : string -> option bytes) (k : string) (v : bytes)
  : string -> option bytes :=
  fun k' => if (k' =? k)%string then Some v else d k'.

(** The entry of the font that [set_vtt_program] writes and
    [get_vtt_program] reads. *)
Definition stored_program (font : Font) (name : string) (is_talk is_glyph : bool)
  : option bytes :=
  match (if is_talk then TSI3 font else TSI1 font) with
  | Some t => (if is_glyph then glyphPrograms t else extraPrograms t) name
  | None => None
  end.

(** Trailing white space, as [rstrip] sees it. *)
Definition all_space (w : bytes) : Prop :=
  Forall (fun c => bytes_isspace c = true) w.

(** A line of text: it holds neither of the two line-break bytes. *)
Definition plain_line (l : bytes) : Prop :=
  Forall (fun c => c <> CR /\ c <> LF) l.

Inductive ProgramError : Type :=
| TableNotFound (tag : string)
| ProgramMissing (tag name : string).

Definition get_table (font : Font) (is_talk : bool) : option TSITable :=
  if is_talk then TSI3 font else TSI1 font.

Definition set_table (font : Font) (is_talk : bool) (t : TSITable) : Font :=
  if is_talk then mkFont (TSI1 font) (Some t) else mkFont (Some t) (TSI3 font).

Definition tag_of (is_talk : bool) : string :=
  if is_talk then "TSI3" else "TSI1".

Definition get_vtt_program (font : Font) (name : string) (is_talk is_glyph : bool)
  : ProgramError + bytes :=
  match get_table font is_talk with
  | None => inl (TableNotFound (tag_of is_talk))
  | Some t =>
      match (if is_glyph then glyphPrograms t else extraPrograms t) name with
      | None => inl (ProgramMissing (tag_of is_talk) name)
      | Some data => inr (replace_cr data)
      end
  end.

Definition set_vtt_program (font : Font) (name : string) (data : bytes)
           (is_talk is_glyph : bool) : ProgramError + Font :=
  match get_table font is_talk with
  | None => inl (TableNotFound (tag_of is_talk))
  | Some t =>
      let data := stored_form data in
      inr (set_table font is_talk
             (if is_glyph
              then mkTSI (dict_set (glyphPrograms t) name data) (extraPrograms t)
              else mkTSI (glyphPrograms t) (dict_set (extraPrograms t) name data)))
  end.

(** ** Composite glyphs (lines 348-483) *)

(** Component flags of the [glyf] table, as [fontTools] defines them. *)
Definition ROUND_XY_TO_GRID : Z := 4.
Definition USE_MY_METRICS : Z := 512.
Definition SCALED_COMPONENT_OFFSET : Z := 2048.
Definition UNSCALED_COMPONENT_OFFSET : Z := 4096.

(** A component of the outline: it has either [x] and [y] or [firstPt] and
    [secondPt]. *)
Inductive Placement : Type :=
| ByOffset (x y : Z)
| ByAnchor (firstPt secondPt : Z).

Record GlyphComponent : Type := mkComp {
  glyphName : string;
  comp_flags : Z;
  placement : Placement
}.

(** Truth value of [flags & mask]. *)
Definition has_flag (flags mask : Z) : bool := negb (Z.land flags mask =? 0).

(** [glyph_order.index(name)]. *)
Fixpoint list_index (name : string) (order : list string) : Result Z :=
  match order with
  | [] => Raise ValueError
  | n :: rest =>
      if (n =? name)%string then Return 0
      else i <- list_index name rest ;; Return (i + 1)
  end.

Definition vtt_index (c : Component) : Z :=
  match c with
  | OffsetComponent i _ _ _ _ _ => i
  | AnchorComponent i _ _ _ _ => i
  end.

Definition vtt_use_my_metrics (c : Component) : bool :=
  match c with
  | OffsetComponent _ _ _ _ u _ => u
  | AnchorComponent _ _ _ u _ => u
  end.

Definition vtt_scaled_offset (c : Component) : option bool :=
  match c with
  | OffsetComponent _ _ _ _ _ s => s
  | AnchorComponent _ _ _ _ s => s
  end.

(** Truth value of [vttcomp.scaled_offset], which is [None], [True] or
    [False]. *)
Definition truthy (o : option bool) : bool :=
  match o with Some true => true | _ => false end.

Definition invalid {A : Type} (msg : string) : Result A :=
  Raise (VTTLibInvalidComposite msg).

Definition component_msg (i : nat) (name what : string) : string :=
  ("Component " ++ Py.str (Z.of_nat i) ++ " in '" ++ name ++ "' " ++ what)%string.

Definition expected_found (e f : Z) : string :=
  ("expected " ++ Py.str e ++ ", found " ++ Py.str f ++ ".")%string.

(** [(comp.flags & MASK and not declared) or
     (not comp.flags & MASK and declared)]. *)
Definition flag_differs (flags mask : Z) (declared : bool) : bool :=
  (has_flag flags mask && negb declared) || (negb (has_flag flags mask) && declared).

(** The tests on the use-my-metrics and scaled-offset flags, which the loop
    body reaches when [check_flags] is set (lines 401-419). *)
Definition check_component_flags (i : nat) (name : string) (comp : GlyphComponent)
           (vttcomp : Component) : Result unit :=
  if flag_differs (comp_flags comp) USE_MY_METRICS (vtt_use_my_metrics vttcomp)
  then invalid (component_msg i name "has wrong 'USE_MY_METRICS' flag.")
  else if flag_differs (comp_flags comp) SCALED_COMPONENT_OFFSET
                       (truthy (vtt_scaled_offset vttcomp))
  then invalid (component_msg i name "has wrong 'SCALED_COMPONENT_OFFSET' flag.")
  else if flag_differs (comp_flags comp) UNSCALED_COMPONENT_OFFSET
                       (truthy (vtt_scaled_offset vttcomp))
  then invalid (component_msg i name
                  "has wrong 'UNSCALED_COMPONENT_OFFSET' flag.flag")
  else Return tt.

(** The body of the loop of [check_composite_info] for component [i]. *)
Definition check_component (i : nat) (name : string) (comp : GlyphComponent)
           (vttcomp : Component) (glyph_order : list string) (check_flags : bool)
  : Result unit :=
  index <- list_index (glyphName comp) glyph_order ;;
  if negb (vtt_index vttcomp =? index) then
    invalid (component_msg i name
               ("has incorrect index: " ++ expected_found index (vtt_index vttcomp)))
  else
    _ <- match placement comp, vttcomp with
         | ByAnchor _ _, OffsetComponent _ _ _ _ _ _ =>
             invalid (component_msg i name
                        "has incorrect type: expected ANCHOR[], found OFFSET[].")
         | ByAnchor firstPt secondPt, AnchorComponent _ first second _ _ =>
             if negb (firstPt =? first) then
               invalid (component_msg i name
                          ("has wrong anchor point: " ++ expected_found firstPt first))
             else if negb (secondPt =? second) then
               invalid (component_msg i name
                          ("has wrong anchor point: " ++ expected_found secondPt second))
             else Return tt
         | ByOffset _ _, AnchorComponent _ _ _ _ _ =>
             invalid (component_msg i name
                        "has incorrect type: expected OFFSET[], found ANCHOR[].")
         | ByOffset x y, OffsetComponent _ vx vy rtg _ _ =>
             if negb (x =? vx) then
               invalid (component_msg i name
                          ("has wrong x offset: " ++ expected_found x vx))
             else if negb (y =? vy) then
               invalid (component_msg i name
                          ("has wrong y offset: " ++ expected_found y vy))
             else if check_flags &&
                     flag_differs (comp_flags comp) ROUND_XY_TO_GRID rtg then
               invalid (component_msg i name "has wrong 'ROUND_XY_TO_GRID' flag.")
             else Return tt
         end ;;
    if negb check_flags then Return tt
    else check_component_flags i name comp vttcomp.

(** [for i, comp in enumerate(glyph.components)], with [vtt_components[i]]
    read off the list of equal length. *)
Fixpoint check_components (i : nat) (name : string) (comps : list GlyphComponent)
         (vtt_components : list Component) (glyph_order : list string)
         (check_flags : bool) : Result unit :=
  match comps with
  | [] => Return tt
  | comp :: comps' =>
      match vtt_components with
      | [] => Raise IndexError
      | vttcomp :: vtt' =>
          _ <- check_component i name comp vttcomp glyph_order check_flags ;;
          check_components (S i) name comps' vtt' glyph_order check_flags
      end
  end.

Definition check_composite_info (name : string) (glyph : list GlyphComponent)
           (vtt_components : list Component) (glyph_order : list string)
           (check_flags : bool) : Result unit :=
  let n_glyf_comps := List.length glyph in
  let n_vtt_comps := List.length vtt_components in
  if negb (n_vtt_comps =? n_glyf_comps)%nat then
    invalid ("'" ++ name ++ "' has incorrect number of components: " ++
             expected_found (Z.of_nat n_glyf_comps) (Z.of_nat n_vtt_comps))%string
  else check_components O name glyph vtt_components glyph_order check_flags.

(** [flags |= mask] and [flags &= ~mask]. *)
Definition set_flag (flags mask : Z) : Z := Z.lor flags mask.
Definition clear_flag (flags mask : Z) : Z := Z.land flags (Z.lnot mask).

(** The body of the loop of [set_components_flags]; an [AnchorComponent]
    has no [round_to_grid] attribute. *)
Definition set_component_flags (comp : GlyphComponent) (vttcomp : Component)
           (vtt_version : Z) : Result GlyphComponent :=
  let f := comp_flags comp in
  let f := if vtt_use_my_metrics vttcomp then set_flag f USE_MY_METRICS
           else clear_flag f USE_MY_METRICS in
  match vttcomp with
  | AnchorComponent _ _ _ _ _ => Raise AttributeError
  | OffsetComponent _ _ _ rtg _ so =>
      let f := if rtg then set_flag f ROUND_XY_TO_GRID
               else clear_flag f ROUND_XY_TO_GRID in
      let f :=
        if vtt_version <? 6 then f
        else match so with
             | None => f
             | Some true =>
                 clear_flag (set_flag f SCALED_COMPONENT_OFFSET)
                            UNSCALED_COMPONENT_OFFSET
             | Some false =>
                 clear_flag (set_flag f UNSCALED_COMPONENT_OFFSET)
                            SCALED_COMPONENT_OFFSET
             end in
      Return (mkComp (glyphName comp) f (placement comp))
  end.

Fixpoint set_components_flags_loop (comps : list GlyphComponent)
         (vtt : list Component) (vtt_version : Z) : Result (list GlyphComponent) :=
  match comps with
  | [] => Return []
  | comp :: comps' =>
      match vtt with
      | [] => Raise IndexError
      | vttcomp :: vtt' =>
          c <- set_component_flags comp vttcomp vtt_version ;;
          cs <- set_components_flags_loop comps' vtt' vtt_version ;;
          Return (c :: cs)
      end
  end.

Definition set_components_flags (glyph : list GlyphComponent)
           (vtt : list Component) (vtt_version : Z) : Result (list GlyphComponent) :=
  _ <- assert (List.length vtt =? List.length glyph)%nat ;;
  set_components_flags_loop glyph vtt vtt_version.

(** ** [composite_info_RE] (lines 422-431)

    The five alternatives all start with [^] and a literal; what follows is
    made of greedy pieces each of which stops at a character the next piece
    cannot start with, so the match of an alternative at a position is the
    one found by consuming each piece as far as it goes.  A matcher takes
    the text at the position and returns the text left after the match. *)

Definition text : Type := list ascii.

Definition chars (s : string) : text := list_ascii_of_string s.

(** A literal. *)
Fixpoint lit (p : text) (s : text) : option text :=
  match p with
  | [] => Some s
  | c :: p' =>
      match s with
      | c' :: s' => if Ascii.eqb c c' then lit p' s' else None
      | [] => None
      end
  end.

(** [[\r\n]?] *)
Definition opt_newline (s : text) : text :=
  match s with
  | c :: s' => if Ascii.eqb c CR || Ascii.eqb c LF then s' else s
  | [] => s
  end.

(** [ *] *)
Fixpoint spaces (s : text) : text :=
  match s with
  | c :: s' => if Ascii.eqb c " " then spaces s' else s
  | [] => s
  end.

Definition is_digit (c : ascii) : bool :=
  let n := nat_of_ascii c in ((48 <=? n) && (n <=? 57))%nat.

Fixpoint digits (s : text) : text :=
  match s with
  | c :: s' => if is_digit c then digits s' else s
  | [] => s
  end.

(** [[0-9]+] *)
Definition digits1 (s : text) : option text :=
  match s with
  | c :: s' => if is_digit c then Some (digits s') else None
  | [] => None
  end.

(** [-?] *)
Definition opt_minus (s : text) : text :=
  match s with
  | c :: s' => if Ascii.eqb c "-" then s' else s
  | [] => s
  end.

(** [(?:, *-?[0-9]+)] *)
Definition argument (s : text) : option text :=
  match lit (chars ",") s with
  | Some s1 => digits1 (opt_minus (spaces s1))
  | None => None
  end.

(** [(?:, *-?[0-9]+){3}[\r\n]?] *)
Definition three_arguments (s : text) : option text :=
  match argument s with
  | Some s1 =>
      match argument s1 with
      | Some s2 =>
          match argument s2 with
          | Some s3 => Some (opt_newline s3)
          | None => None
          end
      | None => None
      end
  | None => None
  end.

Definition then_newline (o : option text) : option text :=
  match o with Some s => Some (opt_newline s) | None => None end.

Definition _use_my_metrics (s : text) : option text :=
  then_newline (lit (chars "USEMYMETRICS[]") s).

Definition _overlap (s : text) : option text :=
  then_newline (lit (chars "OVERLAP[]") s).

Definition _scaled_component_offset (s : text) : option text :=
  match lit (chars "UN") s with
  | Some s1 =>
      match lit (chars "SCALEDCOMPONENTOFFSET[]") s1 with
      | Some s2 => Some (opt_newline s2)
      | None => then_newline (lit (chars "SCALEDCOMPONENTOFFSET[]") s)
      end
  | None => then_newline (lit (chars "SCALEDCOMPONENTOFFSET[]") s)
  end.

Definition _anchor (s : text) : option text :=
  match lit (chars "ANCHOR[]") s with
  | Some s1 => three_arguments s1
  | None => None
  end.

Definition _offset (s : text) : option text :=
  match lit (chars "OFFSET[") s with
  | Some (c :: s1) =>
      if Ascii.eqb c "r" || Ascii.eqb c "R" then
        match lit (chars "]") s1 with
        | Some s2 => three_arguments s2
        | None => None
        end
      else None
  | _ => None
  end.

Definition first_of (a b : option text) : option text :=
  match a with Some _ => a | None => b end.

(** The alternation, tried in order at the start of a line; the result is
    the length of the match. *)
Definition composite_info_match (s : text) : option nat :=
  match first_of (_use_my_metrics s)
          (first_of (_overlap s)
             (first_of (_scaled_component_offset s)
                (first_of (_anchor s) (_offset s)))) with
  | Some rest => Some (List.length s - List.length rest)%nat
  | None => None
  end.

(** [composite_info_RE.finditer(data)], as the list of [m.span()].  The
    scan is at position [p] of the data, [bol] tells whether [^] matches
    there (start of the data or just after a line feed), and [skip] counts
    the characters of the last match that lie ahead. *)
Fixpoint finditer_from (bol : bool) (skip : nat) (p : nat) (s : text)
  : list (nat * nat) :=
  match s with
  | [] => []
  | c :: s' =>
      let bol' := Ascii.eqb c LF in
      match skip with
      | S k => finditer_from bol' k (S p) s'
      | O =>
          match (if bol then composite_info_match s else None) with
          | Some (S k) => (p, p + S k)%nat :: finditer_from bol' k (S p) s'
          | _ => finditer_from bol' O (S p) s'
          end
      end
  end.

Definition finditer (data : text) : list (nat * nat) :=
  finditer_from true O O data.

(** [data[a:b]] and [data[a:]] for [0 <= a <= b]. *)
Definition slice (data : text) (a b : nat) : text :=
  firstn (b - a) (skipn a data).

Definition slice_from (data : text) (a : nat) : text := skipn a data.

(** ** [write_composite_info] (lines 456-483) *)

(** The loop over the matches: [head += data[last:start]; last = end]. *)
Fixpoint collect_head (data : text) (spans : list (nat * nat))
         (head : text) (last : nat) : text * nat :=
  match spans with
  | [] => (head, last)
  | (start, end_) :: rest =>
      collect_head data rest (head ++ slice data last start) end_
  end.

(** The lines written for one component. *)
Definition component_instructions (comp : GlyphComponent)
           (glyph_order : list string) (vtt_version : Z) : Result (list string) :=
  let nl := String LF EmptyString in
  let l1 := if has_flag (comp_flags comp) USE_MY_METRICS
            then ["USEMYMETRICS[]" ++ nl]%string else [] in
  let l2 := if 6 <=? vtt_version then
              (if has_flag (comp_flags comp) SCALED_COMPONENT_OFFSET
               then ["SCALEDCOMPONENTOFFSET[]" ++ nl]%string else []) ++
              (if has_flag (comp_flags comp) UNSCALED_COMPONENT_OFFSET
               then ["UNSCALEDCOMPONENTOFFSET[]" ++ nl]%string else [])
            else [] in
  index <- list_index (glyphName comp) glyph_order ;;
  let l3 :=
    match placement comp with
    | ByAnchor firstPt secondPt =>
        ("ANCHOR[], " ++ Py.str index ++ ", " ++ Py.str firstPt ++ ", " ++
         Py.str secondPt ++ nl)%string
    | ByOffset x y =>
        let flag := if has_flag (comp_flags comp) ROUND_XY_TO_GRID
                    then "R" else "r" in
        ("OFFSET[" ++ flag ++ "], " ++ Py.str index ++ ", " ++ Py.str x ++ ", " ++
         Py.str y ++ nl)%string
    end in
  Return (l1 ++ l2 ++ [l3]).

Fixpoint instructions (glyph : list GlyphComponent) (glyph_order : list string)
         (vtt_version : Z) : Result (list string) :=
  match glyph with
  | [] => Return []
  | comp :: rest =>
      l <- component_instructions comp glyph_order vtt_version ;;
      ls <- instructions rest glyph_order vtt_version ;;
      Return (l ++ ls)
  end.

Definition write_composite_info (glyph : list GlyphComponent)
           (glyph_order : list string) (data : text) (vtt_version : Z)
  : Result (text * text * text) :=
  let '(head, last) := collect_head data (finditer data) [] O in
  let tail := if (last <? List.length data)%nat then slice_from data last else [] in
  ls <- instructions glyph glyph_order vtt_version ;;
  Return (head, chars (Py.join "" ls), tail).

(** ** A tokenizer for plain statements *)

(** Modelled from the spec: the tokenizer [vttLib.parser], which the module
    imports and which is not part of it.  The definitions of this section
    stand for [AssemblyParser] on plain statements only. *)
Module Parser.

(** The text up to the first [stop], and the text after it. *)
Fixpoint split_at (stop : ascii) (s : text) : option (text * text) :=
  match s with
  | [] => None
  | c :: s' =>
      if Ascii.eqb c stop then Some ([], s')
      else match split_at stop s' with
           | Some (a, b) => Some (c :: a, b)
           | None => None
           end
  end.

Fixpoint natural (acc : Z) (s : text) : Z * text :=
  match s with
  | c :: s' =>
      if is_digit c
      then natural (10 * acc + Z.of_nat (nat_of_ascii c - 48)) s'
      else (acc, s)
  | [] => (acc, s)
  end.

Definition integer (s : text) : option (Z * text) :=
  match s with
  | c :: s' =>
      if Ascii.eqb c "-" then
        match s' with
        | d :: _ => if is_digit d
                    then let '(n, r) := natural 0 s' in Some (- n, r)
                    else None
        | [] => None
        end
      else if is_digit c then Some (natural 0 s)
      else None
  | [] => None
  end.

Fixpoint operands (fuel : nat) (s : text) : option (list Z) :=
  match fuel with
  | O => None
  | S fuel' =>
      match spaces s with
      | [] => Some []
      | c :: s1 =>
          if Ascii.eqb c "," then
            match integer (spaces s1) with
            | Some (n, s2) =>
                match operands fuel' s2 with
                | Some ns => Some (n :: ns)
                | None => None
                end
            | None => None
            end
          else None
      end
  end.

(** The letters [R] and [r] of a rounding flag stand for the bits [1] and
    [0]. *)
Definition flag_bit (c : ascii) : ascii :=
  if Ascii.eqb c "R" then "1"%char
  else if Ascii.eqb c "r" then "0"%char else c.

Definition statement (line : text) : option Token :=
  match split_at "[" line with
  | Some (m, s1) =>
      match split_at "]" s1 with
      | Some (f, s2) =>
          match operands (S (List.length s2)) s2 with
          | Some items =>
              Some (mkToken (string_of_list_ascii m)
                            (string_of_list_ascii (map flag_bit f)) items [])
          | None => None
          end
      | None => None
      end
  | None => None
  end.

Fixpoint statements (lines : list text) : Result (list Token) :=
  match lines with
  | [] => Return []
  | [] :: rest => statements rest
  | line :: rest =>
      match statement line with
      | Some t => ts <- statements rest ;; Return (t :: ts)
      | None => Raise ParseException
      end
  end.

(** Modelled from the spec: [AssemblyParser.parseString] of
    [vttLib.parser], which is not part of the module.  Only the plain
    statements of section 4.1 are covered, one per line:
    [MNEMONIC[flags]] followed by a comma-separated list of integers, the
    flag letters of a rounding flag rendered as bits; delta bodies and
    comments are left out. *)
Definition parseString (data : string) : Result (list Token) :=
  statements (splitlines (chars data)).

End Parser.

(** Shorthands used in the examples. *)
Definition tok (m f : string) (items : list Z) : Token := mkToken m f items [].

Definition nl : string := String LF EmptyString.

(** The text and the tokens of the offset declaration of section 8. *)
Definition usemymetrics_offset_text : string :=
  "USEMYMETRICS[]" ++ nl ++ "OFFSET[R], 2, 10, -20".

Definition usemymetrics_offset_tokens : list Token :=
  [tok "USEMYMETRICS" "" []; tok "OFFSET" "1" [2; 10; -20]].


(** ** The dispatch table of [transform_assembly]

    The branch of the [if/elif] chain that a mnemonic takes. *)
Inductive Kind : Type :=
| KOverlap | KUseMyMetrics | KScaled | KUnscaled | KOffset | KAnchor
| KPushOn | KPushOff | KBegin | KEnd | KPush | KDelta | KOther.

Definition classify (m : string) : Kind :=
  if (m =? "OVERLAP")%string then KOverlap
  else if (m =? "USEMYMETRICS")%string then KUseMyMetrics
  else if (m =? "SCALEDCOMPONENTOFFSET")%string then KScaled
  else if (m =? "UNSCALEDCOMPONENTOFFSET")%string then KUnscaled
  else if (m =? "OFFSET")%string then KOffset
  else if (m =? "ANCHOR")%string then KAnchor
  else if (m =? "#PUSHON")%string then KPushOn
  else if (m =? "#PUSHOFF")%string then KPushOff
  else if (m =? "#BEGIN")%string then KBegin
  else if (m =? "#END")%string then KEnd
  else if (m =? "#PUSH")%string then KPush
  else if is_delta m then KDelta
  else KOther.

(** [c] does not occur in [s]. *)
Definition lacks (c : ascii) (s : string) : bool :=
  forallb (fun x => negb (Ascii.eqb x c)) (chars s).

(** A token whose line [MNEMONIC[flags]] reads back unambiguously, and whose
    mnemonic, if it is a [DELTAP]/[DELTAC], names one of the three
    generations. *)
Definition well_formed_token (t : Token) : bool :=
  lacks "[" (mnemonic t) && lacks "]" (flags t) &&
  (negb (is_long_delta (mnemonic t)) ||
   Py.endswith (mnemonic t) "1" || Py.endswith (mnemonic t) "2" ||
   Py.endswith (mnemonic t) "3").

(** Lines of the output by their tag. *)
Definition is_push_line (l : string) : bool := Py.startswith l "PUSH[] ".
Definition is_anchor_line (l : string) : bool := Py.startswith l "ANCHOR[".
Definition is_offset_line (l : string) : bool := Py.startswith l "OFFSET[".

Definition count_lines (p : string -> bool) (ls : list string) : nat :=
  List.length (filter p ls).

Definition count_tokens (k : Kind -> bool) (ts : list Token) : nat :=
  List.length (filter (fun t => k (classify (mnemonic t))) ts).

Definition is_anchor (k : Kind) : bool :=
  match k with KAnchor => true | _ => false end.

Definition is_offset (k : Kind) : bool :=
  match k with KOffset => true | _ => false end.

(** The lines of a stream, for counting. *)
Fixpoint stream_lines (s : list Entry) : list string :=
  match s with
  | [] => []
  | Line l :: s' => l :: stream_lines s'
  | Deque _ :: s' => stream_lines s'
  end.

(** ** Scope markers

    The nesting depth after a sequence of tokens, started at [depth]:
    [None] once an [#END] has closed the root scope. *)
Fixpoint scope_depth (depth : option nat) (ts : list Token) : option nat :=
  match ts with
  | [] => depth
  | t :: rest =>
      match classify (mnemonic t), depth with
      | KBegin, Some d => scope_depth (Some (S d)) rest
      | KEnd, Some (S d) => scope_depth (Some d) rest
      | KEnd, Some O => scope_depth None rest
      | _, _ => scope_depth depth rest
      end
  end.

(** Every [#END] closes a [#BEGIN], and every [#BEGIN] is closed. *)
Definition balanced (ts : list Token) : bool :=
  match scope_depth (Some O) ts with
  | Some O => true
  | _ => false
  end.

(** No [#END] without an open [#BEGIN]. *)
Definition no_surplus_end (ts : list Token) : bool :=
  match scope_depth (Some O) ts with
  | Some _ => true
  | None => false
  end.

(** The mnemonic a delta instruction is emitted under. *)
Definition canonical (m : string) : string :=
  if Py.startswith m "DLT" then Py.replace m "DLT" "DELTA" else m.

(** One iteration of the loop, by the branch taken. *)
Definition step_branch (st : State) (t : Token) : Result State :=
  let m := mnemonic t in
  match classify m with
  | KOverlap => Return st
  | KUseMyMetrics =>
      Return (with_flags (round_to_grid st) true (scaled_offset st) st)
  | KScaled =>
      Return (with_flags (round_to_grid st) (use_my_metrics st) (Some true) st)
  | KUnscaled =>
      Return (with_flags (round_to_grid st) (use_my_metrics st) (Some false) st)
  | KOffset =>
      match stack_items t with
      | [index; x; y] =>
          Return (with_flags false false None
                    (with_components
                       (components st ++
                        [OffsetComponent index x y (flags t =? "1")%string
                           (use_my_metrics st) (scaled_offset st)]) st))
      | _ => Raise ValueError
      end
  | KAnchor =>
      match stack_items t with
      | [index; first; second] =>
          Return (append_line (instruction_line "ANCHOR" (flags t))
                    (with_flags (round_to_grid st) false None
                       (with_components
                          (components st ++
                           [AnchorComponent index first second
                              (use_my_metrics st) (scaled_offset st)]) st)))
      | _ => Raise ValueError
      end
  | KPushOn => Return (with_push_on true st)
  | KPushOff => Return (with_push_on false st)
  | KBegin =>
      Return (with_scopes (push_indexes st ++ [pos st])
                          (stream st ++ [Deque []]) (S (pos st)) st)
  | KEnd =>
      '(rest, pi) <- Py.pop (push_indexes st) ;;
      s <- render_scope (stream st) pi ;;
      Return (with_scopes rest s (pos st) st)
  | KPush => Return (append_line (push_line (stack_items t)) st)
  | KDelta =>
      _ <- assert (push_on st) ;;
      _ <- assert (0 <? Z.of_nat (List.length (deltas t))) ;;
      '(pi, stack) <- current_stack st ;;
      '(db, stack) <- encode_deltas m (deltas t) (delta_base st) stack ;;
      s <- Py.setitem (stream st) pi (Deque stack) ;;
      Return (append_line (instruction_line (canonical m) (flags t))
                (with_delta_base db (with_stream s st)))
  | KOther =>
      st <- (if push_on st then
               match stack_items t with
               | [] => Return st
               | items =>
                   '(pi, stack) <- current_stack st ;;
                   s <- Py.setitem (stream st) pi
                          (Deque (appendleft_reversed items stack)) ;;
                   Return (with_stream s st)
               end
             else
               _ <- assert (match stack_items t with [] => true | _ => false end) ;;
               Return st) ;;
      Return (append_line (instruction_line m (flags t)) st)
  end.


(** ** Invariants of the loop *)

(** Entry [i] of the stream is a deque, that is, a scope still open. *)
Definition scope_open (s : list Entry) (i : nat) : Prop :=
  exists d, nth_error s i = Some (Deque d).

(** [pos] is the length of the stream, and [push_indexes] lists distinct
    positions of open scopes. *)
Record Inv (st : State) : Prop := mkInv {
  inv_pos : pos st = List.length (stream st);
  inv_pos_1 : (1 <= pos st)%nat;
  inv_nodup : NoDup (push_indexes st);
  inv_open : Forall (scope_open (stream st)) (push_indexes st)
}.

(** [push_indexes] against the nesting depth of the markers read so far. *)
Definition depth_inv (depth : option nat) (st : State) : Prop :=
  match depth with
  | Some d => exists l, push_indexes st = O :: l /\ List.length l = d
  | None => ~ In O (push_indexes st)
  end.

(** The exceptions of the loop that do not come from the scope stack. *)
Definition token_error (e : Exception) : Prop :=
  e = AssertionError \/ e = ValueError \/ e = UnboundLocalError.

Definition count_stream (p : string -> bool) (s : list Entry) : nat :=
  count_lines p (stream_lines s).

Definition line_weight (p : string -> bool) (e : Entry) : nat :=
  match e with
  | Line l => if p l then 1%nat else 0%nat
  | Deque _ => 0%nat
  end.

(** The instruction line a token adds to the stream, if any. *)
Definition emitted_by (t : Token) : list string :=
  match classify (mnemonic t) with
  | KAnchor => [instruction_line "ANCHOR" (flags t)]
  | KDelta => [instruction_line (canonical (mnemonic t)) (flags t)]
  | KOther => [instruction_line (mnemonic t) (flags t)]
  | _ => []
  end.

(** The depth after one more token. *)
Definition next_depth (depth : option nat) (t : Token) : option nat :=
  scope_depth depth [t].

(** A predicate on lines that holds of no [PUSH[] ...] line and not of the
    empty line. *)
Definition instruction_tag (p : string -> bool) : Prop :=
  (forall items, p (push_line items) = false) /\
  (forall s, p ("PUSH[] " ++ s)%string = false) /\ p EmptyString = false.

(** ** The order of delta operands, in the words of section 4.3 *)

Definition point_of (d : Z * Z * Z) : Z := fst (fst d).
Definition spec_of (d : Z * Z * Z) : Z * Z := (snd (fst d), snd d).

(** The distinct values of a list, in the order in which they first occur. *)
Fixpoint first_occurrences (l : list Z) : list Z :=
  match l with
  | [] => []
  | x :: r => x :: filter (fun y => negb (y =? x)) (first_occurrences r)
  end.

(** The [(rel_ppem, step_no)] pairs given for point [p], in the order of
    the list. *)
Definition specs_at (p : Z) (l : list (Z * Z * Z)) : list (Z * Z) :=
  map spec_of (filter (fun d => point_of d =? p) l).

(** [a] is not below [b] in the order of pairs. *)
Definition descending (a b : Z * Z) : Prop := Py.tuple_ltb a b = false.

(** Items prepended to a deque one after the other. *)
Definition prepend_all (items stack : list Z) : list Z :=
  fold_left (fun d i => i :: d) items stack.

(** The base subtracted from [rel_ppem]: 9, 25 or 41 by the suffix of a
    [DELTAP]/[DELTAC] mnemonic, nothing for the [DLTP]/[DLTC] spelling. *)
Definition generation_base (m : string) : option Z :=
  if is_long_delta m then
    if Py.endswith m "1" then Some 9
    else if Py.endswith m "2" then Some 25
    else if Py.endswith m "3" then Some 41
    else None
  else Some 0.

(** What a delta triple of point [p] prepends: the point, then the packed
    value. *)
Definition delta_items (base p : Z) (spec : Z * Z) : list Z :=
  [p; pack (fst spec - base) (snd spec)].

(** The groups of section 4.3: the points in the order of their first
    occurrence in the reversed collection, each with its pairs. *)
Definition grouped (l : list (Z * Z * Z)) : list (Z * list (Z * Z)) :=
  map (fun p => (p, specs_at p l)) (first_occurrences (map point_of l)).

(** ** Programs without scope markers *)

Definition null {A : Type} (l : list A) : bool :=
  match l with [] => true | _ => false end.

(** A well-formed token sequence with no [#BEGIN], [#END] or [#PUSH],
    read in mode [on]: declarations carry three operands, a delta
    instruction has triples and comes in [PUSH_ON] mode, and an instruction
    in [PUSH_OFF] mode has no operands. *)
Fixpoint plain_program (on : bool) (ts : list Token) : bool :=
  match ts with
  | [] => true
  | t :: rest =>
      well_formed_token t &&
      match classify (mnemonic t) with
      | KPushOn => plain_program true rest
      | KPushOff => plain_program false rest
      | KOffset | KAnchor =>
          (List.length (stack_items t) =? 3)%nat && plain_program on rest
      | KDelta => on && negb (null (deltas t)) && plain_program on rest
      | KOther => (on || null (stack_items t)) && plain_program on rest
      | KBegin | KEnd | KPush => false
      | KOverlap | KUseMyMetrics | KScaled | KUnscaled => plain_program on rest
      end
  end.

(** The values a delta instruction leaves at the left end of the deque, as
    they read from left to right. *)
Definition delta_operands (m : string) (ds : list (Z * Z * Z)) : list Z :=
  match generation_base m with
  | Some base =>
      prepend_all
        (Z.of_nat (List.length ds) ::
         flat_map (fun p => flat_map (delta_items base p)
                              (Py.sorted_reverse (specs_at p (List.rev ds))))
                  (first_occurrences (map point_of (List.rev ds))))
        []
  | None => []
  end.

(** The values an instruction in [PUSH_ON] mode adds to the deque: its
    stack operands in the order written, the encoded triples for a delta
    instruction, nothing for the declarations and markers. *)
Definition operands_of (t : Token) : list Z :=
  match classify (mnemonic t) with
  | KOther => stack_items t
  | KDelta => delta_operands (mnemonic t) (deltas t)
  | _ => []
  end.

(** The content of the root deque after the tokens, read in mode [on]: the
    operands of a later instruction stand before those of an earlier one. *)
Fixpoint pushed (on : bool) (ts : list Token) : list Z :=
  match ts with
  | [] => []
  | t :: rest =>
      match classify (mnemonic t) with
      | KPushOn => pushed true rest
      | KPushOff => pushed false rest
      | _ => pushed on rest ++ (if on then operands_of t else [])
      end
  end.

(** The mode after the tokens. *)
Fixpoint mode_after (on : bool) (ts : list Token) : bool :=
  match ts with
  | [] => on
  | t :: rest =>
      match classify (mnemonic t) with
      | KPushOn => mode_after true rest
      | KPushOff => mode_after false rest
      | _ => mode_after on rest
      end
  end.

(** The [PUSH[]] line for the root deque, if it holds anything. *)
Definition push_lines (ops : list Z) : list string :=
  match ops with
  | [] => []
  | _ => [push_line ops]
  end.

(** The state of the loop in a program without markers. *)
Definition plain_state (st : State) (on : bool) (d : list Z) (ls : list string)
  : Prop :=
  push_on st = on /\ push_indexes st = [O] /\ stream st = Deque d :: map Line ls.

(** ** Spans of declarations *)

(** Where the last span ends; [0] without spans. *)
Definition last_end (spans : list (nat * nat)) : nat :=
  List.last (map snd spans) O.

(** Each span starts where the one before it ended, [e] being the end of
    the span before the list. *)
Fixpoint adjacent_from (e : nat) (spans : list (nat * nat)) : Prop :=
  match spans with
  | [] => True
  | (s, e') :: rest => s = e /\ adjacent_from e' rest
  end.

(** Spans in increasing order from position [p] on: non-empty, disjoint,
    and within [n] characters. *)
Fixpoint ordered_from (p n : nat) (spans : list (nat * nat)) : Prop :=
  match spans with
  | [] => True
  | (s, e) :: rest => (p <= s)%nat /\ (s < e)%nat /\ (e <= n)%nat /\ ordered_from e n rest
  end.

Definition covered (spans : list (nat * nat)) (p : nat) : bool :=
  existsb (fun se => (fst se <=? p)%nat && (p <? snd se)%nat) spans.

(** The characters of a text, which starts at position [p] of the data,
    that lie in none of the spans. *)
Fixpoint uncovered (spans : list (nat * nat)) (p : nat) (s : text) : text :=
  match s with
  | [] => []
  | c :: s' =>
      if covered spans p then uncovered spans (S p) s'
      else c :: uncovered spans (S p) s'
  end.

(** ** Declarations as the scan meets them *)

(** Whether [^] matches just after the text [x], given whether it matched
    just before it. *)
Fixpoint ends_line (bol : bool) (x : text) : bool :=
  match x with
  | [] => bol
  | c :: x' => ends_line (Ascii.eqb c LF) x'
  end.

(** A line that the pattern matches in full, whatever follows it. *)
Definition declaration_line (l : text) : Prop :=
  l <> [] /\ ends_line false l = true /\
  forall rest, composite_info_match (l ++ rest) = Some (List.length l).

(** The spans of lines laid end to end from position [p]. *)
Fixpoint spans_of (p : nat) (ls : list text) : list (nat * nat) :=
  match ls with
  | [] => []
  | l :: ls' => (p, p + List.length l)%nat :: spans_of (p + List.length l) ls'
  end.

(** The text does not start with a digit. *)
Definition no_digit_ahead (s : text) : Prop :=
  match s with
  | [] => True
  | c :: _ => is_digit c = false
  end.

(** ** Matching stays within a line *)

Definition no_lf (a : text) : Prop := Forall (fun c => c <> LF) a.

(** A piece of a pattern, read on a line [a] that a line feed ends: it
    fails or leaves a part of the line, whatever follows the line feed. *)
Definition local (f : text -> option text) : Prop :=
  forall a, no_lf a ->
    (forall z, f (a ++ LF :: z) = None) \/
    (exists a', no_lf a' /\ forall z, f (a ++ LF :: z) = Some (a' ++ LF :: z)).

(** The same for a piece that cannot fail. *)
Definition local_total (g : text -> text) : Prop :=
  forall a, no_lf a ->
    exists a', no_lf a' /\ forall z, g (a ++ LF :: z) = a' ++ LF :: z.

(** One piece after the other. *)
Definition seq (f g : text -> option text) (s : text) : option text :=
  match f s with
  | Some r => g r
  | None => None
  end.

(** A whole alternative: on such a line it fails or matches a fixed number
    of characters, whatever follows the line feed. *)
Definition stable (m : text -> option text) : Prop :=
  forall a, no_lf a ->
    (forall z, m (a ++ LF :: z) = None) \/
    (exists n, forall z, exists r,
        m (a ++ LF :: z) = Some r /\
        (List.length (a ++ LF :: z) - List.length r = n)%nat).

(** [[rR]] *)
Definition round_flag (s : text) : option text :=
  match s with
  | c :: s1 => if Ascii.eqb c "r" || Ascii.eqb c "R" then Some s1 else None
  | [] => None
  end.


(** * Further parts of the module *)

(** ** Declarations among the tokens *)

(** The components that the declarations of a token sequence add, in
    order, given the pending use-my-metrics and scaled-offset flags; other
    tokens are passed over. *)
Fixpoint declared (umm : bool) (so : option bool) (ts : list Token)
  : list Component :=
  match ts with
  | [] => []
  | t :: rest =>
      match classify (mnemonic t) with
      | KUseMyMetrics => declared true so rest
      | KScaled => declared umm (Some true) rest
      | KUnscaled => declared umm (Some false) rest
      | KOffset =>
          match stack_items t with
          | [index; x; y] =>
              OffsetComponent index x y (flags t =? "1")%string umm so
              :: declared false None rest
          | _ => declared umm so rest
          end
      | KAnchor =>
          match stack_items t with
          | [index; first; second] =>
              AnchorComponent index first second umm so
              :: declared false None rest
          | _ => declared umm so rest
          end
      | _ => declared umm so rest
      end
  end.

(** The tokens of the composite sub-language. *)
Definition composite_token (t : Token) : bool :=
  match classify (mnemonic t) with
  | KUseMyMetrics | KScaled | KUnscaled | KOffset | KAnchor => true
  | _ => false
  end.

(** ** The delta base across instructions *)

(** The base a delta instruction subtracts when [delta_base] holds [db] on
    entry: the [DLTP]/[DLTC] spellings subtract nothing; a [DELTAP]/[DELTAC]
    takes it from its suffix, and without one of the three suffixes from
    whatever the variable still holds. *)
Definition effective_base (m : string) (db : option Z) : option Z :=
  if is_long_delta m then assign_delta_base m db else Some 0.

(** What [delta_base] holds after a delta instruction that used [base]. *)
Definition base_after (m : string) (base : Z) (db : option Z) : option Z :=
  if is_long_delta m then Some base else db.

(** The items a delta instruction pushes when it counts from [base], in
    the order in which they are prepended. *)
Definition delta_pushes (base : Z) (ds : list (Z * Z * Z)) : list Z :=
  Z.of_nat (List.length ds) ::
  flat_map (fun p => flat_map (delta_items base p)
                       (Py.sorted_reverse (specs_at p (List.rev ds))))
           (first_occurrences (map point_of (List.rev ds))).

(** ** What makes an iteration fail

    The exception, if any, that a token raises in mode [on] with
    [delta_base] holding [db], while some scope is open. *)
Definition token_failure (on : bool) (db : option Z) (t : Token)
  : option Exception :=
  match classify (mnemonic t) with
  | KOffset | KAnchor =>
      if (List.length (stack_items t) =? 3)%nat then None else Some ValueError
  | KDelta =>
      if negb on then Some AssertionError
      else if null (deltas t) then Some AssertionError
      else match effective_base (mnemonic t) db with
           | Some _ => None
           | None => Some UnboundLocalError
           end
  | KOther =>
      if on || null (stack_items t) then None else Some AssertionError
  | _ => None
  end.

(** Text made of white space only. *)
Fixpoint blank (s : string) : bool :=
  match s with
  | EmptyString => true
  | String c s' => isspace c && blank s'
  end.

(** Text that [lstrip] leaves as it is. *)
Definition trimmed (s : string) : bool :=
  match s with
  | EmptyString => true
  | String c _ => negb (isspace c)
  end.

(** ** Nested scopes

    The output of the loop, computed scope by scope.  A frame is a scope
    still open: the operands gathered for its [PUSH[]] line, first to be
    pushed first, and the lines written since it was opened. *)
Definition Frame : Type := (list Z * list string)%type.

(** The operands an accepted token adds at the left end of the pending
    collection, read from left to right. *)
Definition token_operands (db : option Z) (t : Token) : list Z :=
  match classify (mnemonic t) with
  | KOther => stack_items t
  | KDelta =>
      match effective_base (mnemonic t) db with
      | Some b => List.rev (delta_pushes b (deltas t))
      | None => []
      end
  | _ => []
  end.

(** What [delta_base] holds after an accepted token. *)
Definition next_base (db : option Z) (t : Token) : option Z :=
  match classify (mnemonic t) with
  | KDelta =>
      match effective_base (mnemonic t) db with
      | Some b => base_after (mnemonic t) b db
      | None => db
      end
  | _ => db
  end.

(** The line a token appends to the stream, if any. *)
Definition emitted_line (t : Token) : list string :=
  match classify (mnemonic t) with
  | KPush => [push_line (stack_items t)]
  | _ => emitted_by t
  end.

(** One token against the open frames, innermost first: [#BEGIN] opens a
    frame, [#END] closes the innermost one into the lines of the frame
    around it, with its [PUSH[]] line first; any other accepted token adds
    its operands and its line to the innermost frame. *)
Definition frame_step (on : bool) (db : option Z) (frames : list Frame)
           (t : Token) : option (bool * option Z * list Frame) :=
  match token_failure on db t, frames with
  | None, (ops, ls) :: outer =>
      match classify (mnemonic t) with
      | KPushOn => Some (true, db, frames)
      | KPushOff => Some (false, db, frames)
      | KBegin => Some (on, db, ([], []) :: frames)
      | KEnd =>
          match outer with
          | (ops', ls') :: outer' =>
              Some (on, db, (ops', ls' ++ push_lines ops ++ ls) :: outer')
          | [] => None
          end
      | _ =>
          Some (on, next_base db t,
                (token_operands db t ++ ops, ls ++ emitted_line t) :: outer)
      end
  | _, _ => None
  end.

(** The lines of the result, if the tokens are accepted and leave the
    root frame alone open. *)
Fixpoint scoped_lines (on : bool) (db : option Z) (frames : list Frame)
         (ts : list Token) : option (list string) :=
  match ts with
  | [] =>
      match frames with
      | [(ops, ls)] => Some (push_lines ops ++ ls)
      | _ => None
      end
  | t :: rest =>
      match frame_step on db frames t with
      | Some (on', db', frames') => scoped_lines on' db' frames' rest
      | None => None
      end
  end.

(** The frames as the stream holds them: the deque of a scope at the place
    of its [#BEGIN], followed by the entries written since. *)
Definition EFrame : Type := (list Z * list Entry)%type.

Fixpoint prefix_entries (fs : list EFrame) : list Entry :=
  match fs with
  | [] => []
  | (d, entries) :: outer => prefix_entries outer ++ Deque d :: entries
  end.

Fixpoint indexes (fs : list EFrame) : list nat :=
  match fs with
  | [] => []
  | _ :: outer => indexes outer ++ [List.length (prefix_entries outer)]
  end.

(** An entry that is a line of the output, or the empty deque that a
    closed scope without operands leaves behind. *)
Definition settled (e : Entry) : Prop :=
  match e with
  | Line l => l <> EmptyString
  | Deque d => d = []
  end.

Definition frame_lines (f : EFrame) : Frame := (fst f, stream_lines (snd f)).

(** What [#END] leaves at the place of a scope. *)
Definition closed (d : list Z) : Entry :=
  match d with
  | [] => Deque []
  | _ => Line (push_line d)
  end.

(** The state of the loop with the frames [fs] open, innermost first. *)
Record Scoped (st : State) (on : bool) (db : option Z) (fs : list EFrame)
  : Prop := mkScoped {
  scoped_on : push_on st = on;
  scoped_base : delta_base st = db;
  scoped_stream : stream st = prefix_entries fs;
  scoped_indexes : push_indexes st = indexes fs;
  scoped_pos : pos st = List.length (stream st);
  scoped_settled : Forall (fun f => Forall settled (snd f)) fs;
  scoped_nonempty : fs <> []
}.

(** ** Named programs (lines 288-333) *)

(** What the accessors raise: [ValueError] for a name that is no extra
    program, or the error of [get_vtt_program] and [set_vtt_program]. *)
Inductive AssemblyError : Type :=
| InvalidName (name : string)
| ProgramFailure (e : ProgramError).

Definition extra_names : list string :=
  ["cvt"; "cvt "; "prep"; "ppgm"; "fpgm"]%string.

(** [name in ("cvt", "cvt ", "prep", "ppgm", "fpgm")]. *)
Definition is_extra_name (name : string) : bool :=
  existsb (String.eqb name) extra_names.

Definition program_result {A : Type} (r : ProgramError + A) : AssemblyError + A :=
  match r with
  | inl e => inl (ProgramFailure e)
  | inr a => inr a
  end.

Definition get_extra_assembly (font : Font) (name : string)
  : AssemblyError + bytes :=
  if negb (is_extra_name name) then inl (InvalidName name)
  else
    let name := if (name =? "prep")%string then "ppgm"%string else name in
    program_result (get_vtt_program font (strip name) false false).

Definition set_extra_assembly (font : Font) (name : string) (data : bytes)
  : AssemblyError + Font :=
  if negb (is_extra_name name) then inl (InvalidName name)
  else
    let name := if (name =? "prep")%string then "ppgm"%string else name in
    program_result (set_vtt_program font name data false false).

Definition get_glyph_assembly (font : Font) (name : string)
  : ProgramError + bytes :=
  get_vtt_program font name false true.

Definition get_glyph_talk (font : Font) (name : string)
  : ProgramError + bytes :=
  get_vtt_program font name true true.

Definition set_glyph_assembly (font : Font) (name : string) (data : bytes)
  : ProgramError + Font :=
  set_vtt_program font name data false true.

Definition set_glyph_talk (font : Font) (name : string) (data : bytes)
  : ProgramError + Font :=
  set_vtt_program font name data true true.

(** Every line feed turned into a carriage return. *)
Definition lf_to_cr (data : bytes) : bytes :=
  map (fun c => if Ascii.eqb c LF then CR else c) data.

(** ** Outline components against declarations *)

(** A component of the outline and a declaration that name the same glyph
    and place it the same way. *)
Definition agrees (glyph_order : list string) (comp : GlyphComponent)
           (v : Component) : Prop :=
  list_index (glyphName comp) glyph_order = Return (vtt_index v) /\
  match placement comp, v with
  | ByOffset x y, OffsetComponent _ vx vy _ _ _ => x = vx /\ y = vy
  | ByAnchor firstPt secondPt, AnchorComponent _ first second _ _ =>
      firstPt = first /\ secondPt = second
  | _, _ => False
  end.

(** What the tests under [check_flags] compare: each of the four flag bits
    of the outline with the declared value, both scaled-offset bits with
    the truth value of [scaled_offset]. *)
Definition flags_agree (comp : GlyphComponent) (v : Component) : Prop :=
  match v with
  | OffsetComponent _ _ _ rtg _ _ =>
      has_flag (comp_flags comp) ROUND_XY_TO_GRID = rtg
  | AnchorComponent _ _ _ _ _ => True
  end /\
  has_flag (comp_flags comp) USE_MY_METRICS = vtt_use_my_metrics v /\
  has_flag (comp_flags comp) SCALED_COMPONENT_OFFSET
  = truthy (vtt_scaled_offset v) /\
  has_flag (comp_flags comp) UNSCALED_COMPONENT_OFFSET
  = truthy (vtt_scaled_offset v).

Definition is_offset_component (v : Component) : bool :=
  match v with
  | OffsetComponent _ _ _ _ _ _ => true
  | AnchorComponent _ _ _ _ _ => false
  end.

(** Bit [k] of the flags that [set_components_flags] leaves, from the
    declaration and the bit [b] found there: bit 9 is [USE_MY_METRICS],
    bit 2 [ROUND_XY_TO_GRID], bits 11 and 12 the scaled and the unscaled
    component offset. *)
Definition written_bit (vtt_version : Z) (v : Component) (k : Z) (b : bool)
  : bool :=
  match v with
  | OffsetComponent _ _ _ rtg umm so =>
      if k =? 9 then umm
      else if k =? 2 then rtg
      else if vtt_version <? 6 then b
      else match so with
           | None => b
           | Some s => if k =? 11 then s else if k =? 12 then negb s else b
           end
  | AnchorComponent _ _ _ _ _ => b
  end.

(** A component of the outline after [set_components_flags]. *)
Definition written (vtt_version : Z) (cv : GlyphComponent * Component)
           (comp' : GlyphComponent) : Prop :=
  glyphName comp' = glyphName (fst cv) /\
  placement comp' = placement (fst cv) /\
  forall k, Z.testbit (comp_flags comp') k
            = written_bit vtt_version (snd cv) k (Z.testbit (comp_flags (fst cv)) k).

(** ** [set_cvt_table] (lines 86-100) *)

(** Whether the text holds no ["*/"]. *)
Fixpoint lacks_close (s : text) : bool :=
  match s with
  | [] => true
  | c :: s' =>
      negb (Ascii.eqb c "*"
            && match s' with c' :: _ => Ascii.eqb c' "/" | [] => false end)
      && lacks_close s'
  end.

(** The number of characters up to the end of the first ["*/"]. *)
Fixpoint comment_end (s : text) : option nat :=
  match s with
  | [] => None
  | c :: s' =>
      match s' with
      | c' :: _ =>
          if Ascii.eqb c "*" && Ascii.eqb c' "/" then Some 2%nat
          else option_map S (comment_end s')
      | [] => None
      end
  end.

(** [re.sub(r"/\*.*?\*/", "", data, flags=re.DOTALL)]: at each position
    from left to right, a ["/*"] that some ["*/"] follows is removed with
    everything up to the first such ["*/"].  [skip] counts the characters
    of the comment being removed that lie ahead. *)
Fixpoint remove_comments_from (skip : nat) (s : text) : text :=
  match s with
  | [] => []
  | c :: s' =>
      match skip with
      | S k => remove_comments_from k s'
      | O =>
          match s' with
          | c' :: body =>
              if Ascii.eqb c "/" && Ascii.eqb c' "*" then
                match comment_end body with
                | Some n => remove_comments_from (S n) s'
                | None => c :: remove_comments_from O s'
                end
              else c :: remove_comments_from O s'
          | [] => [c]
          end
      end
  end.

Definition remove_comments (data : text) : text := remove_comments_from O data.

(** [\s*] *)
Fixpoint skip_space (s : text) : text :=
  match s with
  | c :: s' => if isspace c then skip_space s' else s
  | [] => []
  end.

(** [[0-9]*]: the digits at the start of the text, and the text after them. *)
Fixpoint take_digits (s : text) : text * text :=
  match s with
  | c :: s' =>
      if is_digit c then let '(ds, rest) := take_digits s' in (c :: ds, rest)
      else ([], s)
  | [] => ([], [])
  end.

(** [^\s*([0-9]+):\s*(-?[0-9]+)] at the start of a line: the two groups and
    the text after the match.  Every piece is greedy and stops at a
    character the next piece cannot start with. *)
Definition cvt_entry (s : text) : option (text * text * text) :=
  match take_digits (skip_space s) with
  | ([], _) => None
  | (index, s1) =>
      match s1 with
      | c :: s2 =>
          if Ascii.eqb c ":" then
            let s3 := skip_space s2 in
            let '(sign, s4) :=
              match s3 with
              | c' :: r => if Ascii.eqb c' "-" then ([c'], r) else ([], s3)
              | [] => ([], s3)
              end in
            match take_digits s4 with
            | ([], _) => None
            | (value, rest) => Some (index, sign ++ value, rest)
            end
          else None
      | [] => None
      end
  end.

(** [int(group)] on an optional minus sign and decimal digits. *)
Definition int (s : text) : Z :=
  match NilZero.int_of_string (string_of_list_ascii s) with
  | Some d => Z.of_int d
  | None => 0
  end.

(** [re.finditer(..., data, re.MULTILINE)], as the list of
    [(int(m.group(1)), int(m.group(2)))]: [bol] tells whether [^] matches
    at the position, [skip] counts the characters of the last match that
    lie ahead. *)
Fixpoint cvt_entries_from (bol : bool) (skip : nat) (s : text) : list (Z * Z) :=
  match s with
  | [] => []
  | c :: s' =>
      let bol' := Ascii.eqb c LF in
      match skip with
      | S k => cvt_entries_from bol' k s'
      | O =>
          match (if bol then cvt_entry s else None) with
          | Some (index, value, rest) =>
              (int index, int value)
              :: cvt_entries_from bol'
                   (List.length s - List.length rest - 1) s'
          | None => cvt_entries_from bol' O s'
          end
      end
  end.

Definition cvt_entries (data : text) : list (Z * Z) :=
  cvt_entries_from true O data.

(** What the loop can raise: an item of [array('h')] is a signed 16-bit
    integer, and an index beyond the end of the array would be an
    [IndexError]. *)
Inductive CvtError : Type :=
| OverflowError
| CvtIndexError.

Definition is_short (v : Z) : bool := (-32768 <=? v) && (v <=? 32767).

(** [for i in range(1 + index - len(values)): values.append(0)]. *)
Definition pad (values : list Z) (index : Z) : list Z :=
  values ++ repeat 0 (Z.to_nat (1 + index - Z.of_nat (List.length values))).

(** [values[index] = value]. *)
Fixpoint store (values : list Z) (index : nat) (value : Z) : option (list Z) :=
  match values, index with
  | [], _ => None
  | _ :: rest, O => Some (value :: rest)
  | v :: rest, S i => option_map (cons v) (store rest i value)
  end.

(** The body of the loop. *)
Definition assign_cv (values : list Z) (entry : Z * Z) : CvtError + list Z :=
  let '(index, value) := entry in
  let values := pad values index in
  if is_short value then
    match store values (Z.to_nat index) value with
    | Some values => inr values
    | None => inl CvtIndexError
    end
  else inl OverflowError.

Fixpoint cvt_fill (values : list Z) (entries : list (Z * Z))
  : CvtError + list Z :=
  match entries with
  | [] => inr values
  | entry :: rest =>
      match assign_cv values entry with
      | inr values => cvt_fill values rest
      | inl e => inl e
      end
  end.

(** [cvt] stands for [font["cvt "].values], if the font has the table. *)
Definition set_cvt_table (cvt : option (list Z)) (data : text)
  : CvtError + option (list Z) :=
  let data := remove_comments data in
  match cvt_fill [] (cvt_entries data) with
  | inl e => inl e
  | inr values => inr (if null values then cvt else Some values)
  end.

(** The value given last for index [i], zero if none was given. *)
Definition last_value (i : Z) (entries : list (Z * Z)) : Z :=
  match find (fun e => fst e =? i) (List.rev entries) with
  | Some e => snd e
  | None => 0
  end.

(** One more than the largest index, zero without entries. *)
Definition table_length (entries : list (Z * Z)) : Z :=
  fold_left (fun n e => Z.max n (fst e + 1)) entries 0.

(** The text of a control value table as it is written: a line for each
    entry, [index: value], with a comment after it or not. *)
Definition cvt_note (note : option text) : text :=
  match note with
  | Some n => chars " /*" ++ n ++ chars "*/"
  | None => []
  end.

Definition cvt_line (l : Z * Z * option text) : text :=
  chars (Py.str (fst (fst l)) ++ ": " ++ Py.str (snd (fst l)))
  ++ cvt_note (snd l) ++ [LF].

Definition cvt_text (lines : list (Z * Z * option text)) : text :=
  List.concat (map cvt_line lines).

(** The line without its comment. *)
Definition cvt_line_plain (l : Z * Z * option text) : text :=
  chars (Py.str (fst (fst l)) ++ ": " ++ Py.str (snd (fst l)))
  ++ match snd l with Some _ => chars " " | None => [] end ++ [LF].

(** A table written out in full: a line for each index from [start] on. *)
Fixpoint numbered (start : Z) (values : list Z) : list (Z * Z * option text) :=
  match values with
  | [] => []
  | v :: rest => (start, v, None) :: numbered (start + 1) rest
  end.

(** ** [update_composites] (lines 486-520) *)

(** A glyph of the [glyf] table, by [isComposite()]. *)
Inductive Glyph : Type :=
| SimpleGlyph
| CompositeGlyph (components : list GlyphComponent).

(** What [update_composites] raises: [VTTLibError] for a missing table or
    for a [ParseException], [KeyError] for a name that is not in the
    [glyf] table, and whatever else [transform_assembly] or
    [write_composite_info] raise; [UnicodeDecodeError] for a stored program
    that is no UTF-8. *)
Inductive UpdateError : Type :=
| UpdateTableNotFound (tag : string)
| UpdateParseError
| UpdateKeyError (name : string)
| UpdateRaised (e : Exception)
| UpdateDecodeError.

(** The value of a byte, and the byte of a value. *)
Definition byte (b : ascii) : Z := Z.of_nat (nat_of_ascii b).

Definition chr (n : Z) : ascii := ascii_of_nat (Z.to_nat n).

(** A byte from 80 to BF, which continues a character. *)
Definition is_cont (b : ascii) : bool := (128 <=? byte b) && (byte b <=? 191).

(** [tounicode(..., encoding='utf-8')] at the end of [get_vtt_program]
    (line 317): the code points of the text, [None] where the bytes are
    no UTF-8 and the code raises [UnicodeDecodeError].  A character is
    one byte below 80, or a first byte from C2 to F4 with one, two or
    three bytes that continue it; a form longer than the code point
    needs, a surrogate and a code point above 10FFFF are refused. *)
Fixpoint tounicode (data : bytes) : option (list Z) :=
  match data with
  | [] => Some []
  | b0 :: s1 =>
      let n0 := byte b0 in
      if n0 <? 128 then option_map (cons n0) (tounicode s1)
      else if n0 <? 194 then None
      else if n0 <? 224 then
        match s1 with
        | b1 :: s2 =>
            let cp := (n0 - 192) * 64 + (byte b1 - 128) in
            if is_cont b1 then option_map (cons cp) (tounicode s2) else None
        | _ => None
        end
      else if n0 <? 240 then
        match s1 with
        | b1 :: b2 :: s3 =>
            let cp := ((n0 - 224) * 64 + (byte b1 - 128)) * 64 + (byte b2 - 128) in
            if is_cont b1 && is_cont b2 && (2048 <=? cp)
               && negb ((55296 <=? cp) && (cp <=? 57343))
            then option_map (cons cp) (tounicode s3) else None
        | _ => None
        end
      else if n0 <? 245 then
        match s1 with
        | b1 :: b2 :: b3 :: s4 =>
            let cp := (((n0 - 240) * 64 + (byte b1 - 128)) * 64
                       + (byte b2 - 128)) * 64 + (byte b3 - 128) in
            if is_cont b1 && is_cont b2 && is_cont b3 && (65536 <=? cp)
               && (cp <=? 1114111)
            then option_map (cons cp) (tounicode s4) else None
        | _ => None
        end
      else None
  end.

(** The UTF-8 of a code point. *)
Definition encode_char (cp : Z) : bytes :=
  if cp <? 128 then [chr cp]
  else if cp <? 2048 then [chr (192 + cp / 64); chr (128 + cp mod 64)]
  else if cp <? 65536 then
    [chr (224 + cp / 4096); chr (128 + (cp / 64) mod 64); chr (128 + cp mod 64)]
  else
    [chr (240 + cp / 262144); chr (128 + (cp / 4096) mod 64);
     chr (128 + (cp / 64) mod 64); chr (128 + cp mod 64)].

(** [tobytes(..., encoding='utf-8')]: the bytes through which a text is
    handled here. *)
Definition tobytes (data : list Z) : bytes := flat_map encode_char data.

(** The code points that [str.strip()] removes. *)
Definition str_isspace (cp : Z) : bool :=
  (9 <=? cp) && (cp <=? 13) || (28 <=? cp) && (cp <=? 32)
  || (cp =? 133) || (cp =? 160) || (cp =? 5760)
  || (8192 <=? cp) && (cp <=? 8202)
  || (cp =? 8232) || (cp =? 8233) || (cp =? 8239) || (cp =? 8287)
  || (cp =? 12288).

Fixpoint str_lstrip (s : list Z) : list Z :=
  match s with
  | [] => []
  | c :: s' => if str_isspace c then str_lstrip s' else s
  end.

(** [data.strip()] on the code points of a text. *)
Definition str_strip (s : list Z) : list Z :=
  List.rev (str_lstrip (List.rev (str_lstrip s))).

Definition stored {A : Type} (r : ProgramError + A) : UpdateError + A :=
  match r with
  | inl (TableNotFound tag) => inl (UpdateTableNotFound tag)
  | inl (ProgramMissing _ name) => inl (UpdateKeyError name)
  | inr a => inr a
  end.

Section UpdateComposites.

Variable parseString : string -> Result (list Token).

(** [font.getGlyphOrder()] and [font['glyf']]. *)
Variable glyph_order : list string.
Variable glyf : string -> option Glyph.

(** [transform_assembly(data, vtt_components)] on the code points of a
    text: [data.strip()] as the first statement, and from there on as
    [transform_assembly] does, the parser reading the stripped text
    through its UTF-8. *)
Definition transform_text (data : list Z) (comps : list Component)
  : Result (string * list Component) :=
  match str_strip data with
  | [] => Return (EmptyString, comps)
  | stripped =>
      tokens <- parseString (string_of_list_ascii (tobytes stripped)) ;;
      transform_tokens tokens comps
  end.

(** The body of the loop from [if not glyph.isComposite()] on; [data] is
    the text of the program through its UTF-8. *)
Definition update_program (font : Font) (glyph_name : string) (glyph : Glyph)
           (data : text) (vtt_components : list Component) (vtt_version : Z)
  : UpdateError + Font :=
  match glyph with
  | SimpleGlyph =>
      match vtt_components with
      | [] => inr font
      | _ => stored (set_glyph_assembly font glyph_name [])
      end
  | CompositeGlyph components =>
      match write_composite_info components glyph_order data vtt_version with
      | Raise e => inl (UpdateRaised e)
      | Return (head, declarations, tail) =>
          stored (set_glyph_assembly font glyph_name (head ++ declarations ++ tail))
      end
  end.

(** The body of the loop.  The program is stored as bytes, decoded by
    [get_vtt_program], and stripped and parsed as a text. *)
Definition update_glyph (font : Font) (glyph_name : string) (vtt_version : Z)
  : UpdateError + Font :=
  match glyf glyph_name with
  | None => inl (UpdateKeyError glyph_name)
  | Some glyph =>
      match get_glyph_assembly font glyph_name with
      | inl (TableNotFound tag) => inl (UpdateTableNotFound tag)
      | inl (ProgramMissing _ _) =>
          update_program font glyph_name glyph [] [] vtt_version
      | inr stored_bytes =>
          match tounicode stored_bytes with
          | None => inl UpdateDecodeError
          | Some data =>
              match transform_text data [] with
              | Raise ParseException => inl UpdateParseError
              | Raise e => inl (UpdateRaised e)
              | Return (_, vtt_components) =>
                  update_program font glyph_name glyph (tobytes data)
                                 vtt_components vtt_version
              end
          end
      end
  end.

Fixpoint update_glyphs (font : Font) (glyphs : list string) (vtt_version : Z)
  : UpdateError + Font :=
  match glyphs with
  | [] => inr font
  | glyph_name :: rest =>
      match update_glyph font glyph_name vtt_version with
      | inl e => inl e
      | inr font => update_glyphs font rest vtt_version
      end
  end.

Definition update_composites (font : Font) (glyphs : option (list string))
           (vtt_version : Z) : UpdateError + Font :=
  update_glyphs font
    (match glyphs with Some names => names | None => glyph_order end)
    vtt_version.

End UpdateComposites.

(** Text of code points below 128, which is its own UTF-8. *)
Definition ascii_only (s : text) : Prop :=
  Forall (fun c => (byte c <? 128) = true) s.

(** A line of text that ends with a line feed after a character that is
    no white space, and holds no carriage return. *)
Definition tidy_line (l : text) : Prop :=
  ~ In CR l /\
  exists body c, l = body ++ [c; LF] /\ bytes_isspace c = false.

(** ** [normalize_vtt_programs] (lines 594-624) *)

(** [[\r\n]] *)
Definition is_break (c : ascii) : bool := Ascii.eqb c CR || Ascii.eqb c LF.

(** [[\r\n]*] *)
Fixpoint skip_breaks (s : text) : text :=
  match s with
  | c :: s' => if is_break c then skip_breaks s' else s
  | [] => []
  end.

(** [.*?\*/]: the text after the first ["*/"], which no line feed may
    precede, [.] standing for any character but the line feed. *)
Fixpoint comment_close (s : text) : option text :=
  match s with
  | [] => None
  | c :: s' =>
      match s' with
      | c' :: rest =>
          if Ascii.eqb c "*" && Ascii.eqb c' "/" then Some rest
          else if Ascii.eqb c LF then None
          else comment_close s'
      | [] => None
      end
  end.

(** [[0-9A-Z]] *)
Definition is_version_char (c : ascii) : bool :=
  let n := nat_of_ascii c in
  is_digit c || ((65 <=? n) && (n <=? 90))%nat.

(** [[0-9A-Z]*] *)
Fixpoint skip_version (s : text) : text :=
  match s with
  | c :: s' => if is_version_char c then skip_version s' else s
  | [] => []
  end.

(** [comment_re % ' GUI generated .*?']: the text after the match. *)
Definition gui_generated_re (s : text) : option (text * text) :=
  match lit (chars "/* GUI generated ") s with
  | Some s1 =>
      match comment_close s1 with
      | Some s2 => Some ([], skip_breaks s2)
      | None => None
      end
  | None => None
  end.

(** [comment_re % ' (VTT [0-9]+\.[0-9][0-9A-Z]* compiler) .*?']: the group
    and the text after the match. *)
Definition vtt_compiler_re (s : text) : option (text * text) :=
  match lit (chars "/* ") s with
  | Some s0 =>
      match lit (chars "VTT ") s0 with
      | Some s1 =>
          match digits1 s1 with
          | Some s2 =>
              match lit (chars ".") s2 with
              | Some (c :: s3) =>
                  if is_digit c then
                    match lit (chars " compiler") (skip_version s3) with
                    | Some s4 =>
                        match lit (chars " ") s4 with
                        | Some s5 =>
                            match comment_close s5 with
                            | Some s6 =>
                                Some (firstn (List.length s0 - List.length s4) s0,
                                      skip_breaks s6)
                            | None => None
                            end
                        | None => None
                        end
                    | None => None
                    end
                  else None
              | _ => None
              end
          | None => None
          end
      | None => None
      end
  | None => None
  end.

(** [comment_re % ' (?:TT|VTTTalk) glyph [0-9]+.*?']. *)
Definition glyph_re (s : text) : option (text * text) :=
  match lit (chars "/* ") s with
  | Some s0 =>
      match first_of (lit (chars "TT") s0) (lit (chars "VTTTalk") s0) with
      | Some s1 =>
          match lit (chars " glyph ") s1 with
          | Some s2 =>
              match digits1 s2 with
              | Some s3 =>
                  match comment_close s3 with
                  | Some s4 => Some ([], skip_breaks s4)
                  | None => None
                  end
              | None => None
              end
          | None => None
          end
      | None => None
      end
  | None => None
  end.

(** [pattern.sub(repl, s)]: the matches from left to right, none of them
    empty, each replaced by what [repl] makes of its group.  [skip] counts
    the characters of the last match that lie ahead. *)
Fixpoint sub_from (pattern : text -> option (text * text)) (repl : text -> text)
         (skip : nat) (s : text) : text :=
  match s with
  | [] => []
  | c :: s' =>
      match skip with
      | S k => sub_from pattern repl k s'
      | O =>
          match pattern s with
          | Some (group, rest) =>
              repl group
              ++ sub_from pattern repl (List.length s - List.length rest - 1) s'
          | None => c :: sub_from pattern repl O s'
          end
      end
  end.

Definition re_sub (pattern : text -> option (text * text)) (repl : text -> text)
           (s : text) : text :=
  sub_from pattern repl O s.

(** The template [r'/* \1 */'] followed by a line break. *)
Definition keep_version (break : ascii) (group : text) : text :=
  chars "/* " ++ group ++ chars " */" ++ [break].

Definition drop (group : text) : text := [].

(** What [normalize_vtt_programs] raises: the errors of the accessors, and
    [KeyError] for [font['TSI3']]. *)
Inductive NormalizeError : Type :=
| NormalizeAssembly (e : AssemblyError)
| NormalizeProgram (e : ProgramError)
| NormalizeKeyError (tag : string).

Definition normalize_extra (font : Font) (tag : string) : NormalizeError + Font :=
  match get_extra_assembly font tag with
  | inl e => inl (NormalizeAssembly e)
  | inr program =>
      let program := re_sub vtt_compiler_re (keep_version LF) program in
      match set_extra_assembly font tag program with
      | inl e => inl (NormalizeAssembly e)
      | inr font => inr font
      end
  end.

(** The body of the inner loop, for one glyph and one of the two tables. *)
Definition normalize_glyph (font : Font) (name : string) (is_talk : bool)
  : NormalizeError + Font :=
  match get_vtt_program font name is_talk true with
  | inl (ProgramMissing _ _) => inr font
  | inl e => inl (NormalizeProgram e)
  | inr program =>
      let program := if is_talk then re_sub gui_generated_re drop program
                     else program in
      let program := re_sub vtt_compiler_re (keep_version CR) program in
      let program := re_sub glyph_re drop program in
      match set_vtt_program font name program is_talk true with
      | inl e => inl (NormalizeProgram e)
      | inr font => inr font
      end
  end.

Fixpoint normalize_glyphs (font : Font) (glyph_order : list string)
  : NormalizeError + Font :=
  match glyph_order with
  | [] => inr font
  | name :: rest =>
      match normalize_glyph font name true with
      | inl e => inl e
      | inr font =>
          match normalize_glyph font name false with
          | inl e => inl e
          | inr font => normalize_glyphs font rest
          end
      end
  end.

Fixpoint normalize_extras (font : Font) (tags : list string)
  : NormalizeError + Font :=
  match tags with
  | [] => inr font
  | tag :: rest =>
      match normalize_extra font tag with
      | inl e => inl e
      | inr font => normalize_extras font rest
      end
  end.

(** [glyph_order] stands for [font.getGlyphOrder()]. *)
Definition normalize_vtt_programs (font : Font) (glyph_order : list string)
  : NormalizeError + Font :=
  match normalize_extras font ["cvt"; "ppgm"; "fpgm"]%string with
  | inl e => inl e
  | inr font =>
      match normalize_glyphs font glyph_order with
      | inl e => inl e
      | inr font =>
          match TSI3 font with
          | None => inl (NormalizeKeyError "TSI3")
          | Some t =>
              inr (mkFont (TSI1 font) (Some (mkTSI (glyphPrograms t) (fun _ => None))))
          end
      end
  end.




(** * Properties *)

Example transform_two_instructions :
  transform_tokens [tok "SVTCA" "0" []; tok "MIRP" "10100" [3; 7];
                    tok "MDRP" "00100" [9]] []
  = Return ("PUSH[] 9 3 7" ++ String "010" "SVTCA[0]" ++ String "010" "MIRP[10100]"
            ++ String "010" "MDRP[00100]", [])%string.
Proof. vm_compute. reflexivity. Qed.

Example transform_delta :
  transform_tokens [mkToken "DLTP1" "" [] [(13, 0, 8); (14, 3, -8); (13, 2, 1)]] []
  = Return ("PUSH[] 48 14 15 13 40 13 3" ++ String "010" "DELTAP1[]", [])%string.
Proof. vm_compute. reflexivity. Qed.

Example finditer_two_declarations :
  finditer (chars ("SVTCA[Y]" ++ nl ++ "USEMYMETRICS[]" ++ nl ++
                   "OFFSET[R], 2, 10, -20" ++ nl ++ "IUP[X]"))
  = [(9, 24); (24, 46)]%nat.
Proof. vm_compute. reflexivity. Qed.

Example write_interleaved :
  write_composite_info [mkComp "a" 4 (ByOffset 1 2)] [".notdef"; "a"]
    (chars ("A" ++ nl ++ "USEMYMETRICS[]" ++ nl ++ "B" ++ nl ++ "OVERLAP[]" ++ nl ++ "C")) 6
  = Return (chars ("A" ++ nl ++ "B" ++ nl), chars ("OFFSET[R], 1, 1, 2" ++ nl), chars "C").
Proof. vm_compute. reflexivity. Qed.

Example splitlines_examples :
  splitlines (chars ("a" ++ nl ++ String CR nl ++ "b" ++ String CR "" ++ nl ++ nl))
  = [chars "a"; []; chars "b"; []]
  /\ stored_form (chars ("a  " ++ nl ++ String CR nl ++ "b  " ++ String CR "" ++ nl ++ nl))
     = chars ("a  " ++ String CR (String CR "b") ++ String CR "").
Proof. vm_compute. split; reflexivity. Qed.

Example parse_offset_declaration :
  Parser.parseString ("USEMYMETRICS[]" ++ nl ++ "OFFSET[R], 2, 10, -20")
  = Return [tok "USEMYMETRICS" "" []; tok "OFFSET" "1" [2; 10; -20]].
Proof. vm_compute. reflexivity. Qed.

(** ** The delta selector *)

Lemma selector_range (step_no : Z) :
  -8 <= step_no <= 8 -> step_no <> 0 -> 0 <= selector step_no < 16.
Proof.
  intros Hr Hz. unfold selector.
  destruct (0 <? step_no) eqn:E; [apply Z.ltb_lt in E | apply Z.ltb_ge in E]; lia.
Qed.

Lemma decode_selector_selector (step_no : Z) :
  step_no <> 0 -> decode_selector (selector step_no) = step_no.
Proof.
  intros Hz. unfold decode_selector, selector.
  destruct (0 <? step_no) eqn:E; [apply Z.ltb_lt in E | apply Z.ltb_ge in E].
  - destruct (step_no + 7 <? 8) eqn:F;
      [apply Z.ltb_lt in F | apply Z.ltb_ge in F]; lia.
  - destruct (step_no + 8 <? 8) eqn:F;
      [apply Z.ltb_lt in F | apply Z.ltb_ge in F]; lia.
Qed.

Lemma land_pack (r s : Z) :
  0 <= s < 16 -> Z.land (Z.lor (Z.shiftl r 4) s) 15 = s.
Proof.
  intros Hs. rewrite Z.land_lor_distr_l.
  change 15 with (Z.ones 4).
  rewrite !Z.land_ones by lia.
  rewrite Z.shiftl_mul_pow2 by lia.
  rewrite Z.mod_mul by (cbv; discriminate).
  rewrite Z.lor_0_l. apply Z.mod_small. cbn. lia.
Qed.

Lemma shiftr_pack (r s : Z) :
  0 <= s < 16 -> Z.shiftr (Z.lor (Z.shiftl r 4) s) 4 = r.
Proof.
  intros Hs. rewrite Z.shiftr_lor.
  rewrite Z.shiftr_shiftl_l by lia. cbn [Z.sub Z.add Z.opp Z.pos_sub].
  rewrite Z.shiftl_0_r.
  rewrite (Z.shiftr_div_pow2 s) by lia.
  rewrite Z.div_small by (cbn; lia).
  apply Z.lor_0_r.
Qed.

Lemma pack_value (r s : Z) :
  0 <= s < 16 -> Z.lor (Z.shiftl r 4) s = 16 * r + s.
Proof.
  intros Hs.
  pose proof (Z.div_mod (Z.lor (Z.shiftl r 4) s) 16 ltac:(lia)) as H.
  change 16 with (2 ^ 4) in H at 2 3.
  rewrite <- Z.shiftr_div_pow2, <- Z.land_ones in H by lia.
  change (Z.ones 4) with 15 in H.
  rewrite shiftr_pack, land_pack in H by assumption. exact H.
Qed.

Lemma high_nibble (r : Z) : Z.land r 15 = r <-> 0 <= r <= 15.
Proof.
  change 15 with (Z.ones 4) at 1. rewrite Z.land_ones by lia.
  change (2 ^ 4) with 16. split.
  - intros H. pose proof (Z.mod_pos_bound r 16 ltac:(lia)). lia.
  - intros H. apply Z.mod_small. lia.
Qed.

Lemma decode_pack (base rel_ppem step_no : Z) :
  -8 <= step_no <= 8 -> step_no <> 0 ->
  snd (decode_delta base (pack (rel_ppem - base) step_no)) = step_no
  /\ (fst (decode_delta base (pack (rel_ppem - base) step_no)) = rel_ppem
      <-> base <= rel_ppem <= base + 15).
Proof.
  intros Hr Hz. unfold decode_delta, pack. cbn [fst snd].
  pose proof (selector_range step_no Hr Hz) as Hs.
  rewrite land_pack, shiftr_pack by assumption.
  rewrite decode_selector_selector by assumption.
  split; [reflexivity|].
  pose proof (high_nibble (rel_ppem - base)) as Hn. split.
  - intros H. assert (Z.land (rel_ppem - base) 15 = rel_ppem - base) by lia.
    apply Hn in H0. lia.
  - intros H. assert (0 <= rel_ppem - base <= 15) as H0 by lia.
    apply Hn in H0. lia.
Qed.

Lemma endswith_char (m : string) (c : ascii) :
  Py.endswith m (String c EmptyString) = true ->
  exists r, Py.string_rev m = String c r.
Proof.
  unfold Py.endswith. cbn.
  destruct (Py.string_rev m) as [|d r]; cbn; [discriminate|].
  destruct (ascii_dec c d) as [->|]; [eauto | discriminate].
Qed.

Lemma endswith_char_other (m : string) (c d : ascii) :
  Py.endswith m (String c EmptyString) = true -> c <> d ->
  Py.endswith m (String d EmptyString) = false.
Proof.
  intros H Hne. destruct (endswith_char m c H) as [r Hr].
  unfold Py.endswith. rewrite Hr. cbn.
  destruct (ascii_dec d c) as [->|]; [contradiction | reflexivity].
Qed.

Lemma assign_delta_base_suffix (m : string) (db : option Z) (b : Z) :
  Py.endswith m "1" = true /\ b = 9 \/
  Py.endswith m "2" = true /\ b = 25 \/
  Py.endswith m "3" = true /\ b = 41 ->
  assign_delta_base m db = Some b.
Proof.
  unfold assign_delta_base.
  intros [[H ->]|[[H ->]|[H ->]]].
  - rewrite H. reflexivity.
  - rewrite (endswith_char_other m "2" "1" H) by discriminate.
    rewrite H. reflexivity.
  - rewrite (endswith_char_other m "3" "1" H) by discriminate.
    rewrite (endswith_char_other m "3" "2" H) by discriminate.
    rewrite H. reflexivity.
Qed.

(** C2.  Delta selector packing is invertible where the relative ppem
    fits its nibble.  For a delta mnemonic whose generation base is [base]
    (9, 25 or 41 for a [DELTAP]/[DELTAC] with suffix 1, 2 or 3; nothing is
    subtracted for the [DLTP]/[DLTC] spelling) and any non-zero [step_no]
    in [-8, 8], the loop body pushes the point index and then
    [((rel_ppem - base) << 4) | selector]; the selector lies in [0, 15],
    it is the low nibble of the packed value and decodes to [step_no].
    The high nibble plus the base is [rel_ppem] exactly when
    [base <= rel_ppem <= base + 15], and the packed value is a byte
    exactly then; the code checks no range, and for any other [rel_ppem]
    only all the bits above the low nibble give [rel_ppem - base]. *)
Theorem delta_packing_invertible
        (m : string) (base point_index rel_ppem step_no : Z)
        (db : option Z) (stack : list Z) :
  generation_base m = Some base ->
  -8 <= step_no <= 8 -> step_no <> 0 ->
  let packed := Z.lor (Z.shiftl (rel_ppem - base) 4)
                      (if 0 <? step_no then step_no + 7 else step_no + 8) in
  (exists db', push_delta m point_index (rel_ppem, step_no) (db, stack)
               = Return (db', packed :: point_index :: stack))
  /\ 0 <= Z.land packed 15 < 16
  /\ Z.land packed 15 = selector step_no
  /\ snd (decode_delta base packed) = step_no
  /\ (base <= rel_ppem <= base + 15 ->
      decode_delta base packed = (rel_ppem, step_no))
  /\ (fst (decode_delta base packed) = rel_ppem ->
      base <= rel_ppem <= base + 15)
  /\ (0 <= packed < 256 <-> base <= rel_ppem <= base + 15)
  /\ Z.shiftr packed 4 + base = rel_ppem
  /\ (is_long_delta m = true ->
      Py.endswith m "1" = true /\ base = 9 \/
      Py.endswith m "2" = true /\ base = 25 \/
      Py.endswith m "3" = true /\ base = 41)
  /\ (is_long_delta m = false -> base = 0).
Proof.
  intros Hbase Hr Hz packed.
  pose proof (selector_range step_no Hr Hz) as Hs.
  assert (Hland : Z.land packed 15 = selector step_no)
    by (apply land_pack; exact Hs).
  assert (Hcases :
            (is_long_delta m = true ->
             Py.endswith m "1" = true /\ base = 9 \/
             Py.endswith m "2" = true /\ base = 25 \/
             Py.endswith m "3" = true /\ base = 41)
            /\ (is_long_delta m = false -> base = 0)).
  { unfold generation_base in Hbase. destruct (is_long_delta m).
    - split; [intros _ | discriminate].
      destruct (Py.endswith m "1"); [injection Hbase as <-; auto|].
      destruct (Py.endswith m "2"); [injection Hbase as <-; auto|].
      destruct (Py.endswith m "3"); [injection Hbase as <-; auto | discriminate].
    - split; [discriminate | intros _; congruence]. }
  destruct Hcases as (Hlong & Hshort).
  destruct (decode_pack base rel_ppem step_no Hr Hz) as (Hstep & Hppem).
  fold (selector step_no) in packed.
  change (Z.lor (Z.shiftl (rel_ppem - base) 4) (selector step_no))
    with (pack (rel_ppem - base) step_no) in packed.
  split; [|split; [|split; [|split; [|split; [|split; [|split; [|split; [|split]]]]]]]].
  - unfold push_delta. destruct (is_long_delta m) eqn:L.
    + rewrite (assign_delta_base_suffix m db base (Hlong eq_refl)).
      eexists. reflexivity.
    + subst packed. rewrite (Hshort eq_refl), Z.sub_0_r.
      eexists. reflexivity.
  - rewrite Hland. exact Hs.
  - exact Hland.
  - exact Hstep.
  - intros H. apply Hppem in H.
    destruct (decode_delta base packed) as [r' s'] eqn:E. cbn [fst snd] in *.
    subst packed. rewrite E in Hstep, H. cbn [fst snd] in Hstep, H. congruence.
  - apply Hppem.
  - subst packed. unfold pack. rewrite (pack_value _ _ Hs). lia.
  - subst packed. unfold pack. rewrite (shiftr_pack _ _ Hs). lia.
  - exact Hlong.
  - exact Hshort.
Qed.

Lemma delta_packing_invertible_witness :
  push_delta "DELTAP2" 13 (30, -8) (None, [1])
    = Return (Some 25, 80 :: 13 :: [1])
  /\ decode_delta 25 80 = (30, -8).
Proof.
  pose proof (delta_packing_invertible "DELTAP2" 25 13 30 (-8) None [1]) as H.
  cbv zeta in H.
  destruct H as (_ & _ & _ & _ & H5 & _).
  - reflexivity.
  - lia.
  - discriminate.
  - split; [reflexivity | apply H5; lia].
Defined.

(** C2, as stated, fails: a relative ppem of 127 is in the range of the
    claim, but [DELTAP1] packs [118 << 4 | 15], which is no byte; its two
    nibbles are 6 and 15, and 6 plus the base 9 is 15, not 127. *)
Lemma delta_packing_counterexample :
  push_delta "DELTAP1" 13 (127, 8) (None, []) = Return (Some 9, [1903; 13])
  /\ decode_delta 9 1903 = (15, 8)
  /\ Z.land (Z.shiftr 1903 4) 15 = 6 /\ Z.land 1903 15 = 15.
Proof. vm_compute. repeat split; reflexivity. Qed.

(** ** Composite declarations, end to end *)

Lemma has_flag_testbit (flags : Z) (n : Z) :
  0 <= n -> has_flag flags (2 ^ n) = Z.testbit flags n.
Proof.
  intros Hn. unfold has_flag.
  destruct (Z.testbit flags n) eqn:E.
  - apply negb_true_iff, Z.eqb_neq. intros H.
    assert (Z.testbit (Z.land flags (2 ^ n)) n = true).
    { rewrite Z.land_spec, E, Z.pow2_bits_true by lia. reflexivity. }
    rewrite H, Z.bits_0 in H0. discriminate.
  - apply negb_false_iff, Z.eqb_eq. apply Z.bits_inj'. intros k Hk.
    rewrite Z.land_spec, Z.bits_0.
    destruct (Z.eq_dec n k) as [<-|Hne].
    + rewrite E. reflexivity.
    + rewrite Z.pow2_bits_false by lia. apply andb_false_r.
Qed.

Lemma flag_differs_false (flags mask : Z) (declared : bool) :
  flag_differs flags mask declared = false <-> has_flag flags mask = declared.
Proof.
  unfold flag_differs.
  destruct (has_flag flags mask), declared; cbn; split; congruence.
Qed.

(** What the flag tests of [check_composite_info] accept. *)
Lemma check_component_flags_succeeds (i : nat) (name : string)
      (comp : GlyphComponent) (vttcomp : Component) :
  check_component_flags i name comp vttcomp = Return tt <->
  has_flag (comp_flags comp) USE_MY_METRICS = vtt_use_my_metrics vttcomp /\
  has_flag (comp_flags comp) SCALED_COMPONENT_OFFSET
    = truthy (vtt_scaled_offset vttcomp) /\
  has_flag (comp_flags comp) UNSCALED_COMPONENT_OFFSET
    = truthy (vtt_scaled_offset vttcomp).
Proof.
  unfold check_component_flags, invalid.
  rewrite <- !flag_differs_false.
  destruct (flag_differs _ USE_MY_METRICS _);
    [split; [discriminate | intros (H & _); discriminate]|].
  destruct (flag_differs _ SCALED_COMPONENT_OFFSET _);
    [split; [discriminate | intros (_ & H & _); discriminate]|].
  destruct (flag_differs _ UNSCALED_COMPONENT_OFFSET _);
    [split; [discriminate | intros (_ & _ & H); discriminate]|].
  split; auto.
Qed.

(** C5, as amended.  Whenever the parser yields the two tokens of
    [USEMYMETRICS[]] / [OFFSET[R], 2, 10, -20], [transform_assembly] returns
    the empty text and appends the one component
    [OffsetComponent 2 10 (-20) true true None]; and
    [check_composite_info] with [check_flags] accepts it against an outline
    whose single component is placed by offset (10, -20), names the glyph
    of index 2 and has round-to-grid and use-my-metrics set and neither
    scaled-offset bit. *)
Theorem usemymetrics_offset_end_to_end
        (parseString : string -> Result (list Token))
        (name base_name : string) (glyph_order : list string) (flags : Z) :
  parseString usemymetrics_offset_text = Return usemymetrics_offset_tokens ->
  list_index base_name glyph_order = Return 2 ->
  has_flag flags ROUND_XY_TO_GRID = true ->
  has_flag flags USE_MY_METRICS = true ->
  has_flag flags SCALED_COMPONENT_OFFSET = false ->
  has_flag flags UNSCALED_COMPONENT_OFFSET = false ->
  transform_assembly parseString usemymetrics_offset_text []
    = Return (EmptyString, [OffsetComponent 2 10 (-20) true true None])
  /\ check_composite_info name [mkComp base_name flags (ByOffset 10 (-20))]
       [OffsetComponent 2 10 (-20) true true None] glyph_order true
     = Return tt.
Proof.
  intros Hparse Hidx Hr Hu Hs Hn. split.
  - unfold transform_assembly.
    change (strip usemymetrics_offset_text) with usemymetrics_offset_text.
    unfold usemymetrics_offset_text at 1. cbn [append nl].
    fold nl. change ("USEMYMETRICS[]" ++ nl ++ "OFFSET[R], 2, 10, -20")%string
      with usemymetrics_offset_text in *.
    rewrite Hparse. reflexivity.
  - unfold check_composite_info. cbn [List.length Nat.eqb negb].
    cbn [check_components]. unfold check_component.
    cbn [glyphName placement comp_flags vtt_index bind].
    rewrite Hidx. cbn [bind Z.eqb Pos.eqb negb].
    cbn [Z.eqb Z.opp Pos.eqb negb andb].
    replace (flag_differs flags ROUND_XY_TO_GRID true) with false
      by (symmetry; apply flag_differs_false; exact Hr).
    cbn [bind negb].
    replace (check_component_flags 0 name
               {| glyphName := base_name; comp_flags := flags;
                  placement := ByOffset 10 (-20) |}
               (OffsetComponent 2 10 (-20) true true None)) with (Return tt).
    + reflexivity.
    + symmetry. apply check_component_flags_succeeds. cbn. auto.
Qed.

Lemma usemymetrics_offset_end_to_end_witness :
  transform_assembly Parser.parseString usemymetrics_offset_text []
    = Return (EmptyString, [OffsetComponent 2 10 (-20) true true None])
  /\ check_composite_info "composite"
       [mkComp "b" (ROUND_XY_TO_GRID + USE_MY_METRICS) (ByOffset 10 (-20))]
       [OffsetComponent 2 10 (-20) true true None] [".notdef"; "a"; "b"] true
     = Return tt.
Proof.
  apply (usemymetrics_offset_end_to_end Parser.parseString "composite" "b"
           [".notdef"; "a"; "b"] (ROUND_XY_TO_GRID + USE_MY_METRICS));
    vm_compute; reflexivity.
Defined.

(** C5, as stated, fails: the outline described there (offset (10, -20),
    base index 2, round-to-grid set) does not carry use-my-metrics, and the
    check with [check_flags] rejects the declared component. *)
Lemma usemymetrics_offset_counterexample :
  transform_assembly Parser.parseString usemymetrics_offset_text []
    = Return (EmptyString, [OffsetComponent 2 10 (-20) true true None])
  /\ check_composite_info "composite"
       [mkComp "b" ROUND_XY_TO_GRID (ByOffset 10 (-20))]
       [OffsetComponent 2 10 (-20) true true None] [".notdef"; "a"; "b"] true
     = Raise (VTTLibInvalidComposite
                "Component 0 in 'composite' has wrong 'USE_MY_METRICS' flag.").
Proof. vm_compute. split; reflexivity. Qed.

(** C7.  With [check_flags], an outline component whose only flag is
    [SCALED_COMPONENT_OFFSET] and a declaration with [scaled_offset = True]
    agree, yet the check raises the [UNSCALED_COMPONENT_OFFSET] mismatch;
    the same happens for the flags that [set_components_flags] itself writes
    for that declaration, and for an unscaled declaration against an
    outline with only [UNSCALED_COMPONENT_OFFSET]. *)
Theorem check_flags_rejects_agreeing_scaled_offset :
  check_composite_info "composite"
    [mkComp "b" SCALED_COMPONENT_OFFSET (ByOffset 0 0)]
    [OffsetComponent 1 0 0 false false (Some true)] [".notdef"; "b"] true
  = Raise (VTTLibInvalidComposite
      "Component 0 in 'composite' has wrong 'UNSCALED_COMPONENT_OFFSET' flag.flag")
  /\ set_components_flags [mkComp "b" 0 (ByOffset 0 0)]
       [OffsetComponent 1 0 0 false false (Some true)] 6
     = Return [mkComp "b" SCALED_COMPONENT_OFFSET (ByOffset 0 0)]
  /\ check_composite_info "composite"
       [mkComp "b" UNSCALED_COMPONENT_OFFSET (ByOffset 0 0)]
       [OffsetComponent 1 0 0 false false (Some false)] [".notdef"; "b"] true
     = Raise (VTTLibInvalidComposite
         "Component 0 in 'composite' has wrong 'UNSCALED_COMPONENT_OFFSET' flag.flag").
Proof. vm_compute. repeat split; reflexivity. Qed.

(** ** Stored program text *)

Lemma bytes_ind_length (P : bytes -> Prop) :
  (forall d, (forall d', (List.length d' < List.length d)%nat -> P d') -> P d) ->
  forall d, P d.
Proof.
  intros H d.
  assert (G : forall n d, (List.length d < n)%nat -> P d).
  { induction n as [|n IH]; intros d' Hd; [lia|].
    apply H. intros d'' Hd''. apply IH. lia. }
  apply (G (S (List.length d))). lia.
Qed.

Lemma splitlines_nil (d : bytes) : splitlines d = [] -> d = [].
Proof.
  destruct d as [|c rest]; [reflexivity|]. cbn.
  destruct (Ascii.eqb c LF); [discriminate|].
  destruct (Ascii.eqb c CR).
  - destruct rest as [|c' rest']; [discriminate|].
    destruct (Ascii.eqb c' LF); discriminate.
  - destruct (splitlines rest); discriminate.
Qed.

Lemma join_bytes_empty_line (sep : bytes) (ls : list bytes) :
  join_bytes sep ([] :: ls) = match ls with [] => [] | _ => sep ++ join_bytes sep ls end.
Proof. destruct ls; reflexivity. Qed.

Lemma join_bytes_cons_char (sep : bytes) (c : ascii) (l : bytes) (ls : list bytes) :
  join_bytes sep ((c :: l) :: ls) = c :: join_bytes sep (l :: ls).
Proof. destruct ls; reflexivity. Qed.

(** After a terminator: the joined lines of the rest, preceded by the
    separator unless nothing follows. *)
Lemma join_after_break (rest : bytes) :
  let N := join_bytes [CR] ([] :: splitlines rest) in
  (join_bytes [CR] (splitlines rest) = breaks_to_cr rest \/
   join_bytes [CR] (splitlines rest) ++ [CR] = breaks_to_cr rest) ->
  N = CR :: breaks_to_cr rest \/ N ++ [CR] = CR :: breaks_to_cr rest.
Proof.
  intros N IH. subst N. rewrite join_bytes_empty_line.
  destruct (splitlines rest) as [|l ls] eqn:E.
  - apply splitlines_nil in E. subst rest. right. reflexivity.
  - destruct IH as [IH|IH]; [left | right]; cbn [app]; rewrite <- IH; reflexivity.
Qed.

Lemma join_splitlines (d : bytes) :
  join_bytes [CR] (splitlines d) = breaks_to_cr d \/
  join_bytes [CR] (splitlines d) ++ [CR] = breaks_to_cr d.
Proof.
  induction d as [d IH] using bytes_ind_length.
  destruct d as [|c rest]; [left; reflexivity|].
  cbn [splitlines breaks_to_cr].
  destruct (Ascii.eqb c LF).
  { apply join_after_break, IH. cbn. lia. }
  destruct (Ascii.eqb c CR).
  { destruct rest as [|c' rest'].
    - right. reflexivity.
    - destruct (Ascii.eqb c' LF).
      + apply join_after_break, IH. cbn. lia.
      + apply join_after_break, IH. cbn. lia. }
  assert (H : join_bytes [CR] (splitlines rest) = breaks_to_cr rest \/
              join_bytes [CR] (splitlines rest) ++ [CR] = breaks_to_cr rest)
    by (apply IH; cbn; lia).
  destruct (splitlines rest) as [|l ls] eqn:E.
  - apply splitlines_nil in E. subst rest. left. reflexivity.
  - rewrite join_bytes_cons_char.
    destruct H as [H|H]; [left | right]; cbn [app]; rewrite <- H; reflexivity.
Qed.

Lemma rstrip_all_space (w : bytes) : all_space w -> rstrip w = [].
Proof.
  induction 1 as [|c w Hc _ IH]; [reflexivity|].
  cbn. rewrite IH, Hc. reflexivity.
Qed.

Lemma rstrip_app_space (x w : bytes) : all_space w -> rstrip (x ++ w) = rstrip x.
Proof.
  intros Hw. induction x as [|c x IH]; cbn.
  - apply rstrip_all_space, Hw.
  - rewrite IH. reflexivity.
Qed.

Lemma rstrip_cons_congr (c : ascii) (x y : bytes) :
  rstrip x = rstrip y -> rstrip (c :: x) = rstrip (c :: y).
Proof. intros H. cbn. rewrite H. reflexivity. Qed.

Lemma rstrip_join_splitlines (d : bytes) :
  rstrip (join_bytes [CR] (splitlines d)) = rstrip (breaks_to_cr d).
Proof.
  destruct (join_splitlines d) as [H|H]; rewrite <- H; [reflexivity|].
  symmetry. apply rstrip_app_space. repeat constructor.
Qed.

Lemma breaks_to_cr_all_space (w : bytes) : all_space w -> all_space (breaks_to_cr w).
Proof.
  induction w as [w IH] using bytes_ind_length. intros Hw.
  destruct w as [|c rest]; [constructor|].
  inversion Hw as [|? ? Hc Hrest]; subst.
  assert (Hcr : bytes_isspace CR = true) by reflexivity.
  cbn [breaks_to_cr].
  destruct (Ascii.eqb c LF).
  { constructor; [exact Hcr|]. apply IH; [cbn; lia | exact Hrest]. }
  destruct (Ascii.eqb c CR).
  { destruct rest as [|c' rest'].
    - constructor; [exact Hcr | constructor].
    - destruct (Ascii.eqb c' LF).
      + constructor; [exact Hcr|]. apply IH; [cbn; lia|].
        inversion Hrest; assumption.
      + constructor; [exact Hcr|]. apply IH; [cbn; lia | exact Hrest]. }
  constructor; [exact Hc|]. apply IH; [cbn; lia | exact Hrest].
Qed.

Lemma rstrip_breaks_app_space (d w : bytes) :
  all_space w -> rstrip (breaks_to_cr (d ++ w)) = rstrip (breaks_to_cr d).
Proof.
  intros Hw. induction d as [d IH] using bytes_ind_length.
  destruct d as [|c rest].
  - cbn [app breaks_to_cr rstrip].
    apply rstrip_all_space, breaks_to_cr_all_space, Hw.
  - change ((c :: rest) ++ w) with (c :: (rest ++ w)).
    cbn [breaks_to_cr].
    destruct (Ascii.eqb c LF).
    { apply rstrip_cons_congr, IH. cbn. lia. }
    destruct (Ascii.eqb c CR).
    { destruct rest as [|c' rest'].
      - change ([] ++ w) with w.
        transitivity (@nil ascii); [|reflexivity].
        apply rstrip_all_space.
        destruct w as [|c' w']; [repeat constructor|].
        inversion Hw; subst.
        destruct (Ascii.eqb c' LF).
        + constructor; [reflexivity|]. apply breaks_to_cr_all_space. assumption.
        + constructor; [reflexivity|]. apply breaks_to_cr_all_space.
          constructor; assumption.
      - change ((c' :: rest') ++ w) with (c' :: (rest' ++ w)).
        cbv beta iota.
        destruct (Ascii.eqb c' LF).
        + apply rstrip_cons_congr, IH. cbn. lia.
        + apply rstrip_cons_congr. apply (IH (c' :: rest')). cbn. lia. }
    apply rstrip_cons_congr, IH. cbn. lia.
Qed.

Lemma stored_form_breaks (d : bytes) :
  stored_form d = rstrip (breaks_to_cr d) ++ [CR].
Proof. unfold stored_form. rewrite rstrip_join_splitlines. reflexivity. Qed.

Lemma rstrip_incl (x : bytes) (c : ascii) : In c (rstrip x) -> In c x.
Proof.
  induction x as [|a x IH]; cbn; [auto|].
  destruct (rstrip x) as [|b r].
  - destruct (bytes_isspace a); cbn; tauto.
  - cbn. intros [H|H]; [auto | right; apply IH; exact H].
Qed.

Lemma breaks_to_cr_no_lf (d : bytes) : ~ In LF (breaks_to_cr d).
Proof.
  induction d as [d IH] using bytes_ind_length.
  destruct d as [|c rest]; [cbn; tauto|].
  assert (Hne : CR <> LF) by discriminate.
  cbn [breaks_to_cr].
  destruct (Ascii.eqb c LF) eqn:E1.
  { intros [H|H]; [contradiction | revert H; apply IH; cbn; lia]. }
  destruct (Ascii.eqb c CR).
  { destruct rest as [|c' rest'].
    - cbn. intros [H|H]; [contradiction | exact H].
    - destruct (Ascii.eqb c' LF).
      + intros [H|H]; [contradiction | revert H; apply IH; cbn; lia].
      + intros [H|H]; [contradiction | revert H; apply (IH (c' :: rest')); cbn; lia]. }
  apply Ascii.eqb_neq in E1.
  intros [H|H]; [contradiction | revert H; apply IH; cbn; lia].
Qed.

Lemma rstrip_end (x b : bytes) (c : ascii) :
  rstrip x = b ++ [c] -> bytes_isspace c = false.
Proof.
  revert b. induction x as [|a x IH]; intros b; cbn.
  - destruct b; discriminate.
  - destruct (rstrip x) as [|r0 r] eqn:E.
    + destruct (bytes_isspace a) eqn:Ea.
      * destruct b; discriminate.
      * destruct b as [|b0 [|b1 b]]; cbn; intros H; inversion H; subst.
        exact Ea.
    + destruct b as [|b0 b]; cbn; intros H.
      * discriminate.
      * inversion H; subst. apply (IH b). assumption.
Qed.

Lemma breaks_plain_app (l x : bytes) :
  plain_line l -> breaks_to_cr (l ++ x) = l ++ breaks_to_cr x.
Proof.
  induction 1 as [|c l [Hcr Hlf] _ IH]; [reflexivity|].
  change ((c :: l) ++ x) with (c :: (l ++ x)). cbn [breaks_to_cr].
  apply Ascii.eqb_neq in Hcr, Hlf. rewrite Hcr, Hlf, IH. reflexivity.
Qed.

Lemma breaks_cr_cons (x : bytes) :
  match x with c :: _ => c <> LF | [] => True end ->
  breaks_to_cr (CR :: x) = CR :: breaks_to_cr x.
Proof.
  destruct x as [|c x]; intros H; [reflexivity|].
  apply Ascii.eqb_neq in H.
  change (breaks_to_cr (CR :: c :: x))
    with (if Ascii.eqb c LF then CR :: breaks_to_cr x
          else CR :: breaks_to_cr (c :: x)).
  rewrite H. reflexivity.
Qed.

Lemma join_cr_head (ls : list bytes) :
  Forall plain_line ls ->
  match join_bytes [CR] ls with c :: _ => c <> LF | [] => True end.
Proof.
  intros H. destruct H as [|l ls Hl Hls]; [exact I|].
  destruct l as [|c l].
  - rewrite join_bytes_empty_line. destruct ls; [exact I | discriminate].
  - rewrite join_bytes_cons_char. inversion Hl as [|? ? [_ Hlf] _]; subst.
    exact Hlf.
Qed.

Lemma breaks_join (sep : bytes) (lines : list bytes) :
  Forall plain_line lines ->
  sep = [LF] \/ sep = [CR; LF] \/ sep = [CR] ->
  breaks_to_cr (join_bytes sep lines) = join_bytes [CR] lines.
Proof.
  intros Hl Hsep. induction Hl as [|l ls Hl Hls IH]; [reflexivity|].
  destruct ls as [|l2 ls'].
  - cbn [join_bytes]. rewrite <- (app_nil_r l) at 1.
    rewrite breaks_plain_app by exact Hl. cbn. apply app_nil_r.
  - change (join_bytes sep (l :: l2 :: ls'))
      with (l ++ sep ++ join_bytes sep (l2 :: ls')).
    change (join_bytes [CR] (l :: l2 :: ls'))
      with (l ++ [CR] ++ join_bytes [CR] (l2 :: ls')).
    rewrite breaks_plain_app by exact Hl. f_equal.
    destruct Hsep as [->|[->| ->]].
    + change ([LF] ++ join_bytes [LF] (l2 :: ls'))
        with (LF :: join_bytes [LF] (l2 :: ls')).
      change (breaks_to_cr (LF :: join_bytes [LF] (l2 :: ls')))
        with (CR :: breaks_to_cr (join_bytes [LF] (l2 :: ls'))).
      rewrite IH. reflexivity.
    + change ([CR; LF] ++ join_bytes [CR; LF] (l2 :: ls'))
        with (CR :: LF :: join_bytes [CR; LF] (l2 :: ls')).
      change (breaks_to_cr (CR :: LF :: join_bytes [CR; LF] (l2 :: ls')))
        with (CR :: breaks_to_cr (join_bytes [CR; LF] (l2 :: ls'))).
      rewrite IH. reflexivity.
    + change ([CR] ++ join_bytes [CR] (l2 :: ls'))
        with (CR :: join_bytes [CR] (l2 :: ls')).
      rewrite breaks_cr_cons by (apply join_cr_head; exact Hls).
      rewrite IH. reflexivity.
Qed.

Lemma stored_form_join (sep : bytes) (lines : list bytes) :
  Forall plain_line lines ->
  sep = [LF] \/ sep = [CR; LF] \/ sep = [CR] ->
  stored_form (join_bytes sep lines) = rstrip (join_bytes [CR] lines) ++ [CR].
Proof.
  intros Hl Hsep. rewrite stored_form_breaks, breaks_join by assumption.
  reflexivity.
Qed.

Lemma replace_cr_no_cr (d : bytes) : ~ In CR (replace_cr d).
Proof.
  unfold replace_cr. rewrite in_map_iff. intros (c & Hc & _).
  destruct (Ascii.eqb c CR) eqn:E; [discriminate|].
  apply Ascii.eqb_neq in E. contradiction.
Qed.

Lemma set_then_stored (font : Font) (name : string) (data : bytes)
      (is_talk is_glyph : bool) :
  get_table font is_talk <> None ->
  exists font',
    set_vtt_program font name data is_talk is_glyph = inr font'
    /\ stored_program font' name is_talk is_glyph = Some (stored_form data)
    /\ get_vtt_program font' name is_talk is_glyph
       = inr (replace_cr (stored_form data)).
Proof.
  intros Ht. unfold set_vtt_program, get_vtt_program, stored_program.
  destruct (get_table font is_talk) as [t|] eqn:E; [|contradiction].
  eexists. split; [reflexivity|].
  unfold get_table, set_table, dict_set.
  destruct is_talk, is_glyph; cbn; rewrite String.eqb_refl; auto.
Qed.

(** C10.  [set_vtt_program] stores text in one canonical form.  The stored
    bytes hold no line feed (carriage return is the only line separator);
    they are a body that does not end in white space, hence in no blank
    line, followed by exactly one carriage return; appending white space to
    the input, or writing its lines with ["\n"], ["\r\n"] or ["\r"], leaves
    the stored bytes unchanged; and [get_vtt_program] returns them with
    every carriage return turned into a line feed. *)
Theorem set_vtt_program_canonical
        (font : Font) (name : string) (data w : bytes) (lines : list bytes)
        (is_talk is_glyph : bool) :
  get_table font is_talk <> None ->
  all_space w ->
  Forall plain_line lines ->
  exists font' body,
    set_vtt_program font name data is_talk is_glyph = inr font'
    /\ stored_program font' name is_talk is_glyph = Some (body ++ [CR])
    /\ ~ In LF (body ++ [CR])
    /\ (forall b c, body = b ++ [c] -> bytes_isspace c = false)
    /\ set_vtt_program font name (data ++ w) is_talk is_glyph = inr font'
    /\ stored_form (join_bytes [LF] lines) = stored_form (join_bytes [CR; LF] lines)
    /\ stored_form (join_bytes [LF] lines) = stored_form (join_bytes [CR] lines)
    /\ get_vtt_program font' name is_talk is_glyph = inr (replace_cr (body ++ [CR]))
    /\ ~ In CR (replace_cr (body ++ [CR])).
Proof.
  intros Ht Hw Hl.
  destruct (set_then_stored font name data is_talk is_glyph Ht)
    as (font' & Hset & Hst & Hget).
  exists font', (rstrip (breaks_to_cr data)).
  rewrite <- stored_form_breaks.
  repeat split.
  - exact Hset.
  - exact Hst.
  - rewrite stored_form_breaks, in_app_iff. intros [H|[H|[]]].
    + apply rstrip_incl in H. exact (breaks_to_cr_no_lf data H).
    + discriminate.
  - intros b c. apply rstrip_end.
  - rewrite <- Hset. unfold set_vtt_program.
    destruct (get_table font is_talk); [|reflexivity].
    replace (stored_form (data ++ w)) with (stored_form data); [reflexivity|].
    rewrite !stored_form_breaks, rstrip_breaks_app_space by exact Hw.
    reflexivity.
  - rewrite !stored_form_join by auto. reflexivity.
  - rewrite !stored_form_join by auto. reflexivity.
  - exact Hget.
  - apply replace_cr_no_cr.
Qed.

Lemma set_vtt_program_canonical_witness :
  exists font' body,
    set_vtt_program (mkFont (Some (mkTSI (fun _ => None) (fun _ => None))) None)
      "fpgm" (chars ("SVTCA[X]" ++ String CR nl ++ "IUP[X]")) false false
    = inr font'
    /\ stored_program font' "fpgm" false false = Some (body ++ [CR])
    /\ body ++ [CR] = chars ("SVTCA[X]" ++ String CR "IUP[X]" ++ String CR "")
    /\ get_vtt_program font' "fpgm" false false
       = inr (chars ("SVTCA[X]" ++ nl ++ "IUP[X]" ++ nl)).
Proof.
  destruct (set_vtt_program_canonical
              (mkFont (Some (mkTSI (fun _ => None) (fun _ => None))) None)
              "fpgm" (chars ("SVTCA[X]" ++ String CR nl ++ "IUP[X]"))
              (chars (" " ++ nl)) [chars "SVTCA[X]"; chars "IUP[X]"] false false)
    as (font' & body & Hset & Hst & _ & _ & _ & _ & _ & Hget & _).
  - discriminate.
  - repeat constructor.
  - repeat constructor; discriminate.
  - exists font', body.
    assert (Hbody : body ++ [CR]
                    = chars ("SVTCA[X]" ++ String CR "IUP[X]" ++ String CR "")).
    { assert (E : stored_program font' "fpgm" false false
                  = Some (chars ("SVTCA[X]" ++ String CR "IUP[X]" ++ String CR ""))).
      { revert Hset. vm_compute. intros H. injection H as <-. reflexivity. }
      rewrite Hst in E. injection E as E. exact E. }
    repeat split.
    + exact Hset.
    + exact Hst.
    + exact Hbody.
    + rewrite Hget, Hbody. reflexivity.
Defined.

(** ** The dispatch of [step] *)

Lemma step_dispatch (st : State) (t : Token) : step st t = step_branch st t.
Proof.
  unfold step, step_branch, classify, canonical. cbv zeta.
  repeat match goal with
         | |- context [String.eqb (mnemonic t) ?s] =>
             destruct (String.eqb_spec (mnemonic t) s) as [E|E];
             [rewrite ?E; reflexivity | clear E]
         end.
  destruct (is_delta (mnemonic t)); reflexivity.
Qed.

(** ** Lists as the code indexes them *)

Lemma bind_return {A B : Type} (r : Result A) (k : A -> Result B) (b : B) :
  bind r k = Return b -> exists a, r = Return a /\ k a = Return b.
Proof. destruct r as [a|e]; cbn; [eauto | discriminate]. Qed.

Lemma bind_raise {A B : Type} (r : Result A) (k : A -> Result B) (e : Exception) :
  bind r k = Raise e -> r = Raise e \/ exists a, r = Return a /\ k a = Raise e.
Proof. destruct r as [a|e']; cbn; [eauto | intros H; left; congruence]. Qed.

Lemma pop_snoc {A : Type} (l : list A) (x : A) : Py.pop (l ++ [x]) = Return (l, x).
Proof. unfold Py.pop. rewrite rev_app_distr. cbn. rewrite rev_involutive. reflexivity. Qed.

Lemma pop_nil {A : Type} : @Py.pop A [] = Raise IndexError.
Proof. reflexivity. Qed.

Lemma last_item_snoc {A : Type} (l : list A) (x : A) :
  Py.last_item (l ++ [x]) = Return x.
Proof. unfold Py.last_item. rewrite rev_app_distr. reflexivity. Qed.

Lemma list_snoc_cases {A : Type} (l : list A) :
  l = [] \/ exists r x, l = r ++ [x].
Proof.
  destruct l as [|a l] using rev_ind; [left; reflexivity | right; eauto].
Qed.

Lemma getitem_return {A : Type} (l : list A) (i : nat) (x : A) :
  Py.getitem l i = Return x <-> nth_error l i = Some x.
Proof.
  unfold Py.getitem. destruct (nth_error l i); split; congruence.
Qed.

Lemma setitem_return {A : Type} (l : list A) (i : nat) (y : A) (l' : list A) :
  Py.setitem l i y = Return l' ->
  (i < List.length l)%nat /\ List.length l' = List.length l /\
  forall j, nth_error l' j = if (j =? i)%nat then Some y else nth_error l j.
Proof.
  revert i l'. induction l as [|a l IH]; intros i l'; cbn; [discriminate|].
  destruct i as [|i].
  - intros H. injection H as <-. cbn. repeat split; [lia|].
    intros [|j]; reflexivity.
  - intros H. apply bind_return in H. destruct H as (l'' & H1 & H2).
    injection H2 as <-. destruct (IH _ _ H1) as (Hi & Hlen & Hnth).
    cbn. repeat split; [lia | lia |].
    intros [|j]; [reflexivity | apply Hnth].
Qed.

Lemma setitem_defined {A : Type} (l : list A) (i : nat) (y : A) :
  (i < List.length l)%nat -> exists l', Py.setitem l i y = Return l'.
Proof.
  revert i. induction l as [|a l IH]; intros i; cbn; [lia|].
  destruct i as [|i]; [eauto|].
  intros Hi. destruct (IH i) as (l' & ->); [lia|]. cbn. eauto.
Qed.

Lemma setitem_raise {A : Type} (l : list A) (i : nat) (y : A) (e : Exception) :
  Py.setitem l i y = Raise e -> (List.length l <= i)%nat.
Proof.
  intros H. destruct (Nat.lt_ge_cases i (List.length l)) as [Hi|Hi]; [|exact Hi].
  destruct (setitem_defined l i y Hi) as (l' & E). congruence.
Qed.

Lemma count_lines_app (p : string -> bool) (a b : list string) :
  count_lines p (a ++ b) = (count_lines p a + count_lines p b)%nat.
Proof. unfold count_lines. rewrite filter_app, length_app. reflexivity. Qed.

Lemma stream_lines_app (a b : list Entry) :
  stream_lines (a ++ b) = stream_lines a ++ stream_lines b.
Proof.
  induction a as [|[l|d] a IH]; cbn; [reflexivity | rewrite IH; reflexivity | exact IH].
Qed.

Lemma count_stream_snoc (p : string -> bool) (s : list Entry) (e : Entry) :
  count_stream p (s ++ [e]) = (count_stream p s + line_weight p e)%nat.
Proof.
  unfold count_stream. rewrite stream_lines_app, count_lines_app.
  destruct e as [l|d]; cbn; [|reflexivity].
  unfold count_lines. cbn. destruct (p l); reflexivity.
Qed.

Lemma count_stream_cons (p : string -> bool) (e : Entry) (s : list Entry) :
  count_stream p (e :: s) = (line_weight p e + count_stream p s)%nat.
Proof.
  unfold count_stream, count_lines. destruct e as [l|d]; cbn; [|reflexivity].
  destruct (p l); reflexivity.
Qed.

Lemma setitem_count (p : string -> bool) (s s' : list Entry) (i : nat)
      (y : Entry) (d : list Z) :
  Py.setitem s i y = Return s' -> nth_error s i = Some (Deque d) ->
  count_stream p s' = (count_stream p s + line_weight p y)%nat.
Proof.
  revert i s'. induction s as [|a s IH]; intros i s'; cbn [Py.setitem]; [discriminate|].
  destruct i as [|i].
  - intros H Hn. injection H as <-. cbn in Hn. injection Hn as ->.
    rewrite !count_stream_cons. cbn [line_weight]. lia.
  - intros H Hn. apply bind_return in H. destruct H as (s'' & H1 & H2).
    injection H2 as <-. cbn in Hn.
    rewrite !count_stream_cons, (IH _ _ H1 Hn). lia.
Qed.

Lemma NoDup_snoc {A : Type} (l : list A) (x : A) :
  NoDup (l ++ [x]) <-> NoDup l /\ ~ In x l.
Proof.
  split.
  - intros H. apply NoDup_rev in H. rewrite rev_app_distr in H. cbn in H.
    inversion H as [|? ? Hin Hnd]; subst. split.
    + apply NoDup_rev in Hnd. rewrite rev_involutive in Hnd. exact Hnd.
    + intros Hx. apply Hin, in_rev. rewrite rev_involutive. exact Hx.
  - intros [Hnd Hin]. rewrite <- (rev_involutive (l ++ [x])).
    apply NoDup_rev. rewrite rev_app_distr. cbn. constructor.
    + intros Hx. apply Hin, in_rev. exact Hx.
    + apply NoDup_rev. exact Hnd.
Qed.

(** ** The loop keeps its scopes in order *)

Lemma scope_open_lt (s : list Entry) (i : nat) :
  scope_open s i -> (i < List.length s)%nat.
Proof.
  intros (d & H). apply nth_error_Some. congruence.
Qed.

Lemma scope_open_app (s : list Entry) (e : Entry) (i : nat) :
  scope_open s i -> scope_open (s ++ [e]) i.
Proof.
  intros H. pose proof (scope_open_lt s i H) as Hi.
  destruct H as (d & H). exists d. rewrite nth_error_app1; assumption.
Qed.

Lemma scope_open_new (s : list Entry) :
  scope_open (s ++ [Deque []]) (List.length s).
Proof.
  exists []. rewrite nth_error_app2, Nat.sub_diag by lia. reflexivity.
Qed.

Lemma Forall_scope_open_app (s : list Entry) (e : Entry) (l : list nat) :
  Forall (scope_open s) l -> Forall (scope_open (s ++ [e])) l.
Proof.
  intros H. eapply Forall_impl; [|exact H]. intros i. apply scope_open_app.
Qed.

Lemma Inv_append_line (st : State) (l : string) : Inv st -> Inv (append_line l st).
Proof.
  intros [Hp H1 Hn Ho]. constructor; cbn.
  - rewrite length_app, Hp. cbn. lia.
  - lia.
  - exact Hn.
  - apply Forall_scope_open_app, Ho.
Qed.

Lemma Inv_same (st st' : State) :
  pos st' = pos st -> stream st' = stream st ->
  push_indexes st' = push_indexes st -> Inv st -> Inv st'.
Proof.
  intros Hp Hs Hi [H1 H2 H3 H4].
  constructor; rewrite ?Hp, ?Hs, ?Hi; assumption.
Qed.

Lemma render_scope_open (s : list Entry) (pi : nat) (d : list Z) :
  nth_error s pi = Some (Deque d) ->
  exists s',
    render_scope s pi = Return s'
    /\ List.length s' = List.length s
    /\ (forall j, j <> pi -> nth_error s' j = nth_error s j)
    /\ nth_error s' pi
       = Some (match d with [] => Deque [] | _ => Line (push_line d) end)
    /\ forall p, count_stream p s'
                 = (count_stream p s +
                    match d with [] => 0 | _ => line_weight p (Line (push_line d)) end)%nat.
Proof.
  intros Hn. unfold render_scope.
  rewrite (proj2 (getitem_return s pi (Deque d)) Hn). cbn [bind].
  destruct d as [|z d].
  - exists s. repeat split; auto.
  - destruct (setitem_defined s pi (Line (push_line (z :: d)))) as (s' & Hs).
    { apply nth_error_Some. congruence. }
    exists s'. rewrite Hs.
    destruct (setitem_return _ _ _ _ Hs) as (_ & Hlen & Hnth).
    repeat split.
    + exact Hlen.
    + intros j Hj. rewrite Hnth.
      destruct (Nat.eqb_spec j pi); [contradiction | reflexivity].
    + rewrite Hnth, Nat.eqb_refl. reflexivity.
    + intros p. apply (setitem_count p s s' pi _ (z :: d) Hs Hn).
Qed.

Lemma current_stack_return (st : State) (pi : nat) (d : list Z) :
  current_stack st = Return (pi, d) ->
  (exists r, push_indexes st = r ++ [pi]) /\ nth_error (stream st) pi = Some (Deque d).
Proof.
  unfold current_stack. intros H.
  apply bind_return in H. destruct H as (pi' & H1 & H).
  apply bind_return in H. destruct H as (e & H2 & H).
  destruct e as [l|d']; [discriminate|]. injection H as <- <-.
  apply getitem_return in H2. split; [|exact H2].
  destruct (list_snoc_cases (push_indexes st)) as [E|(r & x & E)]; rewrite E in H1.
  - discriminate.
  - rewrite last_item_snoc in H1. injection H1 as ->. eauto.
Qed.

Lemma current_stack_open (st : State) (r : list nat) (pi : nat) :
  Inv st -> push_indexes st = r ++ [pi] ->
  exists d, current_stack st = Return (pi, d)
            /\ nth_error (stream st) pi = Some (Deque d).
Proof.
  intros HI E. pose proof (inv_open st HI) as Ho. rewrite E in Ho.
  apply Forall_app in Ho. destruct Ho as (_ & Ho).
  inversion Ho as [|? ? (d & Hd) _]; subst.
  exists d. split; [|exact Hd].
  unfold current_stack. rewrite E, last_item_snoc. cbn [bind].
  rewrite (proj2 (getitem_return _ _ _) Hd). reflexivity.
Qed.

(** Replacing the deque of an open scope by a deque keeps the invariant. *)
Lemma Inv_setitem_deque (st : State) (pi : nat) (d : list Z) (s : list Entry) :
  Inv st -> Py.setitem (stream st) pi (Deque d) = Return s ->
  Inv (with_stream s st).
Proof.
  intros [Hp H1 Hn Ho] Hs.
  destruct (setitem_return _ _ _ _ Hs) as (_ & Hlen & Hnth).
  constructor; cbn.
  - rewrite Hlen. exact Hp.
  - exact H1.
  - exact Hn.
  - eapply Forall_impl; [|exact Ho]. intros j (dj & Hj).
    unfold scope_open. rewrite Hnth.
    destruct (j =? pi)%nat; eauto.
Qed.

Lemma step_inv (st st' : State) (t : Token) :
  Inv st -> step st t = Return st' -> Inv st'.
Proof.
  intros HI. rewrite step_dispatch. unfold step_branch.
  destruct (classify (mnemonic t)).
  - intros H. injection H as <-. exact HI.
  - intros H. injection H as <-. revert HI. apply Inv_same; reflexivity.
  - intros H. injection H as <-. revert HI. apply Inv_same; reflexivity.
  - intros H. injection H as <-. revert HI. apply Inv_same; reflexivity.
  - destruct (stack_items t) as [|? [|? [|? [|]]]]; try discriminate.
    intros H. injection H as <-. revert HI. apply Inv_same; reflexivity.
  - destruct (stack_items t) as [|? [|? [|? [|]]]]; try discriminate.
    intros H. injection H as <-. apply Inv_append_line.
    revert HI. apply Inv_same; reflexivity.
  - intros H. injection H as <-. revert HI. apply Inv_same; reflexivity.
  - intros H. injection H as <-. revert HI. apply Inv_same; reflexivity.
  - intros H. injection H as <-. destruct HI as [Hp H1 Hn Ho].
    constructor; cbn.
    + rewrite length_app, Hp. cbn. lia.
    + lia.
    + apply NoDup_snoc. split; [exact Hn|].
      intros Hin. rewrite Forall_forall in Ho.
      apply Ho, scope_open_lt in Hin. lia.
    + apply Forall_app. split.
      * apply Forall_scope_open_app, Ho.
      * constructor; [|constructor]. rewrite Hp. apply scope_open_new.
  - intros H. apply bind_return in H. destruct H as ([rest pi] & Hpop & H).
    apply bind_return in H. destruct H as (s & Hr & H). injection H as <-.
    destruct (list_snoc_cases (push_indexes st)) as [E|(r & x & E)];
      rewrite E in Hpop; [discriminate|].
    rewrite pop_snoc in Hpop. injection Hpop as <- <-.
    destruct HI as [Hp H1 Hn Ho]. rewrite E in Hn, Ho.
    apply NoDup_snoc in Hn. destruct Hn as (Hn & Hx).
    apply Forall_app in Ho. destruct Ho as (Ho & Hox).
    inversion Hox as [|? ? (d & Hd) _]; subst.
    destruct (render_scope_open _ _ _ Hd) as (s' & Hr' & Hlen & Hother & _).
    rewrite Hr' in Hr. injection Hr as <-.
    constructor; cbn.
    + rewrite Hlen. exact Hp.
    + exact H1.
    + exact Hn.
    + rewrite Forall_forall in Ho |- *. intros j Hj.
      destruct (Ho j Hj) as (dj & Hdj). exists dj.
      rewrite Hother; [exact Hdj|]. intros ->. contradiction.
  - intros H. injection H as <-. apply Inv_append_line, HI.
  - intros H.
    apply bind_return in H. destruct H as (_ & _ & H).
    apply bind_return in H. destruct H as (_ & _ & H).
    apply bind_return in H. destruct H as ([pi stack] & Hc & H).
    apply bind_return in H. destruct H as ([db stack'] & He & H).
    apply bind_return in H. destruct H as (s & Hs & H). injection H as <-.
    apply Inv_append_line.
    apply (Inv_same (with_stream s st)); try reflexivity.
    apply (Inv_setitem_deque st pi stack' s HI Hs).
  - intros H. apply bind_return in H. destruct H as (st1 & H1 & H).
    injection H as <-. apply Inv_append_line.
    destruct (push_on st).
    + destruct (stack_items t) as [|z items].
      * injection H1 as <-. exact HI.
      * apply bind_return in H1. destruct H1 as ([pi stack] & Hc & H1).
        apply bind_return in H1. destruct H1 as (s & Hs & H1). injection H1 as <-.
        apply (Inv_setitem_deque st pi _ s HI Hs).
    + apply bind_return in H1. destruct H1 as (_ & _ & H1). injection H1 as <-.
      exact HI.
Qed.

Lemma initial_inv (comps : list Component) : Inv (initial_state comps).
Proof.
  constructor; cbn.
  - reflexivity.
  - lia.
  - constructor; [intros [] | constructor].
  - constructor; [exists []; reflexivity | constructor].
Qed.

Lemma run_cons_return (st st' : State) (t : Token) (ts : list Token) :
  run st (t :: ts) = Return st' ->
  exists st1, step st t = Return st1 /\ run st1 ts = Return st'.
Proof. cbn. apply bind_return. Qed.

Lemma run_inv (ts : list Token) (st st' : State) :
  Inv st -> run st ts = Return st' -> Inv st'.
Proof.
  revert st. induction ts as [|t ts IH]; intros st HI H.
  - injection H as <-. exact HI.
  - apply run_cons_return in H. destruct H as (st1 & H1 & H2).
    apply (IH st1); [eapply step_inv; eassumption | exact H2].
Qed.

(** ** Scope markers and the closing assertion *)

Lemma push_delta_raise m p spec acc e :
  push_delta m p spec acc = Raise e -> e = UnboundLocalError.
Proof.
  unfold push_delta. destruct spec as [rel step_no], acc as [db stack].
  destruct (is_long_delta m); [|discriminate].
  destruct (assign_delta_base m db); cbn; [discriminate | congruence].
Qed.

Lemma push_delta_specs_raise m p specs acc e :
  push_delta_specs m p specs acc = Raise e -> e = UnboundLocalError.
Proof.
  revert acc. induction specs as [|spec specs IH]; intros acc; cbn; [discriminate|].
  intros H. apply bind_raise in H. destruct H as [H|(acc' & _ & H)].
  - eapply push_delta_raise, H.
  - eapply IH, H.
Qed.

Lemma push_delta_groups_raise m groups acc e :
  push_delta_groups m groups acc = Raise e -> e = UnboundLocalError.
Proof.
  revert acc. induction groups as [|[p specs] groups IH]; intros acc; cbn;
    [discriminate|].
  intros H. apply bind_raise in H. destruct H as [H|(acc' & _ & H)].
  - eapply push_delta_specs_raise, H.
  - eapply IH, H.
Qed.

Lemma encode_deltas_raise m ds db stack e :
  encode_deltas m ds db stack = Raise e -> e = UnboundLocalError.
Proof. apply push_delta_groups_raise. Qed.

Lemma assert_raise (b : bool) (e : Exception) :
  assert b = Raise e -> e = AssertionError.
Proof. destruct b; cbn; congruence. Qed.

(** How one iteration changes [push_indexes]. *)
Lemma step_push_indexes (st st' : State) (t : Token) :
  step st t = Return st' ->
  match classify (mnemonic t) with
  | KBegin => push_indexes st' = push_indexes st ++ [pos st]
  | KEnd => exists pi, push_indexes st = push_indexes st' ++ [pi]
  | _ => push_indexes st' = push_indexes st
  end.
Proof.
  rewrite step_dispatch. unfold step_branch.
  destruct (classify (mnemonic t));
    try (intros H; injection H as <-; reflexivity).
  - destruct (stack_items t) as [|? [|? [|? [|]]]]; try discriminate.
    intros H. injection H as <-. reflexivity.
  - destruct (stack_items t) as [|? [|? [|? [|]]]]; try discriminate.
    intros H. injection H as <-. reflexivity.
  - intros H. apply bind_return in H. destruct H as ([rest pi] & Hpop & H).
    apply bind_return in H. destruct H as (s & Hr & H). injection H as <-.
    destruct (list_snoc_cases (push_indexes st)) as [E|(r & x & E)];
      rewrite E in Hpop; [discriminate|].
    rewrite pop_snoc in Hpop. injection Hpop as <- <-.
    exists x. exact E.
  - intros H.
    apply bind_return in H. destruct H as (_ & _ & H).
    apply bind_return in H. destruct H as (_ & _ & H).
    apply bind_return in H. destruct H as ([pi stack] & Hc & H).
    apply bind_return in H. destruct H as ([db stack'] & He & H).
    apply bind_return in H. destruct H as (s & Hs & H). injection H as <-.
    reflexivity.
  - intros H. apply bind_return in H. destruct H as (st1 & H1 & H).
    injection H as <-. cbn.
    destruct (push_on st).
    + destruct (stack_items t) as [|z items].
      * injection H1 as <-. reflexivity.
      * apply bind_return in H1. destruct H1 as ([pi stack] & Hc & H1).
        apply bind_return in H1. destruct H1 as (s & Hs & H1). injection H1 as <-.
        reflexivity.
    + apply bind_return in H1. destruct H1 as (_ & _ & H1). injection H1 as <-.
      reflexivity.
Qed.

Lemma step_depth (depth : option nat) (st st' : State) (t : Token) :
  Inv st -> depth_inv depth st -> step st t = Return st' ->
  depth_inv (next_depth depth t) st'.
Proof.
  intros HI HD H. apply step_push_indexes in H.
  unfold next_depth, scope_depth.
  destruct (classify (mnemonic t));
    try (destruct depth as [[|d]|]; cbn in *; rewrite H; exact HD).
  - destruct depth as [d|]; cbn in *.
    + destruct HD as (l & E & Hl). exists (l ++ [pos st]).
      rewrite H, E, length_app. cbn. split; [reflexivity | lia].
    + rewrite H, in_app_iff. intros [Hin|[Hin|[]]]; [contradiction|].
      pose proof (inv_pos_1 st HI). lia.
  - destruct H as (pi & E). destruct depth as [d|]; cbn in *.
    + destruct HD as (l & El & Hl). rewrite El in E.
      destruct (list_snoc_cases l) as [->|(l' & x & ->)].
      * cbn in Hl. subst d. cbn.
        destruct (push_indexes st') as [|a [|b r]]; cbn in E.
        -- cbn. tauto.
        -- discriminate.
        -- destruct r; discriminate.
      * rewrite length_app in Hl. cbn in Hl.
        destruct d as [|d]; [lia|]. cbn.
        change (O :: l' ++ [x]) with ((O :: l') ++ [x]) in E.
        apply app_inj_tail in E. destruct E as (E & _).
        exists l'. split; [symmetry; exact E | lia].
    + intros Hin. apply HD. rewrite E, in_app_iff. left. exact Hin.
Qed.

Lemma scope_depth_cons (depth : option nat) (t : Token) (ts : list Token) :
  scope_depth depth (t :: ts) = scope_depth (next_depth depth t) ts.
Proof.
  unfold next_depth. cbn.
  destruct (classify (mnemonic t)), depth as [[|d]|]; reflexivity.
Qed.

Lemma scope_depth_none (ts : list Token) : scope_depth None ts = None.
Proof.
  induction ts as [|t ts IH]; [reflexivity|]. cbn.
  destruct (classify (mnemonic t)); exact IH.
Qed.

Lemma run_depth (ts : list Token) (depth : option nat) (st st' : State) :
  Inv st -> depth_inv depth st -> run st ts = Return st' ->
  depth_inv (scope_depth depth ts) st'.
Proof.
  revert depth st. induction ts as [|t ts IH]; intros depth st HI HD H.
  - injection H as <-. exact HD.
  - apply run_cons_return in H. destruct H as (st1 & H1 & H2).
    rewrite scope_depth_cons.
    apply (IH _ st1); [eapply step_inv | eapply step_depth | ]; eassumption.
Qed.

(** With a scope open, an iteration fails only on the token itself. *)
Lemma step_raise (st : State) (t : Token) (e : Exception) :
  Inv st -> push_indexes st <> [] -> step st t = Raise e -> token_error e.
Proof.
  intros HI Hne. rewrite step_dispatch. unfold step_branch, token_error.
  destruct (list_snoc_cases (push_indexes st)) as [E|(r & pi & E)];
    [contradiction|].
  destruct (current_stack_open st r pi HI E) as (d & Hc & Hd).
  destruct (classify (mnemonic t)); try discriminate.
  - destruct (stack_items t) as [|? [|? [|? [|]]]]; try discriminate;
      intros H; injection H as <-; auto.
  - destruct (stack_items t) as [|? [|? [|? [|]]]]; try discriminate;
      intros H; injection H as <-; auto.
  - rewrite E, pop_snoc. cbn [bind].
    destruct (render_scope_open _ _ _ Hd) as (s' & -> & _). discriminate.
  - intros H. apply bind_raise in H. destruct H as [H|(_ & _ & H)].
    { apply assert_raise in H. auto. }
    apply bind_raise in H. destruct H as [H|(_ & _ & H)].
    { apply assert_raise in H. auto. }
    rewrite Hc in H. cbn [bind] in H.
    apply bind_raise in H. destruct H as [H|([db stack'] & _ & H)].
    { apply encode_deltas_raise in H. auto. }
    apply bind_raise in H. destruct H as [H|(s & _ & H)]; [|discriminate].
    apply setitem_raise in H. apply nth_error_None in H. congruence.
  - intros H. apply bind_raise in H. destruct H as [H|(st1 & _ & H)];
      [|discriminate].
    destruct (push_on st).
    + destruct (stack_items t) as [|z items]; [discriminate|].
      rewrite Hc in H. cbn [bind] in H.
      apply bind_raise in H. destruct H as [H|(s & _ & H)]; [|discriminate].
      apply setitem_raise in H. apply nth_error_None in H. congruence.
    + apply bind_raise in H. destruct H as [H|(_ & _ & H)]; [|discriminate].
      apply assert_raise in H. auto.
Qed.

Lemma run_raise (ts : list Token) (depth : option nat) (st : State) (e : Exception) :
  Inv st -> depth_inv depth st -> scope_depth depth ts <> None ->
  run st ts = Raise e -> token_error e.
Proof.
  revert depth st. induction ts as [|t ts IH]; intros depth st HI HD Hs H;
    [discriminate|].
  cbn in H. apply bind_raise in H.
  destruct depth as [d|]; [|rewrite scope_depth_none in Hs; contradiction].
  destruct H as [H|(st1 & H1 & H)].
  - apply (step_raise st t e HI); [|exact H].
    destruct HD as (l & -> & _). discriminate.
  - rewrite scope_depth_cons in Hs.
    apply (IH (next_depth (Some d) t) st1); try assumption.
    + eapply step_inv; eassumption.
    + eapply step_depth; eassumption.
Qed.

Lemma initial_depth (comps : list Component) :
  depth_inv (Some O) (initial_state comps).
Proof. exists []. split; reflexivity. Qed.

Lemma finish_return (st : State) (ls : list string) :
  finish st = Return ls -> push_indexes st = [O].
Proof.
  unfold finish. intros H. apply bind_return in H. destruct H as (u & Ha & _).
  destruct (push_indexes st) as [|[|i] [|j r]]; try discriminate. reflexivity.
Qed.

Lemma finish_unbalanced (st : State) :
  push_indexes st <> [O] -> finish st = Raise AssertionError.
Proof.
  unfold finish. intros H.
  destruct (push_indexes st) as [|[|i] [|j r]]; try reflexivity. contradiction.
Qed.

Lemma depth_inv_root (depth : option nat) (st : State) :
  depth_inv depth st -> push_indexes st = [O] -> depth = Some O.
Proof.
  destruct depth as [d|]; cbn.
  - intros (l & E & Hl) H. rewrite H in E. injection E as <-. subst d. reflexivity.
  - intros Hn H. rewrite H in Hn. cbn in Hn. tauto.
Qed.

(** C4, as amended.  When [transform_assembly] gets through its tokens and
    returns, [push_indexes] is [[0]]: the root scope alone is open, and the
    markers were balanced.  Unbalanced markers always make it fail.  While
    no [#END] lacks its [#BEGIN], the loop raises nothing but the
    exceptions of single tokens (assertions, operand counts, an unset
    delta base), and an imbalance then shows as the [AssertionError] of
    the closing assertion once the loop is over. *)
Theorem scope_balance (ts : list Token) (comps : list Component) :
  (forall r, transform_lines ts comps = Return r ->
     exists st, run (initial_state comps) ts = Return st
                /\ push_indexes st = [O] /\ balanced ts = true)
  /\ (balanced ts = false -> exists e, transform_lines ts comps = Raise e)
  /\ (no_surplus_end ts = true ->
      forall e, run (initial_state comps) ts = Raise e -> token_error e)
  /\ (balanced ts = false ->
      forall st, run (initial_state comps) ts = Return st ->
                 transform_lines ts comps = Raise AssertionError).
Proof.
  assert (A : forall r, transform_lines ts comps = Return r ->
     exists st, run (initial_state comps) ts = Return st
                /\ push_indexes st = [O] /\ balanced ts = true).
  { intros r H. unfold transform_lines in H.
    apply bind_return in H. destruct H as (st & Hrun & H).
    apply bind_return in H. destruct H as (ls & Hfin & _).
    exists st. apply finish_return in Hfin.
    pose proof (run_depth ts (Some O) _ st (initial_inv comps)
                  (initial_depth comps) Hrun) as HD.
    apply depth_inv_root in HD; [|exact Hfin].
    unfold balanced. rewrite HD. auto. }
  split; [exact A|]. split; [|split].
  - intros Hb. destruct (transform_lines ts comps) as [r|e] eqn:E; [|eauto].
    destruct (A r eq_refl) as (_ & _ & _ & Hb'). congruence.
  - intros Hs e. apply (run_raise ts (Some O)).
    + apply initial_inv.
    + apply initial_depth.
    + unfold no_surplus_end in Hs.
      destruct (scope_depth (Some O) ts); [discriminate | discriminate].
  - intros Hb st Hrun. unfold transform_lines. rewrite Hrun. cbn [bind].
    rewrite finish_unbalanced; [reflexivity|].
    intros Hroot.
    pose proof (run_depth ts (Some O) _ st (initial_inv comps)
                  (initial_depth comps) Hrun) as HD.
    apply depth_inv_root in HD; [|exact Hroot].
    unfold balanced in Hb. rewrite HD in Hb. discriminate.
Qed.

Lemma scope_balance_witness :
  transform_lines [tok "#BEGIN" "" []; tok "SRP0" "" [3]] []
  = Raise AssertionError.
Proof.
  destruct (scope_balance [tok "#BEGIN" "" []; tok "SRP0" "" [3]] [])
    as (_ & _ & _ & H).
  refine (H _ _ _); [reflexivity|].
  vm_compute. reflexivity.
Defined.

(** C4, as stated, fails: a second surplus [#END] finds [push_indexes]
    empty, and the loop stops there with an [IndexError], before the last
    token and before the closing assertion are reached. *)
Lemma scope_error_mid_stream :
  run (initial_state []) [tok "#END" "" []; tok "#END" "" []] = Raise IndexError
  /\ transform_tokens [tok "#END" "" []; tok "#END" "" []; tok "SVTCA" "0" []] []
     = Raise IndexError.
Proof. vm_compute. split; reflexivity. Qed.

(** ** Lines by their tag *)

Lemma lacks_cons (c a : ascii) (s : string) :
  lacks c (String a s) = true -> a <> c /\ lacks c s = true.
Proof.
  unfold lacks. cbn. intros H. apply andb_true_iff in H. destruct H as (H1 & H2).
  apply negb_true_iff, Ascii.eqb_neq in H1. auto.
Qed.

(** A line [m[...]] carries the tag [tag[] only if [m] is [tag]. *)
Lemma prefix_tag (tag m rest : string) :
  lacks "[" tag = true -> lacks "[" m = true ->
  String.prefix (tag ++ "[") (m ++ "[" ++ rest) = true -> m = tag.
Proof.
  revert m. induction tag as [|a tag IH]; intros m Ht Hm.
  - destruct m as [|c m]; [reflexivity|].
    apply lacks_cons in Hm. destruct Hm as (Hc & _). cbn [String.prefix append].
    destruct (ascii_dec "[" c) as [<-|]; [contradiction | discriminate].
  - apply lacks_cons in Ht. destruct Ht as (Ha & Ht).
    destruct m as [|c m]; cbn [String.prefix append].
    + destruct (ascii_dec a "[") as [->|]; [contradiction | discriminate].
    + apply lacks_cons in Hm. destruct Hm as (_ & Hm).
      destruct (ascii_dec a c) as [<-|]; [|discriminate].
      intros H. f_equal. apply IH; assumption.
Qed.

Lemma instruction_line_tag (tag m f : string) :
  lacks "[" tag = true -> lacks "[" m = true ->
  Py.startswith (instruction_line m f) (tag ++ "[") = true -> m = tag.
Proof. intros Ht Hm. unfold Py.startswith, instruction_line. apply prefix_tag; assumption. Qed.

Lemma classify_anchor (m : string) : classify m = KAnchor -> m = "ANCHOR".
Proof.
  unfold classify.
  repeat match goal with
         | |- context [String.eqb m ?s] =>
             destruct (String.eqb_spec m s) as [E|E];
             [first [discriminate | intros _; exact E] | clear E]
         end.
  destruct (is_delta m); discriminate.
Qed.

Lemma classify_other (m : string) :
  classify m = KOther -> m <> "ANCHOR" /\ m <> "OFFSET".
Proof.
  unfold classify.
  destruct (String.eqb_spec m "OVERLAP"); [discriminate|].
  destruct (String.eqb_spec m "USEMYMETRICS"); [discriminate|].
  destruct (String.eqb_spec m "SCALEDCOMPONENTOFFSET"); [discriminate|].
  destruct (String.eqb_spec m "UNSCALEDCOMPONENTOFFSET"); [discriminate|].
  destruct (String.eqb_spec m "OFFSET"); [discriminate|].
  destruct (String.eqb_spec m "ANCHOR"); [discriminate|].
  auto.
Qed.

Lemma classify_delta (m : string) : classify m = KDelta -> is_delta m = true.
Proof.
  unfold classify.
  repeat match goal with
         | |- context [String.eqb m ?s] =>
             destruct (String.eqb_spec m s) as [E|E]; [discriminate | clear E]
         end.
  destruct (is_delta m); [reflexivity | discriminate].
Qed.

Lemma prefix_D (p m : string) :
  String.prefix (String "D" p) m = true -> exists r, m = String "D" r.
Proof.
  destruct m as [|c m]; cbn [String.prefix]; [discriminate|].
  destruct (ascii_dec "D" c) as [<-|]; [eauto | discriminate].
Qed.

Lemma is_delta_D (m : string) : is_delta m = true -> exists r, m = String "D" r.
Proof.
  unfold is_delta, Py.startswith. intros H.
  repeat (apply orb_true_iff in H; destruct H as [H|H]);
    eapply prefix_D; exact H.
Qed.

Lemma canonical_D (m : string) :
  is_delta m = true -> exists r, canonical m = String "D" r.
Proof.
  intros H. destruct (is_delta_D m H) as (r & ->).
  unfold canonical, Py.startswith.
  destruct (String.prefix "DLT" (String "D" r)) eqn:E; [|eauto].
  unfold Py.replace. cbn [Py.replace_from]. rewrite E. cbn. eauto.
Qed.

Lemma delta_line_untagged (m f : string) (a : ascii) (tag : string) :
  is_delta m = true -> a <> "D"%char ->
  Py.startswith (instruction_line (canonical m) f) (String a tag) = false.
Proof.
  intros H Ha. destruct (canonical_D m H) as (r & ->).
  unfold Py.startswith, instruction_line. cbn [String.prefix append].
  destruct (ascii_dec a "D"); [contradiction | reflexivity].
Qed.

Lemma anchor_tag : instruction_tag is_anchor_line.
Proof. repeat split; intros; reflexivity. Qed.

Lemma offset_tag : instruction_tag is_offset_line.
Proof. repeat split; intros; reflexivity. Qed.

Lemma count_lines_one (p : string -> bool) (l : string) :
  count_lines p [l] = if p l then 1%nat else 0%nat.
Proof. unfold count_lines. cbn. destruct (p l); reflexivity. Qed.

Lemma step_count (p : string -> bool) (st st' : State) (t : Token) :
  instruction_tag p -> Inv st -> step st t = Return st' ->
  count_stream p (stream st')
  = (count_stream p (stream st) + count_lines p (emitted_by t))%nat.
Proof.
  intros (Hpush & Hpush' & _) HI. rewrite step_dispatch.
  unfold step_branch, emitted_by.
  destruct (classify (mnemonic t)) eqn:K;
    try (intros H; injection H as <-; unfold count_stream, count_lines; cbn; lia).
  - destruct (stack_items t) as [|? [|? [|? [|]]]]; try discriminate.
    intros H. injection H as <-. unfold count_stream, count_lines. cbn. lia.
  - destruct (stack_items t) as [|? [|? [|? [|]]]]; try discriminate.
    intros H. injection H as <-. cbn [stream append_line with_scopes].
    rewrite count_stream_snoc, count_lines_one. reflexivity.
  - intros H. injection H as <-. cbn [stream with_scopes].
    rewrite count_stream_snoc. cbn [line_weight].
    change (count_lines p []) with O. lia.
  - intros H. apply bind_return in H. destruct H as ([rest pi] & Hpop & H).
    apply bind_return in H. destruct H as (s & Hr & H). injection H as <-.
    destruct (list_snoc_cases (push_indexes st)) as [E|(r & x & E)];
      rewrite E in Hpop; [discriminate|].
    rewrite pop_snoc in Hpop. injection Hpop as <- <-.
    destruct (current_stack_open st r x HI E) as (d & _ & Hd).
    destruct (render_scope_open _ _ _ Hd) as (s' & Hr' & _ & _ & _ & Hcount).
    rewrite Hr' in Hr. injection Hr as <-. cbn [stream with_scopes].
    rewrite Hcount. change (count_lines p []) with O.
    destruct d; cbn [line_weight]; [lia|]. rewrite Hpush. lia.
  - intros H. injection H as <-. cbn [stream append_line with_scopes].
    rewrite count_stream_snoc. cbn [line_weight]. rewrite Hpush.
    change (count_lines p []) with O. lia.
  - intros H.
    apply bind_return in H. destruct H as (u1 & _ & H).
    apply bind_return in H. destruct H as (u2 & _ & H).
    apply bind_return in H. destruct H as ([pi stack] & Hc & H).
    apply bind_return in H. destruct H as ([db stack'] & He & H).
    apply bind_return in H. destruct H as (s & Hs & H). injection H as <-.
    apply current_stack_return in Hc. destruct Hc as (_ & Hd).
    cbn [stream append_line with_scopes with_delta_base with_stream push_indexes pos].
    rewrite count_stream_snoc, count_lines_one.
    rewrite (setitem_count p _ _ _ _ _ Hs Hd). cbn [line_weight]. lia.
  - intros H. apply bind_return in H. destruct H as (st1 & H1 & H).
    injection H as <-. cbn [stream append_line with_scopes].
    rewrite count_stream_snoc, count_lines_one. cbn [line_weight].
    f_equal.
    destruct (push_on st).
    + destruct (stack_items t) as [|z items].
      * injection H1 as <-. reflexivity.
      * apply bind_return in H1. destruct H1 as ([pi stack] & Hc & H1).
        apply bind_return in H1. destruct H1 as (s & Hs & H1). injection H1 as <-.
        apply current_stack_return in Hc. destruct Hc as (_ & Hd).
        cbn [stream with_stream with_scopes].
        rewrite (setitem_count p _ _ _ _ _ Hs Hd). cbn [line_weight]. lia.
    + apply bind_return in H1. destruct H1 as (u & _ & H1). injection H1 as <-.
      reflexivity.
Qed.

Lemma run_count (p : string -> bool) (ts : list Token) (st st' : State) :
  instruction_tag p -> Inv st -> run st ts = Return st' ->
  count_stream p (stream st')
  = (count_stream p (stream st) + count_lines p (flat_map emitted_by ts))%nat.
Proof.
  intros Hp. revert st. induction ts as [|t ts IH]; intros st HI H.
  - injection H as <-. cbn. unfold count_lines. cbn. lia.
  - apply run_cons_return in H. destruct H as (st1 & H1 & H2).
    cbn [flat_map]. rewrite count_lines_app.
    rewrite (IH st1 (step_inv _ _ _ HI H1) H2).
    rewrite (step_count p st st1 t Hp HI H1). lia.
Qed.

Lemma nonempty_lines_count (p : string -> bool) (s : list Entry) (ls : list string) :
  p EmptyString = false -> nonempty_lines s = Return ls ->
  count_lines p ls = count_stream p s.
Proof.
  intros Hp. revert ls. induction s as [|e s IH]; intros ls; cbn [nonempty_lines].
  - intros H. injection H as <-. reflexivity.
  - destruct e as [[|c l]|[|z d]].
    + intros H. rewrite count_stream_cons. cbn [line_weight]. rewrite Hp.
      apply (IH ls H).
    + intros H. apply bind_return in H. destruct H as (ls' & H1 & H).
      injection H as <-. rewrite count_stream_cons, <- (IH ls' H1).
      change (String c l :: ls') with ([String c l] ++ ls').
      rewrite count_lines_app, count_lines_one. reflexivity.
    + intros H. rewrite count_stream_cons. apply (IH ls H).
    + discriminate.
Qed.

Lemma finish_count (p : string -> bool) (st : State) (ls : list string) :
  instruction_tag p -> Inv st -> finish st = Return ls ->
  count_lines p ls = count_stream p (stream st).
Proof.
  intros (Hpush & _ & Hempty) HI H.
  pose proof (finish_return st ls H) as Hroot.
  unfold finish in H. apply bind_return in H. destruct H as (u & _ & H).
  apply bind_return in H. destruct H as (s & Hr & H).
  destruct (current_stack_open st [] O HI Hroot) as (d & _ & Hd).
  destruct (render_scope_open _ _ _ Hd) as (s' & Hr' & _ & _ & _ & Hcount).
  rewrite Hr' in Hr. injection Hr as <-.
  rewrite (nonempty_lines_count p s' ls Hempty H), Hcount.
  destruct d; cbn [line_weight]; [lia|]. rewrite Hpush. lia.
Qed.

Lemma anchor_line_tagged (f : string) :
  is_anchor_line (instruction_line "ANCHOR" f) = true.
Proof.
  unfold is_anchor_line, Py.startswith, instruction_line. cbn.
  destruct (f ++ "]")%string; reflexivity.
Qed.

Lemma emitted_anchor_count (t : Token) :
  well_formed_token t = true ->
  count_lines is_anchor_line (emitted_by t)
  = if is_anchor (classify (mnemonic t)) then 1%nat else 0%nat.
Proof.
  intros Hwf. unfold well_formed_token in Hwf.
  apply andb_true_iff in Hwf. destruct Hwf as (Hwf & _).
  apply andb_true_iff in Hwf. destruct Hwf as (Hm & _).
  unfold emitted_by. destruct (classify (mnemonic t)) eqn:K; try reflexivity.
  - rewrite count_lines_one, anchor_line_tagged. reflexivity.
  - rewrite count_lines_one. unfold is_anchor_line.
    rewrite (delta_line_untagged _ _ "A" "NCHOR[" (classify_delta _ K));
      [reflexivity | discriminate].
  - rewrite count_lines_one. cbn [is_anchor].
    destruct (is_anchor_line (instruction_line (mnemonic t) (flags t))) eqn:E;
      [|reflexivity].
    unfold is_anchor_line in E.
    apply (instruction_line_tag "ANCHOR") in E; [|reflexivity | exact Hm].
    apply classify_other in K. tauto.
Qed.

Lemma emitted_offset_count (t : Token) :
  well_formed_token t = true ->
  count_lines is_offset_line (emitted_by t) = 0%nat.
Proof.
  intros Hwf. unfold well_formed_token in Hwf.
  apply andb_true_iff in Hwf. destruct Hwf as (Hwf & _).
  apply andb_true_iff in Hwf. destruct Hwf as (Hm & _).
  unfold emitted_by. destruct (classify (mnemonic t)) eqn:K; try reflexivity.
  - rewrite count_lines_one. unfold is_offset_line.
    rewrite (delta_line_untagged _ _ "O" "FFSET[" (classify_delta _ K));
      [reflexivity | discriminate].
  - rewrite count_lines_one.
    destruct (is_offset_line (instruction_line (mnemonic t) (flags t))) eqn:E;
      [|reflexivity].
    unfold is_offset_line in E.
    apply (instruction_line_tag "OFFSET") in E; [|reflexivity | exact Hm].
    apply classify_other in K. tauto.
Qed.

(** C6.  In the output of a well-formed input the lines tagged [ANCHOR[]
    are as many as the [ANCHOR] declarations, and no line is tagged
    [OFFSET[]. *)
Theorem anchors_emit_offsets_do_not
        (ts : list Token) (comps cs : list Component) (ls : list string) :
  forallb well_formed_token ts = true ->
  transform_lines ts comps = Return (ls, cs) ->
  count_lines is_anchor_line ls = count_tokens is_anchor ts
  /\ count_lines is_offset_line ls = 0%nat.
Proof.
  intros Hwf H. unfold transform_lines in H.
  apply bind_return in H. destruct H as (st & Hrun & H).
  apply bind_return in H. destruct H as (ls' & Hfin & H). injection H as <- <-.
  pose proof (initial_inv comps) as HI0.
  pose proof (run_inv ts _ st HI0 Hrun) as HI.
  split.
  - rewrite (finish_count _ st ls' anchor_tag HI Hfin).
    rewrite (run_count _ ts _ st anchor_tag HI0 Hrun).
    change (count_stream is_anchor_line (stream (initial_state comps))) with O.
    cbn [Nat.add]. unfold count_tokens.
    clear Hrun Hfin HI. induction ts as [|t ts IH]; [reflexivity|].
    cbn [forallb] in Hwf. apply andb_true_iff in Hwf. destruct Hwf as (Ht & Hts).
    cbn [flat_map filter]. rewrite count_lines_app, (IH Hts).
    rewrite (emitted_anchor_count t Ht).
    destruct (is_anchor (classify (mnemonic t))); reflexivity.
  - rewrite (finish_count _ st ls' offset_tag HI Hfin).
    rewrite (run_count _ ts _ st offset_tag HI0 Hrun).
    change (count_stream is_offset_line (stream (initial_state comps))) with O.
    cbn [Nat.add].
    clear Hrun Hfin HI. induction ts as [|t ts IH]; [reflexivity|].
    cbn [forallb] in Hwf. apply andb_true_iff in Hwf. destruct Hwf as (Ht & Hts).
    cbn [flat_map]. rewrite count_lines_app, (IH Hts).
    rewrite (emitted_offset_count t Ht). reflexivity.
Qed.

Lemma anchors_emit_offsets_do_not_witness :
  count_lines is_anchor_line
    ["PUSH[] 3"; "ANCHOR[]"; "SRP0[]"; "ANCHOR[]"]%string = 2%nat
  /\ count_lines is_offset_line
       ["PUSH[] 3"; "ANCHOR[]"; "SRP0[]"; "ANCHOR[]"]%string = 0%nat.
Proof.
  apply (anchors_emit_offsets_do_not
           [tok "USEMYMETRICS" "" []; tok "ANCHOR" "" [1; 5; 7];
            tok "OFFSET" "1" [2; 10; -20]; tok "SRP0" "" [3];
            tok "ANCHOR" "" [4; 0; 2]]
           []
           [AnchorComponent 1 5 7 true None;
            OffsetComponent 2 10 (-20) true false None;
            AnchorComponent 4 0 2 false None]);
    vm_compute; reflexivity.
Defined.

(** ** The delta encoder *)

Lemma tuple_ltb_lt (a b : Z * Z) :
  Py.tuple_ltb a b = true <->
  fst a < fst b \/ (fst a = fst b /\ snd a < snd b).
Proof.
  unfold Py.tuple_ltb.
  rewrite orb_true_iff, andb_true_iff, !Z.ltb_lt, Z.eqb_eq. reflexivity.
Qed.

Lemma descending_ge (a b : Z * Z) :
  descending a b <-> fst b < fst a \/ (fst b = fst a /\ snd b <= snd a).
Proof.
  unfold descending. split.
  - intros H. destruct (Py.tuple_ltb a b) eqn:E; [discriminate|].
    assert (~ (fst a < fst b \/ (fst a = fst b /\ snd a < snd b))) as N
      by (rewrite <- tuple_ltb_lt; congruence).
    lia.
  - intros H. destruct (Py.tuple_ltb a b) eqn:E; [|reflexivity].
    apply tuple_ltb_lt in E. lia.
Qed.

Lemma descending_trans (a b c : Z * Z) :
  descending a b -> descending b c -> descending a c.
Proof. rewrite !descending_ge. lia. Qed.

Lemma insert_reverse_perm (a : Z * Z) (l : list (Z * Z)) :
  Permutation (Py.insert_reverse a l) (a :: l).
Proof.
  induction l as [|b l IH]; cbn; [reflexivity|].
  destruct (Py.tuple_ltb b a); [reflexivity|].
  rewrite IH. apply perm_swap.
Qed.

Lemma sorted_reverse_perm (l : list (Z * Z)) :
  Permutation (Py.sorted_reverse l) l.
Proof.
  induction l as [|a l IH]; cbn; [reflexivity|].
  rewrite insert_reverse_perm, IH. reflexivity.
Qed.

Lemma insert_reverse_sorted (a : Z * Z) (l : list (Z * Z)) :
  StronglySorted descending l -> StronglySorted descending (Py.insert_reverse a l).
Proof.
  induction 1 as [|b l Hl IH Hb]; cbn.
  - repeat constructor.
  - destruct (Py.tuple_ltb b a) eqn:E.
    + constructor; [constructor; assumption|].
      assert (Hab : descending a b).
      { apply descending_ge. apply tuple_ltb_lt in E. lia. }
      constructor; [exact Hab|].
      eapply Forall_impl; [|exact Hb]. intros c. apply descending_trans, Hab.
    + constructor; [exact IH|].
      assert (Hperm := insert_reverse_perm a l).
      apply (Permutation_Forall (x := a :: l)); [symmetry; exact Hperm|].
      constructor; [exact E | exact Hb].
Qed.

Lemma sorted_reverse_sorted (l : list (Z * Z)) :
  StronglySorted descending (Py.sorted_reverse l).
Proof.
  induction l as [|a l IH]; cbn; [constructor|].
  apply insert_reverse_sorted, IH.
Qed.

Lemma prepend_all_app (a b stack : list Z) :
  prepend_all (a ++ b) stack = prepend_all b (prepend_all a stack).
Proof. apply fold_left_app. Qed.

Lemma generation_base_assign (m : string) (base : Z) (db : option Z) :
  is_long_delta m = true -> generation_base m = Some base ->
  assign_delta_base m db = Some base.
Proof.
  unfold generation_base, assign_delta_base. intros ->.
  destruct (Py.endswith m "1"); [auto|].
  destruct (Py.endswith m "2"); [auto|].
  destruct (Py.endswith m "3"); [auto | discriminate].
Qed.

Lemma push_delta_items (m : string) (base p : Z) (spec : Z * Z)
      (db : option Z) (stack : list Z) :
  generation_base m = Some base ->
  exists db', push_delta m p spec (db, stack)
              = Return (db', prepend_all (delta_items base p spec) stack).
Proof.
  intros Hb. unfold push_delta, delta_items. destruct spec as [rel step_no].
  cbn [fst snd prepend_all fold_left].
  destruct (is_long_delta m) eqn:L.
  - rewrite (generation_base_assign m base db L Hb). cbn. eauto.
  - unfold generation_base in Hb. rewrite L in Hb. injection Hb as <-.
    rewrite Z.sub_0_r. cbn. eauto.
Qed.

Lemma push_delta_specs_items (m : string) (base p : Z) (specs : list (Z * Z))
      (db : option Z) (stack : list Z) :
  generation_base m = Some base ->
  exists db', push_delta_specs m p specs (db, stack)
              = Return (db', prepend_all (flat_map (delta_items base p) specs) stack).
Proof.
  intros Hb. revert db stack.
  induction specs as [|spec specs IH]; intros db stack; cbn [push_delta_specs flat_map].
  - eauto.
  - destruct (push_delta_items m base p spec db stack Hb) as (db1 & ->).
    cbn [bind]. rewrite prepend_all_app. apply IH.
Qed.

Lemma push_delta_groups_items (m : string) (base : Z)
      (groups : list (Z * list (Z * Z))) (db : option Z) (stack : list Z) :
  generation_base m = Some base ->
  exists db',
    push_delta_groups m groups (db, stack)
    = Return (db',
              prepend_all
                (flat_map (fun g => flat_map (delta_items base (fst g))
                                             (Py.sorted_reverse (snd g))) groups)
                stack).
Proof.
  intros Hb. revert db stack.
  induction groups as [|[p specs] groups IH]; intros db stack;
    cbn [push_delta_groups flat_map fst snd].
  - eauto.
  - destruct (push_delta_specs_items m base p (Py.sorted_reverse specs) db stack Hb)
      as (db1 & ->).
    cbn [bind]. rewrite prepend_all_app. apply IH.
Qed.

Lemma existsb_filter_ne (p x : Z) (l : list Z) :
  (p =? x) = false ->
  existsb (Z.eqb p) (filter (fun y => negb (y =? x)) l) = existsb (Z.eqb p) l.
Proof.
  intros Hne. induction l as [|y l IH]; cbn; [reflexivity|].
  destruct (Z.eqb_spec y x) as [->|Hy]; cbn.
  - rewrite Hne. exact IH.
  - rewrite IH. reflexivity.
Qed.

Lemma existsb_first_occurrences (p : Z) (l : list Z) :
  existsb (Z.eqb p) (first_occurrences l) = existsb (Z.eqb p) l.
Proof.
  induction l as [|x l IH]; cbn; [reflexivity|].
  destruct (p =? x) eqn:E; cbn; [reflexivity|].
  rewrite existsb_filter_ne by exact E. exact IH.
Qed.

Lemma first_occurrences_snoc (l : list Z) (p : Z) :
  first_occurrences (l ++ [p])
  = first_occurrences l ++ (if existsb (Z.eqb p) l then [] else [p]).
Proof.
  induction l as [|x l IH]; cbn; [reflexivity|].
  rewrite IH, filter_app. f_equal. f_equal.
  destruct (p =? x) eqn:E; cbn.
  - destruct (existsb (Z.eqb p) l); cbn; [reflexivity|]. rewrite E. reflexivity.
  - destruct (existsb (Z.eqb p) l); cbn; [reflexivity|]. rewrite E. reflexivity.
Qed.

Lemma existsb_false_notin (p : Z) (l : list Z) :
  existsb (Z.eqb p) l = false -> forall q, In q l -> (q =? p) = false.
Proof.
  intros H q Hq. destruct (Z.eqb_spec q p) as [->|]; [|reflexivity].
  assert (existsb (Z.eqb p) l = true); [|congruence].
  apply existsb_exists. exists p. split; [exact Hq | apply Z.eqb_refl].
Qed.

Lemma first_occurrences_nodup (l : list Z) : NoDup (first_occurrences l).
Proof.
  induction l as [|x l IH]; cbn; constructor.
  - rewrite filter_In, Z.eqb_refl. cbn. intros [_ H]. discriminate.
  - apply NoDup_filter, IH.
Qed.

Lemma setdefault_append_map (p : Z) (v : Z * Z) (g : Z -> list (Z * Z))
      (keys : list Z) :
  NoDup keys ->
  Py.setdefault_append p v (map (fun q => (q, g q)) keys)
  = if existsb (Z.eqb p) keys
    then map (fun q => (q, if q =? p then g q ++ [v] else g q)) keys
    else map (fun q => (q, g q)) keys ++ [(p, [v])].
Proof.
  induction 1 as [|k keys Hk Hnd IH]; cbn; [reflexivity|].
  destruct (Z.eqb_spec p k) as [->|Hne]; cbn.
  - rewrite Z.eqb_refl. f_equal. apply map_ext_in. intros q Hq.
    destruct (Z.eqb_spec q k) as [->|]; [contradiction | reflexivity].
  - rewrite IH.
    destruct (Z.eqb_spec k p) as [->|_]; [contradiction|].
    destruct (existsb (Z.eqb p) keys); reflexivity.
Qed.

Lemma specs_at_snoc (q : Z) (l : list (Z * Z * Z)) (x : Z * Z * Z) :
  specs_at q (l ++ [x])
  = specs_at q l ++ (if point_of x =? q then [spec_of x] else []).
Proof.
  unfold specs_at. rewrite filter_app, map_app. cbn.
  destruct (point_of x =? q); reflexivity.
Qed.

Lemma specs_at_absent (p : Z) (l : list (Z * Z * Z)) :
  existsb (Z.eqb p) (map point_of l) = false -> specs_at p l = [].
Proof.
  intros H. unfold specs_at.
  induction l as [|d l IH]; cbn in *; [reflexivity|].
  apply orb_false_iff in H. destruct H as (H1 & H2).
  rewrite Z.eqb_sym, H1. apply IH, H2.
Qed.

Lemma grouped_snoc (l : list (Z * Z * Z)) (x : Z * Z * Z) :
  grouped (l ++ [x]) = Py.setdefault_append (point_of x) (spec_of x) (grouped l).
Proof.
  unfold grouped.
  rewrite (setdefault_append_map (point_of x) (spec_of x)
             (fun q => specs_at q l) _ (first_occurrences_nodup _)).
  rewrite map_app. cbn [map]. rewrite first_occurrences_snoc.
  rewrite existsb_first_occurrences.
  destruct (existsb (Z.eqb (point_of x)) (map point_of l)) eqn:E.
  - rewrite app_nil_r. apply map_ext. intros q. rewrite specs_at_snoc.
    rewrite (Z.eqb_sym q). destruct (point_of x =? q); [reflexivity|].
    rewrite app_nil_r. reflexivity.
  - rewrite map_app. cbn [map]. f_equal.
    + apply map_ext_in. intros q Hq. rewrite specs_at_snoc.
      rewrite <- existsb_first_occurrences in E.
      rewrite (Z.eqb_sym (point_of x)), (existsb_false_notin _ _ E q Hq).
      rewrite app_nil_r. reflexivity.
    + rewrite specs_at_snoc, Z.eqb_refl, (specs_at_absent _ _ E). reflexivity.
Qed.

(** The dictionary built by the code holds the groups of section 4.3. *)
Lemma group_deltas_grouped (ds : list (Z * Z * Z)) :
  group_deltas ds = grouped (List.rev ds).
Proof.
  unfold group_deltas. generalize (List.rev ds) as l. intros l.
  induction l as [|x l IH] using rev_ind; [reflexivity|].
  rewrite fold_left_app, IH, grouped_snoc. cbn [fold_left].
  destruct x as [[p r] s]. reflexivity.
Qed.

Lemma encode_deltas_items (m : string) (base : Z) (ds : list (Z * Z * Z))
      (db : option Z) (stack : list Z) :
  generation_base m = Some base ->
  exists db',
    encode_deltas m ds db stack
    = Return (db',
              prepend_all
                (Z.of_nat (List.length ds) ::
                 flat_map (fun p => flat_map (delta_items base p)
                                      (Py.sorted_reverse (specs_at p (List.rev ds))))
                          (first_occurrences (map point_of (List.rev ds))))
                stack).
Proof.
  intros Hb. unfold encode_deltas.
  destruct (push_delta_groups_items m base (group_deltas ds) db
              (Z.of_nat (List.length ds) :: stack) Hb) as (db' & ->).
  exists db'. rewrite group_deltas_grouped. unfold grouped.
  cbn [prepend_all fold_left]. rewrite flat_map_concat_map, map_map.
  rewrite <- flat_map_concat_map. reflexivity.
Qed.

Lemma effective_base_after (m : string) (b : Z) (db : option Z) :
  effective_base m db = Some b ->
  effective_base m (base_after m b db) = Some b.
Proof.
  unfold effective_base, base_after, assign_delta_base.
  destruct (is_long_delta m); [|auto].
  destruct (Py.endswith m "1"); [auto|].
  destruct (Py.endswith m "2"); [auto|].
  destruct (Py.endswith m "3"); auto.
Qed.

Lemma base_after_idem (m : string) (b : Z) (db : option Z) :
  base_after m b (base_after m b db) = base_after m b db.
Proof. unfold base_after. destruct (is_long_delta m); reflexivity. Qed.

Lemma push_delta_carried (m : string) (b p : Z) (spec : Z * Z)
      (db : option Z) (stack : list Z) :
  effective_base m db = Some b ->
  push_delta m p spec (db, stack)
  = Return (base_after m b db, prepend_all (delta_items b p spec) stack).
Proof.
  unfold effective_base, base_after, push_delta, delta_items.
  destruct spec as [rel step_no]. cbn [fst snd prepend_all fold_left].
  destruct (is_long_delta m).
  - intros ->. reflexivity.
  - intros H. injection H as <-. rewrite Z.sub_0_r. reflexivity.
Qed.

Lemma push_delta_specs_carried (m : string) (b p : Z) (specs : list (Z * Z))
      (db : option Z) (stack : list Z) :
  effective_base m db = Some b ->
  push_delta_specs m p specs (db, stack)
  = Return (if null specs then db else base_after m b db,
            prepend_all (flat_map (delta_items b p) specs) stack).
Proof.
  revert db stack.
  induction specs as [|spec specs IH]; intros db stack Hb; [reflexivity|].
  cbn [push_delta_specs flat_map null].
  rewrite (push_delta_carried m b p spec db stack Hb). cbn [bind].
  rewrite prepend_all_app, (IH _ _ (effective_base_after m b db Hb)).
  rewrite base_after_idem. destruct specs; reflexivity.
Qed.

Lemma sorted_reverse_nonempty (l : list (Z * Z)) :
  l <> [] -> Py.sorted_reverse l <> [].
Proof.
  destruct l as [|a l]; [contradiction|]. intros _. cbn.
  destruct (Py.sorted_reverse l) as [|c r]; cbn; [discriminate|].
  destruct (Py.tuple_ltb c a); discriminate.
Qed.

Lemma push_delta_groups_carried (m : string) (b : Z)
      (groups : list (Z * list (Z * Z))) (db : option Z) (stack : list Z) :
  effective_base m db = Some b ->
  Forall (fun g => snd g <> []) groups ->
  push_delta_groups m groups (db, stack)
  = Return (if null groups then db else base_after m b db,
            prepend_all
              (flat_map (fun g => flat_map (delta_items b (fst g))
                                           (Py.sorted_reverse (snd g))) groups)
              stack).
Proof.
  revert db stack.
  induction groups as [|[p specs] groups IH]; intros db stack Hb Hall;
    [reflexivity|].
  inversion Hall as [|? ? Hg Hrest]; subst. cbn [snd] in Hg.
  cbn [push_delta_groups flat_map fst snd null].
  rewrite (push_delta_specs_carried m b p _ db stack Hb). cbn [bind].
  pose proof (sorted_reverse_nonempty specs Hg) as Hs.
  destruct (Py.sorted_reverse specs) as [|s0 r] eqn:E; [contradiction|].
  cbn [null]. rewrite prepend_all_app.
  rewrite (IH _ _ (effective_base_after m b db Hb) Hrest), base_after_idem.
  destruct groups; reflexivity.
Qed.

Lemma grouped_nonempty (l : list (Z * Z * Z)) :
  Forall (fun g => snd g <> []) (grouped l).
Proof.
  unfold grouped. apply Forall_map, Forall_forall. intros p Hp. cbn [snd].
  assert (Hin : In p (map point_of l)).
  { clear -Hp. induction l as [|x l IH]; cbn in *; [contradiction|].
    destruct Hp as [Hp|Hp]; [auto|].
    apply filter_In in Hp. right. apply IH, Hp. }
  apply in_map_iff in Hin. destruct Hin as (x & Hx & Hin).
  unfold specs_at. intros E. apply map_eq_nil in E.
  assert (Hf : In x (filter (fun d => point_of d =? p) l)).
  { apply filter_In. split; [exact Hin|]. apply Z.eqb_eq, Hx. }
  rewrite E in Hf. exact Hf.
Qed.

Lemma encode_deltas_carried (m : string) (b : Z) (ds : list (Z * Z * Z))
      (db : option Z) (stack : list Z) :
  effective_base m db = Some b -> ds <> [] ->
  encode_deltas m ds db stack
  = Return (base_after m b db, prepend_all (delta_pushes b ds) stack).
Proof.
  intros Hb Hne. unfold encode_deltas, delta_pushes.
  rewrite group_deltas_grouped.
  rewrite (push_delta_groups_carried m b); [| exact Hb | apply grouped_nonempty].
  assert (G : null (grouped (List.rev ds)) = false).
  { destruct ds as [|d ds _] using rev_ind; [contradiction|].
    rewrite rev_app_distr. reflexivity. }
  rewrite G. unfold grouped. cbn [prepend_all fold_left].
  rewrite flat_map_concat_map, map_map, <- flat_map_concat_map. reflexivity.
Qed.

Lemma encode_deltas_unbound (m : string) (ds : list (Z * Z * Z))
      (db : option Z) (stack : list Z) :
  effective_base m db = None -> ds <> [] ->
  encode_deltas m ds db stack = Raise UnboundLocalError.
Proof.
  intros Hb Hne. unfold encode_deltas. rewrite group_deltas_grouped.
  destruct ds as [|d ds _] using rev_ind; [contradiction|]. clear Hne.
  rewrite rev_app_distr. cbn [List.rev List.app]. unfold grouped.
  cbn [map first_occurrences push_delta_groups].
  unfold specs_at at 1. cbn [filter]. rewrite Z.eqb_refl. cbn [map].
  cbn [Py.sorted_reverse].
  assert (E : forall a l, exists c r, Py.insert_reverse a l = c :: r).
  { intros a l. destruct l as [|c r]; cbn; [eauto|].
    destruct (Py.tuple_ltb c a); eauto. }
  destruct (E (spec_of d)
              (Py.sorted_reverse
                 (map spec_of (filter (fun d0 => point_of d0 =? point_of d) (List.rev ds)))))
    as ([rel step_no] & r & ->).
  cbn [push_delta_specs]. unfold push_delta.
  unfold effective_base in Hb. destruct (is_long_delta m); [|discriminate].
  rewrite Hb. reflexivity.
Qed.

(** C3.  A delta instruction with at least one triple, met in [PUSH_ON]
    mode, counts from the base that [delta_base] then holds for it: 9, 25
    or 41 by the suffix of a [DELTAP]/[DELTAC], for one without such a
    suffix what the last [DELTAP]/[DELTAC] before it left, and nothing for
    the [DLTP]/[DLTC] spelling.  With a base it prepends to the pending
    collection of the open scope, in this order: the number of triples,
    once; then, for each point index in the order of first occurrence in
    the reversed collection, and for each [(rel_ppem, step_no)] of that
    point in descending order, the point index and then the packed value.
    (Each item goes to the left end, so the collection reads in the
    opposite order.)  The instruction line is then emitted under the long
    spelling of the mnemonic.  Without a base the instruction contributes
    nothing: it raises [UnboundLocalError]. *)
Theorem delta_operand_sequence
        (st : State) (t : Token) (pi : nat) (stack : list Z) :
  classify (mnemonic t) = KDelta ->
  push_on st = true ->
  deltas t <> [] ->
  current_stack st = Return (pi, stack) ->
  let triples := List.rev (deltas t) in
  let group := fun p => Py.sorted_reverse (specs_at p triples) in
  let emitted := fun base =>
    Z.of_nat (List.length (deltas t)) ::
    flat_map (fun p => flat_map (fun rs => [p; pack (fst rs - base) (snd rs)])
                                (group p))
             (first_occurrences (map point_of triples)) in
  (forall p, Permutation (group p) (specs_at p triples)
             /\ StronglySorted descending (group p))
  /\ match effective_base (mnemonic t) (delta_base st) with
     | Some base =>
         exists st',
           step st t = Return st'
           /\ current_stack st'
              = Return (pi, fold_left (fun d i => i :: d) (emitted base) stack)
           /\ stream_lines (stream st')
              = stream_lines (stream st)
                ++ [instruction_line (canonical (mnemonic t)) (flags t)]
     | None => step st t = Raise UnboundLocalError
     end.
Proof.
  intros K Hon Hne Hc triples group emitted. split.
  - intros p. split; [apply sorted_reverse_perm | apply sorted_reverse_sorted].
  - assert (Hn : (0 <? Z.of_nat (List.length (deltas t))) = true).
    { apply Z.ltb_lt. destruct (deltas t); [contradiction | cbn; lia]. }
    destruct (effective_base (mnemonic t) (delta_base st)) as [base|] eqn:Hb.
    + destruct (current_stack_return st pi stack Hc) as ((r & Hr) & Hd).
      pose proof (encode_deltas_carried (mnemonic t) base (deltas t)
                    (delta_base st) stack Hb Hne) as He.
      change (prepend_all (delta_pushes base (deltas t)) stack)
        with (fold_left (fun d i => i :: d) (emitted base) stack) in He.
      assert (Hlt : (pi < List.length (stream st))%nat)
        by (apply nth_error_Some; congruence).
      destruct (setitem_defined (stream st) pi
                  (Deque (fold_left (fun d i => i :: d) (emitted base) stack)) Hlt)
        as (s & Hs).
      destruct (setitem_return _ _ _ _ Hs) as (_ & Hlen & Hnth).
      eexists. split; [|split].
      * rewrite step_dispatch. unfold step_branch. rewrite K, Hon.
        cbn [assert bind]. rewrite Hn. cbn [assert bind]. rewrite Hc.
        cbn [bind]. rewrite He. cbn [bind]. rewrite Hs. cbn [bind]. reflexivity.
      * unfold current_stack.
        cbn [push_indexes stream append_line with_scopes with_delta_base
             with_stream pos].
        rewrite Hr, last_item_snoc. cbn [bind].
        unfold Py.getitem. rewrite nth_error_app1 by lia.
        rewrite Hnth, Nat.eqb_refl. reflexivity.
      * cbn [stream append_line with_scopes with_delta_base with_stream
             push_indexes pos].
        rewrite stream_lines_app. cbn [stream_lines]. f_equal.
        clear - Hs Hd. revert pi s Hs Hd.
        induction (stream st) as [|e l IH]; intros pi s Hs Hd; [discriminate|].
        destruct pi as [|pi]; cbn in Hs, Hd.
        -- injection Hs as <-. injection Hd as ->. reflexivity.
        -- apply bind_return in Hs. destruct Hs as (l' & H1 & H2).
           injection H2 as <-. destruct e; cbn; [f_equal|]; eapply IH; eassumption.
    + rewrite step_dispatch. unfold step_branch. rewrite K, Hon.
      cbn [assert bind]. rewrite Hn. cbn [assert bind]. rewrite Hc.
      cbn [bind].
      rewrite (encode_deltas_unbound (mnemonic t) (deltas t) (delta_base st)
                 stack Hb Hne).
      reflexivity.
Qed.

Lemma delta_operand_sequence_witness :
  exists st',
    step (with_delta_base (Some 25) (initial_state []))
         (mkToken "DELTAP" "" [] [(13, 34, 8); (14, 37, -8); (13, 31, 1)])
    = Return st'
    /\ current_stack st' = Return (O, [192; 14; 104; 13; 159; 13; 3])
    /\ stream_lines (stream st') = ["DELTAP[]"]%string
    /\ Py.sorted_reverse [(31, 1); (34, 8)] = [(34, 8); (31, 1)].
Proof.
  pose proof (delta_operand_sequence (with_delta_base (Some 25) (initial_state []))
                (mkToken "DELTAP" "" [] [(13, 34, 8); (14, 37, -8); (13, 31, 1)])
                O []) as H.
  cbv zeta in H.
  destruct H as (_ & st' & H1 & H2 & H3).
  - reflexivity.
  - reflexivity.
  - discriminate.
  - reflexivity.
  - exists st'. split; [exact H1 | split; [exact H2 | split; [exact H3|]]].
    reflexivity.
Defined.

(** C3, as stated, fails for a [DELTAP] or [DELTAC] without one of the
    suffixes 1, 2, 3 that no delta instruction with a base precedes: it is
    a delta instruction with a triple in [PUSH_ON] mode, and nothing is
    contributed, the loop stops with [UnboundLocalError]. *)
Lemma delta_without_base_counterexample :
  classify "DELTAP" = KDelta
  /\ step (initial_state []) (mkToken "DELTAP" "" [] [(13, 9, 8)])
     = Raise UnboundLocalError
  /\ transform_tokens [mkToken "DELTAP" "" [] [(13, 9, 8)]] []
     = Raise UnboundLocalError.
Proof. vm_compute. repeat split; reflexivity. Qed.

(** ** Programs without scope markers *)

Lemma prepend_all_rev (items stack : list Z) :
  prepend_all items stack = List.rev items ++ stack.
Proof.
  unfold prepend_all. revert stack.
  induction items as [|i items IH]; intros stack; cbn; [reflexivity|].
  rewrite IH, <- app_assoc. reflexivity.
Qed.

Lemma appendleft_reversed_app (items stack : list Z) :
  appendleft_reversed items stack = items ++ stack.
Proof.
  unfold appendleft_reversed.
  change (fold_left (fun d i => i :: d) (List.rev items) stack)
    with (prepend_all (List.rev items) stack).
  rewrite prepend_all_rev, rev_involutive. reflexivity.
Qed.

Lemma plain_current_stack (st : State) (on : bool) (d : list Z) (ls : list string) :
  plain_state st on d ls -> current_stack st = Return (O, d).
Proof.
  intros (_ & Hpi & Hs). unfold current_stack. rewrite Hpi, Hs. reflexivity.
Qed.

Lemma plain_append_line (st : State) (on : bool) (d : list Z) (ls : list string)
      (l : string) :
  plain_state st on d ls -> plain_state (append_line l st) on d (ls ++ [l]).
Proof.
  intros (Hon & Hpi & Hs). repeat split; cbn; [exact Hon | exact Hpi|].
  rewrite Hs, map_app. reflexivity.
Qed.

Lemma pushed_one (on : bool) (t : Token) :
  pushed on [t]
  = match classify (mnemonic t) with
    | KOther => if on then stack_items t else []
    | KDelta => if on then delta_operands (mnemonic t) (deltas t) else []
    | _ => []
    end.
Proof.
  cbn. unfold operands_of. destruct (classify (mnemonic t)), on; reflexivity.
Qed.

Lemma plain_step (st : State) (on : bool) (d : list Z) (ls : list string)
      (t : Token) (rest : list Token) :
  plain_state st on d ls ->
  plain_program on (t :: rest) = true ->
  exists st',
    step st t = Return st'
    /\ plain_state st' (mode_after on [t])
         (pushed on [t] ++ d) (ls ++ emitted_by t)
    /\ plain_program (mode_after on [t]) rest = true.
Proof.
  intros HP Hplain. pose proof HP as (Hon & Hpi & Hs).
  cbn [plain_program] in Hplain.
  apply andb_true_iff in Hplain. destruct Hplain as (Hwf & Hplain).
  rewrite step_dispatch, pushed_one. unfold step_branch, emitted_by.
  cbn [mode_after].
  destruct (classify (mnemonic t)) eqn:K; try discriminate;
    cbn [app]; rewrite ?app_nil_r.
  - eexists. split; [reflexivity|]. split; [exact HP | exact Hplain].
  - eexists. split; [reflexivity|]. split; [|exact Hplain].
    repeat split; assumption.
  - eexists. split; [reflexivity|]. split; [|exact Hplain].
    repeat split; assumption.
  - eexists. split; [reflexivity|]. split; [|exact Hplain].
    repeat split; assumption.
  - apply andb_true_iff in Hplain. destruct Hplain as (Hlen & Hplain).
    destruct (stack_items t) as [|? [|? [|? [|]]]]; try discriminate.
    eexists. split; [reflexivity|]. split; [|exact Hplain].
    repeat split; assumption.
  - apply andb_true_iff in Hplain. destruct Hplain as (Hlen & Hplain).
    destruct (stack_items t) as [|? [|? [|? [|]]]]; try discriminate.
    eexists. split; [reflexivity|]. split; [|exact Hplain].
    apply plain_append_line. repeat split; assumption.
  - eexists. split; [reflexivity|]. split; [|exact Hplain].
    repeat split; assumption.
  - eexists. split; [reflexivity|]. split; [|exact Hplain].
    repeat split; assumption.
  - apply andb_true_iff in Hplain. destruct Hplain as (Hd & Hplain).
    apply andb_true_iff in Hd. destruct Hd as (Hon' & Hnull).
    subst on. rewrite Hon. cbn [assert bind].
    assert (Hn : (0 <? Z.of_nat (List.length (deltas t))) = true).
    { apply Z.ltb_lt. destruct (deltas t); [discriminate | cbn; lia]. }
    rewrite Hn. cbn [assert bind].
    rewrite (plain_current_stack st _ d ls HP). cbn [bind].
    assert (Hbase : exists base, generation_base (mnemonic t) = Some base).
    { unfold well_formed_token in Hwf. apply andb_true_iff in Hwf.
      destruct Hwf as (_ & Hwf). unfold generation_base.
      destruct (is_long_delta (mnemonic t)); [|eauto]. cbn in Hwf.
      destruct (Py.endswith (mnemonic t) "1"); [eauto|].
      destruct (Py.endswith (mnemonic t) "2"); [eauto|].
      destruct (Py.endswith (mnemonic t) "3"); [eauto | discriminate]. }
    destruct Hbase as (base & Hbase).
    destruct (encode_deltas_items (mnemonic t) base (deltas t) (delta_base st)
                d Hbase) as (db' & ->).
    cbn [bind]. rewrite Hs. cbn [Py.setitem bind].
    eexists. split; [reflexivity|]. split; [|exact Hplain].
    apply plain_append_line. repeat split; [exact Hon | exact Hpi|].
    cbn [stream with_delta_base with_stream with_scopes].
    unfold delta_operands. rewrite Hbase.
    rewrite !prepend_all_rev, app_nil_r. reflexivity.
  - apply andb_true_iff in Hplain. destruct Hplain as (Hd & Hplain).
    rewrite Hon. destruct on.
    + destruct (stack_items t) as [|z items] eqn:Hitems.
      * cbn [bind]. eexists. split; [reflexivity|]. split; [|exact Hplain].
        apply plain_append_line. exact HP.
      * rewrite (plain_current_stack st _ d ls HP). cbn [bind].
        rewrite Hs. cbn [Py.setitem bind].
        eexists. split; [reflexivity|]. split; [|exact Hplain].
        apply plain_append_line. repeat split; [exact Hon | exact Hpi|].
        cbn [stream with_stream with_scopes].
        rewrite appendleft_reversed_app. reflexivity.
    + cbn in Hd. destruct (stack_items t); [|discriminate].
      cbn [assert bind]. eexists. split; [reflexivity|]. split; [|exact Hplain].
      apply plain_append_line. exact HP.
Qed.

Lemma pushed_cons (on : bool) (t : Token) (rest : list Token) :
  pushed on (t :: rest) = pushed (mode_after on [t]) rest ++ pushed on [t].
Proof.
  cbn. destruct (classify (mnemonic t)); rewrite ?app_nil_r; reflexivity.
Qed.

Lemma plain_run (ts : list Token) (st : State) (on : bool) (d : list Z)
      (ls : list string) :
  plain_state st on d ls -> plain_program on ts = true ->
  exists st',
    run st ts = Return st'
    /\ plain_state st' (mode_after on ts) (pushed on ts ++ d)
         (ls ++ flat_map emitted_by ts).
Proof.
  revert st on d ls. induction ts as [|t ts IH]; intros st on d ls HP Hplain.
  - exists st. split; [reflexivity|]. cbn. rewrite app_nil_r. exact HP.
  - destruct (plain_step st on d ls t ts HP Hplain) as (st1 & H1 & HP1 & Hplain1).
    destruct (IH st1 _ _ _ HP1 Hplain1) as (st' & H2 & HP2).
    exists st'. split.
    + cbn [run]. rewrite H1. exact H2.
    + rewrite pushed_cons. cbn [flat_map].
      rewrite <- (app_assoc (pushed _ ts)), (app_assoc ls).
      replace (mode_after on (t :: ts)) with (mode_after (mode_after on [t]) ts)
        by (cbn; destruct (classify (mnemonic t)); reflexivity).
      exact HP2.
Qed.

Lemma prefix_empty (s : string) : String.prefix "" s = true.
Proof. destruct s; reflexivity. Qed.

Lemma prefix_app_same (p s : string) : String.prefix p (p ++ s) = true.
Proof.
  induction p as [|c p IH]; cbn [append String.prefix]; [apply prefix_empty|].
  destruct (ascii_dec c c); [exact IH | contradiction].
Qed.

Lemma prefix_shorter (a b s : string) :
  String.prefix (a ++ b) s = true -> String.prefix a s = true.
Proof.
  revert s. induction a as [|c a IH]; intros s; [intros _; apply prefix_empty|].
  destruct s as [|c' s]; cbn [append String.prefix]; [discriminate|].
  destruct (ascii_dec c c'); [apply IH | discriminate].
Qed.

Lemma prefix_cons_same (c : ascii) (a b : string) :
  String.prefix (String c a) (String c b) = String.prefix a b.
Proof. cbn [String.prefix]. destruct (ascii_dec c c); [reflexivity | contradiction]. Qed.

Lemma is_push_line_push_line (ops : list Z) : is_push_line (push_line ops) = true.
Proof. apply prefix_app_same. Qed.

Lemma instruction_line_nonempty (m f : string) : instruction_line m f <> EmptyString.
Proof. unfold instruction_line. destruct m; discriminate. Qed.

Lemma instruction_line_not_push (m f : string) :
  lacks "[" m = true -> lacks "]" f = true ->
  is_push_line (instruction_line m f) = false.
Proof.
  intros Hm Hf. destruct (is_push_line (instruction_line m f)) eqn:E; [|reflexivity].
  unfold is_push_line, Py.startswith in E.
  assert (Hm' : m = "PUSH"%string).
  { apply (prefix_tag "PUSH" m (f ++ "]")); [reflexivity | exact Hm|].
    apply (prefix_shorter ("PUSH" ++ "[") "] "). exact E. }
  subst m. unfold instruction_line in E. cbn [append] in E.
  rewrite !prefix_cons_same in E.
  destruct f as [|c f]; cbn [append String.prefix] in E.
  - destruct (ascii_dec "]" "]"); discriminate.
  - apply lacks_cons in Hf. destruct Hf as (Hc & _).
    destruct (ascii_dec "]" c) as [<-|]; [contradiction | discriminate].
Qed.

Lemma emitted_not_push (t : Token) :
  well_formed_token t = true ->
  Forall (fun l => is_push_line l = false) (emitted_by t).
Proof.
  intros Hwf. unfold well_formed_token in Hwf.
  apply andb_true_iff in Hwf. destruct Hwf as (Hwf & _).
  apply andb_true_iff in Hwf. destruct Hwf as (Hm & Hf).
  unfold emitted_by. destruct (classify (mnemonic t)) eqn:K;
    repeat constructor.
  - unfold is_push_line.
    apply (delta_line_untagged _ _ "P" "USH[] " (classify_delta _ K)).
    discriminate.
  - apply instruction_line_not_push; assumption.
Qed.

Lemma emitted_nonempty (t : Token) :
  Forall (fun l => l <> EmptyString) (emitted_by t).
Proof.
  unfold emitted_by. destruct (classify (mnemonic t));
    repeat constructor; apply instruction_line_nonempty.
Qed.

Lemma nonempty_lines_map (ls : list string) :
  Forall (fun l => l <> EmptyString) ls -> nonempty_lines (map Line ls) = Return ls.
Proof.
  induction 1 as [|l ls Hl _ IH]; cbn [map nonempty_lines]; [reflexivity|].
  destruct l as [|c l]; [contradiction|]. rewrite IH. reflexivity.
Qed.

Lemma plain_program_well_formed (ts : list Token) (on : bool) :
  plain_program on ts = true -> forallb well_formed_token ts = true.
Proof.
  revert on. induction ts as [|t ts IH]; intros on; [reflexivity|].
  cbn [plain_program forallb]. intros H.
  apply andb_true_iff in H. destruct H as (Hwf & H). rewrite Hwf. cbn.
  destruct (classify (mnemonic t)); try discriminate;
    repeat (apply andb_true_iff in H; destruct H as (_ & H) || idtac);
    eapply IH; exact H.
Qed.

Lemma count_lines_none (p : string -> bool) (ls : list string) :
  Forall (fun l => p l = false) ls -> count_lines p ls = O.
Proof.
  unfold count_lines. induction 1 as [|l ls Hl _ IH]; cbn; [reflexivity|].
  rewrite Hl. exact IH.
Qed.

Lemma plain_finish (st : State) (on : bool) (ops : list Z) (ls : list string) :
  plain_state st on ops ls -> Forall (fun l => l <> EmptyString) ls ->
  finish st = Return (push_lines ops ++ ls).
Proof.
  intros (_ & Hpi & Hs) Hls. unfold finish. rewrite Hpi, Hs. cbn [assert bind].
  unfold render_scope. cbn [Py.getitem nth_error bind].
  destruct ops as [|z ops].
  - cbn [bind nonempty_lines push_lines app]. apply nonempty_lines_map, Hls.
  - cbn [Py.setitem bind nonempty_lines push_lines app].
    unfold push_line at 1. cbn [append].
    rewrite (nonempty_lines_map ls Hls). reflexivity.
Qed.

(** C1, as amended.  For a well-formed input with no [#BEGIN], [#END] or
    [#PUSH] marker, [transform_assembly] returns lines of which at most
    one is a [PUSH[]] line; that line, if any, is the first; and it lists
    the root deque, which holds the stack operands of the ordinary
    instructions met in [PUSH_ON] mode and the encoded triples of the
    delta instructions, the operands of one instruction in the order
    written but those of a later instruction before those of an earlier
    one; declarations ([OFFSET], [ANCHOR]) add nothing to it.  After it
    come the instruction lines in the order of the input. *)
Theorem single_push_line (ts : list Token) (comps : list Component) :
  plain_program true ts = true ->
  exists ls cs,
    transform_lines ts comps = Return (ls, cs)
    /\ transform_tokens ts comps = Return (Py.join nl ls, cs)
    /\ ls = push_lines (pushed true ts) ++ flat_map emitted_by ts
    /\ (count_lines is_push_line ls <= 1)%nat
    /\ (forall i l, nth_error ls i = Some l -> is_push_line l = true -> i = O).
Proof.
  intros Hplain.
  assert (HP0 : plain_state (initial_state comps) true [] [])
    by (repeat split; reflexivity).
  destruct (plain_run ts _ true [] [] HP0 Hplain) as (st & Hrun & HP).
  rewrite app_nil_r in HP. cbn [app] in HP.
  assert (Hne : Forall (fun l => l <> EmptyString) (flat_map emitted_by ts)).
  { apply Forall_flat_map. apply Forall_forall. intros t _. apply emitted_nonempty. }
  assert (Hnp : Forall (fun l => is_push_line l = false) (flat_map emitted_by ts)).
  { apply Forall_flat_map. apply Forall_forall. intros t Ht.
    apply emitted_not_push.
    pose proof (plain_program_well_formed ts true Hplain) as Hwf.
    rewrite forallb_forall in Hwf. apply Hwf, Ht. }
  assert (Hcount : count_lines is_push_line (flat_map emitted_by ts) = O)
    by (apply count_lines_none, Hnp).
  exists (push_lines (pushed true ts) ++ flat_map emitted_by ts), (components st).
  assert (Hlines : transform_lines ts comps
                   = Return (push_lines (pushed true ts) ++ flat_map emitted_by ts,
                             components st)).
  { unfold transform_lines. rewrite Hrun. cbn [bind].
    rewrite (plain_finish st _ _ _ HP Hne). reflexivity. }
  split; [exact Hlines|]. split; [|split; [reflexivity|split]].
  - unfold transform_tokens. rewrite Hlines. reflexivity.
  - rewrite count_lines_app, Hcount. unfold push_lines.
    destruct (pushed true ts); [cbn; lia|].
    rewrite count_lines_one. destruct (is_push_line _); lia.
  - intros i l Hi Hl.
    assert (Hin : forall j, nth_error (flat_map emitted_by ts) j = Some l -> False).
    { intros j Hj. apply nth_error_In in Hj. rewrite Forall_forall in Hnp.
      rewrite (Hnp l Hj) in Hl. discriminate. }
    unfold push_lines in Hi. destruct (pushed true ts) as [|z ops].
    + exfalso. apply (Hin i). exact Hi.
    + destruct i as [|i]; [reflexivity|]. exfalso. apply (Hin i). exact Hi.
Qed.

Lemma single_push_line_witness :
  exists ls cs,
    transform_lines [tok "SVTCA" "0" []; tok "ANCHOR" "" [1; 5; 7];
                     tok "MIRP" "10100" [3; 7]; tok "#PUSHOFF" "" [];
                     tok "IUP" "1" []; tok "#PUSHON" "" [];
                     mkToken "DLTP1" "" [] [(13, 0, 8); (14, 3, -8)]] []
    = Return (ls, cs)
    /\ ls = ["PUSH[] 15 13 48 14 2 3 7"; "SVTCA[0]"; "ANCHOR[]"; "MIRP[10100]";
             "IUP[1]"; "DELTAP1[]"]%string.
Proof.
  destruct (single_push_line
              [tok "SVTCA" "0" []; tok "ANCHOR" "" [1; 5; 7];
               tok "MIRP" "10100" [3; 7]; tok "#PUSHOFF" "" [];
               tok "IUP" "1" []; tok "#PUSHON" "" [];
               mkToken "DLTP1" "" [] [(13, 0, 8); (14, 3, -8)]] [])
    as (ls & cs & H1 & _ & H2 & _).
  - reflexivity.
  - exists ls, cs. split; [exact H1|]. rewrite H2. reflexivity.
Defined.

(** C1, as stated, fails on the order: the operands of two instructions
    appear in the [PUSH[]] line last instruction first, not in the order
    of declaration; and the operands of an [ANCHOR], though it is emitted
    in [PUSH_ON] mode, are not listed at all. *)
Lemma push_order_counterexample :
  transform_lines [tok "SRP0" "" [1]; tok "SRP1" "" [2]] []
  = Return (["PUSH[] 2 1"; "SRP0[]"; "SRP1[]"]%string, [])
  /\ push_line (flat_map stack_items [tok "SRP0" "" [1]; tok "SRP1" "" [2]])
     = "PUSH[] 1 2"%string
  /\ transform_lines [tok "ANCHOR" "" [1; 5; 7]] []
     = Return (["ANCHOR[]"]%string, [AnchorComponent 1 5 7 false None]).
Proof. vm_compute. repeat split; reflexivity. Qed.

(** ** Head and tail of [write_composite_info] *)

Lemma composite_info_match_length (s : text) (n : nat) :
  composite_info_match s = Some n -> (n <= List.length s)%nat.
Proof.
  unfold composite_info_match.
  destruct (first_of _ _); [|discriminate]. intros H. injection H as <-. lia.
Qed.

Lemma finditer_from_ordered (s : text) (bol : bool) (skip p : nat) :
  ordered_from (p + skip) (p + Nat.max skip (List.length s))
               (finditer_from bol skip p s).
Proof.
  revert bol skip p. induction s as [|c s IH]; intros bol skip p; cbn [finditer_from];
    [exact I|].
  destruct skip as [|k].
  - destruct (if bol then composite_info_match (c :: s) else None) as [[|k]|] eqn:E.
    + specialize (IH (Ascii.eqb c LF) O (S p)).
      replace (p + 0)%nat with p by lia.
      replace (S p + 0)%nat with (S p) in IH by lia.
      cbn [List.length Nat.max] in *.
      replace (p + S (List.length s))%nat with (S p + List.length s)%nat by lia.
      revert IH. generalize (finditer_from (Ascii.eqb c LF) 0 (S p) s).
      intros l. destruct l as [|[a b] l]; cbn; [auto|]. intros (H1 & H2); split; [lia|exact H2].
    + assert (Hk : (S k <= List.length (c :: s))%nat).
      { destruct bol; [|discriminate]. apply composite_info_match_length, E. }
      cbn [List.length] in Hk.
      specialize (IH (Ascii.eqb c LF) k (S p)).
      cbn [ordered_from List.length Nat.max].
      replace (Nat.max k (List.length s)) with (List.length s) in IH by lia.
      replace (p + S (List.length s))%nat with (S p + List.length s)%nat by lia.
      replace (p + S k)%nat with (S p + k)%nat by lia.
      repeat split; try lia. exact IH.
    + specialize (IH (Ascii.eqb c LF) O (S p)).
      replace (p + 0)%nat with p by lia.
      replace (S p + 0)%nat with (S p) in IH by lia.
      cbn [List.length Nat.max] in *.
      replace (p + S (List.length s))%nat with (S p + List.length s)%nat by lia.
      revert IH. generalize (finditer_from (Ascii.eqb c LF) 0 (S p) s).
      intros l. destruct l as [|[a b] l]; cbn; [auto|]. intros (H1 & H2); split; [lia|exact H2].
  - specialize (IH (Ascii.eqb c LF) k (S p)).
    replace (p + S k)%nat with (S p + k)%nat by lia.
    cbn [List.length].
    replace (p + Nat.max (S k) (S (List.length s)))%nat
      with (S p + Nat.max k (List.length s))%nat by lia.
    exact IH.
Qed.

Lemma finditer_ordered (data : text) :
  ordered_from O (List.length data) (finditer data).
Proof.
  pose proof (finditer_from_ordered data true O O) as H.
  cbn [Nat.add Nat.max] in H. exact H.
Qed.

Lemma last_default {A : Type} (b : A) (l : list A) (d d' : A) :
  List.last (b :: l) d = List.last (b :: l) d'.
Proof.
  revert b. induction l as [|c l IH]; intros b; [reflexivity|].
  change (List.last (c :: l) d = List.last (c :: l) d'). apply IH.
Qed.

Lemma collect_head_last (data : text) (spans : list (nat * nat))
      (head : text) (last : nat) :
  snd (collect_head data spans head last) = List.last (map snd spans) last.
Proof.
  revert head last. induction spans as [|[s e] spans IH]; intros head last;
    cbn [collect_head map]; [reflexivity|].
  rewrite IH. destruct spans as [|[s' e'] spans]; [reflexivity|].
  cbn [map snd].
  change (List.last (e' :: map snd spans) e = List.last (e' :: map snd spans) last).
  apply last_default.
Qed.

Lemma slice_empty (data : text) (a : nat) : slice data a a = [].
Proof. unfold slice. rewrite Nat.sub_diag. reflexivity. Qed.

Lemma collect_head_adjacent (data : text) (spans : list (nat * nat))
      (head : text) (last : nat) :
  adjacent_from last spans -> fst (collect_head data spans head last) = head.
Proof.
  revert head last. induction spans as [|[s e] spans IH]; intros head last;
    cbn [collect_head adjacent_from]; [reflexivity|].
  intros (-> & H). rewrite slice_empty, app_nil_r. apply IH, H.
Qed.

Lemma skipn_slice (data : text) (a b : nat) :
  (a <= b)%nat -> skipn a data = slice data a b ++ skipn b data.
Proof.
  intros H. unfold slice.
  rewrite <- (firstn_skipn (b - a) (skipn a data)) at 1.
  rewrite skipn_skipn. replace (b - a + a)%nat with b by lia. reflexivity.
Qed.

Lemma slice_length (data : text) (a b : nat) :
  (a <= b)%nat -> (b <= List.length data)%nat -> List.length (slice data a b) = (b - a)%nat.
Proof.
  intros H1 H2. unfold slice. rewrite length_firstn, length_skipn. lia.
Qed.

Lemma uncovered_keep (spans : list (nat * nat)) (x y : text) (p : nat) :
  (forall q, (p <= q < p + List.length x)%nat -> covered spans q = false) ->
  uncovered spans p (x ++ y) = x ++ uncovered spans (p + List.length x) y.
Proof.
  revert p. induction x as [|c x IH]; intros p H; simpl app; simpl uncovered; simpl List.length.
  - rewrite Nat.add_0_r. reflexivity.
  - rewrite (H p) by (cbn; lia). rewrite IH.
    + replace (S p + List.length x)%nat with (p + S (List.length x))%nat by lia.
      reflexivity.
    + intros q Hq. apply H. cbn. lia.
Qed.

Lemma uncovered_drop (spans : list (nat * nat)) (x y : text) (p : nat) :
  (forall q, (p <= q < p + List.length x)%nat -> covered spans q = true) ->
  uncovered spans p (x ++ y) = uncovered spans (p + List.length x) y.
Proof.
  revert p. induction x as [|c x IH]; intros p H; simpl app; simpl uncovered; simpl List.length.
  - rewrite Nat.add_0_r. reflexivity.
  - rewrite (H p) by (cbn; lia). rewrite IH.
    + replace (S p + List.length x)%nat with (p + S (List.length x))%nat by lia.
      reflexivity.
    + intros q Hq. apply H. cbn. lia.
Qed.

Lemma uncovered_ext (a b : list (nat * nat)) (x : text) (p : nat) :
  (forall q, (p <= q)%nat -> covered a q = covered b q) ->
  uncovered a p x = uncovered b p x.
Proof.
  revert p. induction x as [|c x IH]; intros p H; cbn [uncovered]; [reflexivity|].
  rewrite (H p) by lia. rewrite (IH (S p)); [reflexivity|].
  intros q Hq. apply H. lia.
Qed.

Lemma covered_before (spans : list (nat * nat)) (e n q : nat) :
  ordered_from e n spans -> (q < e)%nat -> covered spans q = false.
Proof.
  revert e. induction spans as [|[s e'] spans IH]; intros e; cbn; [reflexivity|].
  intros (H1 & H2 & H3 & H4) Hq.
  replace (s <=? q)%nat with false by (symmetry; apply Nat.leb_gt; lia).
  cbn. apply (IH e'); [exact H4 | lia].
Qed.

Lemma uncovered_nil (p : nat) (x : text) : uncovered [] p x = x.
Proof.
  revert p. induction x as [|c x IH]; intros p; cbn; [reflexivity|].
  rewrite IH. reflexivity.
Qed.

Lemma collect_head_uncovered (data : text) (spans : list (nat * nat))
      (head : text) (last : nat) :
  ordered_from last (List.length data) spans ->
  fst (collect_head data spans head last)
  ++ skipn (snd (collect_head data spans head last)) data
  = head ++ uncovered spans last (skipn last data).
Proof.
  revert head last. induction spans as [|[s e] spans IH]; intros head last;
    cbn [collect_head ordered_from fst snd].
  - intros _. rewrite uncovered_nil. reflexivity.
  - intros (H1 & H2 & H3 & H4). rewrite (IH _ _ H4), <- app_assoc. f_equal.
    rewrite (skipn_slice data last s H1), (skipn_slice data s e) by lia.
    rewrite uncovered_keep.
    2:{ intros q Hq. rewrite slice_length in Hq by lia. unfold covered. cbn [existsb fst snd].
        replace (s <=? q)%nat with false by (symmetry; apply Nat.leb_gt; lia).
        cbn [andb orb]. apply (covered_before spans e (List.length data)); [exact H4 | lia]. }
    f_equal. rewrite slice_length by lia.
    replace (last + (s - last))%nat with s by lia.
    rewrite uncovered_drop.
    2:{ intros q Hq. rewrite slice_length in Hq by lia. unfold covered. cbn [existsb fst snd].
        replace (s <=? q)%nat with true by (symmetry; apply Nat.leb_le; lia).
        replace (q <? e)%nat with true by (symmetry; apply Nat.ltb_lt; lia).
        reflexivity. }
    rewrite slice_length by lia. replace (s + (e - s))%nat with e by lia.
    apply uncovered_ext. intros q Hq. unfold covered. cbn [existsb fst snd].
    replace (q <? e)%nat with false by (symmetry; apply Nat.ltb_ge; lia).
    rewrite andb_false_r. reflexivity.
Qed.

(** C9, as amended.  The tail is the data after the last recognised
    declaration, unchanged; head and tail together are the data with the
    declarations cut out, every other character kept in place and order;
    and the head is the data before the first declaration whenever each
    declaration starts where the one before it ended (text standing
    between two declarations goes to the head as well).  Without any
    declaration the head is empty and the tail is the whole data. *)
Theorem head_tail_verbatim
        (glyph : list GlyphComponent) (glyph_order : list string)
        (data : text) (vtt_version : Z) (head decl tail : text) :
  write_composite_info glyph glyph_order data vtt_version
    = Return (head, decl, tail) ->
  tail = skipn (last_end (finditer data)) data
  /\ head ++ tail = uncovered (finditer data) O data
  /\ match finditer data with
     | [] => head = []
     | (s, e) :: rest => adjacent_from e rest -> head = firstn s data
     end.
Proof.
  unfold write_composite_info.
  destruct (collect_head data (finditer data) [] O) as [h last] eqn:E.
  intros H. apply bind_return in H. destruct H as (ls & _ & H).
  injection H as <- _ <-.
  assert (Hlast : last = last_end (finditer data)).
  { pose proof (collect_head_last data (finditer data) [] O) as Hl.
    rewrite E in Hl. exact Hl. }
  assert (Htail : (if (last <? List.length data)%nat then slice_from data last else [])
                  = skipn last data).
  { unfold slice_from. destruct (Nat.ltb_spec last (List.length data)); [reflexivity|].
    symmetry. apply skipn_all2. lia. }
  rewrite Htail. split; [rewrite Hlast; reflexivity|]. split.
  - pose proof (collect_head_uncovered data (finditer data) [] O
                  (finditer_ordered data)) as Hu.
    rewrite E in Hu. exact Hu.
  - destruct (finditer data) as [|[s e] rest] eqn:F.
    + cbn in E. injection E as <- _. reflexivity.
    + intros Hadj. cbn [collect_head] in E.
      pose proof (collect_head_adjacent data rest ([] ++ slice data O s) e Hadj) as Hh.
      rewrite E in Hh. cbn [fst app] in Hh. rewrite Hh.
      unfold slice. rewrite Nat.sub_0_r. reflexivity.
Qed.

Lemma head_tail_verbatim_witness :
  write_composite_info [mkComp "a" 4 (ByOffset 1 2)] [".notdef"; "a"]
    (chars ("SVTCA[Y]" ++ nl ++ "USEMYMETRICS[]" ++ nl ++
            "OFFSET[R], 2, 10, -20" ++ nl ++ "IUP[X]")) 6
  = Return (chars ("SVTCA[Y]" ++ nl), chars ("OFFSET[R], 1, 1, 2" ++ nl),
            chars "IUP[X]")
  /\ chars ("SVTCA[Y]" ++ nl) ++ chars "IUP[X]"
     = uncovered [(9, 24); (24, 46)]%nat O
         (chars ("SVTCA[Y]" ++ nl ++ "USEMYMETRICS[]" ++ nl ++
                 "OFFSET[R], 2, 10, -20" ++ nl ++ "IUP[X]")).
Proof.
  assert (H : write_composite_info [mkComp "a" 4 (ByOffset 1 2)] [".notdef"; "a"]
    (chars ("SVTCA[Y]" ++ nl ++ "USEMYMETRICS[]" ++ nl ++
            "OFFSET[R], 2, 10, -20" ++ nl ++ "IUP[X]")) 6
  = Return (chars ("SVTCA[Y]" ++ nl), chars ("OFFSET[R], 1, 1, 2" ++ nl),
            chars "IUP[X]")) by (vm_compute; reflexivity).
  split; [exact H|].
  destruct (head_tail_verbatim _ _ _ _ _ _ _ H) as (_ & H2 & _).
  exact H2.
Defined.

(** C9, as stated, fails: with a line standing between two declarations
    the head is not the text before the first declaration; it holds that
    line too. *)
Lemma head_not_before_first_counterexample :
  finditer (chars ("A" ++ nl ++ "USEMYMETRICS[]" ++ nl ++ "B" ++ nl ++
                   "OVERLAP[]" ++ nl ++ "C"))
  = [(2, 17); (19, 29)]%nat
  /\ write_composite_info [] []
       (chars ("A" ++ nl ++ "USEMYMETRICS[]" ++ nl ++ "B" ++ nl ++
               "OVERLAP[]" ++ nl ++ "C")) 6
     = Return (chars ("A" ++ nl ++ "B" ++ nl), [], chars "C")
  /\ firstn 2 (chars ("A" ++ nl ++ "USEMYMETRICS[]" ++ nl ++ "B" ++ nl ++
                      "OVERLAP[]" ++ nl ++ "C"))
     = chars ("A" ++ nl).
Proof. vm_compute. repeat split; reflexivity. Qed.

(** ** The regenerated block is recognised *)

Lemma chars_app (a b : string) : chars (a ++ b) = chars a ++ chars b.
Proof.
  unfold chars. induction a as [|c a IH]; cbn; [reflexivity|].
  rewrite IH. reflexivity.
Qed.

Lemma uint_digits (d : uint) :
  Forall (fun c => is_digit c = true) (chars (NilEmpty.string_of_uint d)).
Proof.
  induction d; cbn; constructor; try reflexivity; assumption.
Qed.

Lemma uint_nonempty (d : uint) :
  d <> Nil -> chars (NilEmpty.string_of_uint d) <> [].
Proof. destruct d; cbn; [contradiction | discriminate ..]. Qed.

Lemma nilzero_uint_digits (d : uint) :
  chars (NilZero.string_of_uint d) <> [] /\
  Forall (fun c => is_digit c = true) (chars (NilZero.string_of_uint d)).
Proof.
  destruct d eqn:E;
    try (split; [rewrite <- E; cbn; subst; discriminate
                | rewrite <- E; subst; apply (uint_digits _)]).
  split; [discriminate | repeat constructor].
Qed.

(** [str(z)] is an optional minus sign and at least one digit. *)
Lemma str_shape (z : Z) :
  exists sign ds,
    chars (Py.str z) = sign ++ ds
    /\ (sign = [] \/ sign = ["-"%char])
    /\ ds <> [] /\ Forall (fun c => is_digit c = true) ds.
Proof.
  unfold Py.str. destruct (Z.to_int z) as [d|d]; cbn [NilZero.string_of_int].
  - exists [], (chars (NilZero.string_of_uint d)).
    destruct (nilzero_uint_digits d). auto.
  - exists ["-"%char], (chars (NilZero.string_of_uint d)).
    destruct (nilzero_uint_digits d). auto.
Qed.

Lemma digits_app (ds tail : text) :
  Forall (fun c => is_digit c = true) ds -> no_digit_ahead tail ->
  digits (ds ++ tail) = tail.
Proof.
  intros Hd Ht. induction Hd as [|c ds Hc _ IH]; cbn [List.app].
  - destruct tail as [|c tail]; [reflexivity|]. unfold no_digit_ahead in Ht.
    cbn [digits]. rewrite Ht. reflexivity.
  - cbn [digits]. rewrite Hc. exact IH.
Qed.

Lemma argument_number (z : Z) (tail : text) :
  no_digit_ahead tail ->
  argument (chars ", " ++ chars (Py.str z) ++ tail) = Some tail.
Proof.
  intros Ht. destruct (str_shape z) as (sign & ds & -> & Hsign & Hne & Hd).
  destruct ds as [|d ds]; [contradiction|].
  inversion Hd as [|? ? Hd0 Hds]; subst.
  unfold argument. cbn [chars list_ascii_of_string List.app lit Ascii.eqb Bool.eqb].
  cbn [spaces Ascii.eqb Bool.eqb].
  assert (Hd_space : Ascii.eqb d " " = false).
  { destruct (Ascii.eqb_spec d " ") as [->|]; [discriminate | reflexivity]. }
  assert (Hd_minus : Ascii.eqb d "-" = false).
  { destruct (Ascii.eqb_spec d "-") as [->|]; [discriminate | reflexivity]. }
  destruct Hsign as [-> | ->]; cbn [List.app spaces opt_minus Ascii.eqb Bool.eqb].
  - rewrite Hd_space. cbn [opt_minus]. rewrite Hd_minus. cbn [digits1].
    rewrite Hd0. rewrite digits_app by assumption. reflexivity.
  - cbn [digits1]. rewrite Hd0. rewrite digits_app by assumption. reflexivity.
Qed.

Lemma three_arguments_numbers (a b c : Z) (rest : text) :
  three_arguments
    (chars ", " ++ chars (Py.str a) ++ chars ", " ++ chars (Py.str b) ++
     chars ", " ++ chars (Py.str c) ++ LF :: rest)
  = Some rest.
Proof.
  unfold three_arguments.
  rewrite argument_number by reflexivity.
  rewrite argument_number by reflexivity.
  rewrite argument_number by reflexivity.
  reflexivity.
Qed.

Lemma lit_app (p s : text) : lit p (p ++ s) = Some s.
Proof.
  induction p as [|c p IH]; cbn [List.app lit]; [reflexivity|].
  rewrite Ascii.eqb_refl. exact IH.
Qed.

Lemma ends_line_snoc (b : bool) (x : text) : ends_line b (x ++ [LF]) = true.
Proof.
  revert b. induction x as [|c x IH]; intros b; cbn [List.app ends_line];
    [reflexivity | apply IH].
Qed.

Lemma match_rest (l rest : text) :
  first_of (_use_my_metrics (l ++ rest))
    (first_of (_overlap (l ++ rest))
       (first_of (_scaled_component_offset (l ++ rest))
          (first_of (_anchor (l ++ rest)) (_offset (l ++ rest)))))
  = Some rest ->
  composite_info_match (l ++ rest) = Some (List.length l).
Proof.
  intros H. unfold composite_info_match. rewrite H, length_app.
  f_equal. lia.
Qed.

Lemma use_my_metrics_line : declaration_line (chars ("USEMYMETRICS[]" ++ nl)).
Proof.
  split; [discriminate|]. split; [reflexivity|].
  intros rest. apply match_rest. reflexivity.
Qed.

Lemma scaled_line : declaration_line (chars ("SCALEDCOMPONENTOFFSET[]" ++ nl)).
Proof.
  split; [discriminate|]. split; [reflexivity|].
  intros rest. apply match_rest. reflexivity.
Qed.

Lemma unscaled_line : declaration_line (chars ("UNSCALEDCOMPONENTOFFSET[]" ++ nl)).
Proof.
  split; [discriminate|]. split; [reflexivity|].
  intros rest. apply match_rest. reflexivity.
Qed.

Lemma anchor_line (index firstPt secondPt : Z) :
  declaration_line
    (chars ("ANCHOR[], " ++ Py.str index ++ ", " ++ Py.str firstPt ++ ", " ++
            Py.str secondPt ++ nl)).
Proof.
  assert (E : chars ("ANCHOR[], " ++ Py.str index ++ ", " ++ Py.str firstPt ++ ", " ++
                     Py.str secondPt ++ nl)
              = (chars "ANCHOR[]" ++ chars ", " ++ chars (Py.str index) ++
                 chars ", " ++ chars (Py.str firstPt) ++ chars ", " ++
                 chars (Py.str secondPt)) ++ [LF]).
  { rewrite !chars_app, <- !app_assoc. reflexivity. }
  rewrite E. split; [|split].
  - intros H. apply (f_equal (@List.length ascii)) in H.
    rewrite length_app in H. cbn in H. lia.
  - apply ends_line_snoc.
  - intros rest. apply match_rest.
    rewrite <- !app_assoc. cbn [List.app].
    change (first_of (_use_my_metrics (chars "ANCHOR[]" ++ ?x)) ?y) with y.
    change (first_of (_overlap (chars "ANCHOR[]" ++ ?x)) ?y) with y.
    change (first_of (_scaled_component_offset (chars "ANCHOR[]" ++ ?x)) ?y) with y.
    unfold _anchor. rewrite lit_app, three_arguments_numbers. reflexivity.
Qed.

Lemma offset_line (round : bool) (index x y : Z) :
  declaration_line
    (chars ("OFFSET[" ++ (if round then "R" else "r") ++ "], " ++ Py.str index ++
            ", " ++ Py.str x ++ ", " ++ Py.str y ++ nl)).
Proof.
  assert (E : chars ("OFFSET[" ++ (if round then "R" else "r") ++ "], " ++
                     Py.str index ++ ", " ++ Py.str x ++ ", " ++ Py.str y ++ nl)
              = (chars "OFFSET[" ++ chars (if round then "R" else "r") ++ chars "]" ++
                 chars ", " ++ chars (Py.str index) ++
                 chars ", " ++ chars (Py.str x) ++ chars ", " ++
                 chars (Py.str y)) ++ [LF]).
  { rewrite !chars_app, <- !app_assoc. reflexivity. }
  rewrite E. split; [|split].
  - intros H. apply (f_equal (@List.length ascii)) in H.
    rewrite length_app in H. cbn in H. lia.
  - apply ends_line_snoc.
  - intros rest. apply match_rest.
    rewrite <- !app_assoc. cbn [List.app].
    change (first_of (_use_my_metrics (chars "OFFSET[" ++ ?x)) ?y) with y.
    change (first_of (_overlap (chars "OFFSET[" ++ ?x)) ?y) with y.
    change (first_of (_scaled_component_offset (chars "OFFSET[" ++ ?x)) ?y) with y.
    change (first_of (_anchor (chars "OFFSET[" ++ ?x)) ?y) with y.
    unfold _offset. rewrite lit_app.
    destruct round.
    + change (chars "R" ++ ?x) with ("R"%char :: x).
      cbn [Ascii.eqb Bool.eqb orb].
      rewrite lit_app, three_arguments_numbers. reflexivity.
    + change (chars "r" ++ ?x) with ("r"%char :: x).
      cbn [Ascii.eqb Bool.eqb orb].
      rewrite lit_app, three_arguments_numbers. reflexivity.
Qed.

Lemma component_instructions_lines (comp : GlyphComponent)
      (glyph_order : list string) (vtt_version : Z) (ls : list string) :
  component_instructions comp glyph_order vtt_version = Return ls ->
  Forall (fun l => declaration_line (chars l)) ls /\ ls <> [].
Proof.
  unfold component_instructions. intros H.
  apply bind_return in H. destruct H as (index & _ & H). injection H as <-.
  split.
  - apply Forall_app. split.
    { destruct (has_flag (comp_flags comp) USE_MY_METRICS);
        [constructor; [apply use_my_metrics_line | constructor] | constructor]. }
    apply Forall_app. split.
    { destruct (6 <=? vtt_version); [|constructor].
      apply Forall_app. split.
      - destruct (has_flag (comp_flags comp) SCALED_COMPONENT_OFFSET);
          [constructor; [apply scaled_line | constructor] | constructor].
      - destruct (has_flag (comp_flags comp) UNSCALED_COMPONENT_OFFSET);
          [constructor; [apply unscaled_line | constructor] | constructor]. }
    constructor; [|constructor].
    destruct (placement comp) as [x y|firstPt secondPt].
    + apply offset_line.
    + apply anchor_line.
  - intros H. apply (f_equal (@List.length string)) in H.
    rewrite !length_app in H. cbn in H. lia.
Qed.

Lemma instructions_lines (glyph : list GlyphComponent)
      (glyph_order : list string) (vtt_version : Z) (ls : list string) :
  instructions glyph glyph_order vtt_version = Return ls ->
  Forall (fun l => declaration_line (chars l)) ls /\ (glyph <> [] -> ls <> []).
Proof.
  revert ls. induction glyph as [|comp glyph IH]; intros ls; cbn [instructions].
  - intros H. injection H as <-. split; [constructor | intros H; contradiction].
  - intros H. apply bind_return in H. destruct H as (l & Hl & H).
    apply bind_return in H. destruct H as (ls' & Hls & H). injection H as <-.
    destruct (component_instructions_lines _ _ _ _ Hl) as (Hf & Hne).
    destruct (IH ls' Hls) as (Hf' & _).
    split; [apply Forall_app; split; assumption|].
    intros _ H. apply app_eq_nil in H. destruct H as (H & _). contradiction.
Qed.

Lemma chars_join (ls : list string) :
  chars (Py.join "" ls) = List.concat (map chars ls).
Proof.
  unfold Py.join. induction ls as [|l ls IH]; [reflexivity|].
  cbn [map List.concat]. rewrite <- IH.
  destruct ls as [|l' ls].
  - cbn. rewrite app_nil_r. reflexivity.
  - change (String.concat "" (l :: l' :: ls))
      with (l ++ "" ++ String.concat "" (l' :: ls))%string.
    rewrite !chars_app. reflexivity.
Qed.

Lemma skip_all (x rest : text) (b : bool) (p : nat) :
  finditer_from b (List.length x) p (x ++ rest)
  = finditer_from (ends_line b x) O (p + List.length x) rest.
Proof.
  revert b p. induction x as [|c x IH]; intros b p;
    cbn [List.app List.length ends_line].
  - rewrite Nat.add_0_r. reflexivity.
  - cbn [finditer_from]. rewrite IH.
    replace (S p + List.length x)%nat with (p + S (List.length x))%nat by lia.
    reflexivity.
Qed.

Lemma scan_line (l rest : text) (p : nat) :
  declaration_line l ->
  finditer_from true O p (l ++ rest)
  = (p, p + List.length l)%nat
    :: finditer_from true O (p + List.length l) rest.
Proof.
  intros (Hne & Hend & Hmatch). specialize (Hmatch rest).
  destruct l as [|c l]; [contradiction|].
  cbn [List.app] in *. cbn [finditer_from]. rewrite Hmatch.
  cbn [List.length]. rewrite skip_all.
  cbn [ends_line] in Hend. rewrite Hend.
  replace (S p + List.length l)%nat with (p + S (List.length l))%nat by lia.
  reflexivity.
Qed.

Lemma scan_lines (ls : list text) (rest : text) (p : nat) :
  Forall declaration_line ls ->
  finditer_from true O p (List.concat ls ++ rest)
  = spans_of p ls ++ finditer_from true O (p + List.length (List.concat ls)) rest.
Proof.
  intros H. revert p. induction H as [|l ls Hl _ IH]; intros p;
    cbn [List.concat spans_of List.app].
  - rewrite Nat.add_0_r. reflexivity.
  - rewrite <- app_assoc, (scan_line l _ p Hl), IH, length_app.
    rewrite Nat.add_assoc. reflexivity.
Qed.

Lemma spans_of_adjacent (ls : list text) (p : nat) : adjacent_from p (spans_of p ls).
Proof.
  revert p. induction ls as [|l ls IH]; intros p; cbn; [exact I|].
  split; [reflexivity | apply IH].
Qed.

Lemma spans_of_last (ls : list text) (p : nat) :
  List.last (map snd (spans_of p ls)) p = (p + List.length (List.concat ls))%nat.
Proof.
  revert p. induction ls as [|l ls IH]; intros p; cbn [spans_of map List.concat snd].
  - cbn. lia.
  - rewrite length_app, Nat.add_assoc, <- IH.
    destruct ls as [|l' ls]; [cbn; lia|].
    cbn [spans_of map snd].
    change (List.last ((p + List.length l)%nat :: ?a :: ?r) p) with (List.last (a :: r) p).
    apply last_default.
Qed.

(** ** A match does not reach past its line *)

Lemma local_lit (p : text) : no_lf p -> local (lit p).
Proof.
  induction 1 as [|c p Hc _ IH]; intros a Ha.
  - right. exists a. split; [exact Ha | reflexivity].
  - destruct Ha as [|c' a Hc' Ha]; cbn [List.app lit].
    + left. intros z. apply Ascii.eqb_neq in Hc. rewrite Hc. reflexivity.
    + destruct (Ascii.eqb c c'); [apply IH, Ha | left; reflexivity].
Qed.

Lemma local_total_spaces : local_total spaces.
Proof.
  intros a Ha. induction Ha as [|c a Hc Ha IH]; cbn [List.app spaces].
  - exists []. split; [constructor | reflexivity].
  - destruct (Ascii.eqb c " "); [exact IH|].
    exists (c :: a). split; [constructor; assumption | reflexivity].
Qed.

Lemma local_total_digits : local_total digits.
Proof.
  intros a Ha. induction Ha as [|c a Hc Ha IH]; cbn [List.app digits].
  - exists []. split; [constructor | reflexivity].
  - destruct (is_digit c); [exact IH|].
    exists (c :: a). split; [constructor; assumption | reflexivity].
Qed.

Lemma local_total_opt_minus : local_total opt_minus.
Proof.
  intros a Ha. destruct Ha as [|c a Hc Ha]; cbn [List.app opt_minus].
  - exists []. split; [constructor | reflexivity].
  - destruct (Ascii.eqb c "-").
    + exists a. split; [exact Ha | reflexivity].
    + exists (c :: a). split; [constructor; assumption | reflexivity].
Qed.

Lemma local_digits1 : local digits1.
Proof.
  intros a Ha. destruct Ha as [|c a Hc Ha]; cbn [List.app digits1].
  - left. reflexivity.
  - destruct (is_digit c); [|left; reflexivity].
    right. destruct (local_total_digits a Ha) as (a' & Ha' & H).
    exists a'. split; [exact Ha'|]. intros z. rewrite H. reflexivity.
Qed.

Lemma local_round_flag : local round_flag.
Proof.
  intros a Ha. destruct Ha as [|c a Hc Ha]; cbn [List.app round_flag].
  - left. reflexivity.
  - destruct (Ascii.eqb c "r" || Ascii.eqb c "R"); [|left; reflexivity].
    right. exists a. split; [exact Ha | reflexivity].
Qed.

Lemma local_seq (f g : text -> option text) :
  local f -> local g -> local (seq f g).
Proof.
  intros Hf Hg a Ha. unfold seq.
  destruct (Hf a Ha) as [H|(a' & Ha' & H)].
  - left. intros z. rewrite H. reflexivity.
  - destruct (Hg a' Ha') as [G|(a'' & Ha'' & G)].
    + left. intros z. rewrite H. apply G.
    + right. exists a''. split; [exact Ha''|]. intros z. rewrite H. apply G.
Qed.

Lemma local_after (f : text -> option text) (g : text -> text) :
  local_total g -> local f -> local (fun s => f (g s)).
Proof.
  intros Hg Hf a Ha. destruct (Hg a Ha) as (a' & Ha' & G).
  destruct (Hf a' Ha') as [H|(a'' & Ha'' & H)].
  - left. intros z. rewrite G. apply H.
  - right. exists a''. split; [exact Ha''|]. intros z. rewrite G. apply H.
Qed.

Lemma local_argument : local argument.
Proof.
  change argument
    with (seq (lit (chars ",")) (fun s => digits1 (opt_minus (spaces s)))).
  apply local_seq.
  - apply local_lit. repeat constructor. discriminate.
  - apply (local_after (fun s => digits1 (opt_minus s)) spaces local_total_spaces).
    apply (local_after digits1 opt_minus local_total_opt_minus local_digits1).
Qed.

Lemma stable_then_newline (f : text -> option text) :
  local f -> stable (fun s => then_newline (f s)).
Proof.
  intros Hf a Ha. destruct (Hf a Ha) as [H|(a' & Ha' & H)].
  - left. intros z. rewrite H. reflexivity.
  - right. destruct Ha' as [|c a' Hc Ha'].
    + exists (S (List.length a)). intros z. exists z. rewrite H.
      split; [reflexivity|]. rewrite length_app. cbn [List.length]. lia.
    + destruct (Ascii.eqb c CR || Ascii.eqb c LF) eqn:E.
      * exists (List.length a - List.length a')%nat. intros z.
        exists (a' ++ LF :: z). rewrite H. cbn [then_newline List.app opt_newline].
        rewrite E. split; [reflexivity|].
        rewrite !length_app. cbn [List.length]. lia.
      * exists (List.length a - S (List.length a'))%nat. intros z.
        exists (c :: a' ++ LF :: z). rewrite H.
        cbn [then_newline List.app opt_newline].
        rewrite E. split; [reflexivity|].
        rewrite !length_app. cbn [List.length]. rewrite length_app.
        cbn [List.length]. lia.
Qed.

Lemma stable_first_of (m1 m2 : text -> option text) :
  stable m1 -> stable m2 -> stable (fun s => first_of (m1 s) (m2 s)).
Proof.
  intros H1 H2 a Ha. destruct (H1 a Ha) as [N|(n & S1)].
  - destruct (H2 a Ha) as [N2|(n & S2)].
    + left. intros z. rewrite N, N2. reflexivity.
    + right. exists n. intros z. rewrite N. apply S2.
  - right. exists n. intros z. destruct (S1 z) as (r & -> & Hr).
    exists r. split; [reflexivity | exact Hr].
Qed.

Lemma stable_ext (m m' : text -> option text) :
  (forall s, m s = m' s) -> stable m' -> stable m.
Proof.
  intros E H a Ha. destruct (H a Ha) as [N|(n & S1)].
  - left. intros z. rewrite E. apply N.
  - right. exists n. intros z. rewrite E. apply S1.
Qed.

Lemma local_three : local (seq argument (seq argument argument)).
Proof.
  apply local_seq; [apply local_argument|].
  apply local_seq; apply local_argument.
Qed.

Lemma three_arguments_seq (s : text) :
  three_arguments s = then_newline (seq argument (seq argument argument) s).
Proof.
  unfold three_arguments, seq.
  destruct (argument s) as [s1|]; [|reflexivity].
  destruct (argument s1) as [s2|]; [|reflexivity].
  destruct (argument s2); reflexivity.
Qed.

Lemma no_lf_chars (s : string) :
  forallb (fun c => negb (Ascii.eqb c LF)) (chars s) = true -> no_lf (chars s).
Proof.
  intros H. apply Forall_forall. intros c Hc.
  rewrite forallb_forall in H. specialize (H c Hc).
  apply negb_true_iff, Ascii.eqb_neq in H. exact H.
Qed.

Lemma stable_use_my_metrics : stable _use_my_metrics.
Proof. apply stable_then_newline, local_lit, no_lf_chars. reflexivity. Qed.

Lemma stable_overlap : stable _overlap.
Proof. apply stable_then_newline, local_lit, no_lf_chars. reflexivity. Qed.

Lemma stable_scaled : stable _scaled_component_offset.
Proof.
  apply (stable_ext _
           (fun s => first_of
                       (then_newline (seq (lit (chars "UN"))
                                          (lit (chars "SCALEDCOMPONENTOFFSET[]")) s))
                       (then_newline (lit (chars "SCALEDCOMPONENTOFFSET[]") s)))).
  - intros s. unfold _scaled_component_offset, seq.
    destruct (lit (chars "UN") s) as [s1|]; [|reflexivity].
    destruct (lit (chars "SCALEDCOMPONENTOFFSET[]") s1); reflexivity.
  - apply stable_first_of.
    + apply (stable_then_newline
               (seq (lit (chars "UN")) (lit (chars "SCALEDCOMPONENTOFFSET[]")))).
      apply local_seq; apply local_lit, no_lf_chars; reflexivity.
    + apply stable_then_newline, local_lit, no_lf_chars. reflexivity.
Qed.

Lemma stable_anchor : stable _anchor.
Proof.
  apply (stable_ext _
           (fun s => then_newline
                       (seq (lit (chars "ANCHOR[]"))
                            (seq argument (seq argument argument)) s))).
  - intros s. unfold _anchor, seq at 1.
    destruct (lit (chars "ANCHOR[]") s) as [s1|]; [|reflexivity].
    apply three_arguments_seq.
  - apply (stable_then_newline
             (seq (lit (chars "ANCHOR[]")) (seq argument (seq argument argument)))).
    apply local_seq; [apply local_lit, no_lf_chars; reflexivity | apply local_three].
Qed.

Lemma stable_offset : stable _offset.
Proof.
  apply (stable_ext _
           (fun s => then_newline
                       (seq (lit (chars "OFFSET["))
                          (seq round_flag
                             (seq (lit (chars "]"))
                                (seq argument (seq argument argument)))) s))).
  - intros s. unfold _offset, seq at 1.
    destruct (lit (chars "OFFSET[") s) as [[|c s1]|]; [reflexivity | | reflexivity].
    unfold seq at 1. cbn [round_flag].
    destruct (Ascii.eqb c "r" || Ascii.eqb c "R"); [|reflexivity].
    unfold seq at 1.
    destruct (lit (chars "]") s1) as [s2|]; [|reflexivity].
    apply three_arguments_seq.
  - apply (stable_then_newline
             (seq (lit (chars "OFFSET["))
                (seq round_flag
                   (seq (lit (chars "]")) (seq argument (seq argument argument)))))).
    apply local_seq; [apply local_lit, no_lf_chars; reflexivity|].
    apply local_seq; [apply local_round_flag|].
    apply local_seq; [apply local_lit, no_lf_chars; reflexivity | apply local_three].
Qed.

Lemma match_local (a z z' : text) :
  no_lf a ->
  composite_info_match (a ++ LF :: z) = composite_info_match (a ++ LF :: z').
Proof.
  intros Ha.
  pose proof (stable_first_of _ _ stable_use_my_metrics
                (stable_first_of _ _ stable_overlap
                   (stable_first_of _ _ stable_scaled
                      (stable_first_of _ _ stable_anchor stable_offset)))) as H.
  unfold composite_info_match.
  destruct (H a Ha) as [N|(n & S1)].
  - cbv beta in N. rewrite (N z), (N z'). reflexivity.
  - cbv beta in S1.
    destruct (S1 z) as (r & -> & Hr). destruct (S1 z') as (r' & -> & Hr').
    rewrite Hr, Hr'. reflexivity.
Qed.

Lemma split_first_lf (v : text) :
  In LF v -> exists a b, v = a ++ LF :: b /\ no_lf a.
Proof.
  induction v as [|c v IH]; [intros []|].
  destruct (Ascii.eqb_spec c LF) as [->|Hc].
  - intros _. exists [], v. split; [reflexivity | constructor].
  - intros [H|H]; [contradiction|].
    destruct (IH H) as (a & b & -> & Ha).
    exists (c :: a), b. split; [reflexivity | constructor; assumption].
Qed.

Lemma ends_line_in (v : text) (b : bool) :
  v <> [] -> ends_line b v = true -> In LF v.
Proof.
  revert b. induction v as [|c v IH]; intros b Hne; [contradiction|].
  cbn [ends_line]. destruct v as [|c' v].
  - cbn [ends_line]. intros H. apply Ascii.eqb_eq in H. left. exact H.
  - intros H. right. apply (IH (Ascii.eqb c LF)); [discriminate | exact H].
Qed.

Lemma match_line_local (v y : text) (b : bool) :
  v <> [] -> ends_line b v = true ->
  composite_info_match (v ++ y) = composite_info_match v.
Proof.
  intros Hne He.
  destruct (split_first_lf v (ends_line_in v b Hne He)) as (a & r & -> & Ha).
  rewrite <- app_assoc. cbn [List.app].
  rewrite <- (app_nil_r r) at 2. apply match_local, Ha.
Qed.

(** The scan of a text that ends a line does not depend on what follows. *)
Lemma scan_split (u y : text) (bol : bool) (skip p : nat) :
  (skip <= List.length u)%nat -> ends_line bol u = true ->
  finditer_from bol skip p (u ++ y)
  = finditer_from bol skip p u ++ finditer_from true O (p + List.length u) y.
Proof.
  revert bol skip p. induction u as [|c u IH]; intros bol skip p Hs He.
  - cbn [List.length] in Hs. assert (skip = O) by lia. subst skip.
    cbn [ends_line] in He. subst bol. cbn. rewrite Nat.add_0_r. reflexivity.
  - cbn [List.app finditer_from List.length]. cbn [List.length] in Hs.
    cbn [ends_line] in He.
    replace (p + S (List.length u))%nat with (S p + List.length u)%nat by lia.
    destruct skip as [|k].
    + destruct bol.
      * change (c :: u ++ y) with ((c :: u) ++ y).
        rewrite (match_line_local (c :: u) y true) by (discriminate || exact He).
        destruct (composite_info_match (c :: u)) as [[|k]|] eqn:E.
        -- apply IH; [lia | exact He].
        -- apply composite_info_match_length in E. cbn [List.length] in E.
           cbn [List.app]. f_equal. apply IH; [lia | exact He].
        -- apply IH; [lia | exact He].
      * apply IH; [lia | exact He].
    + apply IH; [lia | exact He].
Qed.

Lemma finditer_from_shift (s : text) (b : bool) (k p q : nat) :
  finditer_from b k (p + q) s
  = map (fun se => (fst se + q, snd se + q)%nat) (finditer_from b k p s).
Proof.
  revert b k p. induction s as [|c s IH]; intros b k p; cbn [finditer_from];
    [reflexivity|].
  destruct k as [|k].
  - destruct (if b then composite_info_match (c :: s) else None) as [[|n]|];
      cbn [map fst snd]; rewrite <- ?IH; try reflexivity.
    f_equal. f_equal. lia.
  - apply (IH _ k (S p)).
Qed.

Lemma finditer_from_none (t : text) (q : nat) :
  finditer t = [] -> finditer_from true O q t = [].
Proof.
  intros H. change q with (O + q)%nat. rewrite finditer_from_shift.
  unfold finditer in H. rewrite H. reflexivity.
Qed.

Lemma finditer_regenerated (h t : text) (lines : list text) :
  ends_line true h = true -> finditer h = [] -> finditer t = [] ->
  Forall declaration_line lines ->
  finditer (h ++ List.concat lines ++ t) = spans_of (List.length h) lines.
Proof.
  intros Hend Hh Ht Hl. unfold finditer.
  rewrite (scan_split h _ true O O) by (lia || exact Hend).
  unfold finditer in Hh. rewrite Hh. cbn [List.app Nat.add].
  rewrite (scan_lines lines t _ Hl), finditer_from_none by exact Ht.
  apply app_nil_r.
Qed.

(** C8, as amended.  The declaration text that [write_composite_info]
    returns is the same for every text it is given (it is written from
    the outline alone).  Run again on the concatenation of what it
    returned, it returns the same head, declaration text and tail,
    provided the head is empty or ends with a line feed, neither the head
    nor the tail, read on their own, holds a declaration, and the glyph
    has a component or the head is empty. *)
Theorem regeneration_idempotent
        (glyph : list GlyphComponent) (glyph_order : list string)
        (vtt_version : Z) (data head decl tail : text) :
  write_composite_info glyph glyph_order data vtt_version
    = Return (head, decl, tail) ->
  (forall data' head' decl' tail',
      write_composite_info glyph glyph_order data' vtt_version
        = Return (head', decl', tail') -> decl' = decl)
  /\ (glyph <> [] \/ head = [] ->
      ends_line true head = true ->
      finditer head = [] -> finditer tail = [] ->
      write_composite_info glyph glyph_order (head ++ decl ++ tail) vtt_version
        = Return (head, decl, tail)).
Proof.
  intros H. unfold write_composite_info in H.
  destruct (collect_head data (finditer data) [] O) as [h0 last0].
  apply bind_return in H. destruct H as (ls & Hls & H).
  injection H as -> <- _.
  split.
  - intros data' head' decl' tail' H'. unfold write_composite_info in H'.
    destruct (collect_head data' (finditer data') [] O) as [h1 last1].
    rewrite Hls in H'. cbn [bind] in H'. injection H' as _ <- _. reflexivity.
  - intros Hglyph Hend Hh Ht.
    destruct (instructions_lines _ _ _ _ Hls) as (Hlines & Hne).
    assert (Hl : Forall declaration_line (map chars ls))
      by (apply Forall_map; exact Hlines).
    unfold write_composite_info. rewrite Hls. cbn [bind]. rewrite !chars_join.
    rewrite (finditer_regenerated head tail (map chars ls) Hend Hh Ht Hl).
    destruct (map chars ls) as [|l lines] eqn:E.
    + assert (head = []) as ->.
      { destruct Hglyph as [Hg|Hg]; [|exact Hg].
        destruct ls; [exfalso; apply (Hne Hg); reflexivity | discriminate]. }
      cbn [spans_of collect_head List.concat List.app bind].
      destruct tail as [|c tail]; reflexivity.
    + set (D := List.concat (l :: lines)).
      set (spans := spans_of (List.length head) (l :: lines)).
      assert (Hlast : snd (collect_head (head ++ D ++ tail) spans [] O)
                      = (List.length head + List.length D)%nat).
      { rewrite collect_head_last. subst spans. cbn [spans_of map].
        rewrite (last_default _ _ O (List.length head)).
        apply (spans_of_last (l :: lines)). }
      assert (Hhead : fst (collect_head (head ++ D ++ tail) spans [] O) = head).
      { subst spans. cbn [spans_of collect_head].
        rewrite collect_head_adjacent by apply spans_of_adjacent.
        unfold slice. cbn [List.app skipn]. rewrite Nat.sub_0_r.
        rewrite firstn_app, Nat.sub_diag, firstn_all. cbn. apply app_nil_r. }
      destruct (collect_head (head ++ D ++ tail) spans [] O) as [h' last'].
      cbn [fst snd] in Hlast, Hhead. subst h' last'. cbn [bind].
      f_equal. f_equal.
      unfold slice_from.
      assert (Hskip : skipn (List.length head + List.length D) (head ++ D ++ tail)
                      = tail).
      { rewrite app_assoc, <- length_app. rewrite skipn_app, Nat.sub_diag.
        rewrite skipn_all. reflexivity. }
      rewrite Hskip.
      destruct (Nat.ltb_spec (List.length head + List.length D)
                  (List.length (head ++ D ++ tail))) as [_|Hge]; [reflexivity|].
      rewrite !length_app in Hge.
      destruct tail; [reflexivity | cbn in Hge; lia].
Qed.

Lemma regeneration_idempotent_witness :
  write_composite_info
    [mkComp "a" (ROUND_XY_TO_GRID + USE_MY_METRICS) (ByOffset 10 (-20))]
    [".notdef"; "a"]
    (chars ("/* composite */" ++ nl) ++
     chars ("USEMYMETRICS[]" ++ nl ++ "OFFSET[R], 1, 10, -20" ++ nl) ++
     chars ("SVTCA[Y]" ++ nl)) 6
  = Return (chars ("/* composite */" ++ nl),
            chars ("USEMYMETRICS[]" ++ nl ++ "OFFSET[R], 1, 10, -20" ++ nl),
            chars ("SVTCA[Y]" ++ nl)).
Proof.
  assert (H : write_composite_info
                [mkComp "a" (ROUND_XY_TO_GRID + USE_MY_METRICS) (ByOffset 10 (-20))]
                [".notdef"; "a"]
                (chars ("/* composite */" ++ nl ++ "OFFSET[r], 5, 0, 0" ++ nl ++
                        "SVTCA[Y]" ++ nl)) 6
              = Return (chars ("/* composite */" ++ nl),
                        chars ("USEMYMETRICS[]" ++ nl ++ "OFFSET[R], 1, 10, -20" ++ nl),
                        chars ("SVTCA[Y]" ++ nl)))
    by (vm_compute; reflexivity).
  destruct (regeneration_idempotent _ _ _ _ _ _ _ H) as (_ & H2).
  apply H2.
  - left. discriminate.
  - reflexivity.
  - vm_compute. reflexivity.
  - vm_compute. reflexivity.
Defined.

(** C8, as stated, fails for head and tail.  A tail that follows a
    declaration on its line and reads as a declaration itself is matched
    once the regenerated block puts it at the start of a line; and for a
    glyph without components nothing is left to separate the head from the
    tail, so the second run returns everything as tail. *)
Lemma regeneration_counterexample :
  write_composite_info [mkComp "a" 0 (ByOffset 0 0)] [".notdef"; "a"]
    (chars "USEMYMETRICS[]OVERLAP[]") 6
  = Return ([], chars ("OFFSET[r], 1, 0, 0" ++ nl), chars "OVERLAP[]")
  /\ write_composite_info [mkComp "a" 0 (ByOffset 0 0)] [".notdef"; "a"]
       ([] ++ chars ("OFFSET[r], 1, 0, 0" ++ nl) ++ chars "OVERLAP[]") 6
     = Return ([], chars ("OFFSET[r], 1, 0, 0" ++ nl), [])
  /\ write_composite_info [] [".notdef"]
       (chars ("SVTCA[Y]" ++ nl ++ "OVERLAP[]" ++ nl ++ "IUP[Y]")) 6
     = Return (chars ("SVTCA[Y]" ++ nl), [], chars "IUP[Y]")
  /\ write_composite_info [] [".notdef"]
       (chars ("SVTCA[Y]" ++ nl) ++ [] ++ chars "IUP[Y]") 6
     = Return ([], [], chars ("SVTCA[Y]" ++ nl ++ "IUP[Y]")).
Proof. vm_compute. repeat split; reflexivity. Qed.

(** * Further properties *)

(** ** Components gathered by [transform_assembly] *)

Lemma step_components (st st' : State) (t : Token) :
  step st t = Return st' ->
  components st'
  = components st ++ declared (use_my_metrics st) (scaled_offset st) [t]
  /\ forall rest,
       declared (use_my_metrics st) (scaled_offset st) (t :: rest)
       = declared (use_my_metrics st) (scaled_offset st) [t]
         ++ declared (use_my_metrics st') (scaled_offset st') rest.
Proof.
  rewrite step_dispatch. unfold step_branch. cbn [declared].
  destruct (classify (mnemonic t));
    try (intros H; injection H as <-; cbn; rewrite ?app_nil_r; auto).
  - destruct (stack_items t) as [|? [|? [|? [|]]]]; try discriminate.
    intros H. injection H as <-. cbn. auto.
  - destruct (stack_items t) as [|? [|? [|? [|]]]]; try discriminate.
    intros H. injection H as <-. cbn. auto.
  - intros H. apply bind_return in H. destruct H as ([rest pi] & _ & H).
    apply bind_return in H. destruct H as (s & _ & H). injection H as <-.
    cbn. rewrite app_nil_r. auto.
  - intros H.
    apply bind_return in H. destruct H as (u1 & _ & H).
    apply bind_return in H. destruct H as (u2 & _ & H).
    apply bind_return in H. destruct H as ([pi stack] & _ & H).
    apply bind_return in H. destruct H as ([db stack'] & _ & H).
    apply bind_return in H. destruct H as (s & _ & H). injection H as <-.
    cbn. rewrite app_nil_r. auto.
  - intros H. apply bind_return in H. destruct H as (st1 & H1 & H).
    injection H as <-. cbn.
    assert (E : components st1 = components st
                /\ use_my_metrics st1 = use_my_metrics st
                /\ scaled_offset st1 = scaled_offset st).
    { destruct (push_on st).
      - destruct (stack_items t) as [|z items].
        + injection H1 as <-. auto.
        + apply bind_return in H1. destruct H1 as ([pi stack] & _ & H1).
          apply bind_return in H1. destruct H1 as (s & _ & H1).
          injection H1 as <-. auto.
      - apply bind_return in H1. destruct H1 as (u & _ & H1).
        injection H1 as <-. auto. }
    destruct E as (-> & -> & ->). rewrite app_nil_r. auto.
Qed.

Lemma run_components (ts : list Token) (st st' : State) :
  run st ts = Return st' ->
  components st'
  = components st ++ declared (use_my_metrics st) (scaled_offset st) ts.
Proof.
  revert st. induction ts as [|t ts IH]; intros st H.
  - injection H as <-. cbn. rewrite app_nil_r. reflexivity.
  - apply run_cons_return in H. destruct H as (st1 & H1 & H2).
    destruct (step_components st st1 t H1) as (Hc & Hd).
    rewrite (IH st1 H2), Hd, app_assoc, <- Hc. reflexivity.
Qed.

Lemma declared_filter (ts : list Token) (umm : bool) (so : option bool) :
  declared umm so (filter composite_token ts) = declared umm so ts.
Proof.
  revert umm so. induction ts as [|t ts IH]; intros umm so; [reflexivity|].
  cbn [filter]. unfold composite_token at 1.
  destruct (classify (mnemonic t)) eqn:K; cbn [declared]; rewrite ?K, ?IH;
    try reflexivity.
  all: destruct (stack_items t) as [|? [|? [|? [|]]]]; rewrite ?IH; reflexivity.
Qed.

(** X1.  The component list that [transform_assembly] returns is the list
    it was given, extended by the components of the [OFFSET] and [ANCHOR]
    declarations in their order, each with the flags set since the
    declaration before it; the instructions, deltas and markers among the
    tokens have no part in it. *)
Theorem components_are_the_declarations
        (ts : list Token) (comps cs : list Component) (ls : list string) :
  transform_lines ts comps = Return (ls, cs) ->
  cs = comps ++ declared false None ts
  /\ declared false None ts = declared false None (filter composite_token ts)
  /\ List.length cs
     = (List.length comps
        + count_tokens is_offset ts + count_tokens is_anchor ts)%nat.
Proof.
  intros H. unfold transform_lines in H.
  apply bind_return in H. destruct H as (st & Hrun & H).
  apply bind_return in H. destruct H as (ls' & _ & H). injection H as _ <-.
  pose proof (run_components ts _ st Hrun) as Hc. cbn in Hc.
  split; [exact Hc|]. split; [symmetry; apply declared_filter|].
  rewrite Hc, length_app, <- Nat.add_assoc. f_equal.
  clear Hc. revert Hrun. generalize (initial_state comps) as st0.
  unfold count_tokens.
  assert (G : forall ts st0 st umm so,
             run st0 ts = Return st ->
             List.length (declared umm so ts)
             = (List.length (filter (fun t => is_offset (classify (mnemonic t))) ts)
                + List.length (filter (fun t => is_anchor (classify (mnemonic t))) ts))%nat).
  { clear. induction ts as [|t ts IH]; intros st0 st umm so H; [reflexivity|].
    apply run_cons_return in H. destruct H as (st1 & H1 & H2).
    cbn [declared filter].
    rewrite step_dispatch in H1. unfold step_branch in H1.
    destruct (classify (mnemonic t)); cbn [is_offset is_anchor];
      try (apply (IH st1 st); exact H2).
    - destruct (stack_items t) as [|? [|? [|? [|]]]]; try discriminate.
      cbn [List.length]. rewrite (IH st1 st _ _ H2). reflexivity.
    - destruct (stack_items t) as [|? [|? [|? [|]]]]; try discriminate.
      cbn [List.length]. rewrite (IH st1 st _ _ H2). lia. }
  intros st0 Hrun. apply (G ts st0 st). exact Hrun.
Qed.

Lemma components_are_the_declarations_witness :
  [AnchorComponent 9 9 9 false None] ++
  declared false None
    [tok "USEMYMETRICS" "" []; tok "SVTCA" "0" []; tok "OFFSET" "1" [2; 10; -20];
     tok "SCALEDCOMPONENTOFFSET" "" []; tok "SRP0" "" [3];
     tok "ANCHOR" "" [4; 0; 2]]
  = [AnchorComponent 9 9 9 false None;
     OffsetComponent 2 10 (-20) true true None;
     AnchorComponent 4 0 2 false (Some true)].
Proof.
  destruct (components_are_the_declarations
              [tok "USEMYMETRICS" "" []; tok "SVTCA" "0" []; tok "OFFSET" "1" [2; 10; -20];
               tok "SCALEDCOMPONENTOFFSET" "" []; tok "SRP0" "" [3];
               tok "ANCHOR" "" [4; 0; 2]]
              [AnchorComponent 9 9 9 false None]
              [AnchorComponent 9 9 9 false None;
               OffsetComponent 2 10 (-20) true true None;
               AnchorComponent 4 0 2 false (Some true)]
              ["PUSH[] 3"; "SVTCA[0]"; "SRP0[]"; "ANCHOR[]"]%string) as (H & _).
  - vm_compute. reflexivity.
  - symmetry. exact H.
Defined.

(** ** The delta base across instructions *)

Lemma nth_error_lt {A : Type} (l : list A) (i : nat) (x : A) :
  nth_error l i = Some x -> (i < List.length l)%nat.
Proof. intros H. apply nth_error_Some. congruence. Qed.

(** X2.  While a scope is open, a delta instruction in [PUSH_ON] mode with
    at least one triple and a base to count from prepends to the pending
    collection the number of triples and the point/value pairs counted from
    that base, and leaves the base in [delta_base]: a [DELTAP]/[DELTAC]
    mnemonic without one of the suffixes 1, 2, 3 counts from the base of
    the last [DELTAP]/[DELTAC] instruction before it, and the [DLTP]/[DLTC]
    spellings neither use nor change the variable. *)
Theorem delta_base_carried
        (st : State) (t : Token) (r : list nat) (pi : nat) (b : Z) :
  Inv st -> push_indexes st = r ++ [pi] -> push_on st = true ->
  classify (mnemonic t) = KDelta -> deltas t <> [] ->
  effective_base (mnemonic t) (delta_base st) = Some b ->
  exists st' d,
    step st t = Return st'
    /\ current_stack st = Return (pi, d)
    /\ current_stack st' = Return (pi, prepend_all (delta_pushes b (deltas t)) d)
    /\ delta_base st' = base_after (mnemonic t) b (delta_base st)
    /\ effective_base (mnemonic t) (delta_base st') = Some b.
Proof.
  intros HI E Hon K Hne Hb.
  destruct (current_stack_open st r pi HI E) as (d & Hc & Hd).
  rewrite step_dispatch. unfold step_branch. rewrite K, Hon, Hc.
  cbn [assert bind].
  destruct (deltas t) as [|d0 ds] eqn:Ed; [contradiction|].
  cbn [List.length]. rewrite <- Ed in *.
  replace (0 <? Z.of_nat (S (List.length ds))) with true
    by (symmetry; apply Z.ltb_lt; lia).
  cbn [bind].
  rewrite (encode_deltas_carried _ b _ _ _ Hb Hne). cbn [bind].
  destruct (setitem_defined (stream st) pi
              (Deque (prepend_all (delta_pushes b (deltas t)) d))
              (nth_error_lt _ _ _ Hd)) as (s & Hs).
  destruct (setitem_return _ _ _ _ Hs) as (_ & Hlen & Hnth).
  pose proof (Hnth pi) as Hnew. rewrite Nat.eqb_refl in Hnew.
  rewrite Hs. cbn [bind].
  eexists. exists d. split; [reflexivity|]. split; [reflexivity|].
  split; [|split; [reflexivity | apply effective_base_after, Hb]].
  unfold current_stack. cbn [append_line with_scopes with_delta_base with_stream
                             push_indexes stream].
  rewrite E, last_item_snoc. cbn [bind].
  assert (Hn : nth_error (s ++ [Line (instruction_line (canonical (mnemonic t)) (flags t))]) pi
               = Some (Deque (prepend_all (delta_pushes b (deltas t)) d))).
  { rewrite nth_error_app1; [exact Hnew|].
    rewrite Hlen. apply (nth_error_lt _ _ _ Hd). }
  rewrite (proj2 (getitem_return _ _ _) Hn). reflexivity.
Qed.

Lemma delta_base_carried_witness :
  exists st' d,
    step (with_delta_base (Some 25) (initial_state []))
         (mkToken "DELTAP" "" [] [(13, 30, 8)]) = Return st'
    /\ current_stack st' = Return (O, prepend_all (delta_pushes 25 [(13, 30, 8)]) d)
    /\ delta_base st' = Some 25.
Proof.
  destruct (delta_base_carried (with_delta_base (Some 25) (initial_state []))
              (mkToken "DELTAP" "" [] [(13, 30, 8)]) [] O 25)
    as (st' & d & H1 & _ & H3 & H4 & _).
  - constructor; cbn.
    + reflexivity.
    + lia.
    + constructor; [intros [] | constructor].
    + constructor; [exists []; reflexivity | constructor].
  - reflexivity.
  - reflexivity.
  - reflexivity.
  - discriminate.
  - reflexivity.
  - exists st', d. split; [exact H1 | split; [exact H3 | exact H4]].
Defined.

(** ** What makes an iteration fail *)

Lemma step_accepts (st : State) (t : Token) :
  Inv st -> push_indexes st <> [] ->
  match token_failure (push_on st) (delta_base st) t with
  | Some e => step st t = Raise e
  | None => exists st', step st t = Return st' /\ Inv st'
  end.
Proof.
  intros HI Hne.
  assert (G : match token_failure (push_on st) (delta_base st) t with
              | Some e => step st t = Raise e
              | None => exists st', step st t = Return st'
              end).
  { destruct (list_snoc_cases (push_indexes st)) as [E|(r & pi & E)];
      [contradiction|].
    destruct (current_stack_open st r pi HI E) as (d & Hc & Hd).
    pose proof (nth_error_lt _ _ _ Hd) as Hlt.
    rewrite step_dispatch. unfold step_branch, token_failure.
    destruct (classify (mnemonic t)) eqn:K; try (eexists; reflexivity).
    - destruct (stack_items t) as [|? [|? [|? [|]]]]; cbn;
        try reflexivity; eexists; reflexivity.
    - destruct (stack_items t) as [|? [|? [|? [|]]]]; cbn;
        try reflexivity; eexists; reflexivity.
    - rewrite E, pop_snoc. cbn [bind].
      destruct (render_scope_open _ _ _ Hd) as (s' & -> & _). cbn [bind].
      eexists; reflexivity.
    - destruct (push_on st) eqn:Hon; cbn [negb assert bind]; [|reflexivity].
      destruct (deltas t) as [|d0 ds] eqn:Ed; cbn [null]; [reflexivity|].
      rewrite <- Ed. replace (0 <? Z.of_nat (List.length (deltas t))) with true
        by (symmetry; apply Z.ltb_lt; rewrite Ed; cbn [List.length]; lia).
      cbn [assert bind]. rewrite Hc. cbn [bind].
      assert (Hds : deltas t <> []) by (rewrite Ed; discriminate).
      destruct (effective_base (mnemonic t) (delta_base st)) as [b|] eqn:Hb.
      + rewrite (encode_deltas_carried _ b _ _ _ Hb Hds). cbn [bind].
        destruct (setitem_defined (stream st) pi
                    (Deque (prepend_all (delta_pushes b (deltas t)) d)) Hlt)
          as (s & ->).
        cbn [bind]. eexists; reflexivity.
      + rewrite (encode_deltas_unbound _ _ _ _ Hb Hds). reflexivity.
    - destruct (push_on st) eqn:Hon; cbn [orb].
      + destruct (stack_items t) as [|z items]; [eexists; reflexivity|].
        rewrite Hc. cbn [bind].
        destruct (setitem_defined (stream st) pi
                    (Deque (appendleft_reversed (z :: items) d)) Hlt) as (s & ->).
        cbn [bind]. eexists; reflexivity.
      + destruct (stack_items t); cbn; [eexists; reflexivity | reflexivity]. }
  destruct (token_failure (push_on st) (delta_base st) t); [exact G|].
  destruct G as (st' & H). exists st'. split; [exact H|].
  apply (step_inv st st' t HI H).
Qed.


(** X3.  While a scope is open, whether an iteration of the loop fails,
    and with which exception, is decided by the token, the push mode and
    the value of [delta_base] alone: a declaration without exactly three
    operands raises [ValueError]; a delta instruction in [PUSH_OFF] mode or
    without triples fails its assertion, and one with no base to count from
    raises [UnboundLocalError]; any other instruction fails its assertion
    when it has operands in [PUSH_OFF] mode; every other token is
    accepted. *)
Theorem step_outcome (st : State) (t : Token) :
  Inv st -> push_indexes st <> [] ->
  match token_failure (push_on st) (delta_base st) t with
  | Some e => step st t = Raise e
  | None => exists st', step st t = Return st' /\ Inv st'
  end.
Proof. apply step_accepts. Qed.

Lemma step_outcome_witness :
  step (with_push_on false (initial_state [])) (tok "SRP0" "" [3])
  = Raise AssertionError.
Proof.
  apply (step_outcome (with_push_on false (initial_state [])) (tok "SRP0" "" [3])).
  - constructor; cbn.
    + reflexivity.
    + lia.
    + constructor; [intros [] | constructor].
    + constructor; [exists []; reflexivity | constructor].
  - discriminate.
Defined.

(** ** Surrounding white space *)

Lemma append_empty_r (s : string) : (s ++ "")%string = s.
Proof. induction s as [|c s IH]; cbn; [|rewrite IH]; reflexivity. Qed.

Lemma append_assoc (a b c : string) :
  ((a ++ b) ++ c)%string = (a ++ (b ++ c))%string.
Proof. induction a as [|x a IH]; cbn; [|rewrite IH]; reflexivity. Qed.

Lemma string_rev_onto_app (s acc : string) :
  Py.string_rev_onto s acc = (Py.string_rev s ++ acc)%string.
Proof.
  unfold Py.string_rev. revert acc.
  induction s as [|c s IH]; intros acc; [reflexivity|].
  cbn [Py.string_rev_onto]. rewrite (IH (String c EmptyString)), IH.
  rewrite append_assoc. reflexivity.
Qed.

Lemma string_rev_cons (c : ascii) (s : string) :
  Py.string_rev (String c s) = (Py.string_rev s ++ String c EmptyString)%string.
Proof. unfold Py.string_rev at 1. cbn. apply string_rev_onto_app. Qed.

Lemma string_rev_app (a b : string) :
  Py.string_rev (a ++ b) = (Py.string_rev b ++ Py.string_rev a)%string.
Proof.
  induction a as [|c a IH]; cbn [append].
  - rewrite append_empty_r. reflexivity.
  - rewrite !string_rev_cons, IH, append_assoc. reflexivity.
Qed.

Lemma string_rev_involutive (s : string) : Py.string_rev (Py.string_rev s) = s.
Proof.
  induction s as [|c s IH]; [reflexivity|].
  rewrite string_rev_cons, string_rev_app, IH. reflexivity.
Qed.

Lemma blank_app (a b : string) : blank (a ++ b) = blank a && blank b.
Proof.
  induction a as [|c a IH]; cbn; [reflexivity|].
  rewrite IH, andb_assoc. reflexivity.
Qed.

Lemma blank_rev (s : string) : blank (Py.string_rev s) = blank s.
Proof.
  induction s as [|c s IH]; [reflexivity|].
  rewrite string_rev_cons, blank_app, IH. cbn. rewrite andb_true_r.
  apply andb_comm.
Qed.

Lemma lstrip_blank (s : string) : blank s = true -> lstrip s = EmptyString.
Proof.
  induction s as [|c s IH]; cbn; [reflexivity|].
  intros H. apply andb_true_iff in H. destruct H as (-> & H). apply IH, H.
Qed.

Lemma lstrip_trimmed (s : string) : trimmed (lstrip s) = true.
Proof.
  induction s as [|c s IH]; cbn; [reflexivity|].
  destruct (isspace c) eqn:E; [exact IH|]. cbn. rewrite E. reflexivity.
Qed.

Lemma trimmed_lstrip (s : string) : trimmed s = true -> lstrip s = s.
Proof.
  destruct s as [|c s]; cbn; [reflexivity|].
  intros H. apply negb_true_iff in H. rewrite H. reflexivity.
Qed.

Lemma lstrip_suffix (s : string) :
  exists p, s = (p ++ lstrip s)%string /\ blank p = true.
Proof.
  induction s as [|c s (p & IH & Hp)]; cbn.
  - exists EmptyString. split; reflexivity.
  - destruct (isspace c) eqn:E.
    + exists (String c p). cbn. rewrite E, Hp, <- IH. split; reflexivity.
    + exists EmptyString. split; reflexivity.
Qed.

Lemma strip_blank (s : string) : blank s = true -> strip s = EmptyString.
Proof. intros H. unfold strip. rewrite (lstrip_blank s H). reflexivity. Qed.

Lemma strip_trimmed (s : string) :
  trimmed (strip s) = true /\ trimmed (Py.string_rev (strip s)) = true.
Proof.
  unfold strip. rewrite string_rev_involutive.
  split; [|apply lstrip_trimmed].
  pose proof (lstrip_trimmed s) as Hu.
  destruct (lstrip s) as [|c u] eqn:Eu; [reflexivity|].
  cbn in Hu. apply negb_true_iff in Hu.
  destruct (lstrip_suffix (Py.string_rev (String c u))) as (p & Hp & Hb).
  set (w := lstrip (Py.string_rev (String c u))) in *.
  assert (E : String c u = (Py.string_rev w ++ Py.string_rev p)%string).
  { rewrite <- string_rev_app, <- Hp, string_rev_involutive. reflexivity. }
  destruct (Py.string_rev w) as [|c' w'] eqn:Ew.
  - cbn in E. rewrite <- blank_rev, <- E in Hb. cbn in Hb. rewrite Hu in Hb.
    discriminate.
  - cbn in E. injection E as <- _. cbn. rewrite Hu. reflexivity.
Qed.

Lemma strip_idempotent (s : string) : strip (strip s) = strip s.
Proof.
  destruct (strip_trimmed s) as (H1 & H2).
  unfold strip at 1. rewrite (trimmed_lstrip _ H1), (trimmed_lstrip _ H2).
  apply string_rev_involutive.
Qed.

(** X4.  [transform_assembly] sees its input only through [strip]: white
    space around the text changes nothing, and text of white space alone
    gives the empty string and leaves the components as they were,
    whatever the parser would say. *)
Theorem transform_assembly_strips
        (parseString : string -> Result (list Token))
        (data : string) (comps : list Component) :
  transform_assembly parseString (strip data) comps
  = transform_assembly parseString data comps
  /\ (blank data = true ->
      transform_assembly parseString data comps = Return (EmptyString, comps)).
Proof.
  split.
  - unfold transform_assembly. rewrite strip_idempotent. reflexivity.
  - intros H. unfold transform_assembly. rewrite (strip_blank data H).
    reflexivity.
Qed.

Lemma transform_assembly_strips_witness :
  transform_assembly Parser.parseString (nl ++ "  " ++ nl)
    [AnchorComponent 1 2 3 false None]
  = Return (EmptyString, [AnchorComponent 1 2 3 false None]).
Proof.
  apply (transform_assembly_strips Parser.parseString (nl ++ "  " ++ nl)
           [AnchorComponent 1 2 3 false None]).
  reflexivity.
Defined.

(** ** Nested scopes *)

Lemma getitem_middle {A : Type} (a b : list A) (x : A) :
  Py.getitem (a ++ x :: b) (List.length a) = Return x.
Proof.
  unfold Py.getitem. rewrite nth_error_app2, Nat.sub_diag by lia. reflexivity.
Qed.

Lemma setitem_middle {A : Type} (a b : list A) (x y : A) :
  Py.setitem (a ++ x :: b) (List.length a) y = Return (a ++ y :: b).
Proof.
  induction a as [|z a IH]; cbn; [reflexivity|]. rewrite IH. reflexivity.
Qed.

Lemma render_scope_middle (a b : list Entry) (d : list Z) :
  render_scope (a ++ Deque d :: b) (List.length a) = Return (a ++ closed d :: b).
Proof.
  unfold render_scope. rewrite getitem_middle. cbn [bind].
  destruct d as [|z d]; cbn [closed]; [reflexivity | apply setitem_middle].
Qed.

Lemma closed_settled (d : list Z) : settled (closed d).
Proof. destruct d; cbn; [reflexivity | discriminate]. Qed.

Lemma closed_lines (d : list Z) : stream_lines [closed d] = push_lines d.
Proof. destruct d; reflexivity. Qed.

Lemma scoped_current_stack (st : State) (on : bool) (db : option Z)
      (d : list Z) (es : list Entry) (outer : list EFrame) :
  Scoped st on db ((d, es) :: outer) ->
  current_stack st = Return (List.length (prefix_entries outer), d).
Proof.
  intros [_ _ Hs Hi _ _ _]. unfold current_stack. rewrite Hi, Hs.
  cbn [indexes prefix_entries]. rewrite last_item_snoc. cbn [bind].
  rewrite getitem_middle. reflexivity.
Qed.

Lemma scoped_same (st st1 : State) (on on' : bool) (db db' : option Z)
      (fs : list EFrame) :
  Scoped st on db fs ->
  push_on st1 = on' -> delta_base st1 = db' -> stream st1 = stream st ->
  push_indexes st1 = push_indexes st -> pos st1 = pos st ->
  Scoped st1 on' db' fs.
Proof.
  intros [_ _ Hs Hi Hp Hset Hne] H1 H2 H3 H4 H5.
  constructor; rewrite ?H3, ?H4, ?H5; assumption.
Qed.

Lemma scoped_top (st st1 : State) (on on' : bool) (db db' : option Z)
      (d d' : list Z) (es more : list Entry) (outer : list EFrame) :
  Scoped st on db ((d, es) :: outer) ->
  Forall settled more ->
  push_on st1 = on' -> delta_base st1 = db' ->
  stream st1 = (prefix_entries outer ++ Deque d' :: es) ++ more ->
  push_indexes st1 = push_indexes st ->
  pos st1 = (pos st + List.length more)%nat ->
  Scoped st1 on' db' ((d', es ++ more) :: outer).
Proof.
  intros [_ _ Hs Hi Hp Hset Hne] Hm H1 H2 H3 H4 H5.
  inversion Hset as [|? ? Hes Hout]; subst. cbn [snd] in Hes.
  constructor.
  - reflexivity.
  - reflexivity.
  - rewrite H3. cbn [prefix_entries]. rewrite <- app_assoc. reflexivity.
  - rewrite H4, Hi. reflexivity.
  - rewrite H5, Hp, Hs, H3. cbn [prefix_entries].
    rewrite ?length_app. cbn [List.length]. rewrite ?length_app. lia.
  - constructor; [|exact Hout]. cbn [snd]. apply Forall_app. split; assumption.
  - discriminate.
Qed.

Lemma push_line_nonempty (items : list Z) : push_line items <> EmptyString.
Proof. unfold push_line. cbn. discriminate. Qed.

Lemma scoped_step (st : State) (on on' : bool) (db db' : option Z)
      (efs : list EFrame) (t : Token) (fs' : list Frame) :
  Scoped st on db efs ->
  frame_step on db (map frame_lines efs) t = Some (on', db', fs') ->
  exists st1 efs',
    step st t = Return st1 /\ Scoped st1 on' db' efs'
    /\ map frame_lines efs' = fs'.
Proof.
  intros HS HF. pose proof HS as [Hon Hdb Hs Hi Hp Hset Hne].
  destruct efs as [|[d es] outer]; [contradiction|].
  pose proof (scoped_current_stack _ _ _ _ _ _ HS) as Hc.
  unfold frame_step in HF. cbn [map] in HF.
  unfold frame_lines at 1 in HF. cbn [fst snd] in HF.
  destruct (token_failure on db t) eqn:TF; [discriminate|].
  unfold token_failure in TF.
  unfold next_base, token_operands, emitted_line, emitted_by in HF.
  rewrite step_dispatch. unfold step_branch.
  destruct (classify (mnemonic t)) eqn:K.
  - (* OVERLAP *)
    injection HF as <- <- <-. exists st, ((d, es) :: outer).
    split; [reflexivity|]. split; [exact HS|].
    cbn. unfold frame_lines at 1. cbn [fst snd]. rewrite app_nil_r. reflexivity.
  - (* USEMYMETRICS *)
    injection HF as <- <- <-. eexists. exists ((d, es) :: outer).
    split; [reflexivity|]. split; [apply (scoped_same st _ on _ db _ _ HS); auto|].
    cbn. unfold frame_lines at 1. cbn [fst snd]. rewrite app_nil_r. reflexivity.
  - injection HF as <- <- <-. eexists. exists ((d, es) :: outer).
    split; [reflexivity|]. split; [apply (scoped_same st _ on _ db _ _ HS); auto|].
    cbn. unfold frame_lines at 1. cbn [fst snd]. rewrite app_nil_r. reflexivity.
  - injection HF as <- <- <-. eexists. exists ((d, es) :: outer).
    split; [reflexivity|]. split; [apply (scoped_same st _ on _ db _ _ HS); auto|].
    cbn. unfold frame_lines at 1. cbn [fst snd]. rewrite app_nil_r. reflexivity.
  - (* OFFSET *)
    injection HF as <- <- <-.
    destruct (stack_items t) as [|? [|? [|? [|]]]]; try discriminate.
    eexists. exists ((d, es) :: outer).
    split; [reflexivity|]. split; [apply (scoped_same st _ on _ db _ _ HS); auto|].
    cbn. unfold frame_lines at 1. cbn [fst snd]. rewrite app_nil_r. reflexivity.
  - (* ANCHOR *)
    injection HF as <- <- <-.
    destruct (stack_items t) as [|? [|? [|? [|]]]]; try discriminate.
    eexists. exists ((d, es ++ [Line (instruction_line "ANCHOR" (flags t))]) :: outer).
    split; [reflexivity|]. split.
    + apply (scoped_top st _ on on db db d d es); auto.
      * repeat constructor. apply instruction_line_nonempty.
      * cbn. rewrite Hs. reflexivity.
      * cbn. lia.
    + cbn. unfold frame_lines at 1. cbn [fst snd]. rewrite stream_lines_app.
      reflexivity.
  - (* #PUSHON *)
    injection HF as <- <- <-. eexists. exists ((d, es) :: outer).
    split; [reflexivity|]. split; [apply (scoped_same st _ on _ db _ _ HS); auto | reflexivity].
  - injection HF as <- <- <-. eexists. exists ((d, es) :: outer).
    split; [reflexivity|]. split; [apply (scoped_same st _ on _ db _ _ HS); auto | reflexivity].
  - (* #BEGIN *)
    injection HF as <- <- <-. eexists. exists (([], []) :: (d, es) :: outer).
    split; [reflexivity|]. split; [|reflexivity].
    constructor; cbn [with_scopes push_on delta_base stream push_indexes pos].
    + exact Hon.
    + exact Hdb.
    + rewrite Hs. reflexivity.
    + rewrite Hi, Hp, Hs. reflexivity.
    + rewrite length_app, Hp. cbn. lia.
    + constructor; [constructor | exact Hset].
    + discriminate.
  - (* #END *)
    destruct outer as [|[d' es'] outer']; [discriminate|].
    cbn [map] in HF. unfold frame_lines at 1 in HF. cbn [fst snd] in HF.
    injection HF as <- <- <-.
    rewrite Hi. cbn [indexes]. rewrite pop_snoc. cbn [bind].
    rewrite Hs. cbn [prefix_entries]. rewrite render_scope_middle. cbn [bind].
    eexists. exists ((d', es' ++ closed d :: es) :: outer').
    split; [reflexivity|]. split.
    + apply Forall_cons_iff in Hset. destruct Hset as (Hes & Hout).
      apply Forall_cons_iff in Hout. destruct Hout as (Hes' & Hout').
      cbn [snd] in Hes, Hes'.
      constructor; cbn [with_scopes push_on delta_base stream push_indexes pos].
      * exact Hon.
      * exact Hdb.
      * cbn [prefix_entries]. rewrite <- !app_assoc. reflexivity.
      * reflexivity.
      * rewrite Hp, Hs. cbn [prefix_entries]. rewrite ?length_app.
        cbn [List.length]. rewrite ?length_app. cbn [List.length]. lia.
      * constructor; [|exact Hout']. cbn [snd]. apply Forall_app.
        split; [exact Hes'|]. constructor; [apply closed_settled | exact Hes].
      * discriminate.
    + cbn [map]. unfold frame_lines at 1. cbn [fst snd].
      change (closed d :: es) with ([closed d] ++ es).
      rewrite !stream_lines_app, closed_lines. reflexivity.
  - (* #PUSH *)
    injection HF as <- <- <-.
    eexists. exists ((d, es ++ [Line (push_line (stack_items t))]) :: outer).
    split; [reflexivity|]. split.
    + apply (scoped_top st _ on on db db d d es); auto.
      * repeat constructor. apply push_line_nonempty.
      * cbn. rewrite Hs. reflexivity.
      * cbn. lia.
    + cbn. unfold frame_lines at 1. cbn [fst snd]. rewrite stream_lines_app.
      reflexivity.
  - (* delta *)
    injection HF as <- <- <-.
    rewrite Hon, Hdb, Hc.
    destruct on; cbn [negb] in TF; [|discriminate].
    destruct (deltas t) as [|d0 ds] eqn:Ed; cbn [null] in TF; [discriminate|].
    rewrite <- Ed in *.
    assert (Hds : deltas t <> []) by (rewrite Ed; discriminate).
    replace (0 <? Z.of_nat (List.length (deltas t))) with true
      by (symmetry; apply Z.ltb_lt; rewrite Ed; cbn [List.length]; lia).
    destruct (effective_base (mnemonic t) db) as [b|] eqn:Hb; [|discriminate].
    cbn [assert bind].
    rewrite (encode_deltas_carried _ b _ _ _ Hb Hds). cbn [bind].
    rewrite Hs. cbn [prefix_entries]. rewrite setitem_middle. cbn [bind].
    eexists.
    exists ((prepend_all (delta_pushes b (deltas t)) d,
             es ++ [Line (instruction_line (canonical (mnemonic t)) (flags t))])
            :: outer).
    split; [reflexivity|]. split.
    + apply (scoped_top st _ true true db _ d _ es); auto.
      * repeat constructor. apply instruction_line_nonempty.
      * cbn. lia.
    + cbn [map]. unfold frame_lines at 1. cbn [fst snd].
      rewrite stream_lines_app, prepend_all_rev. reflexivity.
  - (* other instructions *)
    injection HF as <- <- <-. rewrite Hon.
    destruct on; cbn [orb] in TF.
    + destruct (stack_items t) as [|z items] eqn:Ei.
      * cbn [bind]. eexists.
        exists ((d, es ++ [Line (instruction_line (mnemonic t) (flags t))]) :: outer).
        split; [reflexivity|]. split.
        -- apply (scoped_top st _ true true db db d d es); auto.
           ++ repeat constructor. apply instruction_line_nonempty.
           ++ cbn. rewrite Hs. reflexivity.
           ++ cbn. lia.
        -- cbn. unfold frame_lines at 1. cbn [fst snd].
           rewrite stream_lines_app. reflexivity.
      * rewrite Hc. cbn [bind].
        rewrite Hs. cbn [prefix_entries]. rewrite setitem_middle. cbn [bind].
        eexists.
        exists ((appendleft_reversed (z :: items) d,
                 es ++ [Line (instruction_line (mnemonic t) (flags t))]) :: outer).
        split; [reflexivity|]. split.
        -- apply (scoped_top st _ true true db db d _ es); auto.
           ++ repeat constructor. apply instruction_line_nonempty.
           ++ cbn. lia.
        -- cbn [map]. unfold frame_lines at 1. cbn [fst snd].
           rewrite stream_lines_app, appendleft_reversed_app. reflexivity.
    + destruct (stack_items t) as [|z items] eqn:Ei; [|discriminate].
      cbn [assert bind]. eexists.
      exists ((d, es ++ [Line (instruction_line (mnemonic t) (flags t))]) :: outer).
      split; [reflexivity|]. split.
      * apply (scoped_top st _ false false db db d d es); auto.
        -- repeat constructor. apply instruction_line_nonempty.
        -- cbn. rewrite Hs. reflexivity.
        -- cbn. lia.
      * cbn. unfold frame_lines at 1. cbn [fst snd].
        rewrite stream_lines_app. reflexivity.
Qed.

Lemma scope_open_more (s more : list Entry) (i : nat) :
  scope_open s i -> scope_open (s ++ more) i.
Proof.
  intros H. pose proof (scope_open_lt s i H) as Hi.
  destruct H as (d & H). exists d. rewrite nth_error_app1; assumption.
Qed.

Lemma indexes_open (fs : list EFrame) :
  Forall (scope_open (prefix_entries fs)) (indexes fs).
Proof.
  induction fs as [|[d es] outer IH]; cbn [indexes prefix_entries]; [constructor|].
  apply Forall_app. split.
  - eapply Forall_impl; [|exact IH]. intros i. apply scope_open_more.
  - constructor; [|constructor]. exists d.
    rewrite nth_error_app2, Nat.sub_diag by lia. reflexivity.
Qed.

Lemma indexes_nodup (fs : list EFrame) : NoDup (indexes fs).
Proof.
  induction fs as [|[d es] outer IH]; cbn [indexes]; [constructor|].
  apply NoDup_snoc. split; [exact IH|].
  intros Hin. pose proof (indexes_open outer) as Ho.
  rewrite Forall_forall in Ho. apply Ho, scope_open_lt in Hin. lia.
Qed.

Lemma indexes_length (fs : list EFrame) :
  List.length (indexes fs) = List.length fs.
Proof.
  induction fs as [|f outer IH]; cbn [indexes List.length]; [reflexivity|].
  rewrite length_app, IH. cbn. lia.
Qed.

Lemma scoped_inv (st : State) (on : bool) (db : option Z) (fs : list EFrame) :
  Scoped st on db fs -> Inv st /\ push_indexes st <> [].
Proof.
  intros [_ _ Hs Hi Hp Hset Hne]. split.
  - constructor.
    + exact Hp.
    + rewrite Hp, Hs. destruct fs as [|[d es] outer]; [contradiction|].
      cbn [prefix_entries]. rewrite length_app. cbn. lia.
    + rewrite Hi. apply indexes_nodup.
    + rewrite Hi, Hs. apply indexes_open.
  - rewrite Hi. intros E. apply (f_equal (@List.length nat)) in E.
    rewrite indexes_length in E. destruct fs; [contradiction | discriminate].
Qed.

Lemma initial_scoped (comps : list Component) :
  Scoped (initial_state comps) true None [([], [])].
Proof.
  constructor; try reflexivity.
  - constructor; [constructor | constructor].
  - discriminate.
Qed.

Lemma nonempty_lines_settled (es : list Entry) :
  Forall settled es -> nonempty_lines es = Return (stream_lines es).
Proof.
  induction 1 as [|e es He _ IH]; [reflexivity|].
  destruct e as [[|c l]|d]; cbn in He.
  - contradiction.
  - cbn [nonempty_lines stream_lines]. rewrite IH. reflexivity.
  - subst d. exact IH.
Qed.

Lemma scoped_finish (st : State) (on : bool) (db : option Z)
      (d : list Z) (es : list Entry) :
  Scoped st on db [(d, es)] ->
  finish st = Return (push_lines d ++ stream_lines es).
Proof.
  intros [_ _ Hs Hi _ Hset _]. unfold finish. rewrite Hi, Hs.
  cbn [indexes prefix_entries List.app List.length assert bind].
  apply Forall_cons_iff in Hset. destruct Hset as (Hes & _). cbn [snd] in Hes.
  pose proof (render_scope_middle [] es d) as Hr.
  cbn [List.app List.length] in Hr. rewrite Hr. cbn [bind].
  change (closed d :: es) with ([closed d] ++ es).
  rewrite nonempty_lines_settled.
  - rewrite stream_lines_app, closed_lines. reflexivity.
  - apply Forall_app. split; [|exact Hes].
    constructor; [apply closed_settled | constructor].
Qed.

Lemma scoped_run (ts : list Token) (st : State) (on : bool) (db : option Z)
      (efs : list EFrame) (ls : list string) :
  Scoped st on db efs ->
  scoped_lines on db (map frame_lines efs) ts = Some ls ->
  exists st', run st ts = Return st' /\ finish st' = Return ls.
Proof.
  revert st on db efs.
  induction ts as [|t ts IH]; intros st on db efs HS H; cbn [scoped_lines] in H.
  - exists st. split; [reflexivity|].
    destruct efs as [|[d es] [|f outer]]; try discriminate.
    cbn in H. injection H as <-. apply (scoped_finish st on db), HS.
  - destruct (frame_step on db (map frame_lines efs) t) as [[[on' db'] fs']|] eqn:HF;
      [|discriminate].
    destruct (scoped_step st on on' db db' efs t fs' HS HF)
      as (st1 & efs' & H1 & HS1 & <-).
    destruct (IH st1 on' db' efs' HS1 H) as (st' & H2 & H3).
    exists st'. split; [|exact H3]. cbn [run]. rewrite H1. exact H2.
Qed.

Lemma scoped_stuck (st : State) (on : bool) (db : option Z)
      (efs : list EFrame) (t : Token) :
  Scoped st on db efs ->
  frame_step on db (map frame_lines efs) t = None ->
  (exists e, step st t = Raise e)
  \/ exists st1, step st t = Return st1 /\ Inv st1 /\ depth_inv None st1.
Proof.
  intros HS HF. destruct (scoped_inv st on db efs HS) as (HI & Hne).
  pose proof (step_accepts st t HI Hne) as Ho.
  pose proof HS as [Hon Hdb Hs Hi Hp Hset Hfs].
  rewrite Hon, Hdb in Ho. unfold frame_step in HF.
  destruct (token_failure on db t) as [e|]; [left; eauto|].
  destruct Ho as (st1 & H1 & HI1). right. exists st1.
  split; [exact H1|]. split; [exact HI1|].
  destruct efs as [|[d es] outer]; [contradiction|]. cbn [map] in HF.
  unfold frame_lines at 1 in HF. cbn [fst snd] in HF.
  pose proof (step_push_indexes st st1 t H1) as Hpi.
  destruct (classify (mnemonic t)); try discriminate.
  destruct outer as [|[d' es'] outer']; [|discriminate].
  destruct Hpi as (pi & Hpi). unfold depth_inv. rewrite Hi in Hpi. cbn in Hpi.
  destruct (push_indexes st1) as [|i l]; [intros []|].
  apply (f_equal (@List.length nat)) in Hpi. cbn in Hpi.
  rewrite length_app in Hpi. cbn in Hpi. lia.
Qed.

Lemma scoped_run_complete (ts : list Token) (st st' : State) (on : bool)
      (db : option Z) (efs : list EFrame) (ls : list string) :
  Scoped st on db efs ->
  run st ts = Return st' -> finish st' = Return ls ->
  scoped_lines on db (map frame_lines efs) ts = Some ls.
Proof.
  revert st on db efs.
  induction ts as [|t ts IH]; intros st on db efs HS Hrun Hfin.
  - injection Hrun as <-. pose proof HS as [_ _ _ Hi _ _ _].
    pose proof (finish_return st ls Hfin) as Hroot. rewrite Hi in Hroot.
    apply (f_equal (@List.length nat)) in Hroot. rewrite indexes_length in Hroot.
    destruct efs as [|[d es] [|f outer]]; try discriminate.
    rewrite (scoped_finish st on db d es HS) in Hfin. injection Hfin as <-.
    reflexivity.
  - apply run_cons_return in Hrun. destruct Hrun as (st1 & H1 & H2).
    cbn [scoped_lines].
    destruct (frame_step on db (map frame_lines efs) t) as [[[on' db'] fs']|] eqn:HF.
    + destruct (scoped_step st on on' db db' efs t fs' HS HF)
        as (st1' & efs' & H1' & HS1 & <-).
      rewrite H1 in H1'. injection H1' as <-.
      apply (IH st1 on' db' efs' HS1 H2 Hfin).
    + destruct (scoped_stuck st on db efs t HS HF)
        as [(e & He)|(st1' & H1' & HI1 & HD)]; [congruence|].
      rewrite H1 in H1'. injection H1' as <-.
      pose proof (run_depth ts None st1 st' HI1 HD H2) as HD'.
      rewrite scope_depth_none in HD'.
      pose proof (finish_return st' ls Hfin) as Hroot.
      cbn in HD'. rewrite Hroot in HD'. exfalso. apply HD'. left. reflexivity.
Qed.

(** X5.  [transform_assembly] returns for a token sequence exactly when
    every token is accepted where it stands and the scope markers are
    balanced, and its lines are then those of the scopes put together:
    each [#BEGIN] ... [#END] pair gives, at the place of the [#BEGIN], one
    [PUSH[]] line with the operands of the instructions directly inside it
    (none if there are no operands), followed by the lines written inside;
    the root scope does the same at the top of the output.  The components
    returned are the ones given followed by the declared ones. *)
Theorem transform_lines_by_scopes
        (ts : list Token) (comps cs : list Component) (ls : list string) :
  transform_lines ts comps = Return (ls, cs)
  <-> scoped_lines true None [([], [])] ts = Some ls
      /\ cs = comps ++ declared false None ts.
Proof.
  unfold transform_lines. split.
  - intros H. apply bind_return in H. destruct H as (st & Hrun & H).
    apply bind_return in H. destruct H as (ls' & Hfin & H).
    injection H as -> <-. split.
    + apply (scoped_run_complete ts _ st true None [([], [])] ls
               (initial_scoped comps) Hrun Hfin).
    + apply (run_components ts _ st Hrun).
  - intros (H & ->).
    destruct (scoped_run ts (initial_state comps) true None [([], [])] ls
                (initial_scoped comps) H) as (st & Hrun & Hfin).
    rewrite Hrun. cbn [bind]. rewrite Hfin. cbn [bind].
    rewrite (run_components ts _ st Hrun). reflexivity.
Qed.

(** Two nested scopes, a mode switch, a [#PUSH] and a [DELTAP] that counts
    from the base of the [DELTAP1] before it. *)
Example nested_scopes :
  transform_lines
    [tok "SVTCA" "Y" []; tok "MIAP" "R" [3; 7];
     tok "#BEGIN" "" []; tok "MDRP" "m" [5];
     tok "#BEGIN" "" []; tok "IUP" "Y" []; tok "#END" "" [];
     tok "#PUSHOFF" "" []; tok "SRP0" "" []; tok "#PUSHON" "" [];
     tok "SRP1" "" [9];
     tok "#END" "" [];
     tok "#PUSH" "" [1; 2];
     mkToken "DELTAP1" "" [] [(4, 12, 1)];
     mkToken "DELTAP" "" [] [(4, 12, 1)];
     tok "IP" "" [8]] []
  = Return (["PUSH[] 8 56 4 1 56 4 1 3 7"; "SVTCA[Y]"; "MIAP[R]"; "PUSH[] 9 5";
             "MDRP[m]"; "IUP[Y]"; "SRP0[]"; "SRP1[]"; "PUSH[] 1 2"; "DELTAP1[]";
             "DELTAP[]"; "IP[]"]%string, []).
Proof. vm_compute. reflexivity. Qed.

(** ** Stored programs read back *)

Lemma breaks_no_cr (d : bytes) : ~ In CR d -> breaks_to_cr d = lf_to_cr d.
Proof.
  induction d as [|c d IH]; intros H; [reflexivity|].
  cbn [breaks_to_cr lf_to_cr map].
  destruct (Ascii.eqb c LF) eqn:E1.
  - f_equal. apply IH. intros Hin. apply H. right. exact Hin.
  - destruct (Ascii.eqb_spec c CR) as [->|_]; [exfalso; apply H; left; reflexivity|].
    f_equal. apply IH. intros Hin. apply H. right. exact Hin.
Qed.

Lemma rstrip_lf_to_cr (d : bytes) : rstrip (lf_to_cr d) = lf_to_cr (rstrip d).
Proof.
  induction d as [|c d IH]; [reflexivity|].
  cbn [lf_to_cr map rstrip]. fold (lf_to_cr d). rewrite IH.
  destruct (rstrip d) as [|r0 r]; cbn [lf_to_cr map].
  - destruct (Ascii.eqb c LF) eqn:E.
    + apply Ascii.eqb_eq in E. subst c. reflexivity.
    + destruct (bytes_isspace c); cbn [map]; rewrite ?E; reflexivity.
  - reflexivity.
Qed.

Lemma replace_lf_to_cr (d : bytes) : ~ In CR d -> replace_cr (lf_to_cr d) = d.
Proof.
  induction d as [|c d IH]; intros H; [reflexivity|].
  cbn [lf_to_cr replace_cr map]. fold (lf_to_cr d). fold (replace_cr (lf_to_cr d)).
  rewrite IH by (intros Hin; apply H; right; exact Hin). f_equal.
  destruct (Ascii.eqb_spec c LF) as [->|_]; [reflexivity|].
  destruct (Ascii.eqb_spec c CR) as [->|_]; [|reflexivity].
  exfalso. apply H. left. reflexivity.
Qed.

Lemma lf_to_cr_replace (d : bytes) : ~ In LF d -> lf_to_cr (replace_cr d) = d.
Proof.
  induction d as [|c d IH]; intros H; [reflexivity|].
  cbn [lf_to_cr replace_cr map]. fold (replace_cr d). fold (lf_to_cr (replace_cr d)).
  rewrite IH by (intros Hin; apply H; right; exact Hin). f_equal.
  destruct (Ascii.eqb_spec c CR) as [->|_]; [reflexivity|].
  destruct (Ascii.eqb_spec c LF) as [->|_]; [|reflexivity].
  exfalso. apply H. left. reflexivity.
Qed.

Lemma replace_cr_app (a b : bytes) :
  replace_cr (a ++ b) = replace_cr a ++ replace_cr b.
Proof. apply map_app. Qed.

Lemma lf_to_cr_app (a b : bytes) : lf_to_cr (a ++ b) = lf_to_cr a ++ lf_to_cr b.
Proof. apply map_app. Qed.

Lemma rstrip_idempotent (x : bytes) : rstrip (rstrip x) = rstrip x.
Proof.
  induction x as [|c x IH]; [reflexivity|].
  cbn [rstrip]. destruct (rstrip x) as [|r0 r] eqn:E.
  - destruct (bytes_isspace c) eqn:Ec; [reflexivity|]. cbn. rewrite Ec. reflexivity.
  - change (rstrip (c :: r0 :: r))
      with (match rstrip (r0 :: r) with
            | [] => if bytes_isspace c then [] else [c]
            | y => c :: y
            end).
    rewrite IH. reflexivity.
Qed.

Lemma stored_form_no_cr (text : bytes) :
  ~ In CR text -> replace_cr (stored_form text) = rstrip text ++ [LF].
Proof.
  intros H. rewrite stored_form_breaks, (breaks_no_cr text H), rstrip_lf_to_cr.
  rewrite replace_cr_app, replace_lf_to_cr; [reflexivity|].
  intros Hin. apply H, (rstrip_incl _ _ Hin).
Qed.

Lemma stored_form_read_back (d : bytes) :
  stored_form (replace_cr (stored_form d)) = stored_form d.
Proof.
  rewrite (stored_form_breaks (replace_cr (stored_form d))).
  rewrite (breaks_no_cr _ (replace_cr_no_cr _)).
  rewrite stored_form_breaks, replace_cr_app, lf_to_cr_app.
  rewrite lf_to_cr_replace.
  - change (lf_to_cr (replace_cr [CR])) with [CR].
    rewrite rstrip_app_space by (repeat constructor).
    rewrite rstrip_idempotent. reflexivity.
  - intros Hin. apply rstrip_incl in Hin. exact (breaks_to_cr_no_lf d Hin).
Qed.

(** X6.  Text without carriage returns that is stored with
    [set_vtt_program] reads back through [get_vtt_program] as itself, less
    the white space at its end, with one line feed appended. *)
Theorem stored_text_reads_back
        (font : Font) (name : string) (text : bytes) (is_talk is_glyph : bool) :
  get_table font is_talk <> None ->
  ~ In CR text ->
  exists font',
    set_vtt_program font name text is_talk is_glyph = inr font'
    /\ get_vtt_program font' name is_talk is_glyph = inr (rstrip text ++ [LF]).
Proof.
  intros Ht Hcr.
  destruct (set_then_stored font name text is_talk is_glyph Ht)
    as (font' & Hset & _ & Hget).
  exists font'. split; [exact Hset|].
  rewrite Hget, (stored_form_no_cr text Hcr). reflexivity.
Qed.

Lemma stored_text_reads_back_witness :
  exists font',
    set_vtt_program (mkFont None (Some (mkTSI (fun _ => None) (fun _ => None))))
      "A" (chars ("IUP[X]" ++ nl ++ "  " ++ nl)) true true = inr font'
    /\ get_vtt_program font' "A" true true = inr (chars ("IUP[X]" ++ nl)).
Proof.
  apply (stored_text_reads_back
           (mkFont None (Some (mkTSI (fun _ => None) (fun _ => None))))
           "A" (chars ("IUP[X]" ++ nl ++ "  " ++ nl)) true true).
  - discriminate.
  - cbn. intros H. repeat (destruct H as [H|H]; [discriminate|]). exact H.
Defined.

Lemma set_vtt_program_frame (font font' : Font) (name name' : string)
      (data : bytes) (is_talk is_glyph is_talk' is_glyph' : bool) :
  set_vtt_program font name data is_talk is_glyph = inr font' ->
  (name', is_talk', is_glyph') <> (name, is_talk, is_glyph) ->
  stored_program font' name' is_talk' is_glyph'
  = stored_program font name' is_talk' is_glyph'
  /\ get_vtt_program font' name' is_talk' is_glyph'
     = get_vtt_program font name' is_talk' is_glyph'.
Proof.
  unfold set_vtt_program, get_vtt_program, stored_program, get_table, set_table.
  intros H Hne.
  assert (Hn : is_talk' = is_talk -> is_glyph' = is_glyph ->
               (name' =? name)%string = false).
  { intros -> ->. apply String.eqb_neq. intros ->. apply Hne. reflexivity. }
  destruct is_talk, is_talk', is_glyph, is_glyph';
    cbn in *;
    try (destruct (TSI1 font) as [t1|]; [|discriminate]);
    try (destruct (TSI3 font) as [t3|]; [|discriminate]);
    injection H as <-; cbn; unfold dict_set;
    rewrite ?(Hn eq_refl eq_refl); split; reflexivity.
Qed.

(** X7.  [set_vtt_program] writes one entry and nothing else: it fails
    exactly when its table is missing, and otherwise every program under
    another name, or of the other kind, or in the other table, is stored
    and read as before; storing again what [get_vtt_program] then returns
    for the entry changes no stored bytes. *)
Theorem set_vtt_program_writes_one_entry
        (font : Font) (name : string) (data : bytes) (is_talk is_glyph : bool) :
  (get_table font is_talk = None ->
   set_vtt_program font name data is_talk is_glyph
   = inl (TableNotFound (tag_of is_talk)))
  /\ (get_table font is_talk <> None ->
      exists font' text font'',
        set_vtt_program font name data is_talk is_glyph = inr font'
        /\ (forall name' is_talk' is_glyph',
               (name', is_talk', is_glyph') <> (name, is_talk, is_glyph) ->
               stored_program font' name' is_talk' is_glyph'
               = stored_program font name' is_talk' is_glyph'
               /\ get_vtt_program font' name' is_talk' is_glyph'
                  = get_vtt_program font name' is_talk' is_glyph')
        /\ get_vtt_program font' name is_talk is_glyph = inr text
        /\ set_vtt_program font' name text is_talk is_glyph = inr font''
        /\ forall name' is_talk' is_glyph',
             stored_program font'' name' is_talk' is_glyph'
             = stored_program font' name' is_talk' is_glyph').
Proof.
  split.
  - intros H. unfold set_vtt_program. rewrite H. reflexivity.
  - intros Ht.
    destruct (set_then_stored font name data is_talk is_glyph Ht)
      as (font' & Hset & Hst & Hget).
    assert (Ht' : get_table font' is_talk <> None).
    { revert Hst. unfold stored_program, get_table.
      destruct is_talk; [destruct (TSI3 font') | destruct (TSI1 font')];
        discriminate. }
    destruct (set_then_stored font' name (replace_cr (stored_form data))
                is_talk is_glyph Ht') as (font'' & Hset' & Hst' & _).
    exists font', (replace_cr (stored_form data)), font''.
    split; [exact Hset|]. split.
    { intros name' is_talk' is_glyph' Hne.
      apply (set_vtt_program_frame font font' name name' data _ _ _ _ Hset Hne). }
    split; [exact Hget|]. split; [exact Hset'|].
    intros name' is_talk' is_glyph'.
    destruct (string_dec name' name) as [->|Hn].
    + destruct (Bool.bool_dec is_talk' is_talk) as [->|Htk].
      * destruct (Bool.bool_dec is_glyph' is_glyph) as [->|Hg].
        -- rewrite Hst', Hst, stored_form_read_back. reflexivity.
        -- apply (set_vtt_program_frame font' font'' name name _ _ _ _ _ Hset').
           congruence.
      * apply (set_vtt_program_frame font' font'' name name _ _ _ _ _ Hset').
        congruence.
    + apply (set_vtt_program_frame font' font'' name name' _ _ _ _ _ Hset').
      congruence.
Qed.

Lemma set_vtt_program_writes_one_entry_witness :
  exists font' font'',
    set_vtt_program
      (mkFont (Some (mkTSI (fun _ => Some (chars "IUP[X]" ++ [CR]))
                           (fun _ => Some (chars "SVTCA[Y]" ++ [CR]))))
              None)
      "fpgm" (chars ("SVTCA[X]  " ++ nl ++ nl)) false false
    = inr font'
    /\ stored_program font' "prep" false false = Some (chars "SVTCA[Y]" ++ [CR])
    /\ stored_program font' "fpgm" false true = Some (chars "IUP[X]" ++ [CR])
    /\ get_vtt_program font' "fpgm" false false = inr (chars ("SVTCA[X]" ++ nl))
    /\ set_vtt_program font' "fpgm" (chars ("SVTCA[X]" ++ nl)) false false
       = inr font''
    /\ stored_program font'' "fpgm" false false
       = stored_program font' "fpgm" false false.
Proof.
  destruct (set_vtt_program_writes_one_entry
              (mkFont (Some (mkTSI (fun _ => Some (chars "IUP[X]" ++ [CR]))
                                   (fun _ => Some (chars "SVTCA[Y]" ++ [CR]))))
                      None)
              "fpgm" (chars ("SVTCA[X]  " ++ nl ++ nl)) false false)
    as (_ & H).
  destruct H as (font' & text & font'' & Hset & Hframe & Hget & Hset' & Hsame).
  - discriminate.
  - exists font', font''.
    assert (Et : text = chars ("SVTCA[X]" ++ nl)).
    { revert Hset Hget. vm_compute. intros Hset. injection Hset as <-.
      intros Hget. injection Hget as <-. reflexivity. }
    subst text.
    split; [exact Hset|].
    split; [apply (Hframe "prep"%string false false); discriminate|].
    split; [apply (Hframe "fpgm"%string false true); discriminate|].
    split; [exact Hget|]. split; [exact Hset' | apply Hsame].
Defined.

(** ** Extra programs by name *)

Lemma is_extra_name_cases (name : string) :
  is_extra_name name = true ->
  name = "cvt"%string \/ name = "cvt "%string \/ name = "prep"%string
  \/ name = "ppgm"%string \/ name = "fpgm"%string.
Proof.
  unfold is_extra_name, extra_names. cbn [existsb].
  repeat match goal with
         | |- context [String.eqb name ?s] =>
             destruct (String.eqb_spec name s); [auto 6|]
         end.
  discriminate.
Qed.

(** X8.  [set_extra_assembly] and [get_extra_assembly] refuse every name
    other than the five listed, whatever the font holds.  For ["cvt"],
    ["prep"], ["ppgm"] and ["fpgm"] what is stored under a name is read back
    under it, ["prep"] and ["ppgm"] naming one program; but ["cvt "] is
    stored under that key and read under ["cvt"], so that reading it back
    gives what the font held under ["cvt"] before. *)
Theorem extra_assembly_names
        (font : Font) (name : string) (data : bytes) :
  (is_extra_name name = false ->
   get_extra_assembly font name = inl (InvalidName name)
   /\ set_extra_assembly font name data = inl (InvalidName name))
  /\ get_extra_assembly font "prep" = get_extra_assembly font "ppgm"
  /\ set_extra_assembly font "prep" data = set_extra_assembly font "ppgm" data
  /\ forall font',
       set_extra_assembly font name data = inr font' ->
       get_extra_assembly font' name
       = if (name =? "cvt ")%string then get_extra_assembly font "cvt"
         else inr (replace_cr (stored_form data)).
Proof.
  split; [|split; [reflexivity | split; [reflexivity|]]].
  - intros H. unfold get_extra_assembly, set_extra_assembly. rewrite H.
    split; reflexivity.
  - intros font'. unfold set_extra_assembly.
    destruct (is_extra_name name) eqn:Hn; [|discriminate]. cbn [negb].
    intros H.
    assert (G : forall key key',
               set_vtt_program font key data false false = inr font' ->
               get_vtt_program font' key' false false
               = if (key' =? key)%string then inr (replace_cr (stored_form data))
                 else get_vtt_program font key' false false).
    { intros key key' Hset.
      destruct (String.eqb_spec key' key) as [->|Hk].
      - assert (Ht : get_table font false <> None).
        { intros E. unfold set_vtt_program in Hset. rewrite E in Hset.
          discriminate. }
        destruct (set_then_stored font key data false false Ht)
          as (font1 & Hset1 & _ & Hget).
        rewrite Hset in Hset1. injection Hset1 as <-. exact Hget.
      - apply (set_vtt_program_frame font font' key key' data _ _ _ _ Hset).
        congruence. }
    unfold program_result in H.
    destruct (is_extra_name_cases name Hn) as [-> | [-> | [-> | [-> | ->]]]];
      cbn [String.eqb Ascii.eqb Bool.eqb] in H |- *;
      match type of H with
      | match ?r with _ => _ end = _ =>
          destruct r as [e|f] eqn:Hset; [discriminate|]; injection H as ->
      end;
      unfold get_extra_assembly; cbn; rewrite (G _ _ Hset); reflexivity.
Qed.

Lemma extra_assembly_names_witness :
  get_extra_assembly
    (mkFont (Some (mkTSI (fun _ => None) (fun _ => None))) None) "glyf"
  = inl (InvalidName "glyf")
  /\ set_extra_assembly
       (mkFont (Some (mkTSI (fun _ => None) (fun _ => None))) None) "glyf"
       (chars "SVTCA[X]")
     = inl (InvalidName "glyf").
Proof.
  apply (extra_assembly_names
           (mkFont (Some (mkTSI (fun _ => None) (fun _ => None))) None)
           "glyf" (chars "SVTCA[X]")).
  reflexivity.
Defined.

(** ** Outline components against declarations *)

Lemma check_component_agrees (i : nat) (name : string) (comp : GlyphComponent)
      (v : Component) (glyph_order : list string) (check_flags : bool) :
  check_component i name comp v glyph_order check_flags = Return tt
  <-> agrees glyph_order comp v /\ (check_flags = true -> flags_agree comp v).
Proof.
  unfold check_component, agrees, flags_agree, invalid.
  destruct (list_index (glyphName comp) glyph_order) as [index|e];
    cbn [bind]; [|split; [discriminate | intros ((H & _) & _); discriminate]].
  destruct (Z.eqb_spec (vtt_index v) index) as [Hi|Hi]; cbn [negb];
    [|split; [discriminate | intros ((H & _) & _); congruence]].
  rewrite Hi.
  destruct (placement comp) as [x y|firstPt secondPt], v as [j vx vy rtg u so|j vf vs u so];
    cbn [bind vtt_use_my_metrics vtt_scaled_offset];
    try (split; [discriminate | intros ((_ & []) & _)]).
  - destruct (Z.eqb_spec x vx) as [Hx|Hx]; cbn [negb];
      [|split; [discriminate | intros ((_ & H & _) & _); contradiction]].
    destruct (Z.eqb_spec y vy) as [Hy|Hy]; cbn [negb];
      [|split; [discriminate | intros ((_ & _ & H) & _); contradiction]].
    destruct check_flags; cbn [andb negb bind].
    + destruct (flag_differs (comp_flags comp) ROUND_XY_TO_GRID rtg) eqn:Er.
      * split; [discriminate|]. intros (_ & H). destruct (H eq_refl) as (Hr & _).
        apply flag_differs_false in Hr. congruence.
      * cbn [bind]. rewrite check_component_flags_succeeds.
        cbn [vtt_use_my_metrics vtt_scaled_offset].
        apply flag_differs_false in Er. split.
        -- intros H. split; [split; [reflexivity | split; assumption]|].
           intros _. tauto.
        -- intros (_ & H). destruct (H eq_refl) as (_ & H'). exact H'.
    + split; [|reflexivity]. intros _.
      split; [split; [reflexivity | split; assumption] | discriminate].
  - destruct (Z.eqb_spec firstPt vf) as [Hx|Hx]; cbn [negb];
      [|split; [discriminate | intros ((_ & H & _) & _); contradiction]].
    destruct (Z.eqb_spec secondPt vs) as [Hy|Hy]; cbn [negb];
      [|split; [discriminate | intros ((_ & _ & H) & _); contradiction]].
    cbn [bind]. destruct check_flags; cbn [negb].
    + rewrite check_component_flags_succeeds.
      cbn [vtt_use_my_metrics vtt_scaled_offset]. split.
      * intros H. split; [split; [reflexivity | split; assumption]|].
        intros _. tauto.
      * intros (_ & H). destruct (H eq_refl) as (_ & H'). exact H'.
    + split; [|reflexivity]. intros _.
      split; [split; [reflexivity | split; assumption] | discriminate].
Qed.

Lemma check_components_agree (name : string) (glyph : list GlyphComponent)
      (vtt : list Component) (glyph_order : list string) (check_flags : bool)
      (i : nat) :
  List.length vtt = List.length glyph ->
  (check_components i name glyph vtt glyph_order check_flags = Return tt
   <-> Forall2 (fun comp v => agrees glyph_order comp v
                              /\ (check_flags = true -> flags_agree comp v))
               glyph vtt).
Proof.
  revert vtt i. induction glyph as [|comp glyph IH]; intros [|v vtt] i Hlen;
    try discriminate.
  - split; [constructor | reflexivity].
  - cbn [check_components]. injection Hlen as Hlen. split.
    + intros H. apply bind_return in H. destruct H as ([] & H1 & H2).
      constructor.
      * apply (check_component_agrees i name), H1.
      * apply (IH vtt (S i) Hlen), H2.
    + intros H. inversion H as [|? ? ? ? H1 H2]; subst.
      apply (check_component_agrees i name) in H1. rewrite H1. cbn [bind].
      apply (IH vtt (S i) Hlen), H2.
Qed.

(** X9.  [check_composite_info] returns exactly when the outline and the
    declarations have the same number of components and, one by one, name
    the same glyph by its index in the glyph order and place it the same
    way (the same offsets, or the same anchor points); with [check_flags]
    each flag bit of the outline must also equal the declared value, both
    scaled-offset bits being compared with the truth value of
    [scaled_offset].  The glyph name serves for the messages only. *)
Theorem check_composite_info_accepts
        (name : string) (glyph : list GlyphComponent) (vtt : list Component)
        (glyph_order : list string) (check_flags : bool) :
  check_composite_info name glyph vtt glyph_order check_flags = Return tt
  <-> Forall2 (fun comp v => agrees glyph_order comp v
                             /\ (check_flags = true -> flags_agree comp v))
              glyph vtt.
Proof.
  unfold check_composite_info, invalid.
  destruct (Nat.eqb_spec (List.length vtt) (List.length glyph)) as [Hlen|Hlen];
    cbn [negb].
  - apply check_components_agree, Hlen.
  - split; [discriminate|]. intros H. apply Forall2_length in H. congruence.
Qed.

(** ** Flags written to the outline *)

Lemma testbit_set_flag (f n k : Z) :
  0 <= n ->
  Z.testbit (set_flag f (2 ^ n)) k = (k =? n) || Z.testbit f k.
Proof.
  intros Hn. unfold set_flag. rewrite Z.lor_spec.
  destruct (Z.ltb_spec k 0) as [Hk|Hk].
  - rewrite !Z.testbit_neg_r by lia.
    destruct (Z.eqb_spec k n); [lia | reflexivity].
  - rewrite Z.pow2_bits_eqb by lia. rewrite Z.eqb_sym. apply orb_comm.
Qed.

Lemma testbit_clear_flag (f n k : Z) :
  0 <= n ->
  Z.testbit (clear_flag f (2 ^ n)) k = negb (k =? n) && Z.testbit f k.
Proof.
  intros Hn. unfold clear_flag. rewrite Z.land_spec.
  destruct (Z.ltb_spec k 0) as [Hk|Hk].
  - rewrite !Z.testbit_neg_r by lia. cbn [andb]. rewrite andb_false_r. reflexivity.
  - rewrite Z.lnot_spec, Z.pow2_bits_eqb by lia. rewrite Z.eqb_sym.
    apply andb_comm.
Qed.

Lemma set_component_flags_written (comp comp' : GlyphComponent) (v : Component)
      (vtt_version : Z) :
  set_component_flags comp v vtt_version = Return comp' ->
  is_offset_component v = true /\ written vtt_version (comp, v) comp'.
Proof.
  unfold set_component_flags, written.
  destruct v as [i x y rtg umm so|i first second umm so]; [|discriminate].
  intros H. injection H as <-. split; [reflexivity|].
  cbn [fst snd glyphName placement comp_flags written_bit vtt_use_my_metrics].
  split; [reflexivity|]. split; [reflexivity|]. intros k.
  change USE_MY_METRICS with (2 ^ 9).
  change ROUND_XY_TO_GRID with (2 ^ 2).
  change SCALED_COMPONENT_OFFSET with (2 ^ 11).
  change UNSCALED_COMPONENT_OFFSET with (2 ^ 12).
  destruct (vtt_version <? 6), so as [[|]|], rtg, umm;
    repeat first [rewrite testbit_clear_flag by lia
                 | rewrite testbit_set_flag by lia];
    (destruct (Z.eqb_spec k 9) as [E9|E9]; [subst k; reflexivity|]);
    (destruct (Z.eqb_spec k 2) as [E2|E2]; [subst k; reflexivity|]);
    (destruct (Z.eqb_spec k 11) as [E11|E11]; [subst k; reflexivity|]);
    (destruct (Z.eqb_spec k 12) as [E12|E12]; [subst k; reflexivity|]);
    reflexivity.
Qed.

Lemma set_components_flags_loop_written (glyph glyph' : list GlyphComponent)
      (vtt : list Component) (vtt_version : Z) :
  set_components_flags_loop glyph vtt vtt_version = Return glyph' ->
  Forall2 (written vtt_version) (combine glyph vtt) glyph'.
Proof.
  revert vtt glyph'. induction glyph as [|comp glyph IH]; intros vtt glyph'.
  - intros H. injection H as <-. constructor.
  - cbn [set_components_flags_loop]. destruct vtt as [|v vtt]; [discriminate|].
    intros H. apply bind_return in H. destruct H as (c & Hc & H).
    apply bind_return in H. destruct H as (cs & Hcs & H). injection H as <-.
    cbn [combine]. constructor.
    + apply (set_component_flags_written _ _ _ _ Hc).
    + apply (IH vtt cs Hcs).
Qed.

Lemma set_components_flags_loop_defined (glyph : list GlyphComponent)
      (vtt : list Component) (vtt_version : Z) :
  List.length vtt = List.length glyph ->
  forallb is_offset_component vtt = true ->
  exists glyph', set_components_flags_loop glyph vtt vtt_version = Return glyph'.
Proof.
  revert vtt. induction glyph as [|comp glyph IH]; intros [|v vtt] Hlen Hoff;
    try discriminate.
  - eexists. reflexivity.
  - cbn [forallb] in Hoff. apply andb_true_iff in Hoff. destruct Hoff as (Hv & Hoff).
    injection Hlen as Hlen. destruct (IH vtt Hlen Hoff) as (cs & Hcs).
    cbn [set_components_flags_loop]. rewrite Hcs.
    destruct v; [|discriminate]. cbn. eexists. reflexivity.
Qed.

Lemma set_components_flags_loop_anchor (glyph : list GlyphComponent)
      (vtt : list Component) (vtt_version : Z) :
  List.length vtt = List.length glyph ->
  forallb is_offset_component vtt = false ->
  set_components_flags_loop glyph vtt vtt_version = Raise AttributeError.
Proof.
  revert vtt. induction glyph as [|comp glyph IH]; intros [|v vtt] Hlen Hoff;
    try discriminate.
  cbn [forallb] in Hoff. injection Hlen as Hlen.
  cbn [set_components_flags_loop].
  destruct v as [i x y rtg umm so|i first second umm so]; [|reflexivity].
  cbn [is_offset_component andb] in Hoff.
  rewrite (IH vtt Hlen Hoff). reflexivity.
Qed.

(** X10.  [set_components_flags] fails its assertion when the numbers of
    components differ, and raises [AttributeError] when a declaration is an
    [ANCHOR] ([AnchorComponent] has no [round_to_grid]).  Otherwise it
    keeps the name and the placement of every component and rewrites its
    flags bit by bit: [USE_MY_METRICS] and [ROUND_XY_TO_GRID] become the
    declared values; with [vtt_version] at least 6 and a declared scaled
    offset, [SCALED_COMPONENT_OFFSET] becomes that value and
    [UNSCALED_COMPONENT_OFFSET] its opposite; every other bit is kept. *)
Theorem set_components_flags_effect
        (glyph : list GlyphComponent) (vtt : list Component) (vtt_version : Z) :
  (List.length vtt <> List.length glyph ->
   set_components_flags glyph vtt vtt_version = Raise AssertionError)
  /\ (List.length vtt = List.length glyph ->
      forallb is_offset_component vtt = false ->
      set_components_flags glyph vtt vtt_version = Raise AttributeError)
  /\ (List.length vtt = List.length glyph ->
      forallb is_offset_component vtt = true ->
      exists glyph',
        set_components_flags glyph vtt vtt_version = Return glyph'
        /\ Forall2 (written vtt_version) (combine glyph vtt) glyph').
Proof.
  unfold set_components_flags. split; [|split].
  - intros H. apply Nat.eqb_neq in H. rewrite H. reflexivity.
  - intros Hlen Hoff. rewrite (proj2 (Nat.eqb_eq _ _) Hlen). cbn [assert bind].
    apply set_components_flags_loop_anchor; assumption.
  - intros Hlen Hoff. rewrite (proj2 (Nat.eqb_eq _ _) Hlen). cbn [assert bind].
    destruct (set_components_flags_loop_defined glyph vtt vtt_version Hlen Hoff)
      as (glyph' & H).
    exists glyph'. split; [exact H|].
    apply set_components_flags_loop_written, H.
Qed.

Lemma set_components_flags_effect_witness :
  exists glyph',
    set_components_flags
      [mkComp "A" (UNSCALED_COMPONENT_OFFSET + USE_MY_METRICS + 1) (ByOffset 1 2)]
      [OffsetComponent 0 1 2 true false (Some true)] 6
    = Return glyph'
    /\ Forall2 (written 6)
         (combine
            [mkComp "A" (UNSCALED_COMPONENT_OFFSET + USE_MY_METRICS + 1)
               (ByOffset 1 2)]
            [OffsetComponent 0 1 2 true false (Some true)])
         glyph'
    /\ glyph' = [mkComp "A" (SCALED_COMPONENT_OFFSET + ROUND_XY_TO_GRID + 1)
                   (ByOffset 1 2)].
Proof.
  destruct (set_components_flags_effect
              [mkComp "A" (UNSCALED_COMPONENT_OFFSET + USE_MY_METRICS + 1)
                 (ByOffset 1 2)]
              [OffsetComponent 0 1 2 true false (Some true)] 6)
    as (_ & _ & H).
  destruct H as (glyph' & H1 & H2).
  - reflexivity.
  - reflexivity.
  - exists glyph'. split; [exact H1 | split; [exact H2|]].
    revert H1. vm_compute. intros H1. injection H1 as <-. reflexivity.
Defined.

Lemma written_bit_idempotent (vtt_version : Z) (v : Component) (k : Z) (b : bool) :
  written_bit vtt_version v k (written_bit vtt_version v k b)
  = written_bit vtt_version v k b.
Proof.
  unfold written_bit. destruct v as [i x y rtg umm so|]; [|reflexivity].
  destruct (k =? 9); [reflexivity|]. destruct (k =? 2); [reflexivity|].
  destruct (vtt_version <? 6); [reflexivity|].
  destruct so as [s|]; [|reflexivity].
  destruct (k =? 11); [reflexivity|]. destruct (k =? 12); reflexivity.
Qed.

Lemma written_again (vtt_version : Z) (comp c1 c2 : GlyphComponent)
      (v : Component) :
  written vtt_version (comp, v) c1 -> written vtt_version (c1, v) c2 -> c2 = c1.
Proof.
  intros (Hn1 & Hp1 & Hb1) (Hn2 & Hp2 & Hb2). cbn [fst snd] in *.
  destruct c1 as [n1 f1 p1], c2 as [n2 f2 p2]. cbn in *. subst n2 p2. f_equal.
  apply Z.bits_inj'. intros k _.
  rewrite Hb2, Hb1. apply written_bit_idempotent.
Qed.

Lemma set_components_flags_loop_again (glyph glyph' : list GlyphComponent)
      (vtt : list Component) (vtt_version : Z) :
  set_components_flags_loop glyph vtt vtt_version = Return glyph' ->
  set_components_flags_loop glyph' vtt vtt_version = Return glyph'.
Proof.
  revert vtt glyph'. induction glyph as [|comp glyph IH]; intros vtt glyph'.
  - intros H. injection H as <-. reflexivity.
  - cbn [set_components_flags_loop]. destruct vtt as [|v vtt]; [discriminate|].
    intros H. apply bind_return in H. destruct H as (c & Hc & H).
    apply bind_return in H. destruct H as (cs & Hcs & H). injection H as <-.
    cbn [set_components_flags_loop]. rewrite (IH vtt cs Hcs).
    destruct (set_component_flags_written _ _ _ _ Hc) as (Hoff & Hw).
    destruct (set_component_flags c v vtt_version) as [c2|e] eqn:Hc2.
    + destruct (set_component_flags_written _ _ _ _ Hc2) as (_ & Hw2).
      rewrite (written_again vtt_version comp c c2 v Hw Hw2). reflexivity.
    + destruct v; [|discriminate]. discriminate.
Qed.

Lemma set_components_flags_length (glyph glyph' : list GlyphComponent)
      (vtt : list Component) (vtt_version : Z) :
  set_components_flags_loop glyph vtt vtt_version = Return glyph' ->
  List.length glyph' = List.length glyph.
Proof.
  revert vtt glyph'. induction glyph as [|comp glyph IH]; intros vtt glyph'.
  - intros H. injection H as <-. reflexivity.
  - cbn [set_components_flags_loop]. destruct vtt as [|v vtt]; [discriminate|].
    intros H. apply bind_return in H. destruct H as (c & Hc & H).
    apply bind_return in H. destruct H as (cs & Hcs & H). injection H as <-.
    cbn [List.length]. rewrite (IH vtt cs Hcs). reflexivity.
Qed.

Lemma written_agrees (glyph_order : list string) (vtt_version : Z)
      (comp comp' : GlyphComponent) (v : Component) :
  written vtt_version (comp, v) comp' ->
  agrees glyph_order comp v -> agrees glyph_order comp' v.
Proof.
  intros (Hn & Hp & _). cbn [fst] in *. unfold agrees. rewrite Hn, Hp. auto.
Qed.

Lemma written_flags_agree (vtt_version : Z) (comp comp' : GlyphComponent)
      (v : Component) :
  written vtt_version (comp, v) comp' ->
  is_offset_component v = true ->
  vtt_scaled_offset v = None ->
  has_flag (comp_flags comp) SCALED_COMPONENT_OFFSET = false ->
  has_flag (comp_flags comp) UNSCALED_COMPONENT_OFFSET = false ->
  flags_agree comp' v.
Proof.
  intros (_ & _ & Hb) Hoff Hso Hs Hu. cbn [fst snd] in Hb.
  destruct v as [i x y rtg umm so|]; [|discriminate]. cbn in Hso. subst so.
  unfold flags_agree. cbn [vtt_use_my_metrics vtt_scaled_offset truthy].
  change USE_MY_METRICS with (2 ^ 9) in *.
  change ROUND_XY_TO_GRID with (2 ^ 2) in *.
  change SCALED_COMPONENT_OFFSET with (2 ^ 11) in *.
  change UNSCALED_COMPONENT_OFFSET with (2 ^ 12) in *.
  rewrite has_flag_testbit in Hs, Hu by lia.
  rewrite !has_flag_testbit by lia. rewrite !Hb. unfold written_bit.
  cbn [Z.eqb Pos.eqb]. rewrite Hs, Hu.
  destruct (vtt_version <? 6); repeat split; reflexivity.
Qed.

(** X11.  What [set_components_flags] writes, [check_composite_info] with
    [check_flags] accepts: if the declarations agree with the outline on
    glyphs and placements, declare no scaled offset, and the outline has
    neither scaled-offset bit, then the outline with the flags written
    passes the check with [check_flags] set.  Writing the flags a second
    time changes nothing. *)
Theorem flags_written_are_accepted
        (name : string) (glyph glyph' : list GlyphComponent)
        (vtt : list Component) (glyph_order : list string) (vtt_version : Z) :
  set_components_flags glyph vtt vtt_version = Return glyph' ->
  set_components_flags glyph' vtt vtt_version = Return glyph'
  /\ (Forall2 (agrees glyph_order) glyph vtt ->
      Forall (fun v => vtt_scaled_offset v = None) vtt ->
      Forall (fun comp =>
                has_flag (comp_flags comp) SCALED_COMPONENT_OFFSET = false /\
                has_flag (comp_flags comp) UNSCALED_COMPONENT_OFFSET = false)
             glyph ->
      check_composite_info name glyph' vtt glyph_order true = Return tt).
Proof.
  unfold set_components_flags. intros H.
  apply bind_return in H. destruct H as ([] & Ha & H).
  destruct (Nat.eqb_spec (List.length vtt) (List.length glyph)) as [Hlen|];
    [clear Ha | discriminate].
  pose proof (set_components_flags_length _ _ _ _ H) as Hlen'.
  split.
  - rewrite Hlen', (proj2 (Nat.eqb_eq _ _) Hlen). cbn [assert bind].
    apply (set_components_flags_loop_again glyph), H.
  - intros Hag Hso Hbits. unfold check_composite_info.
    rewrite Hlen', (proj2 (Nat.eqb_eq _ _) Hlen). cbn [negb].
    apply check_components_agree; [congruence|].
    clear Hlen Hlen'. revert vtt glyph' H Hag Hso Hbits.
    induction glyph as [|comp glyph IH]; intros vtt glyph' H Hag Hso Hbits.
    + inversion Hag; subst. injection H as <-. constructor.
    + inversion Hag as [|? v ? vtt' Hcv Hrest]; subst.
      cbn [set_components_flags_loop] in H.
      apply bind_return in H. destruct H as (c & Hc & H).
      apply bind_return in H. destruct H as (cs & Hcs & H). injection H as <-.
      apply Forall_cons_iff in Hso. destruct Hso as (Hv & Hso).
      apply Forall_cons_iff in Hbits. destruct Hbits as ((Hs & Hu) & Hbits).
      destruct (set_component_flags_written _ _ _ _ Hc) as (Hoff & Hw).
      constructor.
      * split; [apply (written_agrees _ _ _ _ _ Hw Hcv)|]. intros _.
        apply (written_flags_agree vtt_version comp c v Hw Hoff Hv Hs Hu).
      * apply (IH vtt' cs Hcs Hrest Hso Hbits).
Qed.

Lemma flags_written_are_accepted_witness :
  set_components_flags [mkComp "B" 516 (ByOffset 10 (-20))]
    [OffsetComponent 1 10 (-20) false true None] 6
  = Return [mkComp "B" 512 (ByOffset 10 (-20))]
  /\ check_composite_info "A" [mkComp "B" 512 (ByOffset 10 (-20))]
       [OffsetComponent 1 10 (-20) false true None] ["A"; "B"]%string true
     = Return tt.
Proof.
  destruct (flags_written_are_accepted "A"
              [mkComp "B" 516 (ByOffset 10 (-20))]
              [mkComp "B" 512 (ByOffset 10 (-20))]
              [OffsetComponent 1 10 (-20) false true None]
              ["A"; "B"]%string 6) as (H1 & H2).
  - reflexivity.
  - split; [exact H1|]. apply H2.
    + repeat constructor.
    + repeat constructor.
    + repeat constructor.
Defined.

(** ** Glyphs missing from the glyph order *)

Lemma list_index_missing (name : string) (order : list string) :
  ~ In name order -> list_index name order = Raise ValueError.
Proof.
  induction order as [|n order IH]; intros H; [reflexivity|].
  cbn [list_index].
  destruct (String.eqb_spec n name) as [E|E]; [exfalso; apply H; left; exact E|].
  rewrite IH; [reflexivity|]. intros Hin. apply H. right. exact Hin.
Qed.

Lemma list_index_found (name : string) (order : list string) :
  In name order ->
  exists i, list_index name order = Return (Z.of_nat i)
            /\ nth_error order i = Some name
            /\ ~ In name (firstn i order).
Proof.
  induction order as [|n order IH]; intros H; [contradiction|].
  cbn [list_index].
  destruct (String.eqb_spec n name) as [E|E].
  - exists O. subst n. repeat split. intros [].
  - destruct H as [H|H]; [contradiction|].
    destruct (IH H) as (i & -> & Hn & Hf). exists (S i). cbn [bind].
    split; [f_equal; lia|]. split; [exact Hn|].
    cbn [firstn]. intros [Hin|Hin]; [contradiction | exact (Hf Hin)].
Qed.

Lemma instructions_defined (glyph : list GlyphComponent)
      (glyph_order : list string) (vtt_version : Z) :
  Forall (fun comp => In (glyphName comp) glyph_order) glyph ->
  exists ls, instructions glyph glyph_order vtt_version = Return ls.
Proof.
  induction 1 as [|comp glyph Hc _ (ls & IH)]; [eexists; reflexivity|].
  cbn [instructions]. unfold component_instructions.
  destruct (list_index_found _ _ Hc) as (i & -> & _). cbn [bind]. rewrite IH.
  cbn [bind]. eexists. reflexivity.
Qed.

Lemma instructions_missing (glyph : list GlyphComponent)
      (glyph_order : list string) (vtt_version : Z) :
  Exists (fun comp => ~ In (glyphName comp) glyph_order) glyph ->
  instructions glyph glyph_order vtt_version = Raise ValueError.
Proof.
  induction glyph as [|comp glyph IH]; intros H; [inversion H|].
  cbn [instructions]. unfold component_instructions.
  destruct (in_dec string_dec (glyphName comp) glyph_order) as [Hin|Hin].
  - destruct (list_index_found _ _ Hin) as (i & -> & _). cbn [bind].
    rewrite IH; [reflexivity|].
    inversion H as [? ? Hc|? ? Hr]; subst; [contradiction | exact Hr].
  - rewrite (list_index_missing _ _ Hin). reflexivity.
Qed.

(** X12.  The glyph order is the only thing that can make
    [write_composite_info] fail: it returns when every component names a
    glyph of the glyph order, and raises [ValueError] when one does not.
    [check_composite_info] reaching such a component, the ones before it
    agreeing with their declarations, raises the same [ValueError] and not
    [VTTLibInvalidComposite]. *)
Theorem missing_glyph_raises_value_error
        (glyph : list GlyphComponent) (glyph_order : list string)
        (data : text) (vtt_version : Z) :
  (Forall (fun comp => In (glyphName comp) glyph_order) glyph ->
   exists head declarations tail,
     write_composite_info glyph glyph_order data vtt_version
     = Return (head, declarations, tail))
  /\ (Exists (fun comp => ~ In (glyphName comp) glyph_order) glyph ->
      write_composite_info glyph glyph_order data vtt_version = Raise ValueError)
  /\ forall name before comp after vbefore v vafter check_flags,
       glyph = before ++ comp :: after ->
       List.length vafter = List.length after ->
       Forall2 (fun c d => agrees glyph_order c d
                           /\ (check_flags = true -> flags_agree c d))
               before vbefore ->
       ~ In (glyphName comp) glyph_order ->
       check_composite_info name glyph (vbefore ++ v :: vafter) glyph_order
         check_flags
       = Raise ValueError.
Proof.
  split; [|split].
  - intros H. unfold write_composite_info.
    destruct (collect_head data (finditer data) [] O) as [head last].
    destruct (instructions_defined glyph glyph_order vtt_version H) as (ls & ->).
    cbn [bind]. eexists _, _, _. reflexivity.
  - intros H. unfold write_composite_info.
    destruct (collect_head data (finditer data) [] O) as [head last].
    rewrite (instructions_missing glyph glyph_order vtt_version H). reflexivity.
  - intros name before comp after vbefore v vafter check_flags -> Hlen Hag Hmiss.
    unfold check_composite_info.
    pose proof (Forall2_length Hag) as Hlb.
    replace (List.length (vbefore ++ v :: vafter) =? List.length (before ++ comp :: after))%nat
      with true
      by (symmetry; apply Nat.eqb_eq; rewrite !length_app; cbn; lia).
    cbn [negb]. generalize O as i.
    induction Hag as [|c d before vbefore Hcd _ IH]; intros i.
    + cbn [List.app check_components]. unfold check_component.
      rewrite (list_index_missing _ _ Hmiss). reflexivity.
    + cbn [List.app check_components].
      rewrite (proj2 (check_component_agrees i name c d glyph_order check_flags) Hcd).
      cbn [bind]. apply IH. cbn in Hlb. lia.
Qed.

Lemma missing_glyph_raises_value_error_witness :
  write_composite_info [mkComp "C" 0 (ByOffset 1 2)] ["A"; "B"]%string
    (chars "SVTCA[X]") 6
  = Raise ValueError.
Proof.
  apply (missing_glyph_raises_value_error [mkComp "C" 0 (ByOffset 1 2)]
           ["A"; "B"]%string (chars "SVTCA[X]") 6).
  constructor. cbn. intros [H|[H|[]]]; discriminate.
Defined.

(** ** Control values *)

Example remove_comments_examples :
  remove_comments (chars "a /* x */ b /*/ c */ d /* e") = chars "a  b  d /* e"
  /\ remove_comments (chars "//**/* a */") = chars "/* a */"
  /\ remove_comments (chars "/*/") = chars "/*/".
Proof. vm_compute. repeat split; reflexivity. Qed.

(** White space before an index and after the colon may run over line
    breaks; an entry starts at the start of a line only. *)
Example cvt_entries_example :
  cvt_entries (chars ("  12: -5 x" ++ nl ++ nl ++ "  3 : 4" ++ nl ++ "3:" ++ nl
                      ++ "  7" ++ nl ++ "a 1: 2" ++ nl ++ "1: 2 2: 3"))
  = [(12, -5); (3, 7); (1, 2)].
Proof. vm_compute. reflexivity. Qed.

Example set_cvt_table_example :
  set_cvt_table None
    (chars ("/* cvt */" ++ nl ++ "3: 10 /* a 4: 2 */" ++ nl ++ "1: -7" ++ nl
            ++ "3: 12"))
  = inr (Some [0; -7; 0; 12]).
Proof. vm_compute. reflexivity. Qed.

Lemma store_defined (values : list Z) (i : nat) (v : Z) :
  (i < List.length values)%nat ->
  exists values',
    store values i v = Some values'
    /\ List.length values' = List.length values
    /\ forall k, nth k values' 0 = if (k =? i)%nat then v else nth k values 0.
Proof.
  revert i. induction values as [|x values IH]; intros i Hi; cbn in Hi; [lia|].
  destruct i as [|i]; cbn [store].
  - eexists. split; [reflexivity|]. split; [reflexivity|].
    intros [|k]; reflexivity.
  - destruct (IH i) as (values' & -> & Hlen & Hnth); [lia|].
    eexists. split; [reflexivity|]. cbn [List.length]. split; [lia|].
    intros [|k]; [reflexivity|]. cbn [nth]. rewrite Hnth. reflexivity.
Qed.

Lemma nth_pad (values : list Z) (index : Z) (k : nat) :
  nth k (pad values index) 0 = nth k values 0.
Proof.
  unfold pad. destruct (Nat.lt_ge_cases k (List.length values)) as [H|H].
  - apply app_nth1, H.
  - rewrite app_nth2 by exact H. rewrite (nth_overflow values) by exact H.
    apply nth_repeat.
Qed.

Lemma length_pad (values : list Z) (index : Z) :
  Z.of_nat (List.length (pad values index))
  = Z.max (Z.of_nat (List.length values)) (index + 1).
Proof. unfold pad. rewrite length_app, repeat_length. lia. Qed.

Lemma assign_cv_short (values : list Z) (index value : Z) :
  0 <= index -> is_short value = true ->
  exists values',
    assign_cv values (index, value) = inr values'
    /\ Z.of_nat (List.length values')
       = Z.max (Z.of_nat (List.length values)) (index + 1)
    /\ forall k, nth k values' 0
                 = if Z.of_nat k =? index then value else nth k values 0.
Proof.
  intros Hi Hv. unfold assign_cv. rewrite Hv.
  destruct (store_defined (pad values index) (Z.to_nat index) value)
    as (values' & -> & Hlen & Hnth).
  { pose proof (length_pad values index). lia. }
  exists values'. split; [reflexivity|]. split.
  - rewrite Hlen. apply length_pad.
  - intros k. rewrite Hnth, nth_pad.
    destruct (Nat.eqb_spec k (Z.to_nat index)), (Z.eqb_spec (Z.of_nat k) index);
      try reflexivity; lia.
Qed.

Lemma last_value_snoc (i : Z) (entries : list (Z * Z)) (e : Z * Z) :
  last_value i (entries ++ [e])
  = if fst e =? i then snd e else last_value i entries.
Proof.
  unfold last_value. rewrite rev_app_distr. cbn [List.rev List.app find].
  destruct (fst e =? i); reflexivity.
Qed.

Lemma table_length_snoc (entries : list (Z * Z)) (e : Z * Z) :
  table_length (entries ++ [e]) = Z.max (table_length entries) (fst e + 1).
Proof. unfold table_length. rewrite fold_left_app. reflexivity. Qed.

Lemma cvt_fill_short (entries done : list (Z * Z)) (values : list Z) :
  Forall (fun e => 0 <= fst e) entries ->
  Forall (fun e => is_short (snd e) = true) entries ->
  Z.of_nat (List.length values) = table_length done ->
  (forall k, nth k values 0 = last_value (Z.of_nat k) done) ->
  exists values',
    cvt_fill values entries = inr values'
    /\ Z.of_nat (List.length values') = table_length (done ++ entries)
    /\ forall k, nth k values' 0 = last_value (Z.of_nat k) (done ++ entries).
Proof.
  intros Hi. revert done values.
  induction Hi as [|[index value] entries Hi0 _ IH]; intros done values Hs Hlen Hnth.
  - exists values. rewrite app_nil_r. auto.
  - apply Forall_cons_iff in Hs. destruct Hs as (Hs0 & Hs). cbn [fst snd] in *.
    destruct (assign_cv_short values index value Hi0 Hs0) as (v1 & H1 & Hl1 & Hn1).
    cbn [cvt_fill]. rewrite H1.
    destruct (IH (done ++ [(index, value)]) v1 Hs) as (v2 & H2 & Hl2 & Hn2).
    + rewrite table_length_snoc, Hl1, Hlen. reflexivity.
    + intros k. rewrite last_value_snoc, Hn1, Hnth. cbn [fst snd].
      rewrite Z.eqb_sym. reflexivity.
    + rewrite <- app_assoc in Hl2, Hn2. exists v2. auto.
Qed.

Lemma cvt_fill_overflow (entries : list (Z * Z)) (values : list Z) :
  Forall (fun e => 0 <= fst e) entries ->
  Exists (fun e => is_short (snd e) = false) entries ->
  cvt_fill values entries = inl OverflowError.
Proof.
  intros Hi. revert values.
  induction Hi as [|[index value] entries Hi0 _ IH]; intros values Hex;
    [inversion Hex|].
  cbn [cvt_fill]. cbn [fst] in Hi0.
  destruct (is_short value) eqn:Hv.
  - destruct (assign_cv_short values index value Hi0 Hv) as (v1 & -> & _).
    apply IH. inversion Hex as [? ? H|? ? H]; subst; [|exact H].
    cbn in H. congruence.
  - unfold assign_cv. rewrite Hv. reflexivity.
Qed.

Lemma take_digits_spec (s : text) :
  Forall (fun c => is_digit c = true) (fst (take_digits s))
  /\ s = fst (take_digits s) ++ snd (take_digits s).
Proof.
  induction s as [|c s (IH1 & IH2)]; cbn [take_digits]; [split; [constructor | reflexivity]|].
  destruct (is_digit c) eqn:E; [|split; [constructor | reflexivity]].
  destruct (take_digits s) as [ds rest]. cbn [fst snd] in *. split.
  - constructor; assumption.
  - cbn. rewrite <- IH2. reflexivity.
Qed.

Lemma digit_uint (c : ascii) (d : uint) :
  is_digit c = true -> exists d', uint_of_char c (Some d) = Some d'.
Proof.
  destruct c as [[|] [|] [|] [|] [|] [|] [|] [|]]; cbn; intros H;
    try discriminate; eexists; reflexivity.
Qed.

Lemma digit_not_minus (c : ascii) : is_digit c = true -> Ascii.eqb c "-" = false.
Proof.
  destruct c as [[|] [|] [|] [|] [|] [|] [|] [|]]; cbn; intros H;
    try discriminate; reflexivity.
Qed.

Lemma digits_uint (ds : text) :
  Forall (fun c => is_digit c = true) ds ->
  exists d, NilEmpty.uint_of_string (string_of_list_ascii ds) = Some d.
Proof.
  induction 1 as [|c ds Hc _ (d & IH)]; cbn; [eexists; reflexivity|].
  rewrite IH. apply digit_uint, Hc.
Qed.

Lemma int_digits_nonneg (ds : text) :
  Forall (fun c => is_digit c = true) ds -> 0 <= int ds.
Proof.
  intros H. unfold int. destruct ds as [|c ds]; [cbn; lia|].
  destruct (digits_uint _ H) as (d & Hd).
  apply Forall_cons_iff in H. destruct H as (Hc & _).
  cbn [string_of_list_ascii NilZero.int_of_string].
  rewrite (digit_not_minus c Hc).
  change (NilZero.uint_of_string (String c (string_of_list_ascii ds)))
    with (NilEmpty.uint_of_string (string_of_list_ascii (c :: ds))).
  rewrite Hd. cbn [option_map Z.of_int]. unfold Z.of_uint. lia.
Qed.

Lemma cvt_entry_index (s : text) (index value rest : text) :
  cvt_entry s = Some (index, value, rest) ->
  Forall (fun c => is_digit c = true) index.
Proof.
  unfold cvt_entry.
  pose proof (take_digits_spec (skip_space s)) as (Hd & _).
  destruct (take_digits (skip_space s)) as [ds s1]. cbn [fst] in Hd.
  destruct ds as [|d ds]; [discriminate|].
  destruct s1 as [|c s2]; [discriminate|].
  destruct (Ascii.eqb c ":"); [|discriminate].
  destruct (match skip_space s2 with
            | [] => ([], skip_space s2)
            | c' :: r => if Ascii.eqb c' "-" then ([c'], r) else ([], skip_space s2)
            end) as [sign s4].
  destruct (take_digits s4) as [[|v vs] r]; [discriminate|].
  intros H. injection H as <- _ _. exact Hd.
Qed.

Lemma cvt_entries_from_nonneg (s : text) (bol : bool) (skip : nat) :
  Forall (fun e => 0 <= fst e) (cvt_entries_from bol skip s).
Proof.
  revert bol skip. induction s as [|c s IH]; intros bol skip; [constructor|].
  cbn [cvt_entries_from]. destruct skip as [|k]; [|apply IH].
  destruct (if bol then cvt_entry (c :: s) else None) as [[[index value] rest]|] eqn:E;
    [|apply IH].
  constructor; [|apply IH]. cbn [fst].
  destruct bol; [|discriminate].
  apply int_digits_nonneg, (cvt_entry_index _ _ _ _ E).
Qed.

Lemma table_length_nonempty (entries : list (Z * Z)) :
  Forall (fun e => 0 <= fst e) entries -> entries <> [] -> 0 < table_length entries.
Proof.
  intros Hi Hne. destruct entries as [|e entries] using rev_ind; [contradiction|].
  rewrite table_length_snoc. apply Forall_app in Hi. destruct Hi as (_ & Hi).
  apply Forall_cons_iff in Hi. lia.
Qed.

(** X13.  [set_cvt_table] leaves the font alone when the text has no
    [index: value] entry, and raises [OverflowError] without touching it
    when a value is not a signed 16-bit integer.  Otherwise the table it
    stores is as long as the largest index requires, and holds at each
    index the value given last for it, zero where none was given. *)
Theorem set_cvt_table_effect (cvt : option (list Z)) (data : text) :
  let entries := cvt_entries (remove_comments data) in
  (entries = [] -> set_cvt_table cvt data = inr cvt)
  /\ (Exists (fun e => is_short (snd e) = false) entries ->
      set_cvt_table cvt data = inl OverflowError)
  /\ (entries <> [] ->
      Forall (fun e => is_short (snd e) = true) entries ->
      exists values,
        set_cvt_table cvt data = inr (Some values)
        /\ Z.of_nat (List.length values) = table_length entries
        /\ forall k, nth k values 0 = last_value (Z.of_nat k) entries).
Proof.
  intros entries. unfold set_cvt_table. fold entries.
  pose proof (cvt_entries_from_nonneg (remove_comments data) true O) as Hi.
  fold (cvt_entries (remove_comments data)) in Hi. fold entries in Hi.
  split; [|split].
  - intros ->. reflexivity.
  - intros Hex. rewrite (cvt_fill_overflow entries [] Hi Hex). reflexivity.
  - intros Hne Hs.
    destruct (cvt_fill_short entries [] [] Hi Hs) as (values & -> & Hlen & Hnth).
    + reflexivity.
    + intros [|k]; reflexivity.
    + cbn [List.app] in Hlen, Hnth. exists values.
      pose proof (table_length_nonempty entries Hi Hne) as Hpos.
      destruct values as [|v values]; [cbn in Hlen; lia|].
      split; [reflexivity|]. split; assumption.
Qed.

Lemma set_cvt_table_effect_witness :
  exists values,
    set_cvt_table (Some [7; 8]) (chars ("3: -2" ++ nl ++ "0: 5" ++ nl ++ "3: 9"))
    = inr (Some values)
    /\ Z.of_nat (List.length values) = 4
    /\ (forall k, nth k values 0
                  = last_value (Z.of_nat k) [(3, -2); (0, 5); (3, 9)])
    /\ values = [5; 0; 0; 9].
Proof.
  pose proof (set_cvt_table_effect (Some [7; 8])
                (chars ("3: -2" ++ nl ++ "0: 5" ++ nl ++ "3: 9"))) as H.
  cbv zeta in H. destruct H as (_ & _ & H).
  destruct H as (values & H1 & H2 & H3).
  - discriminate.
  - repeat constructor.
  - exists values. split; [exact H1|]. split; [exact H2|]. split; [exact H3|].
    revert H1. vm_compute. intros H1. injection H1 as <-. reflexivity.
Defined.

(** ** Control values as they are written *)

Lemma comment_end_note (note rest : text) :
  lacks_close note = true ->
  comment_end (note ++ "*"%char :: "/"%char :: rest)
  = Some (List.length note + 2)%nat.
Proof.
  induction note as [|c note IH]; intros H; [reflexivity|].
  cbn [lacks_close] in H. apply andb_true_iff in H. destruct H as (Hc & H).
  cbn [List.app comment_end List.length]. rewrite (IH H).
  destruct note as [|c' note].
  - cbn [List.app]. change (Ascii.eqb "*" "/") with false.
    rewrite andb_false_r. reflexivity.
  - cbn [List.app]. apply negb_true_iff in Hc. rewrite Hc. reflexivity.
Qed.

Lemma remove_comments_skip (x rest : text) :
  remove_comments_from (List.length x) (x ++ rest) = remove_comments_from O rest.
Proof. induction x as [|c x IH]; [reflexivity | exact IH]. Qed.

Lemma remove_comments_plain (pre rest : text) :
  ~ In "/"%char pre ->
  remove_comments_from O (pre ++ rest) = pre ++ remove_comments_from O rest.
Proof.
  induction pre as [|c pre IH]; intros H; [reflexivity|].
  cbn [List.app remove_comments_from].
  assert (Hc : Ascii.eqb c "/" = false).
  { apply Ascii.eqb_neq. intros ->. apply H. left. reflexivity. }
  rewrite Hc. cbn [andb].
  rewrite <- IH by (intros Hin; apply H; right; exact Hin).
  destruct (pre ++ rest); reflexivity.
Qed.

Lemma remove_comments_note (note rest : text) :
  lacks_close note = true ->
  remove_comments_from O (chars "/*" ++ note ++ chars "*/" ++ rest)
  = remove_comments_from O rest.
Proof.
  intros H. cbn [chars list_ascii_of_string List.app remove_comments_from].
  cbn [Ascii.eqb Bool.eqb andb].
  rewrite (comment_end_note note rest H).
  cbn [remove_comments_from].
  replace (note ++ "*"%char :: "/"%char :: rest)
    with ((note ++ chars "*/") ++ rest)
    by (rewrite <- app_assoc; reflexivity).
  replace (List.length note + 2)%nat with (List.length (note ++ chars "*/"))
    by (rewrite length_app; reflexivity).
  apply remove_comments_skip.
Qed.

Lemma digit_not_slash (c : ascii) : is_digit c = true -> c <> "/"%char.
Proof. intros H ->. discriminate. Qed.

Lemma str_no_slash (z : Z) : ~ In "/"%char (chars (Py.str z)).
Proof.
  destruct (str_shape z) as (sign & ds & -> & Hsign & _ & Hd).
  rewrite in_app_iff. intros [H|H].
  - destruct Hsign as [->| ->]; cbn in H; [contradiction|].
    destruct H as [H|[]]; discriminate.
  - rewrite Forall_forall in Hd. apply (digit_not_slash _ (Hd _ H)). reflexivity.
Qed.

Lemma remove_comments_line (l : Z * Z * option text) (rest : text) :
  match snd l with Some n => lacks_close n = true | None => True end ->
  remove_comments_from O (cvt_line l ++ rest)
  = cvt_line_plain l ++ remove_comments_from O rest.
Proof.
  destruct l as [[i v] note]. unfold cvt_line, cvt_line_plain. cbn [fst snd].
  intros Hn.
  assert (Hpre : ~ In "/"%char (chars (Py.str i ++ ": " ++ Py.str v))).
  { rewrite !chars_app, !in_app_iff. intros [H|[H|H]].
    - exact (str_no_slash i H).
    - cbn in H. destruct H as [H|[H|[]]]; discriminate.
    - exact (str_no_slash v H). }
  rewrite <- !app_assoc, (remove_comments_plain _ _ Hpre). f_equal.
  destruct note as [n|]; cbn [cvt_note].
  - change (chars " /*") with (chars " " ++ chars "/*"). rewrite <- !app_assoc.
    rewrite (remove_comments_plain (chars " ")); [|cbn; intros [H|[]]; discriminate].
    f_equal. rewrite (remove_comments_note n _ Hn).
    apply (remove_comments_plain [LF]). cbn. intros [H|[]]. discriminate.
  - cbn [List.app]. apply (remove_comments_plain [LF]). cbn. intros [H|[]].
    discriminate.
Qed.

Lemma remove_comments_text (lines : list (Z * Z * option text)) :
  Forall (fun l => match snd l with Some n => lacks_close n = true | None => True end)
         lines ->
  remove_comments (cvt_text lines) = List.concat (map cvt_line_plain lines).
Proof.
  unfold remove_comments, cvt_text.
  induction 1 as [|l lines Hl _ IH]; [reflexivity|].
  cbn [map List.concat]. rewrite (remove_comments_line l _ Hl), IH. reflexivity.
Qed.

Lemma digit_not_space (c : ascii) : is_digit c = true -> isspace c = false.
Proof.
  destruct c as [[|] [|] [|] [|] [|] [|] [|] [|]]; cbn; intros H;
    try discriminate; reflexivity.
Qed.

Lemma digit_not_lf (c : ascii) : is_digit c = true -> Ascii.eqb c LF = false.
Proof.
  destruct c as [[|] [|] [|] [|] [|] [|] [|] [|]]; cbn; intros H;
    try discriminate; reflexivity.
Qed.

Lemma take_digits_app (ds tail : text) :
  Forall (fun c => is_digit c = true) ds -> no_digit_ahead tail ->
  take_digits (ds ++ tail) = (ds, tail).
Proof.
  intros Hd Ht. induction Hd as [|c ds Hc _ IH]; cbn [List.app take_digits].
  - destruct tail as [|c tail]; [reflexivity|]. cbn in Ht. cbn [take_digits].
    rewrite Ht. reflexivity.
  - rewrite Hc, IH. reflexivity.
Qed.

Lemma str_nonneg_digits (z : Z) :
  0 <= z ->
  chars (Py.str z) <> [] /\ Forall (fun c => is_digit c = true) (chars (Py.str z)).
Proof.
  intros Hz. unfold Py.str. destruct z as [|p|p]; [| |lia];
    cbn [Z.to_int NilZero.string_of_int]; apply nilzero_uint_digits.
Qed.

Lemma int_str (z : Z) : int (chars (Py.str z)) = z.
Proof.
  unfold int, chars, Py.str. rewrite string_of_list_ascii_of_string.
  rewrite NilZero.isi.
  - apply DecimalZ.of_to.
  - destruct z as [|p|p]; cbn; try discriminate.
    intros H. injection H as H. exact (DecimalPos.Unsigned.to_uint_nonnil p H).
  - destruct z as [|p|p]; cbn; try discriminate.
    intros H. injection H as H. exact (DecimalPos.Unsigned.to_uint_nonnil p H).
Qed.

Lemma cvt_entry_line (i v : Z) (gap rest : text) :
  0 <= i -> gap = [] \/ gap = chars " " ->
  cvt_entry (chars (Py.str i ++ ": " ++ Py.str v) ++ gap ++ LF :: rest)
  = Some (chars (Py.str i), chars (Py.str v), gap ++ LF :: rest).
Proof.
  intros Hi Hgap. rewrite !chars_app, <- !app_assoc.
  destruct (str_nonneg_digits i Hi) as (Hne & Hd).
  destruct (str_shape v) as (sign & dv & Ev & Hsign & Hdv_ne & Hdv).
  rewrite Ev. set (tail := gap ++ LF :: rest).
  assert (Htail : no_digit_ahead tail).
  { unfold tail. destruct Hgap as [->| ->]; reflexivity. }
  unfold cvt_entry.
  assert (Hskip : forall x, skip_space (chars (Py.str i) ++ x) = chars (Py.str i) ++ x).
  { intros x. destruct (chars (Py.str i)) as [|d ds]; [contradiction|].
    apply Forall_cons_iff in Hd. destruct Hd as (Hd0 & _).
    cbn [List.app skip_space]. rewrite (digit_not_space d Hd0). reflexivity. }
  rewrite Hskip, (take_digits_app _ _ Hd) by reflexivity.
  destruct (chars (Py.str i)) as [|d ds] eqn:Ei; [contradiction|].
  cbn [chars list_ascii_of_string List.app Ascii.eqb Bool.eqb skip_space isspace].
  change (isspace " ") with true. cbv iota.
  destruct dv as [|d0 dv]; [contradiction|].
  pose proof Hdv as Hdv'. apply Forall_cons_iff in Hdv'. destruct Hdv' as (Hd0 & _).
  destruct Hsign as [->| ->]; cbn [List.app skip_space].
  - rewrite (digit_not_space d0 Hd0), (digit_not_minus d0 Hd0).
    change (d0 :: dv ++ tail) with ((d0 :: dv) ++ tail).
    rewrite (take_digits_app _ _ Hdv Htail). reflexivity.
  - change (isspace "-") with false. cbv iota.
    cbn [Ascii.eqb Bool.eqb].
    change (d0 :: dv ++ tail) with ((d0 :: dv) ++ tail).
    rewrite (take_digits_app _ _ Hdv Htail). reflexivity.
Qed.

Lemma cvt_entries_skip (x rest : text) :
  no_lf x ->
  cvt_entries_from false (List.length x) (x ++ rest)
  = cvt_entries_from false O rest.
Proof.
  induction 1 as [|c x Hc _ IH]; [reflexivity|].
  cbn [List.length List.app cvt_entries_from].
  apply Ascii.eqb_neq in Hc. rewrite Hc. exact IH.
Qed.

Lemma str_no_lf (z : Z) : no_lf (chars (Py.str z)).
Proof.
  destruct (str_shape z) as (sign & ds & -> & Hsign & _ & Hd).
  apply Forall_app. split.
  - destruct Hsign as [->| ->]; repeat constructor. discriminate.
  - eapply Forall_impl; [|exact Hd]. intros c Hc ->. discriminate.
Qed.

Lemma cvt_entries_gap (i v : Z) (gap rest : text) :
  0 <= i -> gap = [] \/ gap = chars " " ->
  cvt_entries_from true O
    (chars (Py.str i ++ ": " ++ Py.str v) ++ gap ++ LF :: rest)
  = (i, v) :: cvt_entries_from true O rest.
Proof.
  intros Hi Hgap.
  pose proof (cvt_entry_line i v gap rest Hi Hgap) as He.
  assert (Hm : no_lf (chars (Py.str i ++ ": " ++ Py.str v))).
  { rewrite !chars_app. apply Forall_app. split; [apply str_no_lf|].
    apply Forall_app. split; [|apply str_no_lf].
    repeat constructor; discriminate. }
  destruct (chars (Py.str i ++ ": " ++ Py.str v)) as [|c m'] eqn:Em.
  { exfalso. apply (f_equal (@List.length ascii)) in Em.
    rewrite !chars_app, !length_app in Em. cbn in Em. lia. }
  cbn [List.app cvt_entries_from] in *. rewrite He.
  rewrite !int_str.
  apply Forall_cons_iff in Hm. destruct Hm as (Hc & Hm').
  apply Ascii.eqb_neq in Hc. rewrite Hc. f_equal.
  replace (List.length (c :: m' ++ gap ++ LF :: rest)
           - List.length (gap ++ LF :: rest) - 1)%nat
    with (List.length m')
    by (cbn [List.length]; rewrite !length_app; cbn [List.length]; lia).
  rewrite (cvt_entries_skip m' _ Hm').
  destruct Hgap as [->| ->]; reflexivity.
Qed.

Lemma cvt_entries_line (l : Z * Z * option text) (rest : text) :
  0 <= fst (fst l) ->
  cvt_entries_from true O (cvt_line_plain l ++ rest)
  = fst l :: cvt_entries_from true O rest.
Proof.
  destruct l as [[i v] note]. cbn [fst snd]. intros Hi.
  unfold cvt_line_plain. cbn [fst snd]. rewrite <- !app_assoc.
  destruct note as [n|]; apply (cvt_entries_gap i v _ rest Hi); auto.
Qed.

Lemma cvt_entries_text (lines : list (Z * Z * option text)) :
  Forall (fun l => 0 <= fst (fst l)) lines ->
  cvt_entries (List.concat (map cvt_line_plain lines)) = map fst lines.
Proof.
  unfold cvt_entries.
  induction 1 as [|l lines Hl _ IH]; [reflexivity|].
  cbn [map List.concat]. rewrite (cvt_entries_line l _ Hl), IH. reflexivity.
Qed.

Lemma cvt_text_values (cvt : option (list Z)) (lines : list (Z * Z * option text)) :
  lines <> [] ->
  Forall (fun l => 0 <= fst (fst l)) lines ->
  Forall (fun l => is_short (snd (fst l)) = true) lines ->
  Forall (fun l => match snd l with Some n => lacks_close n = true | None => True end)
         lines ->
  exists values,
    set_cvt_table cvt (cvt_text lines) = inr (Some values)
    /\ Z.of_nat (List.length values) = table_length (map fst lines)
    /\ forall k, nth k values 0 = last_value (Z.of_nat k) (map fst lines).
Proof.
  intros Hne Hi Hs Hn. unfold set_cvt_table.
  rewrite (remove_comments_text lines Hn), (cvt_entries_text lines Hi).
  assert (Hi' : Forall (fun e => 0 <= fst e) (map fst lines))
    by (apply Forall_map; exact Hi).
  assert (Hs' : Forall (fun e => is_short (snd e) = true) (map fst lines))
    by (apply Forall_map; exact Hs).
  destruct (cvt_fill_short (map fst lines) [] [] Hi' Hs')
    as (values & -> & Hlen & Hnth).
  - reflexivity.
  - intros [|k]; reflexivity.
  - cbn [List.app] in Hlen, Hnth. exists values.
    assert (Hpos : 0 < table_length (map fst lines)).
    { apply table_length_nonempty; [exact Hi'|].
      destruct lines; [contradiction | discriminate]. }
    destruct values as [|v values]; [cbn in Hlen; lia|].
    split; [reflexivity|]. split; assumption.
Qed.

(** X14.  Control values written one to a line as [index: value], each
    line with a comment after it or not, are read by [set_cvt_table] as
    they stand: the table stored is as long as the largest index requires
    and holds at each index the value of the last line that gives it, zero
    where no line does.  The comments are not read, whatever they hold up
    to their closing ["*/"]: slashes, line feeds, or text that looks like
    an entry. *)
Theorem cvt_text_is_read_back
        (cvt : option (list Z)) (lines : list (Z * Z * option text)) :
  lines <> [] ->
  Forall (fun l => 0 <= fst (fst l)) lines ->
  Forall (fun l => is_short (snd (fst l)) = true) lines ->
  Forall (fun l => match snd l with Some n => lacks_close n = true | None => True end)
         lines ->
  exists values,
    set_cvt_table cvt (cvt_text lines) = inr (Some values)
    /\ Z.of_nat (List.length values) = table_length (map fst lines)
    /\ forall k, nth k values 0 = last_value (Z.of_nat k) (map fst lines).
Proof. apply cvt_text_values. Qed.

Lemma cvt_text_is_read_back_witness :
  exists values,
    set_cvt_table None
      (cvt_text [(2, 70, Some (chars (" stem 1/2 *" ++ nl ++ "1: 9 /* ")));
                 (0, -3, None); (2, 68, None)])
    = inr (Some values)
    /\ values = [-3; 0; 68].
Proof.
  destruct (cvt_text_is_read_back None
              [(2, 70, Some (chars (" stem 1/2 *" ++ nl ++ "1: 9 /* ")));
               (0, -3, None); (2, 68, None)])
    as (values & H & _).
  - discriminate.
  - repeat constructor; cbn; lia.
  - repeat constructor.
  - repeat constructor.
  - exists values. split; [exact H|].
    revert H. vm_compute. intros H. injection H as <-. reflexivity.
Defined.

Lemma numbered_index (values : list Z) (start : Z) :
  0 <= start -> Forall (fun l => 0 <= fst (fst l)) (numbered start values).
Proof.
  revert start. induction values as [|v values IH]; intros start Hs;
    cbn [numbered]; constructor; [exact Hs | apply IH; lia].
Qed.

Lemma numbered_table_length (values : list Z) (start n : Z) :
  0 <= start -> n <= start ->
  fold_left (fun n e => Z.max n (fst e + 1)) (map fst (numbered start values)) n
  = if null values then n else start + Z.of_nat (List.length values).
Proof.
  revert start n. induction values as [|v values IH]; intros start n Hs Hn;
    [reflexivity|].
  cbn [numbered map fold_left fst null List.length].
  rewrite IH by lia. destruct values; cbn [null List.length]; lia.
Qed.

Lemma find_numbered_none (values : list Z) (start i : Z) :
  i < start -> forall l, In l (map fst (numbered start values)) -> fst l <> i.
Proof.
  revert start. induction values as [|v values IH]; intros start Hi l;
    cbn [numbered map]; [intros []|].
  intros [<-|Hin]; [cbn; lia|]. apply (IH (start + 1)); [lia | exact Hin].
Qed.

Lemma find_app_first {A : Type} (f : A -> bool) (a b : list A) :
  find f (a ++ b)
  = match find f a with Some x => Some x | None => find f b end.
Proof.
  induction a as [|x a IH]; [reflexivity|]. cbn [List.app find].
  destruct (f x); [reflexivity | exact IH].
Qed.

Lemma last_value_numbered (values : list Z) (start : Z) (k : nat) :
  last_value (start + Z.of_nat k) (map fst (numbered start values))
  = nth k values 0.
Proof.
  revert start k. induction values as [|v values IH]; intros start k.
  - destruct k; reflexivity.
  - cbn [numbered map fst].
    change ((start, v) :: map fst (numbered (start + 1) values))
      with ([(start, v)] ++ map fst (numbered (start + 1) values)).
    unfold last_value. rewrite rev_app_distr. cbn [List.rev List.app].
    rewrite find_app_first.
    destruct k as [|k].
    + replace (start + Z.of_nat 0) with start by lia.
      destruct (find (fun e => fst e =? start)
                  (List.rev (map fst (numbered (start + 1) values)))) as [e|] eqn:E.
      * apply find_some in E. destruct E as (Hin & He).
        apply in_rev in Hin. apply Z.eqb_eq in He.
        exfalso. apply (find_numbered_none values (start + 1) start) with (l := e);
          [lia | exact Hin | exact He].
      * cbn [find fst snd]. rewrite Z.eqb_refl. reflexivity.
    + replace (start + Z.of_nat (S k)) with ((start + 1) + Z.of_nat k) by lia.
      specialize (IH (start + 1) k). unfold last_value in IH.
      destruct (find (fun e => fst e =? start + 1 + Z.of_nat k)
                  (List.rev (map fst (numbered (start + 1) values)))) as [e|] eqn:E.
      * exact IH.
      * cbn [find fst snd nth].
        destruct (Z.eqb_spec start (start + 1 + Z.of_nat k)); [lia | exact IH].
Qed.

(** X15.  A table of signed 16-bit values written out in full, index by
    index from zero, is stored by [set_cvt_table] exactly as it was. *)
Theorem cvt_table_round_trip (cvt : option (list Z)) (values : list Z) :
  values <> [] ->
  Forall (fun v => is_short v = true) values ->
  set_cvt_table cvt (cvt_text (numbered 0 values)) = inr (Some values).
Proof.
  intros Hne Hs.
  destruct (cvt_text_values cvt (numbered 0 values)) as (vs & -> & Hlen & Hnth).
  - destruct values; [contradiction | discriminate].
  - apply numbered_index. lia.
  - clear Hne. generalize 0 as start.
    induction Hs as [|v values Hv _ IH]; intros start; cbn [numbered];
      constructor; [exact Hv | apply IH].
  - generalize 0 as start. clear. induction values as [|v values IH];
      intros start; cbn [numbered]; constructor; [exact I | apply IH].
  - do 2 f_equal. unfold table_length in Hlen.
    rewrite numbered_table_length in Hlen by lia.
    destruct values as [|v0 values']; [contradiction|]. cbn [null] in Hlen.
    apply (nth_ext _ _ 0 0); [lia|].
    intros k _. rewrite Hnth. apply (last_value_numbered (v0 :: values') 0 k).
Qed.

Lemma cvt_table_round_trip_witness :
  set_cvt_table (Some [1]) (cvt_text (numbered 0 [20; -32768; 0; 32767]))
  = inr (Some [20; -32768; 0; 32767]).
Proof.
  apply (cvt_table_round_trip (Some [1]) [20; -32768; 0; 32767]).
  - discriminate.
  - repeat constructor.
Defined.

(** ** Composite programs brought up to date *)

Lemma str_no_cr (z : Z) : ~ In CR (chars (Py.str z)).
Proof.
  destruct (str_shape z) as (sign & ds & -> & Hsign & _ & Hd).
  rewrite in_app_iff. intros [H|H].
  - destruct Hsign as [->| ->]; cbn in H; [contradiction|].
    destruct H as [H|[]]; discriminate.
  - rewrite Forall_forall in Hd. specialize (Hd _ H). discriminate.
Qed.

Lemma digit_not_bytes_space (c : ascii) : is_digit c = true -> bytes_isspace c = false.
Proof.
  destruct c as [[|] [|] [|] [|] [|] [|] [|] [|]]; cbn; intros H;
    try discriminate; reflexivity.
Qed.

Lemma str_last (z : Z) :
  exists body c, chars (Py.str z) = body ++ [c] /\ bytes_isspace c = false.
Proof.
  destruct (str_shape z) as (sign & ds & -> & _ & Hne & Hd).
  destruct (exists_last Hne) as (ds' & c & ->).
  exists (sign ++ ds'), c. split; [rewrite app_assoc; reflexivity|].
  apply Forall_app in Hd. destruct Hd as (_ & Hd).
  apply Forall_cons_iff in Hd. apply digit_not_bytes_space, Hd.
Qed.

Lemma tidy_numbers (prefix : string) (a b c : Z) :
  ~ In CR (chars prefix) ->
  tidy_line (chars (prefix ++ Py.str a ++ ", " ++ Py.str b ++ ", " ++ Py.str c ++ nl)).
Proof.
  intros Hp. split.
  - rewrite !chars_app, !in_app_iff.
    intros [H|[H|[H|[H|[H|[H|H]]]]]];
      try (exact (Hp H)); try (exact (str_no_cr _ H));
      cbn in H; repeat (destruct H as [H|H]; [discriminate|]); exact H.
  - destruct (str_last c) as (body & x & E & Hx).
    exists (chars (prefix ++ Py.str a ++ ", " ++ Py.str b ++ ", ") ++ body), x.
    split; [|exact Hx].
    rewrite !chars_app, E, <- !app_assoc. reflexivity.
Qed.

Lemma tidy_literal (s : string) (body : text) (c : ascii) :
  chars s = body ++ [c; LF] -> bytes_isspace c = false ->
  forallb (fun x => negb (Ascii.eqb x CR)) (chars s) = true ->
  tidy_line (chars s).
Proof.
  intros E Hc Hcr. split.
  - intros H. rewrite forallb_forall in Hcr. specialize (Hcr _ H). discriminate.
  - exists body, c. auto.
Qed.

Lemma component_instructions_tidy (comp : GlyphComponent)
      (glyph_order : list string) (vtt_version : Z) (ls : list string) :
  component_instructions comp glyph_order vtt_version = Return ls ->
  Forall (fun l => tidy_line (chars l)) ls.
Proof.
  unfold component_instructions. intros H.
  apply bind_return in H. destruct H as (index & _ & H). injection H as <-.
  apply Forall_app. split.
  { destruct (has_flag (comp_flags comp) USE_MY_METRICS); [|constructor].
    constructor; [|constructor].
    apply (tidy_literal _ (chars "USEMYMETRICS[") "]"); reflexivity. }
  apply Forall_app. split.
  { destruct (6 <=? vtt_version); [|constructor]. apply Forall_app. split.
    - destruct (has_flag (comp_flags comp) SCALED_COMPONENT_OFFSET); [|constructor].
      constructor; [|constructor].
      apply (tidy_literal _ (chars "SCALEDCOMPONENTOFFSET[") "]"); reflexivity.
    - destruct (has_flag (comp_flags comp) UNSCALED_COMPONENT_OFFSET); [|constructor].
      constructor; [|constructor].
      apply (tidy_literal _ (chars "UNSCALEDCOMPONENTOFFSET[") "]"); reflexivity. }
  constructor; [|constructor].
  destruct (placement comp) as [x y|firstPt secondPt].
  - destruct (has_flag (comp_flags comp) ROUND_XY_TO_GRID).
    + apply (tidy_numbers "OFFSET[R], " index x y).
      cbn. intros H. repeat (destruct H as [H|H]; [discriminate|]). exact H.
    + apply (tidy_numbers "OFFSET[r], " index x y).
      cbn. intros H. repeat (destruct H as [H|H]; [discriminate|]). exact H.
  - apply (tidy_numbers "ANCHOR[], " index firstPt secondPt).
    cbn. intros H. repeat (destruct H as [H|H]; [discriminate|]). exact H.
Qed.

Lemma instructions_tidy (glyph : list GlyphComponent)
      (glyph_order : list string) (vtt_version : Z) (ls : list string) :
  instructions glyph glyph_order vtt_version = Return ls ->
  Forall (fun l => tidy_line (chars l)) ls.
Proof.
  revert ls. induction glyph as [|comp glyph IH]; intros ls; cbn [instructions].
  - intros H. injection H as <-. constructor.
  - intros H. apply bind_return in H. destruct H as (l & Hl & H).
    apply bind_return in H. destruct H as (ls' & Hls & H). injection H as <-.
    apply Forall_app. split;
      [apply (component_instructions_tidy _ _ _ _ Hl) | apply (IH _ Hls)].
Qed.

Lemma rstrip_nonspace_end (x : bytes) (c : ascii) :
  bytes_isspace c = false -> rstrip (x ++ [c]) = x ++ [c].
Proof.
  intros Hc. induction x as [|a x IH]; cbn [List.app rstrip].
  - rewrite Hc. reflexivity.
  - rewrite IH. destruct (x ++ [c]) eqn:E; [destruct x; discriminate | reflexivity].
Qed.

Lemma tidy_text (lines : list text) :
  Forall tidy_line lines -> lines <> [] ->
  ~ In CR (List.concat lines)
  /\ rstrip (List.concat lines) ++ [LF] = List.concat lines.
Proof.
  intros Ht Hne. split.
  - intros H. apply in_concat in H. destruct H as (l & Hl & Hin).
    rewrite Forall_forall in Ht. destruct (Ht l Hl) as (Hcr & _). exact (Hcr Hin).
  - destruct (exists_last Hne) as (init & l & ->).
    apply Forall_app in Ht. destruct Ht as (_ & Ht).
    apply Forall_cons_iff in Ht. destruct Ht as ((_ & body & c & -> & Hc) & _).
    rewrite concat_app. cbn [List.concat]. rewrite app_nil_r.
    replace (List.concat init ++ body ++ [c; LF])
      with (((List.concat init ++ body) ++ [c]) ++ [LF])
      by (rewrite <- !app_assoc; reflexivity).
    rewrite rstrip_app_space by (repeat constructor).
    rewrite (rstrip_nonspace_end _ c Hc). reflexivity.
Qed.

Lemma tounicode_ascii (s : text) : ascii_only s -> tounicode s = Some (map byte s).
Proof.
  induction 1 as [|c s Hc _ IH]; [reflexivity|].
  cbn [tounicode map]. cbv zeta. rewrite Hc, IH. reflexivity.
Qed.

Lemma chr_byte (c : ascii) : chr (byte c) = c.
Proof. unfold chr, byte. rewrite Nat2Z.id. apply ascii_nat_embedding. Qed.

Lemma tobytes_ascii (s : text) : ascii_only s -> tobytes (map byte s) = s.
Proof.
  unfold tobytes. induction 1 as [|c s Hc _ IH]; [reflexivity|].
  cbn [map flat_map]. unfold encode_char at 1. rewrite Hc, chr_byte, IH.
  reflexivity.
Qed.

Lemma str_isspace_byte (c : ascii) : str_isspace (byte c) = isspace c.
Proof.
  destruct c as [[|] [|] [|] [|] [|] [|] [|] [|]]; vm_compute; reflexivity.
Qed.

Lemma str_lstrip_chars (s : string) :
  str_lstrip (map byte (chars s)) = map byte (chars (lstrip s)).
Proof.
  induction s as [|c s IH]; [reflexivity|].
  cbn [chars list_ascii_of_string map str_lstrip lstrip].
  rewrite str_isspace_byte. destruct (isspace c); [exact IH | reflexivity].
Qed.

Lemma chars_string_rev (s : string) : chars (Py.string_rev s) = List.rev (chars s).
Proof.
  induction s as [|c s IH]; [reflexivity|].
  rewrite string_rev_cons, chars_app, IH. reflexivity.
Qed.

Lemma str_strip_chars (s : string) :
  str_strip (map byte (chars s)) = map byte (chars (strip s)).
Proof.
  unfold str_strip, strip.
  rewrite str_lstrip_chars, <- map_rev, <- chars_string_rev, str_lstrip_chars.
  rewrite <- map_rev, <- chars_string_rev. reflexivity.
Qed.

Lemma lstrip_ascii (s : string) :
  ascii_only (chars s) -> ascii_only (chars (lstrip s)).
Proof.
  induction s as [|c s IH]; intros H; [exact H|].
  cbn [lstrip]. destruct (isspace c); [|exact H].
  apply IH. apply Forall_cons_iff in H. apply H.
Qed.

Lemma strip_ascii (s : string) :
  ascii_only (chars s) -> ascii_only (chars (strip s)).
Proof.
  intros H. unfold strip. rewrite chars_string_rev. apply Forall_rev.
  apply lstrip_ascii. rewrite chars_string_rev. apply Forall_rev.
  apply lstrip_ascii, H.
Qed.

(** On text below 128 the text read through its UTF-8 is the text. *)
Lemma transform_text_ascii (parseString : string -> Result (list Token))
      (s : string) (comps : list Component) :
  ascii_only (chars s) ->
  transform_text parseString (map byte (chars s)) comps
  = transform_assembly parseString s comps.
Proof.
  intros H. unfold transform_text, transform_assembly.
  rewrite str_strip_chars. pose proof (strip_ascii s H) as Hs.
  destruct (strip s) as [|c r] eqn:E; [reflexivity|].
  change (match map byte (chars (String c r)) with
          | [] => Return (EmptyString, comps)
          | _ :: _ =>
              tokens <- parseString
                          (string_of_list_ascii
                             (tobytes (map byte (chars (String c r))))) ;;
              transform_tokens tokens comps
          end
          = (tokens <- parseString (String c r) ;; transform_tokens tokens comps)).
  rewrite (tobytes_ascii _ Hs).
  unfold chars. rewrite string_of_list_ascii_of_string. reflexivity.
Qed.

Lemma digit_ascii (c : ascii) :
  is_digit c = true -> (byte c <? 128) = true.
Proof.
  destruct c as [[|] [|] [|] [|] [|] [|] [|] [|]]; cbn; intros H;
    try discriminate; reflexivity.
Qed.

Lemma str_ascii (z : Z) : ascii_only (chars (Py.str z)).
Proof.
  destruct (str_shape z) as (sign & ds & -> & Hsign & _ & Hd).
  apply Forall_app. split.
  - destruct Hsign as [->| ->]; repeat constructor.
  - eapply Forall_impl; [|exact Hd]. apply digit_ascii.
Qed.

Lemma ascii_numbers (prefix : string) (a b c : Z) :
  ascii_only (chars prefix) ->
  ascii_only (chars (prefix ++ Py.str a ++ ", " ++ Py.str b ++ ", " ++ Py.str c ++ nl)).
Proof.
  intros Hp. rewrite !chars_app. unfold ascii_only.
  repeat (apply Forall_app; split);
    try exact Hp; try apply str_ascii; repeat constructor.
Qed.

Lemma component_instructions_ascii (comp : GlyphComponent)
      (glyph_order : list string) (vtt_version : Z) (ls : list string) :
  component_instructions comp glyph_order vtt_version = Return ls ->
  Forall (fun l => ascii_only (chars l)) ls.
Proof.
  unfold component_instructions. intros H.
  apply bind_return in H. destruct H as (index & _ & H). injection H as <-.
  apply Forall_app. split.
  { destruct (has_flag (comp_flags comp) USE_MY_METRICS); repeat constructor. }
  apply Forall_app. split.
  { destruct (6 <=? vtt_version); [|constructor]. apply Forall_app. split.
    - destruct (has_flag (comp_flags comp) SCALED_COMPONENT_OFFSET);
        repeat constructor.
    - destruct (has_flag (comp_flags comp) UNSCALED_COMPONENT_OFFSET);
        repeat constructor. }
  constructor; [|constructor].
  destruct (placement comp) as [x y|firstPt secondPt].
  - destruct (has_flag (comp_flags comp) ROUND_XY_TO_GRID).
    + apply (ascii_numbers "OFFSET[R], " index x y). repeat constructor.
    + apply (ascii_numbers "OFFSET[r], " index x y). repeat constructor.
  - apply (ascii_numbers "ANCHOR[], " index firstPt secondPt). repeat constructor.
Qed.

Lemma instructions_ascii (glyph : list GlyphComponent)
      (glyph_order : list string) (vtt_version : Z) (ls : list string) :
  instructions glyph glyph_order vtt_version = Return ls ->
  ascii_only (List.concat (map chars ls)).
Proof.
  revert ls. induction glyph as [|comp glyph IH]; intros ls; cbn [instructions].
  - intros H. injection H as <-. constructor.
  - intros H. apply bind_return in H. destruct H as (l & Hl & H).
    apply bind_return in H. destruct H as (ls' & Hls & H). injection H as <-.
    rewrite map_app, concat_app. apply Forall_app. split; [|apply (IH _ Hls)].
    pose proof (component_instructions_ascii _ _ _ _ Hl) as Ha.
    clear - Ha. induction Ha as [|x l Hx _ IHl]; [constructor|].
    cbn [map List.concat]. apply Forall_app. split; assumption.
Qed.

Lemma write_own_declarations (glyph : list GlyphComponent)
      (glyph_order : list string) (vtt_version : Z) (ls : list string) :
  instructions glyph glyph_order vtt_version = Return ls ->
  write_composite_info glyph glyph_order (List.concat (map chars ls)) vtt_version
  = Return ([], List.concat (map chars ls), []).
Proof.
  intros Hls.
  destruct (instructions_lines _ _ _ _ Hls) as (Hlines & _).
  assert (Hl : Forall declaration_line (map chars ls))
    by (apply Forall_map; exact Hlines).
  unfold write_composite_info. rewrite Hls. cbn [bind]. rewrite !chars_join.
  pose proof (finditer_regenerated [] [] (map chars ls) eq_refl eq_refl eq_refl Hl)
    as Hf.
  cbn [List.app List.length] in Hf. rewrite app_nil_r in Hf. rewrite Hf.
  set (D := List.concat (map chars ls)).
  assert (Hlast : snd (collect_head D (spans_of O (map chars ls)) [] O)
                  = List.length D).
  { rewrite collect_head_last. apply (spans_of_last (map chars ls) O). }
  assert (Hhead : fst (collect_head D (spans_of O (map chars ls)) [] O) = []).
  { apply collect_head_adjacent, spans_of_adjacent. }
  destruct (collect_head D (spans_of O (map chars ls)) [] O) as [h' last'].
  cbn [fst snd] in Hlast, Hhead. subst h' last'.
  rewrite Nat.ltb_irrefl. reflexivity.
Qed.

Lemma stored_set_frame (font font' : Font) (name : string) (data : bytes) :
  stored (set_glyph_assembly font name data) = inr font' ->
  stored_program font' name false true = Some (stored_form data)
  /\ forall n t g, (n, t, g) <> (name, false, true) ->
       stored_program font' n t g = stored_program font n t g.
Proof.
  unfold stored, set_glyph_assembly. intros H.
  destruct (set_vtt_program font name data false true) as [[tag|tag n0]|f] eqn:E;
    try discriminate.
  injection H as ->. split.
  - assert (Ht : get_table font false <> None).
    { intros Hn. unfold set_vtt_program in E. rewrite Hn in E. discriminate. }
    destruct (set_then_stored font name data false true Ht) as (f1 & H1 & H2 & _).
    rewrite E in H1. injection H1 as <-. exact H2.
  - intros n t g Hne.
    apply (set_vtt_program_frame font font' name n data false true t g E Hne).
Qed.

Lemma update_program_frame (glyph_order : list string) (font font' : Font)
      (name : string) (glyph : Glyph) (data : text) (cs : list Component)
      (vtt_version : Z) :
  update_program glyph_order font name glyph data cs vtt_version = inr font' ->
  forall n t g, (n, t, g) <> (name, false, true) ->
    stored_program font' n t g = stored_program font n t g.
Proof.
  unfold update_program. intros H n t g Hne.
  destruct glyph as [|components].
  - destruct cs as [|c cs]; [injection H as <-; reflexivity|].
    apply (stored_set_frame _ _ _ _ H), Hne.
  - destruct (write_composite_info components glyph_order data vtt_version)
      as [[[head declarations] tail]|e]; [|discriminate].
    apply (stored_set_frame _ _ _ _ H), Hne.
Qed.

Lemma update_glyph_frame (parseString : string -> Result (list Token))
      (glyph_order : list string) (glyf : string -> option Glyph)
      (font font' : Font) (name : string) (vtt_version : Z) :
  update_glyph parseString glyph_order glyf font name vtt_version = inr font' ->
  (forall n t g, (n, t, g) <> (name, false, true) ->
     stored_program font' n t g = stored_program font n t g)
  /\ (glyf name = Some SimpleGlyph ->
      stored_program font name false true = None -> font' = font).
Proof.
  unfold update_glyph. intros H.
  destruct (glyf name) as [glyph|]; [|discriminate].
  destruct (get_glyph_assembly font name) as [[tag|tag n0]|data] eqn:Eg;
    [discriminate| |].
  - split; [apply (update_program_frame _ _ _ _ _ _ _ _ H)|].
    intros Hg _. injection Hg as ->. cbn in H. injection H as <-. reflexivity.
  - split.
    + destruct (tounicode data) as [text|]; [|discriminate].
      destruct (transform_text parseString text [])
        as [[out cs]|e]; [|destruct e; discriminate].
      apply (update_program_frame _ _ _ _ _ _ _ _ H).
    + intros _ Hnone. exfalso. revert Eg Hnone.
      unfold get_glyph_assembly, get_vtt_program, stored_program, get_table.
      destruct (TSI1 font) as [t1|]; [|discriminate].
      destruct (glyphPrograms t1 name); discriminate.
Qed.

(** A stored program is read as the text it encodes: a no-break space or
    an em space is white space of that text, so a program of nothing else
    is not parsed; bytes that are no UTF-8 are refused. *)
Example update_glyph_reads_text :
  let font := fun stored =>
    mkFont (Some (mkTSI (fun _ => Some stored) (fun _ => None))) None in
  let update := fun stored =>
    update_glyph (fun _ => Raise ParseException) ["a"]%string
      (fun _ => Some SimpleGlyph) (font stored) "a" 6 in
  update [chr 194; chr 160; CR] = inr (font [chr 194; chr 160; CR])
  /\ update [chr 226; chr 128; chr 131; CR]
     = inr (font [chr 226; chr 128; chr 131; CR])
  /\ update [chr 160; CR] = inl UpdateDecodeError
  /\ update (chars "IUP[X]" ++ [CR]) = inl UpdateParseError.
Proof. cbv zeta. repeat split; reflexivity. Qed.

(** X16.  [update_composites] writes glyph programs of [TSI1] only, and
    only for the glyphs it is given (all glyphs of the glyph order when
    given none): glyph talk, the extra programs and the programs of other
    glyphs are stored as before, whatever text the programs hold.  It
    creates no program for a glyph that is not composite. *)
Theorem update_composites_frame
        (parseString : string -> Result (list Token))
        (glyph_order : list string) (glyf : string -> option Glyph)
        (font font' : Font) (glyphs : option (list string)) (vtt_version : Z) :
  update_composites parseString glyph_order glyf font glyphs vtt_version
  = inr font' ->
  (forall n t g,
      t = true \/ g = false
      \/ ~ In n (match glyphs with Some names => names | None => glyph_order end) ->
      stored_program font' n t g = stored_program font n t g)
  /\ (forall n, glyf n = Some SimpleGlyph ->
                stored_program font n false true = None ->
                stored_program font' n false true = None).
Proof.
  unfold update_composites.
  generalize (match glyphs with Some names => names | None => glyph_order end).
  intros names. revert font.
  induction names as [|name names IH]; intros font H; cbn [update_glyphs] in H.
  - injection H as <-. split; [reflexivity | auto].
  - destruct (update_glyph parseString glyph_order glyf font name vtt_version)
      as [e|font1] eqn:E1; [discriminate|].
    destruct (update_glyph_frame _ _ _ _ _ _ _ E1) as (Hf & Hs).
    destruct (IH font1 H) as (IH1 & IH2). split.
    + intros n t g Hc. rewrite IH1.
      * apply Hf. intros Heq. injection Heq as -> -> ->.
        destruct Hc as [Hc|[Hc|Hc]]; try discriminate. apply Hc. left. reflexivity.
      * destruct Hc as [Hc|[Hc|Hc]]; auto. right. right.
        intros Hin. apply Hc. right. exact Hin.
    + intros n Hg Hn. apply (IH2 n Hg).
      destruct (string_dec n name) as [->|Hne].
      * rewrite (Hs Hg Hn). exact Hn.
      * rewrite Hf; [exact Hn | congruence].
Qed.

Lemma update_composites_frame_witness :
  exists font',
    update_composites Parser.parseString ["a"; "b"]%string
      (fun n => if (n =? "b")%string
                then Some (CompositeGlyph [mkComp "a" 0 (ByOffset 1 2)])
                else Some SimpleGlyph)
      (mkFont (Some (mkTSI (fun _ => None) (fun _ => None))) None) None 6
    = inr font'
    /\ stored_program font' "a" false true = None
    /\ stored_program font' "b" false true
       = Some (chars ("OFFSET[r], 0, 1, 2" ++ String CR "")).
Proof.
  destruct (update_composites Parser.parseString ["a"; "b"]%string
              (fun n => if (n =? "b")%string
                        then Some (CompositeGlyph [mkComp "a" 0 (ByOffset 1 2)])
                        else Some SimpleGlyph)
              (mkFont (Some (mkTSI (fun _ => None) (fun _ => None))) None) None 6)
    as [e|font'] eqn:H; [vm_compute in H; discriminate|].
  exists font'. split; [reflexivity|].
  destruct (update_composites_frame _ _ _ _ _ _ _ H) as (_ & H2).
  split; [apply H2; reflexivity|].
  revert H. vm_compute. intros H. injection H as <-. reflexivity.
Defined.

Lemma get_after_set (font font' : Font) (name : string) (data : bytes) :
  stored (set_glyph_assembly font name data) = inr font' ->
  get_glyph_assembly font' name = inr (replace_cr (stored_form data)).
Proof.
  unfold stored, set_glyph_assembly, get_glyph_assembly. intros H.
  destruct (set_vtt_program font name data false true) as [[tag|tag n0]|f] eqn:E;
    try discriminate.
  injection H as ->.
  assert (Ht : get_table font false <> None).
  { intros Hn. unfold set_vtt_program in E. rewrite Hn in E. discriminate. }
  destruct (set_then_stored font name data false true Ht) as (f1 & H1 & _ & H3).
  rewrite E in H1. injection H1 as <-. exact H3.
Qed.

Lemma stored_set_defined (font : Font) (name : string) (data : bytes) :
  get_table font false <> None ->
  exists font', stored (set_glyph_assembly font name data) = inr font'.
Proof.
  intros Ht. unfold set_glyph_assembly.
  destruct (set_then_stored font name data false true Ht) as (f1 & -> & _).
  exists f1. reflexivity.
Qed.

Lemma write_stored_declarations (glyph : list GlyphComponent)
      (glyph_order : list string) (vtt_version : Z) (ls : list string) :
  instructions glyph glyph_order vtt_version = Return ls ->
  exists head tail,
    write_composite_info glyph glyph_order
      (replace_cr (stored_form (List.concat (map chars ls)))) vtt_version
    = Return (head, List.concat (map chars ls), tail)
    /\ stored_form (head ++ List.concat (map chars ls) ++ tail)
       = stored_form (List.concat (map chars ls))
    /\ ascii_only (replace_cr (stored_form (List.concat (map chars ls)))).
Proof.
  intros Hls. pose proof (instructions_ascii _ _ _ _ Hls) as Ha.
  destruct ls as [|l ls].
  - exists [], [LF]. split; [|split; [reflexivity | repeat constructor]].
    unfold write_composite_info. rewrite Hls. reflexivity.
  - assert (Ht : Forall tidy_line (map chars (l :: ls)))
      by (apply Forall_map, (instructions_tidy _ _ _ _ Hls)).
    destruct (tidy_text (map chars (l :: ls)) Ht) as (Hcr & Hr); [discriminate|].
    rewrite (stored_form_no_cr _ Hcr), Hr.
    exists [], []. split; [apply write_own_declarations, Hls|].
    rewrite app_nil_r. split; [reflexivity | exact Ha].
Qed.

(** X17.  For a composite glyph that has no program yet and whose
    components are glyphs of the glyph order, [update_composites] stores
    the declarations that [write_composite_info] writes for the outline;
    brought up to date a second time, the font stores the same bytes
    everywhere, provided the stored declarations are accepted by
    [transform_assembly]. *)
Theorem composite_program_regenerated
        (parseString : string -> Result (list Token))
        (glyph_order : list string) (glyf : string -> option Glyph)
        (font : Font) (name : string) (components : list GlyphComponent)
        (vtt_version : Z) :
  glyf name = Some (CompositeGlyph components) ->
  get_table font false <> None ->
  stored_program font name false true = None ->
  Forall (fun comp => In (glyphName comp) glyph_order) components ->
  exists font' declarations,
    update_glyph parseString glyph_order glyf font name vtt_version = inr font'
    /\ write_composite_info components glyph_order [] vtt_version
       = Return ([], declarations, [])
    /\ stored_program font' name false true = Some (stored_form declarations)
    /\ forall out cs,
         transform_assembly parseString
           (string_of_list_ascii (replace_cr (stored_form declarations))) []
         = Return (out, cs) ->
         exists font'',
           update_glyph parseString glyph_order glyf font' name vtt_version
           = inr font''
           /\ forall n t g,
                stored_program font'' n t g = stored_program font' n t g.
Proof.
  intros Hg Ht Hnone Hin.
  destruct (instructions_defined components glyph_order vtt_version Hin)
    as (ls & Hls).
  assert (Hw : write_composite_info components glyph_order [] vtt_version
               = Return ([], List.concat (map chars ls), [])).
  { unfold write_composite_info. rewrite Hls. cbn. rewrite chars_join.
    reflexivity. }
  destruct (stored_set_defined font name (List.concat (map chars ls)) Ht)
    as (font' & Hset).
  assert (Hget : get_glyph_assembly font name = inl (ProgramMissing "TSI1" name)).
  { revert Ht Hnone.
    unfold get_glyph_assembly, get_vtt_program, stored_program, get_table.
    destruct (TSI1 font) as [t1|]; [|intros H; contradiction].
    intros _ ->. reflexivity. }
  assert (H1 : update_glyph parseString glyph_order glyf font name vtt_version
               = inr font').
  { unfold update_glyph. rewrite Hg, Hget. unfold update_program.
    rewrite Hw. cbn [List.app]. rewrite app_nil_r. exact Hset. }
  destruct (stored_set_frame _ _ _ _ Hset) as (Hst & _).
  exists font', (List.concat (map chars ls)).
  split; [exact H1|]. split; [exact Hw|]. split; [exact Hst|].
  intros out cs Htr.
  destruct (write_stored_declarations components glyph_order vtt_version ls Hls)
    as (head & tail & Hw2 & Hsame & Hread).
  assert (Ht' : get_table font' false <> None).
  { revert Hst. unfold stored_program, get_table.
    destruct (TSI1 font'); discriminate. }
  destruct (stored_set_defined font' name
              (head ++ List.concat (map chars ls) ++ tail) Ht')
    as (font'' & Hset2).
  exists font''. split.
  - unfold update_glyph.
    rewrite Hg, (get_after_set _ _ _ _ Hset), (tounicode_ascii _ Hread).
    set (d := replace_cr (stored_form (List.concat (map chars ls)))) in *.
    assert (Ed : d = chars (string_of_list_ascii d))
      by (unfold chars; rewrite list_ascii_of_string_of_list_ascii; reflexivity).
    rewrite Ed at 1. rewrite transform_text_ascii by (rewrite <- Ed; exact Hread).
    rewrite Htr, (tobytes_ascii _ Hread).
    unfold update_program. rewrite Hw2. exact Hset2.
  - intros n t g. destruct (stored_set_frame _ _ _ _ Hset2) as (Hst2 & Hf2).
    destruct (string_dec n name) as [->|Hn]; [|apply Hf2; congruence].
    destruct t; [apply Hf2; congruence|].
    destruct g; [|apply Hf2; congruence].
    rewrite Hst2, Hst, Hsame. reflexivity.
Qed.

Lemma composite_program_regenerated_witness :
  exists font',
    update_glyph Parser.parseString [".notdef"; "a"]%string
      (fun _ => Some (CompositeGlyph
                        [mkComp "a" (ROUND_XY_TO_GRID + USE_MY_METRICS)
                           (ByOffset 10 (-20))]))
      (mkFont (Some (mkTSI (fun _ => None) (fun _ => None))) None) "b" 6
    = inr font'
    /\ stored_program font' "b" false true
       = Some (chars ("USEMYMETRICS[]" ++ String CR "OFFSET[R], 1, 10, -20"
                      ++ String CR "")).
Proof.
  destruct (composite_program_regenerated Parser.parseString
              [".notdef"; "a"]%string
              (fun _ => Some (CompositeGlyph
                                [mkComp "a" (ROUND_XY_TO_GRID + USE_MY_METRICS)
                                   (ByOffset 10 (-20))]))
              (mkFont (Some (mkTSI (fun _ => None) (fun _ => None))) None) "b"
              [mkComp "a" (ROUND_XY_TO_GRID + USE_MY_METRICS) (ByOffset 10 (-20))]
              6)
    as (font' & declarations & H1 & H2 & H3 & _).
  - reflexivity.
  - discriminate.
  - reflexivity.
  - constructor; [right; left; reflexivity | constructor].
  - exists font'. split; [exact H1|].
    rewrite H3. vm_compute in H2. injection H2 as <-. reflexivity.
Defined.

(** ** Programs normalised *)

Example re_sub_examples :
  re_sub vtt_compiler_re (keep_version LF)
    (chars ("a/* VTT 6.10 compiler Tue */" ++ String CR nl ++ nl
            ++ "b /* VTT 4.2A1 compiler */c /* VTT 6. compiler x */"))
  = chars ("a/* VTT 6.10 compiler */" ++ nl ++ "b /* VTT 4.2A1 compiler */" ++ nl
           ++ "c /* VTT 6. compiler x */")
  /\ re_sub gui_generated_re drop
       (chars ("/* GUI generated Tue Jan 01 2019 */" ++ String CR nl
               ++ "x /* GUI generated a" ++ nl ++ " b */"))
     = chars ("x /* GUI generated a" ++ nl ++ " b */")
  /\ re_sub glyph_re drop
       (chars ("/* TT glyph 12, char 0x41 (A) */" ++ String CR nl
               ++ "/* VTTTalk glyph 3 */" ++ nl ++ " x /* TTT glyph 5 */"))
     = chars " x /* TTT glyph 5 */".
Proof. vm_compute. repeat split; reflexivity. Qed.

Lemma set_vtt_program_tables (font font' : Font) (name : string) (data : bytes)
      (is_talk is_glyph : bool) :
  set_vtt_program font name data is_talk is_glyph = inr font' ->
  get_table font is_talk <> None
  /\ forall t, get_table font' t = None <-> get_table font t = None.
Proof.
  unfold set_vtt_program, get_table, set_table. intros H.
  destruct is_talk.
  - destruct (TSI3 font) as [t3|] eqn:E; [|discriminate]. injection H as <-.
    split; [discriminate|]. intros [|]; cbn; rewrite ?E; split; congruence.
  - destruct (TSI1 font) as [t1|] eqn:E; [|discriminate]. injection H as <-.
    split; [discriminate|]. intros [|]; cbn; rewrite ?E; split; congruence.
Qed.

Lemma get_vtt_program_stored (font : Font) (name : string)
      (is_talk is_glyph : bool) (data : bytes) :
  get_vtt_program font name is_talk is_glyph = inr data ->
  stored_program font name is_talk is_glyph <> None
  /\ get_table font is_talk <> None.
Proof.
  unfold get_vtt_program, stored_program, get_table.
  destruct (if is_talk then TSI3 font else TSI1 font) as [t|]; [|discriminate].
  destruct ((if is_glyph then glyphPrograms t else extraPrograms t) name);
    [|discriminate].
  intros _. split; discriminate.
Qed.

Lemma normalize_extra_frame (font font' : Font) (tag : string) :
  In tag ["cvt"; "ppgm"; "fpgm"]%string ->
  normalize_extra font tag = inr font' ->
  stored_program font tag false false <> None
  /\ (forall n t g, (n, t, g) <> (tag, false, false) ->
        stored_program font' n t g = stored_program font n t g)
  /\ forall t, get_table font' t = None <-> get_table font t = None.
Proof.
  intros Htag. unfold normalize_extra.
  assert (Hget : get_extra_assembly font tag
                 = program_result (get_vtt_program font tag false false)).
  { destruct Htag as [<-|[<-|[<-|[]]]]; reflexivity. }
  assert (Hset : forall data, set_extra_assembly font tag data
                 = program_result (set_vtt_program font tag data false false)).
  { intros data. destruct Htag as [<-|[<-|[<-|[]]]]; reflexivity. }
  rewrite Hget.
  destruct (get_vtt_program font tag false false) as [e|program] eqn:Eg;
    [discriminate|].
  cbn [program_result]. rewrite Hset.
  destruct (set_vtt_program font tag
              (re_sub vtt_compiler_re (keep_version LF) program) false false)
    as [e|f] eqn:Es; [discriminate|].
  cbn [program_result]. intros H. injection H as <-.
  split; [apply (get_vtt_program_stored _ _ _ _ _ Eg)|]. split.
  - intros n t g Hne. apply (set_vtt_program_frame _ _ _ _ _ _ _ _ _ Es Hne).
  - apply (set_vtt_program_tables _ _ _ _ _ _ Es).
Qed.

Lemma normalize_glyph_frame (font font' : Font) (name : string) (is_talk : bool) :
  normalize_glyph font name is_talk = inr font' ->
  get_table font is_talk <> None
  /\ (forall n t g, (n, t, g) <> (name, is_talk, true) ->
        stored_program font' n t g = stored_program font n t g)
  /\ forall t, get_table font' t = None <-> get_table font t = None.
Proof.
  unfold normalize_glyph.
  destruct (get_vtt_program font name is_talk true) as [[tag|tag n0]|program] eqn:Eg.
  - discriminate.
  - intros H. injection H as <-. split; [|split; [reflexivity | reflexivity]].
    revert Eg. unfold get_vtt_program.
    destruct (get_table font is_talk); discriminate.
  - match goal with
    | |- match ?s with _ => _ end = _ -> _ => destruct s as [e|f] eqn:Es
    end; [discriminate|].
    intros H. injection H as <-.
    split; [apply (get_vtt_program_stored _ _ _ _ _ Eg)|]. split.
    + intros n t g Hne. apply (set_vtt_program_frame _ _ _ _ _ _ _ _ _ Es Hne).
    + apply (set_vtt_program_tables _ _ _ _ _ _ Es).
Qed.

Lemma normalize_extras_frame (tags : list string) (font font' : Font) :
  incl tags ["cvt"; "ppgm"; "fpgm"]%string ->
  normalize_extras font tags = inr font' ->
  (forall tag, In tag tags -> stored_program font tag false false <> None)
  /\ (forall n t g, t = true \/ g = true \/ ~ In n tags ->
        stored_program font' n t g = stored_program font n t g)
  /\ forall t, get_table font' t = None <-> get_table font t = None.
Proof.
  revert font. induction tags as [|tag tags IH]; intros font Hincl H;
    cbn [normalize_extras] in H.
  - injection H as <-. split; [intros tag []|]. split; reflexivity.
  - destruct (normalize_extra font tag) as [e|font1] eqn:E1; [discriminate|].
    destruct (normalize_extra_frame font font1 tag (Hincl tag (or_introl eq_refl)) E1)
      as (Hp & Hf & Ht).
    destruct (IH font1 (fun x Hx => Hincl x (or_intror Hx)) H) as (IHp & IHf & IHt).
    split; [|split].
    + intros x [<-|Hx]; [exact Hp|].
      destruct (string_dec x tag) as [->|Hne]; [exact Hp|].
      rewrite <- Hf by congruence. apply IHp, Hx.
    + intros n t g Hc. rewrite IHf.
      * apply Hf. intros Heq. injection Heq as -> -> ->.
        destruct Hc as [Hc|[Hc|Hc]]; try discriminate. apply Hc. left. reflexivity.
      * destruct Hc as [Hc|[Hc|Hc]]; auto. right. right.
        intros Hin. apply Hc. right. exact Hin.
    + intros t. rewrite IHt. apply Ht.
Qed.

Lemma normalize_glyphs_frame (glyph_order : list string) (font font' : Font) :
  normalize_glyphs font glyph_order = inr font' ->
  (forall n t g, g = false \/ ~ In n glyph_order ->
     stored_program font' n t g = stored_program font n t g)
  /\ forall t, get_table font' t = None <-> get_table font t = None.
Proof.
  revert font. induction glyph_order as [|name names IH]; intros font H;
    cbn [normalize_glyphs] in H.
  - injection H as <-. split; reflexivity.
  - destruct (normalize_glyph font name true) as [e|font1] eqn:E1; [discriminate|].
    destruct (normalize_glyph font1 name false) as [e|font2] eqn:E2; [discriminate|].
    destruct (normalize_glyph_frame _ _ _ _ E1) as (_ & Hf1 & Ht1).
    destruct (normalize_glyph_frame _ _ _ _ E2) as (_ & Hf2 & Ht2).
    destruct (IH font2 H) as (IHf & IHt).
    split.
    + intros n t g Hc. rewrite IHf, Hf2, Hf1.
      * reflexivity.
      * intros Heq. injection Heq as -> -> ->.
        destruct Hc as [Hc|Hc]; [discriminate|]. apply Hc. left. reflexivity.
      * intros Heq. injection Heq as -> -> ->.
        destruct Hc as [Hc|Hc]; [discriminate|]. apply Hc. left. reflexivity.
      * destruct Hc as [Hc|Hc]; [left; exact Hc|]. right.
        intros Hin. apply Hc. right. exact Hin.
    + intros t. rewrite IHt, Ht2. apply Ht1.
Qed.

(** X18.  [normalize_vtt_programs] returns only for a font that has both
    [TSI1] and [TSI3] and stores all of the extra programs ["cvt"],
    ["ppgm"] and ["fpgm"]: a missing one is a [KeyError] that nothing
    catches.  When it returns, the extra programs of [TSI3] are gone, the
    extra programs of [TSI1] under other names are as before, and so are
    the programs and the talk of the glyphs that the glyph order does not
    list. *)
Theorem normalize_vtt_programs_frame
        (font font' : Font) (glyph_order : list string) :
  normalize_vtt_programs font glyph_order = inr font' ->
  (get_table font false <> None /\ get_table font true <> None
   /\ forall tag, In tag ["cvt"; "ppgm"; "fpgm"]%string ->
                  stored_program font tag false false <> None)
  /\ (forall n, stored_program font' n true false = None)
  /\ (forall n, ~ In n ["cvt"; "ppgm"; "fpgm"]%string ->
                stored_program font' n false false
                = stored_program font n false false)
  /\ (forall n t, ~ In n glyph_order ->
                  stored_program font' n t true = stored_program font n t true).
Proof.
  unfold normalize_vtt_programs. intros H.
  destruct (normalize_extras font ["cvt"; "ppgm"; "fpgm"]%string)
    as [e|font1] eqn:E1; [discriminate|].
  destruct (normalize_glyphs font1 glyph_order) as [e|font2] eqn:E2;
    [discriminate|].
  destruct (TSI3 font2) as [t3|] eqn:E3; [|discriminate]. injection H as <-.
  destruct (normalize_extras_frame _ _ _ (fun x Hx => Hx) E1) as (Hp1 & Hf1 & Ht1).
  destruct (normalize_glyphs_frame _ _ _ E2) as (Hf2 & Ht2).
  assert (H3 : get_table font true <> None).
  { intros Hn. apply Ht1, Ht2 in Hn. unfold get_table in Hn. congruence. }
  assert (H1 : get_table font false <> None).
  { intros Hn. apply (Hp1 "cvt"%string (or_introl eq_refl)).
    revert Hn. unfold stored_program, get_table. intros ->. reflexivity. }
  split; [split; [exact H1 | split; [exact H3 | exact Hp1]]|].
  split; [reflexivity|]. split.
  - intros n Hn. transitivity (stored_program font2 n false false); [reflexivity|].
    rewrite Hf2 by (left; reflexivity). apply Hf1. right. right. exact Hn.
  - intros n t Hn.
    transitivity (stored_program font2 n t true).
    { unfold stored_program. destruct t; cbn; [rewrite E3|]; reflexivity. }
    rewrite Hf2 by (right; exact Hn). apply Hf1. right. left. reflexivity.
Qed.

Lemma normalize_vtt_programs_frame_witness :
  exists font',
    normalize_vtt_programs
      (mkFont
         (Some (mkTSI (fun _ => None) (fun _ => Some (chars "x" ++ [CR]))))
         (Some (mkTSI (fun _ => None) (fun _ => Some [CR]))))
      ["a"]%string
    = inr font'
    /\ stored_program font' "reserved" true false = None
    /\ stored_program font' "glyf" false false = Some (chars "x" ++ [CR]).
Proof.
  destruct (normalize_vtt_programs
              (mkFont
                 (Some (mkTSI (fun _ => None) (fun _ => Some (chars "x" ++ [CR]))))
                 (Some (mkTSI (fun _ => None) (fun _ => Some [CR]))))
              ["a"]%string) as [e|font'] eqn:H; [vm_compute in H; discriminate|].
  exists font'. split; [reflexivity|].
  destruct (normalize_vtt_programs_frame _ _ _ H) as (_ & H2 & H3 & _).
  split; [apply H2|]. rewrite H3; [reflexivity|].
  cbn. intros [E|[E|[E|[]]]]; discriminate.
Defined.

(** ** Time stamps and glyph indexes *)




















